(** * A shallow embedding of the Compilador pipeline

    The development follows the Python sources stage by stage:
    [user_lexer.py] and [adapter_lexer.py] (module [Lexer]), [parser.py]
    (module [Parser]), [ir_generator.py] (module [IR]) and
    [asm_generator.py] (module [Asm]).

    Python [str] values are modelled as [string] (sequences of 8-bit
    characters); Python [int] values as [N] or [nat]; a Python [dict]
    whose iteration order is never observed is a [gmap], one that is
    iterated keeps its insertion order in an association list; a raised
    exception is the [Err] branch of [outcome]. *)

From Stdlib Require Import String Ascii List ZArith NArith Lia Bool.
From Stdlib Require Import DecimalString DecimalNat DecimalN.
From stdpp Require Import gmap strings list.


(** ** Results of fallible code *)

(** [Ok] is a normal return, [Err] a raised exception. The loops and the
    recursive descent of the sources are embedded with a step budget;
    [OutOfFuel] says the budget was too small, never that the program
    stopped. *)
Inductive outcome (E A : Type) : Type :=
| Ok (a : A)
| Err (e : E)
| OutOfFuel.
Arguments Ok {E A} a.
Arguments Err {E A} e.
Arguments OutOfFuel {E A}.

Definition bind {E A B : Type} (r : outcome E A) (k : A -> outcome E B) : outcome E B :=
  match r with
  | Ok a => k a
  | Err e => Err e
  | OutOfFuel => OutOfFuel
  end.

Notation "'let*' x ':=' c1 'in' c2" := (bind c1 (fun x => c2))
  (at level 10, x pattern, c1 at level 100, c2 at level 200).

(** ** Characters and small string helpers *)

Definition nl : ascii := "010"%char.
Definition tab : ascii := "009"%char.
Definition cr : ascii := "013"%char.
Definition dquote : ascii := "034"%char.
Definition squote : ascii := "039"%char.
Definition backslash : ascii := "092"%char.

Definition in_range (lo hi c : ascii) : bool :=
  Ascii.leb lo c && Ascii.leb c hi.

(** [\d] *)
Definition is_digit (c : ascii) : bool := in_range "0" "9" c.

(** [[A-Za-z_]] *)
Definition is_ident_start (c : ascii) : bool :=
  in_range "A" "Z" c || in_range "a" "z" c || Ascii.eqb c "_".

(** [\w] *)
Definition is_word (c : ascii) : bool := is_ident_start c || is_digit c.

(** [str.isdigit()]: non-empty and made of digits only. *)
Fixpoint all_digits (s : string) : bool :=
  match s with
  | EmptyString => true
  | String c s' => is_digit c && all_digits s'
  end.

Definition isdigit (s : string) : bool :=
  match s with
  | EmptyString => false
  | _ => all_digits s
  end.

Definition startswith (p s : string) : bool := String.prefix p s.

(** The longest prefix of [s] whose characters satisfy [p], and what follows. *)
Fixpoint span (p : ascii -> bool) (s : string) : string * string :=
  match s with
  | EmptyString => (EmptyString, EmptyString)
  | String c s' =>
      if p c then let '(a, b) := span p s' in (String c a, b)
      else (EmptyString, s)
  end.

Fixpoint drop_str (n : nat) (s : string) : string :=
  match n, s with
  | O, _ => s
  | S n', String _ s' => drop_str n' s'
  | S _, EmptyString => EmptyString
  end.

(** [int(lex)] for a lexeme made of decimal digits. *)
Definition digit_val (c : ascii) : N := N.of_nat (nat_of_ascii c - 48).

Fixpoint int_of_digits (acc : N) (s : string) : N :=
  match s with
  | EmptyString => acc
  | String c s' => int_of_digits (10 * acc + digit_val c)%N s'
  end.

Fixpoint contains_char (c : ascii) (s : string) : bool :=
  match s with
  | EmptyString => false
  | String d s' => Ascii.eqb c d || contains_char c s'
  end.

(** [str(n)] of a non-negative [int]: its decimal digits. *)
Definition str_nat (n : nat) : string := NilEmpty.string_of_uint (Nat.to_uint n).
Definition str_N (n : N) : string := NilEmpty.string_of_uint (N.to_uint n).

(** [sep.join(parts)] *)
Fixpoint join (sep : string) (parts : list string) : string :=
  match parts with
  | [] => EmptyString
  | [x] => x
  | x :: parts' => x +:+ sep +:+ join sep parts'
  end.

(** * The lexer: [user_lexer.py] and [adapter_lexer.py] *)

Module Lexer.

(** A raw token is the tuple [(typ, lexeme, line, col)] the lexer appends
    to [result]. *)
Record raw_token := RawToken {
  typ : string;
  raw_lexeme : string;
  raw_line : nat;
  raw_col : nat
}.

(** The two [raise SyntaxError] sites of [lexer]. *)
Inductive lex_error :=
| UnterminatedComment (line col : nat)
| UnexpectedChar (ch : ascii) (line col : nat) (snippet : string).

(** The message of the first site,
    [f"Comentario /* sin cierre en L{line} C{col}"]. *)
Definition unterminated_message (line col : nat) : string :=
  "Comentario /* sin cierre en L" +:+ str_nat line +:+ " C" +:+ str_nat col.

(** The local variables of [lexer]. [rest] is [code[pos:]] and [prev] is
    [code[pos-1]] (needed by the [\b] of the keyword pattern), so that
    [pos < n] reads [rest <> EmptyString]. *)
Record lex_state := LexState {
  prev : option ascii;
  rest : string;
  line : nat;
  col : nat;
  result : list raw_token;
  counts : gmap string nat
}.

(** [_advance(ch)]: [pos += 1] and the line/column bookkeeping. *)
Definition _advance (ch : ascii) (st : lex_state) : lex_state :=
  {| prev := match rest st with String c _ => Some c | EmptyString => prev st end;
     rest := drop_str 1 (rest st);
     line := if Ascii.eqb ch nl then S (line st) else line st;
     col := if Ascii.eqb ch nl then 1 else S (col st);
     result := result st;
     counts := counts st |}.

(** [_advance_n(text)] *)
Fixpoint _advance_n (text : string) (st : lex_state) : lex_state :=
  match text with
  | EmptyString => st
  | String ch text' => _advance_n text' (_advance ch st)
  end.

(** ** The token patterns, in the order of the [tokens] table *)

Definition keyword_list : list string :=
  ["int"; "bool"; "float"; "string"; "void"; "for"; "while"; "if"; "else"; "return"].

Definition boundary_before (p : option ascii) : bool :=
  match p with
  | Some c => negb (is_word c)
  | None => true
  end.

Definition boundary_after (s : string) : bool :=
  match s with
  | String c _ => negb (is_word c)
  | EmptyString => true
  end.

(** [\b(?:int|bool|...|return)\b]: both ends of a keyword are word
    characters, so each [\b] asks for a non-word neighbour. *)
Fixpoint match_alternatives (kws : list string) (s : string) : option string :=
  match kws with
  | [] => None
  | kw :: kws' =>
      if startswith kw s && boundary_after (drop_str (String.length kw) s)
      then Some kw
      else match_alternatives kws' s
  end.

Definition match_keywords (p : option ascii) (s : string) : option string :=
  if boundary_before p then match_alternatives keyword_list s else None.

(** [[A-Za-z_]\w*] *)
Definition match_identifier (s : string) : option string :=
  match s with
  | String c s' => if is_ident_start c then Some (String c (fst (span is_word s'))) else None
  | EmptyString => None
  end.

(** [[,;(){}]] *)
Definition match_punctuacion (s : string) : option string :=
  match s with
  | String c _ => if contains_char c ",;(){}" then Some (String c EmptyString) else None
  | EmptyString => None
  end.

Definition operator_list : list string :=
  ["=="; "!="; "<="; ">="; "++"; "--"; "+="; "-="; "*="; "/="; "%="; "&&"; "||"].

Fixpoint first_prefix (ops : list string) (s : string) : option string :=
  match ops with
  | [] => None
  | op :: ops' => if startswith op s then Some op else first_prefix ops' s
  end.

(** [==|!=|...|\|\||[+\-*/%<>=!&|]] *)
Definition match_operator (s : string) : option string :=
  match first_prefix operator_list s with
  | Some op => Some op
  | None =>
      match s with
      | String c _ => if contains_char c "+-*/%<>=!&|" then Some (String c EmptyString) else None
      | EmptyString => None
      end
  end.

(** [\d+(?:\.\d+)?] *)
Definition match_constant (s : string) : option string :=
  let '(ds, r) := span is_digit s in
  match ds with
  | EmptyString => None
  | _ =>
      match r with
      | String "." r' =>
          let '(fs, _) := span is_digit r' in
          match fs with
          | EmptyString => Some ds
          | _ => Some (ds +:+ String "." fs)
          end
      | _ => Some ds
      end
  end.

(** The body of a string literal opened by the quote [q]: any number of
    items, each one character other than [q] and the backslash, or a
    backslash followed by one character other than a newline, and then
    [q]. The two kinds of item are disjoint, so the scan is
    deterministic. *)
Fixpoint literal_body (q : ascii) (s : string) : option string :=
  match s with
  | EmptyString => None
  | String c s' =>
      if Ascii.eqb c q then Some (String c EmptyString)
      else if Ascii.eqb c backslash then
        match s' with
        | String d s'' =>
            if Ascii.eqb d nl then None
            else option_map (fun b => String c (String d b)) (literal_body q s'')
        | EmptyString => None
        end
      else option_map (String c) (literal_body q s')
  end.

(** The [literal] pattern: a body in double quotes or in single quotes. *)
Definition match_literal (s : string) : option string :=
  match s with
  | String c s' =>
      if Ascii.eqb c dquote then option_map (String c) (literal_body dquote s')
      else if Ascii.eqb c squote then option_map (String c) (literal_body squote s')
      else None
  | EmptyString => None
  end.

(** [compiled]: the patterns with their type names, tried in this order. *)
Definition compiled : list (string * (option ascii -> string -> option string)) :=
  [ ("keywords", match_keywords);
    ("identifier", fun _ => match_identifier);
    ("punctuacion", fun _ => match_punctuacion);
    ("operator", fun _ => match_operator);
    ("constant", fun _ => match_constant);
    ("literal", fun _ => match_literal) ].

(** The [for typ, rgx in compiled] loop: the first pattern that matches. *)
Fixpoint first_match (pats : list (string * (option ascii -> string -> option string)))
    (p : option ascii) (s : string) : option (string * string) :=
  match pats with
  | [] => None
  | (ty, rgx) :: pats' =>
      match rgx p s with
      | Some lexeme => Some (ty, lexeme)
      | None => first_match pats' p s
      end
  end.

(** [_WS = [ \t\r]+] *)
Definition is_ws (c : ascii) : bool :=
  Ascii.eqb c " " || Ascii.eqb c tab || Ascii.eqb c cr.

Definition match_WS (s : string) : option string :=
  match fst (span is_ws s) with
  | EmptyString => None
  | ws => Some ws
  end.

(** [while pos < n and code[pos] != '\n': _advance(code[pos])] *)
Fixpoint line_comment (s : string) (st : lex_state) : lex_state :=
  match s with
  | EmptyString => st
  | String c s' => if Ascii.eqb c nl then st else line_comment s' (_advance c st)
  end.

(** The inner loop of the block comment; the boolean is [cerrado]. *)
Fixpoint block_comment (s : string) (st : lex_state) : lex_state * bool :=
  match s with
  | EmptyString => (st, false)
  | String c s' =>
      if startswith "*/" s then (_advance "/" (_advance "*" st), true)
      else block_comment s' (_advance c st)
  end.

(** [code[pos:pos+20].replace('\n', '\\n')] *)
Fixpoint escape_newlines (s : string) : string :=
  match s with
  | EmptyString => EmptyString
  | String c s' =>
      if Ascii.eqb c nl then String backslash (String "n" (escape_newlines s'))
      else String c (escape_newlines s')
  end.

Definition snippet (s : string) : string := escape_newlines (substring 0 20 s).

Definition incr (k : string) (m : gmap string nat) : gmap string nat :=
  <[k := S (default 0 (m !! k))]> m.

(** One iteration of [while pos < n], entered with [rest st] non-empty. *)
Definition lex_step (st : lex_state) : outcome lex_error lex_state :=
  match rest st with
  | EmptyString => Ok st
  | String ch _ =>
      if startswith "//" (rest st) then Ok (line_comment (rest st) st)
      else if startswith "/*" (rest st) then
        let st2 := _advance "*" (_advance "/" st) in
        let '(st3, cerrado) := block_comment (rest st2) st2 in
        if cerrado then Ok st3
        else Err (UnterminatedComment (line st3) (col st3))
      else if Ascii.eqb ch nl then Ok (_advance nl st)
      else
        match match_WS (rest st) with
        | Some ws => Ok (_advance_n ws st)
        | None =>
            match first_match compiled (prev st) (rest st) with
            | Some (ty, lexeme) =>
                Ok (_advance_n lexeme
                      {| prev := prev st; rest := rest st; line := line st; col := col st;
                         result := result st ++ [RawToken ty lexeme (line st) (col st)];
                         counts := incr ty (counts st) |})
            | None => Err (UnexpectedChar ch (line st) (col st) (snippet (rest st)))
            end
        end
  end.

Fixpoint lexer_loop (fuel : nat) (st : lex_state) : outcome lex_error lex_state :=
  match rest st with
  | EmptyString => Ok st
  | String _ _ =>
      match fuel with
      | O => OutOfFuel
      | S fuel' => let* st' := lex_step st in lexer_loop fuel' st'
      end
  end.

Definition initial_counts : gmap string nat :=
  list_to_map (map (fun p => (fst p, 0)) compiled).

Definition lex_init (code : string) : lex_state :=
  {| prev := None; rest := code; line := 1; col := 1; result := []; counts := initial_counts |}.

(** [lexer(code)]: every iteration consumes a character, so [len(code)]
    iterations are enough (see [lexer_terminates]). *)
Definition lexer (code : string) : outcome lex_error (list raw_token * gmap string nat) :=
  let* st := lexer_loop (String.length code) (lex_init code) in
  Ok (result st, counts st).

(** ** The adapter *)

(** A Python [float] is kept as the decimal lexeme it was read from:
    [float(lex)] is a function of [lex]. *)
Record pyfloat := PyFloat { float_lexeme : string }.

(** [Token.literal : Any] holds [None], an [int], a [float] or a [str]. *)
Inductive Literal :=
| LNone
| LInt (n : N)
| LFloat (f : pyfloat)
| LStr (s : string).

Record Token := mkToken {
  type : string;
  lexeme : string;
  literal : Literal;
  pos : nat * nat
}.

Fixpoint dict_get (k : string) (d : list (string * string)) : option string :=
  match d with
  | [] => None
  | (k', v) :: d' => if String.eqb k k' then Some v else dict_get k d'
  end.

Definition PUNCT_MAP : list (string * string) :=
  [ (";", "SEMI"); ("(", "LPAREN"); (")", "RPAREN");
    ("{", "LBRACE"); ("}", "RBRACE"); (",", "COMMA") ].

Definition OP_MAP : list (string * string) :=
  [ ("==", "EQ"); ("!=", "NEQ"); ("<=", "LE"); (">=", "GE");
    ("&&", "AND"); ("||", "OR"); ("++", "INC"); ("--", "DEC");
    ("+=", "PLUSEQ"); ("-=", "MINUSEQ"); ("*=", "STAREQ"); ("/=", "SLASHEQ");
    ("=", "ASSIGN"); ("+", "PLUS"); ("-", "MINUS"); ("*", "STAR");
    ("/", "SLASH"); ("<", "LT"); (">", "GT"); ("!", "NOT"); ("%", "PERC") ].

(** The [raise ValueError] sites of [tokenize_std], and the lexer's
    [SyntaxError] passing through. *)
Inductive std_error :=
| Lexical (e : lex_error)
| UnmappedPunctuation (lex : string) (line col : nat)
| UnsupportedOperator (lex : string) (line col : nat)
| UnknownTokenType (ty : string) (line col : nat).

(** [lex[1:-1]] *)
Definition strip_quotes (lex : string) : string :=
  substring 1 (String.length lex - 2) lex.

(** The body of [for item in raw_tokens] for one item. *)
Definition convert (item : raw_token) : outcome std_error Token :=
  let '(RawToken ty lex line col) := item in
  if String.eqb ty "keywords" then
    if String.eqb lex "int" then Ok (mkToken "INT" lex LNone (line, col))
    else Ok (mkToken "ID" lex LNone (line, col))
  else if String.eqb ty "identifier" then Ok (mkToken "ID" lex LNone (line, col))
  else if String.eqb ty "constant" then
    let val := if contains_char "." lex then LFloat (PyFloat lex)
               else LInt (int_of_digits 0 lex) in
    Ok (mkToken "NUM" lex val (line, col))
  else if String.eqb ty "punctuacion" then
    match dict_get lex PUNCT_MAP with
    | Some t => Ok (mkToken t lex LNone (line, col))
    | None => Err (UnmappedPunctuation lex line col)
    end
  else if String.eqb ty "operator" then
    match dict_get lex OP_MAP with
    | Some t => Ok (mkToken t lex LNone (line, col))
    | None => Err (UnsupportedOperator lex line col)
    end
  else if String.eqb ty "literal" then
    Ok (mkToken "STRING" lex (LStr (strip_quotes lex)) (line, col))
  else Err (UnknownTokenType ty line col).

Fixpoint convert_all (items : list raw_token) : outcome std_error (list Token) :=
  match items with
  | [] => Ok []
  | item :: items' =>
      let* t := convert item in
      let* ts := convert_all items' in
      Ok (t :: ts)
  end.

(** After the loop, [line] and [col] still hold the position of the last
    raw token. *)
Definition eof_pos (raw_tokens : list raw_token) : nat * nat :=
  match last raw_tokens with
  | Some item => (raw_line item, raw_col item)
  | None => (1, 1)
  end.

Definition tokenize_std (source : string) : outcome std_error (list Token) :=
  match lexer source with
  | Ok (raw_tokens, _counts) =>
      let* out := convert_all raw_tokens in
      Ok (out ++ [mkToken "EOF" EmptyString LNone (eof_pos raw_tokens)])
  | Err e => Err (Lexical e)
  | OutOfFuel => OutOfFuel
  end.

End Lexer.

(** * The parser and semantic checker: [parser.py] *)

Module Parser.
Import Lexer.

(** ** The AST

    The dataclasses of [parser.py], typed by the places where the parser
    builds them: expressions come from [factor] and the binary levels,
    statements from [stmt] and the [for] header, a [Block] object is its
    list of statements, and the items of a [Program] are function
    declarations and statements. *)

(** [Num.value] is the literal of a [NUM] token. *)
Inductive num :=
| PyInt (n : N)
| PyFloatV (f : pyfloat).

Inductive Expr :=
| Num (value : num)
| StringLit (value : string)
| Var (name : string)
| UnaryOp (op : string) (e : Expr)
| BinOp (left : Expr) (op : string) (right : Expr)
| FuncCall (name : string) (args : list Expr).

Inductive Stmt :=
| Decl (name : string) (init : option Expr)
| Assign (name : string) (e : Expr)
| Return (e : option Expr)
| IfStmt (condition : Expr) (then_block : list Stmt) (else_block : option (list Stmt))
| WhileStmt (condition : Expr) (body : list Stmt)
| ForStmt (init : Stmt) (condition : Expr) (step : Stmt) (body : list Stmt)
| ExprStmt (e : Expr)
| Block (statements : list Stmt).

Inductive item :=
| FuncDecl (return_type name : string) (params : list (string * string)) (body : list Stmt)
| TopStmt (s : Stmt).

Record Program := mkProgram { items : list item }.

(** ** Exceptions *)

(** The [raise SemanticError] sites. *)
Inductive semantic_error :=
| ReturnWithoutValue (ret : string)
| ReturnMismatch (expected got : string)
| ConditionType (stmt_kind got : string)
| Redeclared (name : string)
| InitMismatch (name got : string)
| AssignUndeclared (name : string)
| AssignMismatch (name expected got : string)
| FunctionUndeclared (name : string)
| PrintfNoArguments
| PrintfUndeclared (name : string)
| PrintfNotVariable (index : nat)
| ScanfNoArguments
| ScanfNotVariable (index : nat)
| ScanfUndeclared (name : string)
| ArityMismatch (name : string) (expected given : nat)
| ArgumentMismatch (name : string) (index : nat) (param expected got : string)
| UndeclaredUse (name : string)
| UnaryExpectsNumber (op got : string)
| PlusIncompatible (tl tr : string)
| ArithmeticExpectsNumbers (op tl tr : string)
| ComparisonIncompatible (op tl tr : string)
| LogicalExpectsBool (op tl tr : string)
| CannotInferType (class_name : string).

(** The [raise SyntaxError_] sites; [Expected] is the one of [_consume]. *)
Inductive syntax_error :=
| Expected (ttype got_type got_lexeme : string)
| ExpectedReturnType
| ExpectedParamType
| UnclosedBlock
| UnknownStatement (got_type got_lexeme : string)
| ExpectedForInit
| MalformedNumber
| InvalidFactor.

(** [IndexError] is Python's own, for [tokens[i]] out of range.
    [IllFormedToken] marks a [NUM] or [STRING] token whose literal has
    another type than the adapter gives it; the embedding stops there. *)
Inductive parse_error :=
| SyntaxError_ (e : syntax_error)
| SemanticError (e : semantic_error)
| IndexError
| IllFormedToken.

(** An entry of [Parser.functions]: [(return type, params, variadic)]. *)
Definition func_info : Type := string * list (string * string) * bool.

Record pstate := PState {
  tokens : list Token;
  i : nat;
  current : Token;
  symbols : gmap string string;
  functions : gmap string func_info;
  current_function_return_type : option string
}.

Definition set_symbols (sy : gmap string string) (st : pstate) : pstate :=
  PState (tokens st) (i st) (current st) sy (functions st) (current_function_return_type st).

Definition set_functions (fs : gmap string func_info) (st : pstate) : pstate :=
  PState (tokens st) (i st) (current st) (symbols st) fs (current_function_return_type st).

Definition set_return_type (rt : option string) (st : pstate) : pstate :=
  PState (tokens st) (i st) (current st) (symbols st) (functions st) rt.

(** [self.i = k; self.current = self.tokens[k]] *)
Definition goto (k : nat) (st : pstate) : outcome parse_error pstate :=
  match tokens st !! k with
  | Some t => Ok (PState (tokens st) k t (symbols st) (functions st)
                    (current_function_return_type st))
  | None => Err IndexError
  end.

Definition M (A : Type) : Type := pstate -> outcome parse_error (A * pstate).

(** [_init_builtin_functions] *)
Definition _init_builtin_functions (st : pstate) : pstate :=
  set_functions (<["scanf" := ("int", [], true)]>
                   (<["printf" := ("int", [], true)]> (functions st))) st.

(** [Parser.__init__] *)
Definition Parser_init (toks : list Token) : outcome parse_error pstate :=
  match toks !! 0 with
  | Some t => Ok (_init_builtin_functions (PState toks 0 t ∅ ∅ None))
  | None => Err IndexError
  end.

Definition _advance (st : pstate) : pstate :=
  if i st <? length (tokens st) - 1 then
    match tokens st !! S (i st) with
    | Some t => PState (tokens st) (S (i st)) t (symbols st) (functions st)
                  (current_function_return_type st)
    | None => st
    end
  else st.

Definition _check (ttype : string) (st : pstate) : bool :=
  String.eqb (type (current st)) ttype.

Definition _consume (ttype : string) : M Token := fun st =>
  if _check ttype st then Ok (current st, _advance st)
  else Err (SyntaxError_ (Expected ttype (type (current st)) (lexeme (current st)))).

Definition type_at (k : nat) (st : pstate) : option string :=
  type <$> (tokens st !! k).

(** [_is_function_declaration] *)
Definition _is_function_declaration (st : pstate) : bool :=
  if length (tokens st) <=? i st + 2 then false
  else
    match tokens st !! i st, tokens st !! (i st + 1), tokens st !! (i st + 2) with
    | Some tok1, Some tok2, Some tok3 =>
        (String.eqb (type tok1) "INT" || String.eqb (type tok1) "ID")
        && String.eqb (type tok2) "ID"
        && String.eqb (type tok3) "LPAREN"
    | _, _, _ => false
    end.

(** ** [typeof] *)

Definition is_numeric (t : string) : bool := String.eqb t "int" || String.eqb t "float".

Definition in_ops (op : string) (ops : list string) : bool :=
  existsb (String.eqb op) ops.

(** ['float' if 'float' in (tl, tr) else 'int'] *)
Definition arith_type (tl tr : string) : string :=
  if String.eqb tl "float" || String.eqb tr "float" then "float" else "int".

Fixpoint typeof (sy : gmap string string) (fs : gmap string func_info) (node : Expr)
  : outcome parse_error string :=
  match node with
  | Num value =>
      Ok (match value with PyFloatV _ => "float" | PyInt _ => "int" end)
  | StringLit _ => Ok "string"
  | Var name =>
      match sy !! name with
      | Some t => Ok t
      | None => Err (SemanticError (UndeclaredUse name))
      end
  | FuncCall name _ =>
      match fs !! name with
      | Some info => Ok (fst (fst info))
      | None => Ok "void"
      end
  | UnaryOp op e =>
      let* t := typeof sy fs e in
      if is_numeric t then Ok t
      else Err (SemanticError (UnaryExpectsNumber op t))
  | BinOp lhs op rhs =>
      let* tl := typeof sy fs lhs in
      let* tr := typeof sy fs rhs in
      if String.eqb op "+" then
        if String.eqb tl "string" && String.eqb tr "string" then Ok "string"
        else if is_numeric tl && is_numeric tr then Ok (arith_type tl tr)
        else Err (SemanticError (PlusIncompatible tl tr))
      else if in_ops op ["-"; "*"; "/"; "%"] then
        if is_numeric tl && is_numeric tr then Ok (arith_type tl tr)
        else Err (SemanticError (ArithmeticExpectsNumbers op tl tr))
      else if in_ops op ["=="; "!="; "<"; ">"; "<="; ">="] then
        if (is_numeric tl && is_numeric tr)
           || (String.eqb tl tr && String.eqb tr "string")
        then Ok "bool"
        else Err (SemanticError (ComparisonIncompatible op tl tr))
      else if in_ops op ["&&"; "||"] then
        if String.eqb tl tr && String.eqb tr "bool" then Ok "bool"
        else Err (SemanticError (LogicalExpectsBool op tl tr))
      else Err (SemanticError (CannotInferType "BinOp"))
  end.

(** [t == expected or (t == 'int' and expected == 'float')] *)
Definition compatible (t expected : string) : bool :=
  String.eqb t expected || (String.eqb t "int" && String.eqb expected "float").

Definition typeof_st (node : Expr) (st : pstate) : outcome parse_error string :=
  typeof (symbols st) (functions st) node.

(** ** Expressions

    The recursive descent is written with open recursion: [expr_] stands
    for [self.logical_or] one level down, and the loops carry a step
    budget. *)

Section Expressions.

Variable expr_ : M Expr.

(** [args]: [expr (',' expr)*] *)
Fixpoint args_loop (fuel : nat) (result : list Expr) : M (list Expr) := fun st =>
  match fuel with
  | O => OutOfFuel
  | S fuel' =>
      if _check "COMMA" st then
        let* (e, st1) := expr_ (_advance st) in
        args_loop fuel' (result ++ [e]) st1
      else Ok (result, st)
  end.

Definition args (fuel : nat) : M (list Expr) := fun st =>
  let* (e, st1) := expr_ st in
  args_loop fuel [e] st1.

(** The [printf] checks of [func_call] on arguments 2..N. *)
Fixpoint check_printf_rest (sy : gmap string string) (index : nat) (rest : list Expr)
  : outcome parse_error unit :=
  match rest with
  | [] => Ok tt
  | Var name :: rest' =>
      match sy !! name with
      | Some _ => check_printf_rest sy (S index) rest'
      | None => Err (SemanticError (PrintfUndeclared name))
      end
  | _ :: _ => Err (SemanticError (PrintfNotVariable index))
  end.

(** The [scanf] checks of [func_call]. *)
Fixpoint check_scanf (sy : gmap string string) (index : nat) (rest : list Expr)
  : outcome parse_error unit :=
  match rest with
  | [] => Ok tt
  | Var name :: rest' =>
      match sy !! name with
      | Some _ => check_scanf sy (S index) rest'
      | None => Err (SemanticError (ScanfUndeclared name))
      end
  | _ :: _ => Err (SemanticError (ScanfNotVariable index))
  end.

(** The loop over [zip(args, expected_params)] of [func_call]; [index]
    is [i+1]. *)
Fixpoint check_arguments (sy : gmap string string) (fs : gmap string func_info)
    (fname : string) (index : nat) (actual : list Expr)
    (expected_params : list (string * string)) : outcome parse_error unit :=
  match actual, expected_params with
  | arg :: actual', (expected_type, param_name) :: expected' =>
      let* arg_type := typeof sy fs arg in
      if compatible arg_type expected_type
      then check_arguments sy fs fname (S index) actual' expected'
      else Err (SemanticError
                  (ArgumentMismatch fname index param_name expected_type arg_type))
  | _, _ => Ok tt
  end.

Definition func_call (fuel : nat) : M Expr := fun st =>
  let* (name_tok, st1) := _consume "ID" st in
  let name := lexeme name_tok in
  match functions st1 !! name with
  | None => Err (SemanticError (FunctionUndeclared name))
  | Some _ =>
      let* (_, st2) := _consume "LPAREN" st1 in
      let* (actual, st3) :=
        (if negb (_check "RPAREN" st2) then args fuel st2 else Ok ([], st2)) in
      let* (_, st4) := _consume "RPAREN" st3 in
      match functions st4 !! name with
      | None => Err IndexError
      | Some (_, expected_params, is_variadic) =>
          let* _ :=
            (if String.eqb name "printf" then
               match actual with
               | [] => Err (SemanticError PrintfNoArguments)
               | [arg] =>
                   let* _ := typeof_st arg st4 in
                   match arg with
                   | Var v =>
                       match symbols st4 !! v with
                       | Some _ => Ok tt
                       | None => Err (SemanticError (PrintfUndeclared v))
                       end
                   | _ => Ok tt
                   end
               | _ :: rest => check_printf_rest (symbols st4) 2 rest
               end
             else if String.eqb name "scanf" then
               match actual with
               | [] => Err (SemanticError ScanfNoArguments)
               | _ => check_scanf (symbols st4) 1 actual
               end
             else if negb is_variadic then
               if negb (length actual =? length expected_params) then
                 Err (SemanticError
                        (ArityMismatch name (length expected_params) (length actual)))
               else check_arguments (symbols st4) (functions st4) name 1 actual
                      expected_params
             else Ok tt) in
          Ok (FuncCall name actual, st4)
      end
  end.

(** [factor] *)
Fixpoint factor (fuel : nat) : M Expr := fun st =>
  match fuel with
  | O => OutOfFuel
  | S fuel' =>
      if _check "PLUS" st || _check "MINUS" st then
        let op := lexeme (current st) in
        let* (e, st1) := factor fuel' (_advance st) in
        Ok (UnaryOp op e, st1)
      else if _check "NUM" st then
        let tok := current st in
        let st1 := _advance st in
        match literal tok with
        | LNone => Err (SyntaxError_ MalformedNumber)
        | LInt n => Ok (Num (PyInt n), st1)
        | LFloat f => Ok (Num (PyFloatV f), st1)
        | LStr _ => Err IllFormedToken
        end
      else if _check "STRING" st then
        let tok := current st in
        let st1 := _advance st in
        match literal tok with
        | LStr s => Ok (StringLit s, st1)
        | _ => Err IllFormedToken
        end
      else if _check "ID" st then
        let name := lexeme (current st) in
        let st1 := _advance st in
        if _check "LPAREN" st1 then
          let* st2 := goto (i st1 - 1) st1 in
          func_call fuel' st2
        else Ok (Var name, st1)
      else if _check "LPAREN" st then
        let* (e, st1) := expr_ (_advance st) in
        let* (_, st2) := _consume "RPAREN" st1 in
        Ok (e, st2)
      else Err (SyntaxError_ InvalidFactor)
  end.

(** The loop shared by the six binary levels:
    [while self._check(...): op = lexeme; advance; right = sub(); left = BinOp(...)]. *)
Fixpoint binary_loop (ttypes : list string) (sub : M Expr) (fuel : nat) (lhs : Expr)
  : M Expr := fun st =>
  match fuel with
  | O => OutOfFuel
  | S fuel' =>
      if existsb (fun t => _check t st) ttypes then
        let op := lexeme (current st) in
        let* (rhs, st1) := sub (_advance st) in
        binary_loop ttypes sub fuel' (BinOp lhs op rhs) st1
      else Ok (lhs, st)
  end.

Definition binary_level (ttypes : list string) (sub : M Expr) (fuel : nat) : M Expr :=
  fun st =>
    let* (lhs, st1) := sub st in
    binary_loop ttypes sub fuel lhs st1.

Definition term (fuel : nat) : M Expr :=
  binary_level ["STAR"; "SLASH"; "PERC"] (factor fuel) fuel.

Definition additive (fuel : nat) : M Expr :=
  binary_level ["PLUS"; "MINUS"] (term fuel) fuel.

Definition relational (fuel : nat) : M Expr :=
  binary_level ["LT"; "GT"; "LE"; "GE"] (additive fuel) fuel.

Definition equality (fuel : nat) : M Expr :=
  binary_level ["EQ"; "NEQ"] (relational fuel) fuel.

Definition logical_and (fuel : nat) : M Expr :=
  binary_level ["AND"] (equality fuel) fuel.

Definition logical_or_body (fuel : nat) : M Expr :=
  binary_level ["OR"] (logical_and fuel) fuel.

End Expressions.

(** [logical_or], the knot of the expression grammar. *)
Fixpoint logical_or (fuel : nat) : M Expr :=
  match fuel with
  | O => fun _ => OutOfFuel
  | S fuel' => logical_or_body (logical_or fuel') fuel'
  end.

(** ** Statements *)

Definition lexeme_is (lx : string) (st : pstate) : bool :=
  _check "ID" st && String.eqb (lexeme (current st)) lx.

Definition declare (name ty : string) (st : pstate) : pstate :=
  set_symbols (<[name := ty]> (symbols st)) st.

Definition declared (name : string) (st : pstate) : bool :=
  bool_decide (is_Some (symbols st !! name)).

(** [return_stmt] *)
Definition return_stmt (fuel : nat) : M Stmt := fun st =>
  let* st1 :=
    (if _check "RETURN" st then
       let* (_, st') := _consume "RETURN" st in Ok st'
     else if lexeme_is "return" st then Ok (_advance st)
     else Err (SyntaxError_ (Expected "return" (type (current st)) (lexeme (current st))))) in
  let* (e, st2) :=
    (if negb (_check "SEMI" st1) then
       let* (e, st') := logical_or fuel st1 in Ok (Some e, st')
     else Ok (None, st1)) in
  let* (_, st3) := _consume "SEMI" st2 in
  let* _ :=
    match current_function_return_type st3 with
    | Some ret =>
        match e with
        | None =>
            if negb (String.eqb ret "void")
            then Err (SemanticError (ReturnWithoutValue ret))
            else Ok tt
        | Some e' =>
            let* expr_type := typeof_st e' st3 in
            if compatible expr_type ret then Ok tt
            else Err (SemanticError (ReturnMismatch ret expr_type))
        end
    | None => Ok tt
    end in
  Ok (Return e, st3).

(** The optional initialiser shared by the four declaration forms:
    [if self._check("ASSIGN"): advance; init_expr = self.logical_or()]. *)
Definition optional_init (fuel : nat) : M (option Expr) := fun st =>
  if _check "ASSIGN" st then
    let* (e, st1) := logical_or fuel (_advance st) in Ok (Some e, st1)
  else Ok (None, st).

Definition consume_semi (semi : bool) : M unit := fun st =>
  if semi then let* (_, st1) := _consume "SEMI" st in Ok (tt, st1)
  else Ok (tt, st).

(** [decl] ([semi = true]) and [decl_without_semi] ([semi = false]). *)
Definition decl_gen (semi : bool) (fuel : nat) : M Stmt := fun st =>
  let* (_, st1) := _consume "INT" st in
  let* (name_tok, st2) := _consume "ID" st1 in
  let name := lexeme name_tok in
  if declared name st2 then Err (SemanticError (Redeclared name))
  else
    let* (init_expr, st3) := optional_init fuel st2 in
    let* (_, st4) := consume_semi semi st3 in
    let st5 := declare name "int" st4 in
    let* _ :=
      match init_expr with
      | Some e =>
          let* t := typeof_st e st5 in
          if negb (String.eqb t "int") then Err (SemanticError (InitMismatch name t))
          else Ok tt
      | None => Ok tt
      end in
    Ok (Decl name init_expr, st5).

Definition decl : nat -> M Stmt := decl_gen true.
Definition decl_without_semi : nat -> M Stmt := decl_gen false.

(** [assign] ([semi = true]) and [assign_without_semi] ([semi = false]). *)
Definition assign_gen (semi : bool) (fuel : nat) : M Stmt := fun st =>
  let* (name_tok, st1) := _consume "ID" st in
  let* (_, st2) := _consume "ASSIGN" st1 in
  let* (e, st3) := logical_or fuel st2 in
  let* (_, st4) := consume_semi semi st3 in
  let name := lexeme name_tok in
  match symbols st4 !! name with
  | None => Err (SemanticError (AssignUndeclared name))
  | Some expected_type =>
      let* t := typeof_st e st4 in
      if compatible t expected_type then Ok (Assign name e, st4)
      else Err (SemanticError (AssignMismatch name expected_type t))
  end.

Definition assign : nat -> M Stmt := assign_gen true.
Definition assign_without_semi : nat -> M Stmt := assign_gen false.

(** [decl_with_type] ([semi = true]) and [decl_with_type_without_semi]
    ([semi = false]). *)
Definition decl_with_type_gen (semi : bool) (fuel : nat) : M Stmt := fun st =>
  let* (type_tok, st1) := _consume "ID" st in
  let* (name_tok, st2) := _consume "ID" st1 in
  let* (init_expr, st3) := optional_init fuel st2 in
  let* (_, st4) := consume_semi semi st3 in
  let type_name := lexeme type_tok in
  let name := lexeme name_tok in
  if declared name st4 then Err (SemanticError (Redeclared name))
  else
    let st5 := declare name type_name st4 in
    let* _ :=
      match init_expr with
      | Some e =>
          let* t := typeof_st e st5 in
          if compatible t type_name then Ok tt
          else Err (SemanticError (InitMismatch name t))
      | None => Ok tt
      end in
    Ok (Decl name init_expr, st5).

Definition decl_with_type : nat -> M Stmt := decl_with_type_gen true.
Definition decl_with_type_without_semi : nat -> M Stmt := decl_with_type_gen false.

(** The condition check of [if], [while] and [for]:
    [cond_type not in ('bool', 'int', 'float')]. *)
Definition check_condition (kind : string) (condition : Expr) (st : pstate)
  : outcome parse_error unit :=
  let* cond_type := typeof_st condition st in
  if in_ops cond_type ["bool"; "int"; "float"] then Ok tt
  else Err (SemanticError (ConditionType kind cond_type)).

Section Statements.

(** [stmt_] stands for [self.stmt] one level down. *)
Variable stmt_ : M Stmt.

(** [block]: ['{' stmt* '}'] *)
Fixpoint block_loop (fuel : nat) (stmts : list Stmt) : M (list Stmt) := fun st =>
  match fuel with
  | O => OutOfFuel
  | S fuel' =>
      if negb (_check "RBRACE" st) then
        if _check "EOF" st then Err (SyntaxError_ UnclosedBlock)
        else
          let* (s, st1) := stmt_ st in
          block_loop fuel' (stmts ++ [s]) st1
      else Ok (stmts, st)
  end.

Definition block (fuel : nat) : M (list Stmt) := fun st =>
  let* (_, st1) := _consume "LBRACE" st in
  let* (stmts, st2) := block_loop fuel [] st1 in
  let* (_, st3) := _consume "RBRACE" st2 in
  Ok (stmts, st3).

(** [if_stmt] *)
Definition if_stmt (fuel : nat) : M Stmt := fun st =>
  if negb (lexeme_is "if" st)
  then Err (SyntaxError_ (Expected "if" (type (current st)) (lexeme (current st))))
  else
    let st0 := _advance st in
    let* (_, st1) := _consume "LPAREN" st0 in
    let* (condition, st2) := logical_or fuel st1 in
    let* (_, st3) := _consume "RPAREN" st2 in
    let* _ := check_condition "if" condition st3 in
    let* (then_block, st4) := block fuel st3 in
    let* (else_block, st5) :=
      (if lexeme_is "else" st4 then
         let* (b, st') := block fuel (_advance st4) in Ok (Some b, st')
       else Ok (None, st4)) in
    Ok (IfStmt condition then_block else_block, st5).

(** [while_stmt] *)
Definition while_stmt (fuel : nat) : M Stmt := fun st =>
  if negb (lexeme_is "while" st)
  then Err (SyntaxError_ (Expected "while" (type (current st)) (lexeme (current st))))
  else
    let st0 := _advance st in
    let* (_, st1) := _consume "LPAREN" st0 in
    let* (condition, st2) := logical_or fuel st1 in
    let* (_, st3) := _consume "RPAREN" st2 in
    let* _ := check_condition "while" condition st3 in
    let* (body, st4) := block fuel st3 in
    Ok (WhileStmt condition body, st4).

(** [for_stmt] *)
Definition for_stmt (fuel : nat) : M Stmt := fun st =>
  if negb (lexeme_is "for" st)
  then Err (SyntaxError_ (Expected "for" (type (current st)) (lexeme (current st))))
  else
    let st0 := _advance st in
    let* (_, st1) := _consume "LPAREN" st0 in
    let* (init, st2) :=
      (if _check "INT" st1 then decl_without_semi fuel st1
       else if _check "ID" st1 then
         match type_at (i st1 + 1) st1 with
         | Some nxt =>
             if String.eqb nxt "ID" then decl_with_type_without_semi fuel st1
             else if String.eqb nxt "ASSIGN" then assign_without_semi fuel st1
             else Err (SyntaxError_ ExpectedForInit)
         | None => Err (SyntaxError_ ExpectedForInit)
         end
       else Err (SyntaxError_ ExpectedForInit)) in
    let* (_, st3) := _consume "SEMI" st2 in
    let* (condition, st4) := logical_or fuel st3 in
    let* _ := check_condition "for" condition st4 in
    let* (_, st5) := _consume "SEMI" st4 in
    let* (step, st6) := assign_without_semi fuel st5 in
    let* (_, st7) := _consume "RPAREN" st6 in
    let* (body, st8) := block fuel st7 in
    Ok (ForStmt init condition step body, st8).

(** [stmt] *)
Definition stmt_body (fuel : nat) : M Stmt := fun st =>
  if _check "RETURN" st || lexeme_is "return" st then return_stmt fuel st
  else if _check "LBRACE" st then
    let* (stmts, st1) := block fuel st in Ok (Block stmts, st1)
  else if lexeme_is "if" st then if_stmt fuel st
  else if lexeme_is "while" st then while_stmt fuel st
  else if lexeme_is "for" st then for_stmt fuel st
  else if _check "INT" st then decl fuel st
  else
    let unknown :=
      Err (SyntaxError_ (UnknownStatement (type (current st)) (lexeme (current st)))) in
    if _check "ID" st then
      match type_at (i st + 1) st with
      | Some nxt =>
          if String.eqb nxt "ASSIGN" then assign fuel st
          else if String.eqb nxt "ID" then decl_with_type fuel st
          else if String.eqb nxt "LPAREN" then
            let* (e, st1) := func_call (logical_or fuel) fuel st in
            let* (_, st2) := _consume "SEMI" st1 in
            Ok (ExprStmt e, st2)
          else unknown
      | None => unknown
      end
    else unknown.

End Statements.

(** [stmt], the knot of the statement grammar. *)
Fixpoint stmt (fuel : nat) : M Stmt :=
  match fuel with
  | O => fun _ => OutOfFuel
  | S fuel' => stmt_body (stmt fuel') fuel'
  end.

(** ** Function declarations *)

(** [param]: [type ID], entered into the symbol table. *)
Definition param : M (string * string) := fun st =>
  let* (ptype, st1) :=
    (if _check "INT" st then Ok ("int", _advance st)
     else if _check "ID" st then Ok (lexeme (current st), _advance st)
     else Err (SyntaxError_ ExpectedParamType)) in
  let* (name_tok, st2) := _consume "ID" st1 in
  let pname := lexeme name_tok in
  Ok ((ptype, pname), declare pname ptype st2).

(** [params]: [param (',' param)*] *)
Fixpoint params_loop (fuel : nat) (result : list (string * string))
  : M (list (string * string)) := fun st =>
  match fuel with
  | O => OutOfFuel
  | S fuel' =>
      if _check "COMMA" st then
        let* (p, st1) := param (_advance st) in
        params_loop fuel' (result ++ [p]) st1
      else Ok (result, st)
  end.

Definition params (fuel : nat) : M (list (string * string)) := fun st =>
  let* (p, st1) := param st in
  params_loop fuel [p] st1.

(** [func_decl] *)
Definition func_decl (fuel : nat) : M item := fun st =>
  let* (ret_type, st1) :=
    (if _check "INT" st then Ok ("int", _advance st)
     else if _check "ID" st then Ok (lexeme (current st), _advance st)
     else Err (SyntaxError_ ExpectedReturnType)) in
  let* (name_tok, st2) := _consume "ID" st1 in
  let name := lexeme name_tok in
  let st3 := set_symbols ∅ st2 in
  let* (_, st4) := _consume "LPAREN" st3 in
  let* (ps, st5) :=
    (if negb (_check "RPAREN" st4) then params fuel st4 else Ok ([], st4)) in
  let* (_, st6) := _consume "RPAREN" st5 in
  let prev_return_type := current_function_return_type st6 in
  let st7 := set_return_type (Some ret_type) st6 in
  let* (body, st8) := block (stmt fuel) fuel st7 in
  let st9 := set_return_type prev_return_type (set_symbols ∅ st8) in
  Ok (FuncDecl ret_type name ps body, st9).

(** [top_level] *)
Definition top_level (fuel : nat) : M item := fun st =>
  if _is_function_declaration st then func_decl fuel st
  else let* (s, st1) := stmt fuel st in Ok (TopStmt s, st1).

(** ** The prescan *)

(** The parameter type read by [_collect_params]: ['int'] on [INT], the
    lexeme on [ID], nothing otherwise. *)
Definition param_type (st : pstate) : option string :=
  if _check "INT" st then Some "int"
  else if _check "ID" st then Some (lexeme (current st))
  else None.

(** [if self._check('ID'): pname = lexeme; advance; params.append(...)] *)
Definition collect_name (ptype : string) (ps : list (string * string)) (st : pstate)
  : list (string * string) * pstate :=
  if _check "ID" st then (ps ++ [(ptype, lexeme (current st))], _advance st)
  else (ps, st).

Fixpoint _collect_params_loop (fuel : nat) (ps : list (string * string))
  : M (list (string * string)) := fun st =>
  match fuel with
  | O => OutOfFuel
  | S fuel' =>
      if _check "COMMA" st then
        let st1 := _advance st in
        match param_type st1 with
        | Some ptype =>
            let '(ps', st2) := collect_name ptype ps (_advance st1) in
            _collect_params_loop fuel' ps' st2
        | None => Ok (ps, st1)
        end
      else Ok (ps, st)
  end.

(** [_collect_params] *)
Definition _collect_params (fuel : nat) : M (list (string * string)) := fun st =>
  match param_type st with
  | Some ptype =>
      let '(ps, st1) := collect_name ptype [] (_advance st) in
      _collect_params_loop fuel ps st1
  | None => Ok ([], st)
  end.

(** The first brace loop: advance to the first [LBRACE] and step over it. *)
Fixpoint skip_to_body (fuel : nat) : M nat := fun st =>
  match fuel with
  | O => OutOfFuel
  | S fuel' =>
      if negb (_check "EOF" st) then
        if _check "LBRACE" st then Ok (1, _advance st)
        else skip_to_body fuel' (_advance st)
      else Ok (0, st)
  end.

(** The second brace loop: [while brace_count > 0 and not EOF]. *)
Fixpoint skip_body (fuel : nat) (brace_count : nat) : M unit := fun st =>
  match fuel with
  | O => OutOfFuel
  | S fuel' =>
      if (0 <? brace_count) && negb (_check "EOF" st) then
        let brace_count' :=
          if _check "LBRACE" st then brace_count + 1
          else if _check "RBRACE" st then brace_count - 1
          else brace_count in
        skip_body fuel' brace_count' (_advance st)
      else Ok (tt, st)
  end.

(** [while not SEMI and not EOF: advance] *)
Fixpoint skip_statement (fuel : nat) : M unit := fun st =>
  match fuel with
  | O => OutOfFuel
  | S fuel' =>
      if negb (_check "SEMI" st) && negb (_check "EOF" st)
      then skip_statement fuel' (_advance st)
      else Ok (tt, st)
  end.

(** [if name not in self.functions: self.functions[name] = (ret_type, params, False)] *)
Definition register (name ret_type : string) (ps : list (string * string))
    (fs : gmap string func_info) : gmap string func_info :=
  match fs !! name with
  | Some _ => fs
  | None => <[name := (ret_type, ps, false)]> fs
  end.

(** The body of the prescan loop when a declaration starts here. *)
Definition collect_one (fuel : nat) : M unit := fun st =>
  let ret_type := if _check "ID" st then lexeme (current st) else "int" in
  let st1 := _advance st in
  let name := lexeme (current st1) in
  let st2 := _advance (_advance st1) in
  let* (ps, st3) :=
    (if negb (_check "RPAREN" st2) then _collect_params fuel st2 else Ok ([], st2)) in
  let st4 := set_functions (register name ret_type ps (functions st3)) st3 in
  let* (brace_count, st5) := skip_to_body fuel st4 in
  skip_body fuel brace_count st5.

Fixpoint collect_loop (fuel : nat) : M unit := fun st =>
  match fuel with
  | O => OutOfFuel
  | S fuel' =>
      if negb (_check "EOF" st) then
        if _is_function_declaration st then
          let* (_, st1) := collect_one fuel' st in
          collect_loop fuel' st1
        else
          let* (_, st1) := skip_statement fuel' st in
          collect_loop fuel' (if _check "SEMI" st1 then _advance st1 else st1)
      else Ok (tt, st)
  end.

(** [_collect_function_declarations] *)
Definition _collect_function_declarations (fuel : nat) : M unit := fun st =>
  let saved_i := i st in
  let saved_current := current st in
  let* (_, st1) := collect_loop fuel st in
  Ok (tt, PState (tokens st1) saved_i saved_current (symbols st1) (functions st1)
            (current_function_return_type st1)).

(** ** [parse] *)

Fixpoint parse_loop (fuel : nat) (acc : list item) : M (list item) := fun st =>
  match fuel with
  | O => OutOfFuel
  | S fuel' =>
      if negb (_check "EOF" st) then
        let* (it, st1) := top_level fuel' st in
        parse_loop fuel' (acc ++ [it]) st1
      else Ok (acc, st)
  end.

Definition parse (fuel : nat) : M Program := fun st =>
  let* (_, st1) := _collect_function_declarations fuel st in
  let* st2 := goto 0 st1 in
  let* (its, st3) := parse_loop fuel [] st2 in
  Ok (mkProgram its, st3).

(** [Parser(tokens).parse()] *)
Definition parse_tokens (fuel : nat) (toks : list Token) : outcome parse_error Program :=
  let* st := Parser_init toks in
  let* (ast, _) := parse fuel st in
  Ok ast.

End Parser.

(** * The IR generator: [ir_generator.py] *)

Module IR.
Import Lexer Parser.

(** The instruction classes of [ir_generator.py], all of them. *)
Inductive IRInstr :=
| IRLabel (name : string)
| IRAssign (dest src : string)
| IRBinOp (dest lhs op rhs : string)
| IRUnaryOp (dest op operand : string)
| IRGoto (label : string)
| IRIfFalseGoto (condition label : string)
| IRCall (dest : option string) (func : string) (args : list string)
| IRReturn (value : option string)
| IRFuncBegin (name : string) (params : list string)
| IRFuncEnd (name : string)
| IRParam (value : string).

(** Python's truth test of an [Optional[str]]: [None] and the empty
    string are false. *)
Definition truthy (o : option string) : bool :=
  match o with
  | Some (String _ _) => true
  | _ => false
  end.

Definition or_empty (o : option string) : string := default EmptyString o.

(** [__str__], the canonical one-line form. *)
Definition ir_str (instr : IRInstr) : string :=
  match instr with
  | IRLabel name => name +:+ ":"
  | IRAssign dest src => dest +:+ " = " +:+ src
  | IRBinOp dest lhs op rhs => dest +:+ " = " +:+ lhs +:+ " " +:+ op +:+ " " +:+ rhs
  | IRUnaryOp dest op operand => dest +:+ " = " +:+ op +:+ operand
  | IRGoto label => "goto " +:+ label
  | IRIfFalseGoto condition label => "ifFalse " +:+ condition +:+ " goto " +:+ label
  | IRCall dest func args =>
      let args_str := join ", " args in
      if truthy dest then or_empty dest +:+ " = call " +:+ func +:+ "(" +:+ args_str +:+ ")"
      else "call " +:+ func +:+ "(" +:+ args_str +:+ ")"
  | IRReturn value =>
      if truthy value then "return " +:+ or_empty value else "return"
  | IRFuncBegin name params => "func " +:+ name +:+ "(" +:+ join ", " params +:+ ")"
  | IRFuncEnd name => "endfunc " +:+ name
  | IRParam value => "param " +:+ value
  end.

(** The fields of an [IRGenerator]; [string_literals] is a [dict] that
    the ASM generator iterates, so it keeps its insertion order. *)
Record gen_state := GenState {
  instructions : list IRInstr;
  temp_count : nat;
  label_count : nat;
  string_literals : list (string * string);
  string_count : nat
}.

(** [IRGenerator.__init__] *)
Definition gen_init : gen_state := GenState [] 0 0 [] 0.

Definition temp_name (k : nat) : string := "t" +:+ str_nat k.
Definition label_name (k : nat) : string := "L" +:+ str_nat k.
Definition string_name (k : nat) : string := "str" +:+ str_nat k.

Definition new_temp (g : gen_state) : string * gen_state :=
  (temp_name (temp_count g),
   GenState (instructions g) (S (temp_count g)) (label_count g)
     (string_literals g) (string_count g)).

Definition new_label (g : gen_state) : string * gen_state :=
  (label_name (label_count g),
   GenState (instructions g) (temp_count g) (S (label_count g))
     (string_literals g) (string_count g)).

Definition new_string (value : string) (g : gen_state) : string * gen_state :=
  match dict_get value (string_literals g) with
  | Some name => (name, g)
  | None =>
      let name := string_name (string_count g) in
      (name,
       GenState (instructions g) (temp_count g) (label_count g)
         (string_literals g ++ [(value, name)]) (S (string_count g)))
  end.

Definition emit (instr : IRInstr) (g : gen_state) : gen_state :=
  GenState (instructions g ++ [instr]) (temp_count g) (label_count g)
    (string_literals g) (string_count g).

Section Visitor.

(** [str(x)] of a Python [float], which the embedding leaves open. *)
Variable float_str : pyfloat -> string.

(** [str(node.value)] *)
Definition num_str (value : num) : string :=
  match value with
  | PyInt n => str_N n
  | PyFloatV f => float_str f
  end.

(** [visit] on expressions: [visit_binop], [visit_unaryop], [visit_call]
    and the three leaf cases. *)
Fixpoint visit_expr (node : Expr) (g : gen_state) : string * gen_state :=
  match node with
  | Num value => (num_str value, g)
  | StringLit value => new_string value g
  | Var name => (name, g)
  | BinOp l op r =>
      let '(lhs, g1) := visit_expr l g in
      let '(rhs, g2) := visit_expr r g1 in
      let '(temp, g3) := new_temp g2 in
      (temp, emit (IRBinOp temp lhs op rhs) g3)
  | UnaryOp op e =>
      let '(operand, g1) := visit_expr e g in
      let '(temp, g2) := new_temp g1 in
      (temp, emit (IRUnaryOp temp op operand) g2)
  | FuncCall name args =>
      let '(arg_temps, g1) :=
        (fix visit_args (l : list Expr) (arg_temps : list string) (g : gen_state)
           : list string * gen_state :=
           match l with
           | [] => (arg_temps, g)
           | arg :: l' =>
               let '(arg_temp, g1) := visit_expr arg g in
               visit_args l' (arg_temps ++ [arg_temp]) (emit (IRParam arg_temp) g1)
           end) args [] g in
      let '(temp, g2) := new_temp g1 in
      (temp, emit (IRCall (Some temp) name arg_temps) g2)
  end.

(** The argument loop of [visit_call], as a function of its own. *)
Fixpoint visit_args (l : list Expr) (arg_temps : list string) (g : gen_state)
  : list string * gen_state :=
  match l with
  | [] => (arg_temps, g)
  | arg :: l' =>
      let '(arg_temp, g1) := visit_expr arg g in
      visit_args l' (arg_temps ++ [arg_temp]) (emit (IRParam arg_temp) g1)
  end.

(** [visit] on statements: [visit_decl], [visit_assign], [visit_return],
    [visit_if], [visit_while], [visit_for], [visit_block], and
    [ExprStmt], whose operand is dropped by every caller. *)
Fixpoint visit_stmt (node : Stmt) (g : gen_state) : gen_state :=
  let visit_block :=
    fix visit_block (statements : list Stmt) (g : gen_state) : gen_state :=
      match statements with
      | [] => g
      | s :: statements' => visit_block statements' (visit_stmt s g)
      end in
  match node with
  | Decl name init =>
      match init with
      | Some e => let '(src, g1) := visit_expr e g in emit (IRAssign name src) g1
      | None => g
      end
  | Assign name e =>
      let '(src, g1) := visit_expr e g in emit (IRAssign name src) g1
  | Return e =>
      match e with
      | Some e' => let '(value, g1) := visit_expr e' g in emit (IRReturn (Some value)) g1
      | None => emit (IRReturn None) g
      end
  | IfStmt condition then_block else_block =>
      let '(cond, g1) := visit_expr condition g in
      let '(label_then, g2) := new_label g1 in
      let '(label_end, g3) := new_label g2 in
      let '(label_else, g4) :=
        match else_block with
        | Some _ => new_label g3
        | None => (label_end, g3)
        end in
      let g5 := emit (IRIfFalseGoto cond label_else) g4 in
      let g6 := emit (IRLabel label_then) g5 in
      let g7 := visit_block then_block g6 in
      let g8 :=
        match else_block with
        | Some b =>
            visit_block b (emit (IRLabel label_else) (emit (IRGoto label_end) g7))
        | None => g7
        end in
      emit (IRLabel label_end) g8
  | WhileStmt condition body =>
      let '(label_start, g1) := new_label g in
      let '(label_body, g2) := new_label g1 in
      let '(label_end, g3) := new_label g2 in
      let g4 := emit (IRLabel label_start) g3 in
      let '(cond, g5) := visit_expr condition g4 in
      let g6 := emit (IRIfFalseGoto cond label_end) g5 in
      let g7 := emit (IRLabel label_body) g6 in
      let g8 := visit_block body g7 in
      let g9 := emit (IRGoto label_start) g8 in
      emit (IRLabel label_end) g9
  | ForStmt init condition step body =>
      let g0 := visit_stmt init g in
      let '(label_start, g1) := new_label g0 in
      let '(label_body, g2) := new_label g1 in
      let '(label_end, g3) := new_label g2 in
      let g4 := emit (IRLabel label_start) g3 in
      let '(cond, g5) := visit_expr condition g4 in
      let g6 := emit (IRIfFalseGoto cond label_end) g5 in
      let g7 := emit (IRLabel label_body) g6 in
      let g8 := visit_block body g7 in
      let g9 := visit_stmt step g8 in
      let g10 := emit (IRGoto label_start) g9 in
      emit (IRLabel label_end) g10
  | ExprStmt e => snd (visit_expr e g)
  | Block statements => visit_block statements g
  end.

(** [visit_block] *)
Fixpoint visit_block (statements : list Stmt) (g : gen_state) : gen_state :=
  match statements with
  | [] => g
  | s :: statements' => visit_block statements' (visit_stmt s g)
  end.

(** [visit_func_decl], and [visit] on a top-level statement. *)
Definition visit_item (it : item) (g : gen_state) : gen_state :=
  match it with
  | FuncDecl _ name params body =>
      let param_names := map snd params in
      let g1 := emit (IRFuncBegin name param_names) g in
      let g2 := visit_block body g1 in
      emit (IRFuncEnd name) g2
  | TopStmt s => visit_stmt s g
  end.

(** [visit_program] *)
Fixpoint visit_program (its : list item) (g : gen_state) : gen_state :=
  match its with
  | [] => g
  | it :: its' => visit_program its' (visit_item it g)
  end.

(** [IRGenerator.generate] runs on a fresh generator. *)
Definition generate (ast : Program) : gen_state := visit_program (items ast) gen_init.

(** [generate_ir] *)
Definition generate_ir (ast : Program) : list IRInstr * list (string * string) :=
  let g := generate ast in
  (instructions g, string_literals g).

(** The IR text shown by the driver: one canonical line per instruction. *)
Definition ir_text (instrs : list IRInstr) : string :=
  String.concat EmptyString (map ir_str instrs).

End Visitor.

End IR.

(** * The ASM generator: [asm_generator.py] *)

Module Asm.
Import IR.

(** What [AsmGenerator.visit] dispatches on: the instruction classes of
    [ir_generator.py], and [IRIfGoto], which [asm_generator.py] imports
    from [ir_generator.py] although no such class is defined there. Its
    two fields are the ones [visit_if_goto] reads. *)
Inductive asm_input :=
| FromIR (instr : IRInstr)
| IRIfGoto (condition label : string).

Record asm_state := AsmState {
  output : list string;
  var_offset : gmap string nat;
  current_offset : nat;
  in_function : bool;
  function_name : string
}.

Definition param_regs : list string := ["rcx"; "rdx"; "r8"; "r9"].

(** [AsmGenerator.__init__] *)
Definition asm_init : asm_state := AsmState [] ∅ 0 false EmptyString.

Definition emit (line : string) (a : asm_state) : asm_state :=
  AsmState (output a ++ [line]) (var_offset a) (current_offset a)
    (in_function a) (function_name a).

Fixpoint emit_all (lines : list string) (a : asm_state) : asm_state :=
  match lines with
  | [] => a
  | l :: lines' => emit_all lines' (emit l a)
  end.

(** [var.isdigit() or (var.startswith('-') and var[1:].isdigit())] *)
Definition is_int_literal (var : string) : bool :=
  isdigit var || (startswith "-" var && isdigit (drop_str 1 var)).

Definition slot (offset : nat) : string := "QWORD [rbp-" +:+ str_nat offset +:+ "]".

(** [get_var_location] *)
Definition get_var_location (var : string) (a : asm_state) : string * asm_state :=
  if is_int_literal var then (var, a)
  else
    match var_offset a !! var with
    | Some off => (slot off, a)
    | None =>
        let off := current_offset a + 8 in
        (slot off,
         AsmState (output a) (<[var := off]> (var_offset a)) off
           (in_function a) (function_name a))
    end.

(** [emit_header] *)
Definition emit_header (a : asm_state) : asm_state :=
  emit_all
    [ "; Generado por el compilador";
      "; Arquitectura: x86-64 (64 bits)";
      "; Sintaxis: NASM (Intel)";
      EmptyString;
      "bits 64";
      "default rel";
      EmptyString ] a.

(** [s.replace(old, new)] for a two-character [old]. *)
Fixpoint replace2 (c1 c2 : ascii) (new : string) (s : string) : string :=
  match s with
  | EmptyString => EmptyString
  | String a s' =>
      match s' with
      | String b s'' =>
          if Ascii.eqb a c1 && Ascii.eqb b c2 then new +:+ replace2 c1 c2 new s''
          else String a (replace2 c1 c2 new s')
      | EmptyString => String a EmptyString
      end
  end.

Definition quoted (inner : string) : string :=
  String dquote (inner +:+ String dquote EmptyString).

(** [value.replace(backslash n, quote ", 10, " quote).replace(backslash t, ...)] *)
Definition escape (value : string) : string :=
  replace2 backslash "t" (quoted ", 9, ") (replace2 backslash "n" (quoted ", 10, ") value).

(** [emit_data_section] *)
Definition emit_data_section (string_literals : list (string * string)) (a : asm_state)
  : asm_state :=
  match string_literals with
  | [] => a
  | _ =>
      let a1 := emit "section .data" a in
      let a2 :=
        emit_all
          (map (fun '(value, name) =>
                  "    " +:+ name +:+ ": db " +:+ quoted (escape value) +:+ ", 0")
             string_literals) a1 in
      emit EmptyString a2
  end.

(** [visit_func_begin] *)
Fixpoint save_params (idx : nat) (params : list string) (a : asm_state) : asm_state :=
  match params with
  | [] => a
  | param :: params' =>
      let off := current_offset a + 8 in
      let a1 := AsmState (output a) (<[param := off]> (var_offset a)) off
                  (in_function a) (function_name a) in
      let a2 :=
        match param_regs !! idx with
        | Some reg => emit ("    mov " +:+ slot off +:+ ", " +:+ reg) a1
        | None => a1
        end in
      save_params (S idx) params' a2
  end.

Definition visit_func_begin (name : string) (params : list string) (a : asm_state)
  : asm_state :=
  let a1 := AsmState (output a) ∅ 0 true name in
  let a2 :=
    emit_all
      [ name +:+ ":";
        "    push rbp";
        "    mov rbp, rsp";
        "    sub rsp, 64  ; Espacio para variables locales";
        EmptyString ] a1 in
  save_params 0 params a2.

(** [visit_func_end] *)
Definition visit_func_end (name : string) (a : asm_state) : asm_state :=
  let a1 :=
    emit_all
      [ ".end_" +:+ name +:+ ":";
        "    mov rsp, rbp";
        "    pop rbp";
        "    ret";
        EmptyString ] a in
  AsmState (output a1) (var_offset a1) (current_offset a1) false (function_name a1).

(** [visit_label] *)
Definition visit_label (name : string) (a : asm_state) : asm_state :=
  emit ("." +:+ name +:+ ":") a.

(** [visit_assign] *)
Definition visit_assign (dest src : string) (a : asm_state) : asm_state :=
  let '(dest_loc, a1) := get_var_location dest a in
  if is_int_literal src then
    emit ("    mov " +:+ dest_loc +:+ ", " +:+ src) a1
  else if startswith "str" src then
    emit ("    mov " +:+ dest_loc +:+ ", rax") (emit ("    lea rax, [" +:+ src +:+ "]") a1)
  else
    let '(src_loc, a2) := get_var_location src a1 in
    emit ("    mov " +:+ dest_loc +:+ ", rax") (emit ("    mov rax, " +:+ src_loc) a2).

(** The comparison arm of [visit_binop]. *)
Definition setcc (op : string) : list string :=
  if String.eqb op "<" then ["    setl al"]
  else if String.eqb op ">" then ["    setg al"]
  else if String.eqb op "<=" then ["    setle al"]
  else if String.eqb op ">=" then ["    setge al"]
  else if String.eqb op "==" then ["    sete al"]
  else if String.eqb op "!=" then ["    setne al"]
  else [].

Definition binop_lines (op : string) : list string :=
  if String.eqb op "+" then ["    add rax, rbx"]
  else if String.eqb op "-" then ["    sub rax, rbx"]
  else if String.eqb op "*" then ["    imul rax, rbx"]
  else if String.eqb op "/" then ["    xor rdx, rdx"; "    idiv rbx"]
  else if String.eqb op "%" then ["    xor rdx, rdx"; "    idiv rbx"; "    mov rax, rdx"]
  else if existsb (String.eqb op) ["<"; ">"; "<="; ">="; "=="; "!="] then
    ["    cmp rax, rbx"] ++ setcc op ++ ["    movzx rax, al"]
  else [].

(** [visit_binop] *)
Definition visit_binop (dest lhs op rhs : string) (a : asm_state) : asm_state :=
  let '(dest_loc, a1) := get_var_location dest a in
  let '(left_loc, a2) := get_var_location lhs a1 in
  let '(right_loc, a3) := get_var_location rhs a2 in
  let a4 := emit ("    mov rax, " +:+ (if isdigit lhs then lhs else left_loc)) a3 in
  let a5 := emit ("    mov rbx, " +:+ (if isdigit rhs then rhs else right_loc)) a4 in
  let a6 := emit_all (binop_lines op) a5 in
  emit ("    mov " +:+ dest_loc +:+ ", rax") a6.

(** [visit_unaryop] *)
Definition visit_unaryop (dest op operand : string) (a : asm_state) : asm_state :=
  let '(dest_loc, a1) := get_var_location dest a in
  let '(expr_loc, a2) := get_var_location operand a1 in
  let a3 := emit ("    mov rax, " +:+ expr_loc) a2 in
  let a4 :=
    if String.eqb op "-" then emit "    neg rax" a3
    else if String.eqb op "!" then
      emit_all ["    test rax, rax"; "    setz al"; "    movzx rax, al"] a3
    else a3 in
  emit ("    mov " +:+ dest_loc +:+ ", rax") a4.

(** [visit_goto] *)
Definition visit_goto (label : string) (a : asm_state) : asm_state :=
  emit ("    jmp ." +:+ label) a.

(** [visit_if_goto] *)
Definition visit_if_goto (condition label : string) (a : asm_state) : asm_state :=
  let '(cond_loc, a1) := get_var_location condition a in
  emit_all ["    mov rax, " +:+ cond_loc; "    test rax, rax"; "    jnz ." +:+ label] a1.

(** [visit_if_false_goto] *)
Definition visit_if_false_goto (condition label : string) (a : asm_state) : asm_state :=
  let '(cond_loc, a1) := get_var_location condition a in
  emit_all ["    mov rax, " +:+ cond_loc; "    test rax, rax"; "    jz ." +:+ label] a1.

(** The argument loop of [visit_call]:
    [for i, arg in enumerate(instr.args): if i < len(self.param_regs): ...]. *)
Fixpoint pass_args (idx : nat) (args : list string) (a : asm_state) : asm_state :=
  match args with
  | [] => a
  | arg :: args' =>
      let a' :=
        match param_regs !! idx with
        | Some reg =>
            let '(arg_loc, a1) := get_var_location arg a in
            if isdigit arg then emit ("    mov " +:+ reg +:+ ", " +:+ arg) a1
            else if startswith "str" arg then
              emit ("    lea " +:+ reg +:+ ", [" +:+ arg +:+ "]") a1
            else emit ("    mov " +:+ reg +:+ ", " +:+ arg_loc) a1
        | None => a
        end in
      pass_args (S idx) args' a'
  end.

(** [visit_call] *)
Definition visit_call (dest : option string) (func : string) (args : list string)
    (a : asm_state) : asm_state :=
  let a1 := emit "    sub rsp, 32  ; Shadow space para Windows x64" a in
  let a2 := pass_args 0 args a1 in
  let a3 := emit ("    call " +:+ func) a2 in
  let a4 := emit "    add rsp, 32" a3 in
  if truthy dest then
    let '(dest_loc, a5) := get_var_location (or_empty dest) a4 in
    emit ("    mov " +:+ dest_loc +:+ ", rax") a5
  else a4.

(** [visit_return] *)
Definition visit_return (value : option string) (a : asm_state) : asm_state :=
  let a1 :=
    if truthy value then
      let v := or_empty value in
      let '(value_loc, a') := get_var_location v a in
      if isdigit v then emit ("    mov rax, " +:+ v) a'
      else emit ("    mov rax, " +:+ value_loc) a'
    else emit "    xor rax, rax  ; return 0" a in
  emit ("    jmp .end_" +:+ function_name a1) a1.

(** [visit] *)
Definition visit (instr : asm_input) (a : asm_state) : asm_state :=
  match instr with
  | FromIR (IRFuncBegin name params) => visit_func_begin name params a
  | FromIR (IRFuncEnd name) => visit_func_end name a
  | FromIR (IRLabel name) => visit_label name a
  | FromIR (IRAssign dest src) => visit_assign dest src a
  | FromIR (IRBinOp dest lhs op rhs) => visit_binop dest lhs op rhs a
  | FromIR (IRUnaryOp dest op operand) => visit_unaryop dest op operand a
  | FromIR (IRGoto label) => visit_goto label a
  | IRIfGoto condition label => visit_if_goto condition label a
  | FromIR (IRIfFalseGoto condition label) => visit_if_false_goto condition label a
  | FromIR (IRParam _) => a
  | FromIR (IRCall dest func args) => visit_call dest func args a
  | FromIR (IRReturn value) => visit_return value a
  end.

Fixpoint visit_all (instrs : list asm_input) (a : asm_state) : asm_state :=
  match instrs with
  | [] => a
  | instr :: instrs' => visit_all instrs' (visit instr a)
  end.

Definition is_main_begin (instr : asm_input) : bool :=
  match instr with
  | FromIR (IRFuncBegin name _) => String.eqb name "main"
  | _ => false
  end.

(** [emit_code_section] *)
Definition emit_code_section (instrs : list asm_input) (a : asm_state) : asm_state :=
  let a1 :=
    emit_all
      [ "section .text"; "    extern printf"; "    extern scanf"; "    extern exit";
        EmptyString ] a in
  let has_main := existsb is_main_begin instrs in
  let a2 := if has_main then emit_all ["    global main"; EmptyString] a1 else a1 in
  visit_all instrs a2.

(** [AsmGenerator.generate], as the list of lines and as the joined text. *)
Definition generate_lines (instrs : list asm_input) (string_literals : list (string * string))
  : list string :=
  output (emit_code_section instrs (emit_data_section string_literals (emit_header asm_init))).

(** [generate_asm] *)
Definition generate_asm (instrs : list IRInstr) (string_literals : list (string * string))
  : string :=
  join (String nl EmptyString) (generate_lines (map FromIR instrs) string_literals).

End Asm.

(** * The pipeline of [main.py]: lexer, parser, IR generator, ASM generator *)

Module Pipeline.
Import Lexer Parser IR Asm.

Inductive compile_error :=
| LexicalPhase (e : std_error)
| ParsePhase (e : parse_error).

Definition lift {E E' A : Type} (f : E -> E') (r : outcome E A) : outcome E' A :=
  match r with
  | Ok a => Ok a
  | Err e => Err (f e)
  | OutOfFuel => OutOfFuel
  end.

(** Phases 1 to 3 of [compile_file]. *)
Definition front_end (fuel : nat) (source_code : string) : outcome compile_error Program :=
  let* toks := lift LexicalPhase (tokenize_std source_code) in
  lift ParsePhase (parse_tokens fuel toks).

(** Phases 1 to 5 of [compile_file]: the IR text and the assembly text. *)
Definition compile (float_str : pyfloat -> string) (fuel : nat) (source_code : string)
  : outcome compile_error (string * string) :=
  let* ast := front_end fuel source_code in
  let '(ir_instructions, string_literals) := generate_ir float_str ast in
  Ok (ir_text ir_instructions, generate_asm ir_instructions string_literals).

End Pipeline.

(** * Vocabulary of the statements *)

Import Lexer Parser IR Asm Pipeline.

(** ** Types of expressions *)

Definition comparison_ops : list string := ["=="; "!="; "<"; ">"; "<="; ">="].
Definition logical_ops : list string := ["&&"; "||"].

Definition numeric (t : string) : Prop := t = "int" \/ t = "float".

(** The function table after [Parser.__init__]. *)
Definition builtin_functions : gmap string func_info :=
  <["scanf" := ("int", [], true)]> (<["printf" := ("int", [], true)]> ∅).

(** Where a value of type [bool] can come from. *)
Inductive bool_source (sy : gmap string string) (fs : gmap string func_info) : Expr -> Prop :=
| bool_comparison l op r : In op comparison_ops -> bool_source sy fs (BinOp l op r)
| bool_logical l op r : In op logical_ops -> bool_source sy fs (BinOp l op r)
| bool_variable name : sy !! name = Some "bool" -> bool_source sy fs (Var name)
| bool_call name args ps variadic :
    fs !! name = Some ("bool", ps, variadic) -> bool_source sy fs (FuncCall name args).

(** ** Token streams *)

(** The last token is the [EOF] the adapter appends. *)
Definition ends_with_eof (toks : list Token) : Prop :=
  exists pre t, toks = pre ++ [t] /\ type t = "EOF".

(** [self.current] is [self.tokens[self.i]]. *)
Definition in_sync (st : pstate) : Prop := tokens st !! i st = Some (current st).

Definition remaining (st : pstate) : nat := length (tokens st) - i st.

(** The name and return type the prescan reads for a declaration that
    starts at the current token. *)
Definition declared_name (st : pstate) : string := lexeme (current (Parser._advance st)).
Definition declared_return_type (st : pstate) : string :=
  if _check "ID" st then lexeme (current st) else "int".

(** The parser state is well formed for a stream that the adapter built. *)
Definition good (st : pstate) : Prop := in_sync st /\ ends_with_eof (tokens st).

(** [st'] is [st] after some calls of [_advance]. *)
Definition advanced (st st' : pstate) : Prop :=
  good st' /\ tokens st' = tokens st /\ i st <= i st'.

(** A program that declares [printf] itself and [f] twice, as tokens. *)
Definition clash_source : string :=
  "int printf(int a) { return 1; } int f() { return 0; } float f(int z) { return 1; }".

Definition tokens_of (source : string) : list Token :=
  match tokenize_std source with
  | Ok toks => toks
  | _ => []
  end.

(** ** Symbol table around a function declaration *)

Definition shadow_source : string := "int x = 1; int f() { return 0; } x = 2;".
Definition redeclared_source : string := "int x = 1; int f() { return 0; } int x; x = 2;".

(** The parser state of [shadow_source] when [top_level] reaches the
    declaration of [f]: [x] is in the symbol table. *)
Definition state_at_function : pstate :=
  PState (tokens_of shadow_source) 5 (mkToken "INT" "int" LNone (1, 12))
    (<["x" := "int"]> ∅) (<["f" := ("int", [], false)]> builtin_functions) None.

(** ** Induction over the AST *)

Section AstInduction.

Variable P : Expr -> Prop.
Hypothesis P_num : forall v, P (Num v).
Hypothesis P_string : forall v, P (StringLit v).
Hypothesis P_var : forall n, P (Var n).
Hypothesis P_unary : forall op e, P e -> P (UnaryOp op e).
Hypothesis P_binary : forall l op r, P l -> P r -> P (BinOp l op r).
Hypothesis P_call : forall name args, Forall P args -> P (FuncCall name args).

Fixpoint Expr_nested_ind (e : Expr) : P e :=
  match e with
  | Num v => P_num v
  | StringLit v => P_string v
  | Var n => P_var n
  | UnaryOp op e' => P_unary op e' (Expr_nested_ind e')
  | BinOp l op r => P_binary l op r (Expr_nested_ind l) (Expr_nested_ind r)
  | FuncCall name args =>
      P_call name args
        ((fix go (l : list Expr) : Forall P l :=
            match l with
            | [] => List.Forall_nil P
            | x :: l' => List.Forall_cons P x l' (Expr_nested_ind x) (go l')
            end) args)
  end.

Variable Q : Stmt -> Prop.
Hypothesis Q_decl : forall n init, Q (Decl n init).
Hypothesis Q_assign : forall n e, Q (Assign n e).
Hypothesis Q_return : forall e, Q (Return e).
Hypothesis Q_if : forall c t e,
  Forall Q t -> (forall b, e = Some b -> Forall Q b) -> Q (IfStmt c t e).
Hypothesis Q_while : forall c b, Forall Q b -> Q (WhileStmt c b).
Hypothesis Q_for : forall init c step b,
  Q init -> Q step -> Forall Q b -> Q (ForStmt init c step b).
Hypothesis Q_expr : forall e, Q (ExprStmt e).
Hypothesis Q_block : forall b, Forall Q b -> Q (Block b).

Fixpoint Stmt_nested_ind (s : Stmt) : Q s :=
  let go :=
    fix go (l : list Stmt) : Forall Q l :=
      match l with
      | [] => List.Forall_nil Q
      | x :: l' => List.Forall_cons Q x l' (Stmt_nested_ind x) (go l')
      end in
  match s with
  | Decl n init => Q_decl n init
  | Assign n e => Q_assign n e
  | Return e => Q_return e
  | IfStmt c t e =>
      Q_if c t e (go t)
        (match e as e0 return forall b, e0 = Some b -> Forall Q b with
         | Some b0 => fun b Hb =>
             match Hb in _ = o return match o with Some b' => Forall Q b' | None => True end
             with eq_refl => go b0 end
         | None => fun b Hb =>
             match Hb in _ = o return match o with Some b' => Forall Q b' | None => True end
             with eq_refl => I end
         end)
  | WhileStmt c b => Q_while c b (go b)
  | ForStmt init c step b =>
      Q_for init c step b (Stmt_nested_ind init) (Stmt_nested_ind step) (go b)
  | ExprStmt e => Q_expr e
  | Block b => Q_block b (go b)
  end.

End AstInduction.

(** ** Emitted code *)

(** The instructions that [f] appends when run from the state [g]. *)
Definition code_of (f : gen_state -> gen_state) (g : gen_state) : list IRInstr :=
  drop (length (instructions g)) (instructions (f g)).

(** [g] after [k] calls of [new_label]. *)
Definition after_labels (k : nat) (g : gen_state) : gen_state :=
  GenState (instructions g) (temp_count g) (label_count g + k)
    (string_literals g) (string_count g).

(** [g'] has the instructions of [g] and possibly more after them. *)
Definition extends (g g' : gen_state) : Prop :=
  exists out, instructions g' = instructions g ++ out.

(** ** Calls in assembly *)

(** The line that passes [arg] in [reg]: an immediate for an integer
    literal, [lea] for a name that starts with [str], a load from the
    stack slot at [off] otherwise. *)
Definition arg_line (reg arg : string) (off : nat) : string :=
  if isdigit arg then "    mov " +:+ reg +:+ ", " +:+ arg
  else if startswith "str" arg then "    lea " +:+ reg +:+ ", [" +:+ arg +:+ "]"
  else if is_int_literal arg then "    mov " +:+ reg +:+ ", " +:+ arg
  else "    mov " +:+ reg +:+ ", " +:+ slot off.

(** ** Positions in the source text *)

(** The line and column after one character. *)
Definition advance_pos (ch : ascii) (p : nat * nat) : nat * nat :=
  if Ascii.eqb ch nl then (S (fst p), 1) else (fst p, S (snd p)).

(** The line and column reached from [p] after reading [text]. *)
Fixpoint pos_after (text : string) (p : nat * nat) : nat * nat :=
  match text with
  | EmptyString => p
  | String ch text' => pos_after text' (advance_pos ch p)
  end.

Definition lpos (st : lex_state) : nat * nat := (line st, col st).

(** The raw token [t] is a piece of [code] and carries the position of
    its first character. *)
Definition token_at (code : string) (t : raw_token) : Prop :=
  exists pre post,
    code = pre +:+ raw_lexeme t +:+ post
    /\ (raw_line t, raw_col t) = pos_after pre (1, 1).

(** The lexer state describes a split of [code] into what was read and
    what is left. *)
Definition lex_inv (code : string) (st : lex_state) : Prop :=
  exists consumed,
    code = consumed +:+ rest st
    /\ lpos st = pos_after consumed (1, 1)
    /\ Forall (token_at code) (result st).

(** From [st] to [st'] the lexer read [text]. *)
Definition consumes (st st' : lex_state) (text : string) : Prop :=
  rest st = text +:+ rest st' /\ lpos st' = pos_after text (lpos st).

(** [s] holds a closing [*/]. *)
Fixpoint has_close (s : string) : bool :=
  match s with
  | EmptyString => false
  | String _ s' => startswith "*/" s || has_close s'
  end.

(** The states at the head of the [while pos < n] loop of [lexer code]. *)
Inductive scans_to (code : string) : lex_state -> Prop :=
| scans_init : scans_to code (lex_init code)
| scans_step st st' :
    scans_to code st -> rest st <> EmptyString -> lex_step st = Ok st' ->
    scans_to code st'.

(** A pattern matches a non-empty prefix of the input. *)
Definition matches_prefix (m : string -> option string) : Prop :=
  forall s lx, m s = Some lx -> lx <> EmptyString /\ exists r, s = lx +:+ r.

(** ** Labels and jumps in a list of instructions *)

Definition label_of (instr : IRInstr) : option string :=
  match instr with
  | IRLabel name => Some name
  | _ => None
  end.

Definition jump_target (instr : IRInstr) : option string :=
  match instr with
  | IRGoto label => Some label
  | IRIfFalseGoto _ label => Some label
  | _ => None
  end.

(** [FuncBegin] and [FuncEnd], the ends of a function's code. *)
Definition is_marker (instr : IRInstr) : bool :=
  match instr with
  | IRFuncBegin _ _ | IRFuncEnd _ => true
  | _ => false
  end.

Definition labels_of (l : list IRInstr) : list string := omap label_of l.
Definition targets_of (l : list IRInstr) : list string := omap jump_target l.

(** The names [L lo], ..., [L (hi-1)]. *)
Definition label_range (lo hi : nat) : list string := map label_name (seq lo (hi - lo)).

(** Code whose labels are exactly the names allocated between the label
    counters [lo] and [hi], each once, whose jumps go to these labels,
    and which holds no [FuncBegin] and no [FuncEnd]. *)
Definition closed_code (lo hi : nat) (out : list IRInstr) : Prop :=
  lo <= hi
  /\ labels_of out ≡ₚ label_range lo hi
  /\ (forall t, t ∈ targets_of out -> t ∈ label_range lo hi)
  /\ Forall (fun i => is_marker i = false) out.

(** The instructions an expression gives rise to. *)
Definition expr_instr (instr : IRInstr) : Prop :=
  match instr with
  | IRBinOp _ _ _ _ | IRUnaryOp _ _ _ | IRParam _ | IRCall _ _ _ => True
  | _ => False
  end.

(** [g'] is [g] with [out] appended to its instructions. *)
Definition emits (g g' : gen_state) (out : list IRInstr) : Prop :=
  instructions g' = instructions g ++ out.

(** A program: the code of top-level statements and of functions, one
    after the other, over consecutive ranges of labels. *)
Inductive regions : nat -> nat -> list IRInstr -> Prop :=
| regions_nil lo : regions lo lo []
| regions_stmt lo mid hi out tail :
    closed_code lo mid out -> regions mid hi tail -> regions lo hi (out ++ tail)
| regions_func lo mid hi name ps body tail :
    closed_code lo mid body -> regions mid hi tail ->
    regions lo hi (IRFuncBegin name ps :: body ++ IRFuncEnd name :: tail).

Definition no_marker (l : list IRInstr) : Prop := Forall (fun i => is_marker i = false) l.

(** In [pre ++ i :: post] the label [tgt] stands before or after [i], with
    no [FuncBegin] and no [FuncEnd] between the two. *)
Definition label_nearby (tgt : string) (pre post : list IRInstr) : Prop :=
  (exists a b, pre = a ++ IRLabel tgt :: b /\ no_marker b)
  \/ (exists b c, post = b ++ IRLabel tgt :: c /\ no_marker b).

(** ** Temporaries in a list of instructions *)

(** A name of the form [t] followed by decimal digits. *)
Definition temp_like (s : string) : bool :=
  match s with
  | String "t" r => isdigit r
  | _ => false
  end.

Definition dest_of (instr : IRInstr) : option string :=
  match instr with
  | IRAssign dest _ | IRBinOp dest _ _ _ | IRUnaryOp dest _ _ => Some dest
  | IRCall dest _ _ => dest
  | _ => None
  end.

Definition sources_of (instr : IRInstr) : list string :=
  match instr with
  | IRAssign _ src => [src]
  | IRBinOp _ lhs _ rhs => [lhs; rhs]
  | IRUnaryOp _ _ operand => [operand]
  | IRIfFalseGoto condition _ => [condition]
  | IRParam value => [value]
  | IRCall _ _ args => args
  | IRReturn (Some value) => [value]
  | _ => []
  end.

(** An operand that looks like a temporary is one of [t0], ..., [t(n-1)]. *)
Definition operand_ok (n : nat) (s : string) : Prop :=
  temp_like s = true -> exists k, k < n /\ s = temp_name k.

(** Reading [l] with [n] temporaries defined so far leaves [m] defined:
    an instruction reads only temporaries defined before it, and a
    destination that looks like a temporary is the next one. *)
Fixpoint temps_ok (n : nat) (l : list IRInstr) (m : nat) : Prop :=
  match l with
  | [] => m = n
  | i :: l' =>
      Forall (operand_ok n) (sources_of i)
      /\ match dest_of i with
         | Some d =>
             if temp_like d then d = temp_name n /\ temps_ok (S n) l' m
             else temps_ok n l' m
         | None => temps_ok n l' m
         end
  end.

(** No variable of the program, and no printed float literal, has the
    form of a temporary. *)
Fixpoint expr_names_ok (float_str : pyfloat -> string) (e : Expr) : bool :=
  match e with
  | Num (PyFloatV f) => negb (temp_like (float_str f))
  | Num (PyInt _) => true
  | StringLit _ => true
  | Var n => negb (temp_like n)
  | UnaryOp _ e' => expr_names_ok float_str e'
  | BinOp l _ r => expr_names_ok float_str l && expr_names_ok float_str r
  | FuncCall _ args => forallb (expr_names_ok float_str) args
  end.

Definition opt_ok {A : Type} (f : A -> bool) (o : option A) : bool :=
  match o with
  | Some a => f a
  | None => true
  end.

Fixpoint stmt_names_ok (float_str : pyfloat -> string) (s : Stmt) : bool :=
  match s with
  | Decl n init => negb (temp_like n) && opt_ok (expr_names_ok float_str) init
  | Assign n e => negb (temp_like n) && expr_names_ok float_str e
  | Return e => opt_ok (expr_names_ok float_str) e
  | IfStmt c t e =>
      expr_names_ok float_str c && forallb (stmt_names_ok float_str) t
      && match e with
         | Some b => forallb (stmt_names_ok float_str) b
         | None => true
         end
  | WhileStmt c b => expr_names_ok float_str c && forallb (stmt_names_ok float_str) b
  | ForStmt init c step b =>
      stmt_names_ok float_str init && expr_names_ok float_str c
      && stmt_names_ok float_str step && forallb (stmt_names_ok float_str) b
  | ExprStmt e => expr_names_ok float_str e
  | Block b => forallb (stmt_names_ok float_str) b
  end.

Definition item_names_ok (float_str : pyfloat -> string) (it : item) : bool :=
  match it with
  | FuncDecl _ _ _ body => forallb (stmt_names_ok float_str) body
  | TopStmt s => stmt_names_ok float_str s
  end.

Definition program_names_ok (float_str : pyfloat -> string) (ast : Program) : bool :=
  forallb (item_names_ok float_str) (items ast).

(** The names in the table of string literals are no temporaries. *)
Definition strings_ok (g : gen_state) : Prop :=
  Forall (fun p => temp_like (snd p) = false) (string_literals g).

(** The temporary [tk] is defined by one instruction of [l], which comes
    before every instruction that reads it. *)
Definition defined_once_before_use (k : nat) (l : list IRInstr) : Prop :=
  exists pre i post,
    l = pre ++ i :: post
    /\ dest_of i = Some (temp_name k)
    /\ Forall (fun x => dest_of x <> Some (temp_name k)) (pre ++ post)
    /\ Forall (fun x => temp_name k ∉ sources_of x) (pre ++ [i]).

(** The instructions of [l] whose destination is [name]. *)
Definition definitions_of (name : string) (l : list IRInstr) : list IRInstr :=
  filter (fun i => dest_of i = Some name) l.

(** The number of [Label] instructions of [l] that carry the name [tgt]. *)
Definition label_occurrences (tgt : string) (l : list IRInstr) : nat :=
  count_occ string_dec (labels_of l) tgt.

(** A program whose variable has the name of the first temporary. *)
Definition temp_clash_source : string :=
  "int main() { int t0 = 1; int y = t0 + 2; return y; }".

Definition branching_source : string :=
  "int main() { int x = 1; if (x < 2) { x = x + 1; } else { x = 0; } while (x < 9) { x = x * 2; } return x; }".

(** The tree the front end builds for [source]; empty when it is refused. *)
Definition ast_of (source : string) : Program :=
  match front_end (String.length source) source with
  | Ok ast => ast
  | _ => mkProgram []
  end.

(** ** Step budgets

    [a] is [b], unless the budget of [a] ran out. *)
Definition out_le {E A : Type} (a b : outcome E A) : Prop :=
  a = OutOfFuel \/ a = b.

Definition determinism_source : string :=
  "int twice(int n) { return n + n; } int main() { int x = twice(3); if (x > 5) { printf(x); } return 0; }".

(** The IR text and the assembly text of [determinism_source] under the
    budget [fuel]. *)
Definition texts_at (fuel : nat) : string * string :=
  match compile float_lexeme fuel determinism_source with
  | Ok r => r
  | _ => (EmptyString, EmptyString)
  end.

(** A parser action that, when it succeeds, leaves the symbol table as it
    found it. *)
Definition keeps_symbols {A : Type} (m : M A) : Prop :=
  forall st a st', m st = Ok (a, st') -> symbols st' = symbols st.

(** ** Shape of the generated code *)

(** The [FuncBegin] and the [FuncEnd] an item of the program gives rise to. *)
Definition item_markers (it : item) : list IRInstr :=
  match it with
  | FuncDecl _ name params _ => [IRFuncBegin name (map snd params); IRFuncEnd name]
  | TopStmt _ => []
  end.

(** The operator and call nodes of an expression. *)
Fixpoint op_nodes (e : Expr) : nat :=
  match e with
  | Num _ | StringLit _ | Var _ => 0
  | UnaryOp _ e' => S (op_nodes e')
  | BinOp l _ r => S (op_nodes l + op_nodes r)
  | FuncCall _ args => S (list_sum (map op_nodes args))
  end.

(** The arguments of all the calls of an expression. *)
Fixpoint call_args (e : Expr) : nat :=
  match e with
  | Num _ | StringLit _ | Var _ => 0
  | UnaryOp _ e' => call_args e'
  | BinOp l _ r => call_args l + call_args r
  | FuncCall _ args => length args + list_sum (map call_args args)
  end.

(** The table of string literals holds each value once, under the names
    [str0], [str1], ... in the order of insertion. *)
Definition string_table_ok (g : gen_state) : Prop :=
  map snd (string_literals g) = map string_name (seq 0 (string_count g))
  /\ NoDup (map fst (string_literals g)).

(** What the code of an expression adds to the state: temporaries taken,
    no label, instructions appended. *)
Definition grows_by (e_ops e_args : nat) (g g' : gen_state) : Prop :=
  temp_count g' = temp_count g + e_ops
  /\ label_count g' = label_count g
  /\ length (instructions g') = length (instructions g) + e_ops + e_args.

(** ** Stack slots and lines of the assembly *)

(** The state of the ASM generator when the code section is complete. *)
Definition asm_state_after (instrs : list asm_input) (string_literals : list (string * string))
  : asm_state :=
  emit_code_section instrs (emit_data_section string_literals (emit_header asm_init)).

(** The slots handed out so far: multiples of 8 between 8 and
    [current_offset], no two names on one slot, at most one name for each
    8 bytes, and the slot at [current_offset] in use. *)
Definition slots_ok (a : asm_state) : Prop :=
  (forall v off, var_offset a !! v = Some off ->
     8 <= off <= current_offset a /\ Nat.divide 8 off)
  /\ (forall v w off, var_offset a !! v = Some off -> var_offset a !! w = Some off -> v = w)
  /\ 8 * size (var_offset a) <= current_offset a
  /\ Nat.divide 8 (current_offset a)
  /\ (0 < current_offset a -> exists v, var_offset a !! v = Some (current_offset a)).

(** [a] with the lines [o] put before its output. *)
Definition with_output (o : list string) (a : asm_state) : asm_state :=
  AsmState (o ++ output a) (var_offset a) (current_offset a) (in_function a)
    (function_name a).

Definition header_lines : list string :=
  [ "; Generado por el compilador"; "; Arquitectura: x86-64 (64 bits)";
    "; Sintaxis: NASM (Intel)"; EmptyString; "bits 64"; "default rel"; EmptyString ].

(** The data section: nothing for an empty table, otherwise the section
    line, one [db] line for each literal in the order of the table, and an
    empty line. *)
Definition data_lines (string_literals : list (string * string)) : list string :=
  match string_literals with
  | [] => []
  | _ =>
      ["section .data"]
      ++ map (fun p => "    " +:+ snd p +:+ ": db " +:+ quoted (escape (fst p)) +:+ ", 0")
           string_literals
      ++ [EmptyString]
  end.

Definition text_lines (instrs : list asm_input) : list string :=
  [ "section .text"; "    extern printf"; "    extern scanf"; "    extern exit"; EmptyString ]
  ++ (if existsb is_main_begin instrs then ["    global main"; EmptyString] else []).

(** The name of the last [FuncBegin] of [instrs], or [d] when there is none. *)
Definition last_begin (instrs : list asm_input) (d : string) : string :=
  fold_left
    (fun acc instr =>
       match instr with
       | FromIR (IRFuncBegin name _) => name
       | _ => acc
       end) instrs d.

(** Nine assignments to nine names in one function. *)
Definition nine_names : list asm_input :=
  FromIR (IRFuncBegin "f" [])
  :: map (fun n => FromIR (IRAssign n "1")) ["a"; "b"; "c"; "d"; "e"; "g"; "h"; "i"; "j"].

(** ** Tokens in the source text *)

(** The text [gap_1 lexeme_1 gap_2 lexeme_2 ... tail]. *)
Fixpoint weave (gaps : list string) (toks : list raw_token) (tail : string) : string :=
  match gaps, toks with
  | gap :: gaps', t :: toks' => gap +:+ raw_lexeme t +:+ weave gaps' toks' tail
  | _, _ => tail
  end.

(** Read from the position [p], each token of [toks] stands after its gap
    at the line and column it records, and no lexeme is empty. *)
Fixpoint placed (p : nat * nat) (gaps : list string) (toks : list raw_token) : Prop :=
  match gaps, toks with
  | gap :: gaps', t :: toks' =>
      (raw_line t, raw_col t) = pos_after gap p
      /\ raw_lexeme t <> EmptyString
      /\ placed (pos_after (raw_lexeme t) (pos_after gap p)) gaps' toks'
  | [], [] => True
  | _, _ => False
  end.

(** The type names of the [tokens] table. *)
Definition type_names : list string := map fst compiled.

(** The number of tokens of [toks] whose type is [ty]. *)
Definition count_type (ty : string) (toks : list raw_token) : nat :=
  length (List.filter (fun t => String.eqb (typ t) ty) toks).

(** A raw token is what some pattern of the table matched. *)
Definition raw_wf (t : raw_token) : Prop :=
  exists p s, first_match compiled p s = Some (typ t, raw_lexeme t).

(** The token types the adapter produces. *)
Definition std_types : list string :=
  ["INT"; "ID"; "NUM"; "STRING"; "EOF"] ++ map snd PUNCT_MAP ++ map snd OP_MAP.

(** A token of the adapter: a known type, and a literal that fits it. *)
Definition token_ok (t : Token) : Prop :=
  In (type t) std_types
  /\ match literal t with
     | LNone => type t <> "NUM" /\ type t <> "STRING"
     | LInt n => type t = "NUM" /\ n = int_of_digits 0 (lexeme t)
     | LFloat f => type t = "NUM" /\ float_lexeme f = lexeme t
     | LStr v => type t = "STRING" /\ v = strip_quotes (lexeme t)
     end.

(** ** Typing of arithmetic *)

Definition arithmetic_ops : list string := ["-"; "*"; "/"; "%"].

(** The result type of an arithmetic operation on numbers: [float] as
    soon as one operand is a [float]. *)
Definition widened (tl tr t : string) : Prop :=
  (tl = "float" \/ tr = "float") /\ t = "float"
  \/ (tl = "int" /\ tr = "int") /\ t = "int".

(** ** Runs of the parser *)

(** The parser's own exceptions: [SyntaxError_] and [SemanticError]. *)
Definition clean (e : parse_error) : Prop :=
  match e with
  | SyntaxError_ _ | SemanticError _ => True
  | IndexError | IllFormedToken => False
  end.

(** A parser state over a token list of the adapter. *)
Definition wf (st : pstate) : Prop := good st /\ Forall token_ok (tokens st).

(** [st'] is [st] with the cursor at least [k] tokens further on: the
    token list, the function table and the return type of the current
    function are the same, and [current] is the token under the cursor. *)
Definition follows (k : nat) (st st' : pstate) : Prop :=
  in_sync st'
  /\ tokens st' = tokens st
  /\ i st + k <= i st'
  /\ functions st' = functions st
  /\ current_function_return_type st' = current_function_return_type st.

(** A run of [m] from [st] returns with the cursor at least [k] tokens
    further on, or raises one of the parser's own exceptions; it does not
    run out of budget. *)
Definition runs {A : Type} (k : nat) (m : M A) (st : pstate) : Prop :=
  match m st with
  | Ok (_, st') => follows k st st'
  | Err e => clean e
  | OutOfFuel => False
  end.

(** A computation stops: it returns, or raises one of the parser's own
    exceptions. *)
Definition stops {A : Type} (r : outcome parse_error A) : Prop :=
  match r with
  | Ok _ => True
  | Err e => clean e
  | OutOfFuel => False
  end.

(** The token stream of [int x = 1;], as the adapter builds it. *)
Definition decl_tokens : list Token :=
  [ mkToken "INT" "int" LNone (1, 1); mkToken "ID" "x" LNone (1, 5);
    mkToken "ASSIGN" "=" LNone (1, 7); mkToken "NUM" "1" (LInt 1) (1, 9);
    mkToken "SEMI" ";" LNone (1, 10); mkToken "EOF" EmptyString LNone (1, 10) ].

(** The ways [compile_file] ends: with its two texts, with an error of the
    lexer or of the adapter, or with one of the parser's own exceptions. *)
Definition ends_well {A : Type} (r : outcome compile_error A) : Prop :=
  match r with
  | Ok _ => True
  | Err (LexicalPhase _) => True
  | Err (ParsePhase e) => clean e
  | OutOfFuel => False
  end.

(** ** Calls the parser accepts *)

(** An argument that is a declared variable. *)
Definition declared_var (sy : gmap string string) (a : Expr) : Prop :=
  exists v, a = Var v /\ is_Some (sy !! v).

(** Each argument paired with a parameter has a type the parameter takes. *)
Fixpoint args_typed (sy : gmap string string) (fs : gmap string func_info)
    (actual : list Expr) (ps : list (string * string)) : Prop :=
  match actual, ps with
  | a :: actual', (expected_type, _) :: ps' =>
      (exists t, typeof sy fs a = Ok t
                 /\ (t = expected_type \/ (t = "int" /\ expected_type = "float")))
      /\ args_typed sy fs actual' ps'
  | _, _ => True
  end.

(** What [func_call] has checked of a call it returns. *)
Definition call_ok (sy : gmap string string) (fs : gmap string func_info)
    (name : string) (actual : list Expr) : Prop :=
  exists ret_type ps variadic,
    fs !! name = Some (ret_type, ps, variadic)
    /\ if String.eqb name "printf" then
         match actual with
         | [] => False
         | [a] => exists t, typeof sy fs a = Ok t
         | _ :: rest => Forall (declared_var sy) rest
         end
       else if String.eqb name "scanf" then
         actual <> [] /\ Forall (declared_var sy) actual
       else
         variadic = false -> length actual = length ps /\ args_typed sy fs actual ps.

(** Every call of an expression, nested ones included, has been checked. *)
Fixpoint calls_ok (sy : gmap string string) (fs : gmap string func_info) (e : Expr) : Prop :=
  match e with
  | Num _ | StringLit _ | Var _ => True
  | UnaryOp _ e' => calls_ok sy fs e'
  | BinOp l _ r => calls_ok sy fs l /\ calls_ok sy fs r
  | FuncCall name actual =>
      call_ok sy fs name actual
      /\ (fix all (l : list Expr) : Prop :=
            match l with
            | [] => True
            | a :: l' => calls_ok sy fs a /\ all l'
            end) actual
  end.

(** [m] leaves the two tables alone and returns checked expressions. *)
Definition same_tables (st st' : pstate) : Prop :=
  symbols st' = symbols st /\ functions st' = functions st.

Definition checks (m : M Expr) : Prop :=
  forall st e st', m st = Ok (e, st') ->
    same_tables st st' /\ calls_ok (symbols st) (functions st) e.

Definition checks_all (m : M (list Expr)) : Prop :=
  forall st es st', m st = Ok (es, st') ->
    same_tables st st' /\ Forall (calls_ok (symbols st) (functions st)) es.

(** The parser state at the start of [decl_tokens], and the tokens of
    [f(x, 1)] with [f(int a, float b)] and [x] declared. *)
Definition call_tokens : list Token :=
  [ mkToken "ID" "f" LNone (1, 1); mkToken "LPAREN" "(" LNone (1, 2);
    mkToken "ID" "x" LNone (1, 3); mkToken "COMMA" "," LNone (1, 4);
    mkToken "NUM" "1" (LInt 1) (1, 6); mkToken "RPAREN" ")" LNone (1, 7);
    mkToken "EOF" EmptyString LNone (1, 7) ].

Definition call_state : pstate :=
  PState call_tokens 0 (mkToken "ID" "f" LNone (1, 1))
    (<["x" := "int"]> ∅)
    (<["f" := ("int", [("int", "a"); ("float", "b")], false)]> ∅)
    None.

(** [t] is accepted where [expected] is declared: the same type, or an
    [int] for a [float]. *)
Definition fits (t expected : string) : Prop :=
  t = expected \/ (t = "int" /\ expected = "float").



(** * Properties *)

(** ** Shared tactics and small facts *)

Ltac destruct_bind H :=
  match type of H with
  | bind ?c _ = _ => let E := fresh "E" in destruct c as [? | ? | ] eqn:E; simpl in H; try discriminate H
  end.

Lemma eqb_true_iff (a b : string) : String.eqb a b = true <-> a = b.
Proof. apply String.eqb_eq. Qed.

Lemma in_ops_In (op : string) (ops : list string) : in_ops op ops = true <-> In op ops.
Proof.
  unfold in_ops. rewrite existsb_exists. split.
  - intros [x [Hx Heq]]. apply String.eqb_eq in Heq. now subst.
  - intros H. exists op. split; [assumption | apply String.eqb_refl].
Qed.

Lemma is_numeric_spec (t : string) : is_numeric t = true <-> numeric t.
Proof.
  unfold is_numeric, numeric. rewrite orb_true_iff, !String.eqb_eq. reflexivity.
Qed.

Lemma is_numeric_false (t : string) : is_numeric t = false <-> ~ numeric t.
Proof.
  rewrite <- is_numeric_spec. destruct (is_numeric t); split; congruence.
Qed.

(** ** Typing of comparisons and logical operations *)

Section Typeof.

Variable sy : gmap string string.
Variable fs : gmap string func_info.

Lemma typeof_comparison_eq l op r tl tr :
  In op comparison_ops ->
  typeof sy fs l = Ok tl -> typeof sy fs r = Ok tr ->
  typeof sy fs (BinOp l op r) =
    if (is_numeric tl && is_numeric tr) || (String.eqb tl tr && String.eqb tr "string")
    then Ok "bool"
    else Err (SemanticError (ComparisonIncompatible op tl tr)).
Proof.
  intros Hop Hl Hr. simpl. rewrite Hl, Hr. simpl.
  unfold comparison_ops in Hop. simpl in Hop.
  destruct Hop as [<-|[<-|[<-|[<-|[<-|[<-|[]]]]]]]; reflexivity.
Qed.

Lemma typeof_logical_eq l op r tl tr :
  In op logical_ops ->
  typeof sy fs l = Ok tl -> typeof sy fs r = Ok tr ->
  typeof sy fs (BinOp l op r) =
    if String.eqb tl tr && String.eqb tr "bool"
    then Ok "bool"
    else Err (SemanticError (LogicalExpectsBool op tl tr)).
Proof.
  intros Hop Hl Hr. simpl. rewrite Hl, Hr. simpl.
  unfold logical_ops in Hop. simpl in Hop.
  destruct Hop as [<-|[<-|[]]]; reflexivity.
Qed.

Lemma both_string_spec tl tr :
  String.eqb tl tr && String.eqb tr "string" = true <-> tl = "string" /\ tr = "string".
Proof.
  rewrite andb_true_iff, !String.eqb_eq. split; intros [H1 H2]; subst; auto.
Qed.

Lemma both_bool_spec tl tr :
  String.eqb tl tr && String.eqb tr "bool" = true <-> tl = "bool" /\ tr = "bool".
Proof.
  rewrite andb_true_iff, !String.eqb_eq. split; intros [H1 H2]; subst; auto.
Qed.

Lemma arith_type_not_bool tl tr : arith_type tl tr <> "bool".
Proof. unfold arith_type. destruct (_ || _); discriminate. Qed.

Lemma typeof_bool_source e : typeof sy fs e = Ok "bool" -> bool_source sy fs e.
Proof.
  destruct e as [v | s | name | op e | l op r | name args]; cbn [typeof]; intros H.
  - destruct v; discriminate.
  - discriminate.
  - destruct (sy !! name) as [t|] eqn:E; [|discriminate].
    injection H as ->. now constructor.
  - destruct (typeof sy fs e) as [t | |]; cbn [bind] in H; try discriminate.
    destruct (is_numeric t) eqn:N; [|discriminate].
    injection H as ->. discriminate.
  - destruct (typeof sy fs l) as [tl | |]; cbn [bind] in H; try discriminate.
    destruct (typeof sy fs r) as [tr | |]; cbn [bind] in H; try discriminate.
    destruct (String.eqb op "+").
    { destruct (String.eqb tl "string" && String.eqb tr "string"); [discriminate|].
      destruct (is_numeric tl && is_numeric tr); [|discriminate].
      injection H as H. now apply arith_type_not_bool in H. }
    destruct (in_ops op ["-"; "*"; "/"; "%"]).
    { destruct (is_numeric tl && is_numeric tr); [|discriminate].
      injection H as H. now apply arith_type_not_bool in H. }
    destruct (in_ops op ["=="; "!="; "<"; ">"; "<="; ">="]) eqn:C.
    { apply bool_comparison. now apply in_ops_In. }
    destruct (in_ops op ["&&"; "||"]) eqn:L; [|discriminate].
    apply bool_logical. now apply in_ops_In.
  - destruct (fs !! name) as [[[rt ps] variadic]|] eqn:E; [|discriminate].
    cbn in H. injection H as ->. econstructor. eassumption.
Qed.

End Typeof.

(** C3, as the code has it. A comparison of two typed operands has type
    [bool] exactly when both are numeric or both are [string], a logical
    operation exactly when both are [bool]; in every other case [typeof]
    raises a semantic error. An expression of type [bool] is a comparison,
    a logical operation, a variable declared with type [bool], or a call
    of a function whose declared return type is [bool]. *)
Theorem typeof_bool_rules :
  forall (sy : gmap string string) (fs : gmap string func_info) (l r : Expr) (op tl tr : string),
    typeof sy fs l = Ok tl -> typeof sy fs r = Ok tr ->
    (In op comparison_ops ->
       (typeof sy fs (BinOp l op r) = Ok "bool"
          <-> (numeric tl /\ numeric tr) \/ (tl = "string" /\ tr = "string"))
       /\ (typeof sy fs (BinOp l op r) <> Ok "bool" ->
           typeof sy fs (BinOp l op r)
             = Err (SemanticError (ComparisonIncompatible op tl tr))))
    /\ (In op logical_ops ->
       (typeof sy fs (BinOp l op r) = Ok "bool" <-> tl = "bool" /\ tr = "bool")
       /\ (typeof sy fs (BinOp l op r) <> Ok "bool" ->
           typeof sy fs (BinOp l op r)
             = Err (SemanticError (LogicalExpectsBool op tl tr))))
    /\ (forall e, typeof sy fs e = Ok "bool" -> bool_source sy fs e).
Proof.
  intros sy fs l r op tl tr Hl Hr. split; [|split].
  - intros Hop. rewrite (typeof_comparison_eq sy fs l op r tl tr) by assumption.
    destruct ((is_numeric tl && is_numeric tr) || (String.eqb tl tr && String.eqb tr "string"))
      eqn:E.
    + split; [|congruence]. split; [intros _|reflexivity].
      apply orb_true_iff in E. destruct E as [E|E].
      * left. apply andb_true_iff in E. now rewrite <- !is_numeric_spec.
      * right. now apply both_string_spec.
    + split; [|reflexivity]. split; [discriminate|]. intros H. exfalso.
      apply orb_false_iff in E. destruct E as [E1 E2]. destruct H as [[H1 H2]|H].
      * apply is_numeric_spec in H1, H2. rewrite H1, H2 in E1. discriminate.
      * apply both_string_spec in H. congruence.
  - intros Hop. rewrite (typeof_logical_eq sy fs l op r tl tr) by assumption.
    destruct (String.eqb tl tr && String.eqb tr "bool") eqn:E.
    + split; [|congruence]. split; [intros _|reflexivity]. now apply both_bool_spec.
    + split; [|reflexivity]. split; [discriminate|]. intros H.
      apply both_bool_spec in H. congruence.
  - apply typeof_bool_source.
Qed.

Lemma typeof_bool_rules_witness :
  typeof ∅ builtin_functions (BinOp (Num (PyInt 1)) "<" (StringLit "a"))
    = Err (SemanticError (ComparisonIncompatible "<" "int" "string"))
  /\ bool_source ∅ builtin_functions (BinOp (Num (PyInt 1)) "<" (Num (PyInt 2))).
Proof.
  pose proof (typeof_bool_rules ∅ builtin_functions (Num (PyInt 1)) (StringLit "a")
                "<" "int" "string" eq_refl eq_refl) as [Hcmp _].
  pose proof (typeof_bool_rules ∅ builtin_functions (Num (PyInt 1)) (Num (PyInt 2))
                "<" "int" "int" eq_refl eq_refl) as [_ [_ Hsrc]].
  split.
  - apply Hcmp; [unfold comparison_ops; simpl; tauto | discriminate].
  - apply Hsrc. reflexivity.
Defined.

(** C3 as the spec states it fails: [bool b; bool c = b;] is accepted, and
    there the variable [b] has type [bool] without being a comparison or a
    logical operation. *)
Lemma bool_variable_counterexample :
  front_end 20 "bool b; bool c = b;"
    = Ok (mkProgram [TopStmt (Decl "b" None); TopStmt (Decl "c" (Some (Var "b")))])
  /\ typeof (<["b" := "bool"]> ∅) builtin_functions (Var "b") = Ok "bool"
  /\ ~ (forall sy fs e, typeof sy fs e = Ok "bool" -> exists l op r, e = BinOp l op r).
Proof.
  split; [vm_compute; reflexivity|].
  split; [vm_compute; reflexivity|].
  intros H.
  destruct (H (<["b" := "bool"]> ∅) builtin_functions (Var "b")) as (l & op & r & E).
  - vm_compute; reflexivity.
  - discriminate.
Qed.

(** ** The prescan never overwrites a function-table entry *)

Lemma register_keeps name ret ps (fs : gmap string func_info) n info :
  fs !! n = Some info -> register name ret ps fs !! n = Some info.
Proof.
  intros H. unfold register. destruct (fs !! name) eqn:E; [assumption|].
  rewrite lookup_insert_ne; [assumption|]. intros ->. congruence.
Qed.

Lemma register_fresh name ret ps (fs : gmap string func_info) :
  fs !! name = None -> register name ret ps fs !! name = Some (ret, ps, false).
Proof. intros H. unfold register. rewrite H. apply lookup_insert_eq. Qed.

Lemma advance_functions st : functions (Parser._advance st) = functions st.
Proof.
  unfold Parser._advance. destruct (_ <? _); [|reflexivity].
  destruct (tokens st !! S (i st)); reflexivity.
Qed.

Lemma advance_tokens st : tokens (Parser._advance st) = tokens st.
Proof.
  unfold Parser._advance. destruct (_ <? _); [|reflexivity].
  destruct (tokens st !! S (i st)); reflexivity.
Qed.

Lemma collect_name_functions ptype ps st ps' st' :
  collect_name ptype ps st = (ps', st') -> functions st' = functions st.
Proof.
  unfold collect_name. destruct (_check "ID" st); intros [= <- <-];
    [apply advance_functions | reflexivity].
Qed.

Lemma collect_params_loop_functions fuel : forall ps st ps' st',
  _collect_params_loop fuel ps st = Ok (ps', st') -> functions st' = functions st.
Proof.
  induction fuel as [|fuel IH]; intros ps st ps' st' H; [discriminate|].
  cbn [_collect_params_loop] in H.
  destruct (_check "COMMA" st); [|now injection H as <- <-].
  destruct (param_type (Parser._advance st)).
  - destruct (collect_name _ _ _) as [ps1 st1] eqn:C.
    apply IH in H. apply collect_name_functions in C.
    rewrite H, C, !advance_functions. reflexivity.
  - injection H as <- <-. apply advance_functions.
Qed.

Lemma collect_params_functions fuel st ps st' :
  _collect_params fuel st = Ok (ps, st') -> functions st' = functions st.
Proof.
  unfold _collect_params. destruct (param_type st).
  - destruct (collect_name _ _ _) as [ps1 st1] eqn:C. intros H.
    apply collect_params_loop_functions in H. apply collect_name_functions in C.
    rewrite H, C. apply advance_functions.
  - now intros [= <- <-].
Qed.

Lemma skip_to_body_functions fuel : forall st n st',
  skip_to_body fuel st = Ok (n, st') -> functions st' = functions st.
Proof.
  induction fuel as [|fuel IH]; intros st n st' H; [discriminate|].
  cbn [skip_to_body] in H. destruct (negb (_check "EOF" st)); [|now injection H as <- <-].
  destruct (_check "LBRACE" st).
  - injection H as <- <-. apply advance_functions.
  - apply IH in H. now rewrite H, advance_functions.
Qed.

Lemma skip_body_functions fuel : forall n st u st',
  skip_body fuel n st = Ok (u, st') -> functions st' = functions st.
Proof.
  induction fuel as [|fuel IH]; intros n st u st' H; [discriminate|].
  cbn [skip_body] in H. destruct ((0 <? n) && negb (_check "EOF" st)).
  - apply IH in H. now rewrite H, advance_functions.
  - now injection H as <- <-.
Qed.

Lemma skip_statement_functions fuel : forall st u st',
  skip_statement fuel st = Ok (u, st') -> functions st' = functions st.
Proof.
  induction fuel as [|fuel IH]; intros st u st' H; [discriminate|].
  cbn [skip_statement] in H. destruct (negb (_check "SEMI" st) && negb (_check "EOF" st)).
  - apply IH in H. now rewrite H, advance_functions.
  - now injection H as <- <-.
Qed.

(** A declaration met by the prescan goes through [register]. *)
Lemma collect_one_functions fuel st u st' :
  collect_one fuel st = Ok (u, st') ->
  exists ps,
    functions st' = register (declared_name st) (declared_return_type st) ps (functions st).
Proof.
  unfold collect_one. intros H.
  set (st2 := Parser._advance (Parser._advance (Parser._advance st))) in *.
  destruct (if negb (_check "RPAREN" st2) then _collect_params fuel st2 else Ok ([], st2))
    as [[ps st3] | |] eqn:P; cbn [bind] in H; try discriminate.
  assert (F3 : functions st3 = functions st).
  { destruct (negb (_check "RPAREN" st2)).
    - apply collect_params_functions in P. rewrite P. unfold st2.
      now rewrite !advance_functions.
    - injection P as _ <-. unfold st2. now rewrite !advance_functions. }
  destruct (skip_to_body fuel _) as [[n st5] | |] eqn:B; cbn [bind] in H; try discriminate.
  apply skip_to_body_functions in B. apply skip_body_functions in H.
  exists ps. rewrite H, B. cbn. rewrite F3. reflexivity.
Qed.

Lemma collect_loop_keeps fuel : forall st u st' n info,
  collect_loop fuel st = Ok (u, st') ->
  functions st !! n = Some info -> functions st' !! n = Some info.
Proof.
  induction fuel as [|fuel IH]; intros st u st' n info H Hn; [discriminate|].
  cbn [collect_loop] in H. destruct (negb (_check "EOF" st)); [|now injection H as _ <-].
  destruct (_is_function_declaration st).
  - destruct (collect_one fuel st) as [[u1 st1] | |] eqn:C; cbn [bind] in H; try discriminate.
    apply collect_one_functions in C. destruct C as [ps C].
    eapply IH; [exact H|]. rewrite C. now apply register_keeps.
  - destruct (skip_statement fuel st) as [[u1 st1] | |] eqn:C; cbn [bind] in H;
      try discriminate.
    apply skip_statement_functions in C.
    eapply IH; [exact H|].
    destruct (_check "SEMI" st1); rewrite ?advance_functions, C; assumption.
Qed.

Lemma prescan_keeps fuel st u st' n info :
  _collect_function_declarations fuel st = Ok (u, st') ->
  functions st !! n = Some info -> functions st' !! n = Some info.
Proof.
  unfold _collect_function_declarations. intros H Hn.
  destruct (collect_loop fuel st) as [[u1 st1] | |] eqn:C; cbn [bind] in H; try discriminate.
  injection H as _ <-. cbn. eapply collect_loop_keeps; eassumption.
Qed.

(** ** The prescan terminates on a stream that ends with [EOF] *)

Lemma check_true ttype st : _check ttype st = true -> type (current st) = ttype.
Proof. unfold _check. apply String.eqb_eq. Qed.

Lemma check_not_eof ttype st :
  ttype <> "EOF" -> _check ttype st = true -> _check "EOF" st = false.
Proof.
  intros Hne H. apply check_true in H. unfold _check. rewrite H.
  now apply String.eqb_neq.
Qed.

Lemma in_sync_lt st : in_sync st -> i st < length (tokens st).
Proof. unfold in_sync. intros H. now apply lookup_lt_Some in H. Qed.

Lemma advance_in_sync st : in_sync st -> in_sync (Parser._advance st).
Proof.
  unfold in_sync, Parser._advance. intros H.
  destruct (_ <? _); [|assumption].
  destruct (tokens st !! S (i st)) eqn:E; [|assumption]. exact E.
Qed.

Lemma advance_i_le st : i st <= i (Parser._advance st).
Proof.
  unfold Parser._advance. destruct (_ <? _); [|lia].
  destruct (tokens st !! S (i st)); cbn; lia.
Qed.

Lemma advance_good st : good st -> good (Parser._advance st).
Proof.
  intros [H1 H2]. split; [now apply advance_in_sync | now rewrite advance_tokens].
Qed.

Lemma advance_advanced st : good st -> advanced st (Parser._advance st).
Proof.
  intros H. split; [now apply advance_good|].
  split; [apply advance_tokens | apply advance_i_le].
Qed.

Lemma advanced_refl st : good st -> advanced st st.
Proof. intros H. split; [assumption|]. split; [reflexivity | lia]. Qed.

Lemma advanced_trans st1 st2 st3 : advanced st1 st2 -> advanced st2 st3 -> advanced st1 st3.
Proof.
  intros (_ & T1 & L1) (G & T2 & L2). split; [assumption|].
  split; [congruence | lia].
Qed.

Lemma advance_step st : S (i st) < length (tokens st) -> i (Parser._advance st) = S (i st).
Proof.
  intros H. unfold Parser._advance.
  assert (E : (i st <? length (tokens st) - 1) = true) by (apply Nat.ltb_lt; lia).
  rewrite E. destruct (tokens st !! S (i st)) eqn:L; [reflexivity|].
  apply lookup_ge_None in L. lia.
Qed.

(** Away from [EOF] the cursor is not on the last token, so [_advance] moves. *)
Lemma advance_progress st :
  good st -> _check "EOF" st = false -> i (Parser._advance st) = S (i st).
Proof.
  intros [Hs (pre & t & Ht & Heof)] Hc. apply advance_step.
  pose proof (in_sync_lt st Hs) as Hlt.
  destruct (decide (S (i st) = length (tokens st))) as [E|E]; [|lia].
  exfalso. unfold in_sync in Hs. rewrite Ht in Hs, E.
  rewrite length_app in E. cbn in E.
  assert (Hi : i st = length pre) by lia.
  rewrite Hi, lookup_app_r, Nat.sub_diag in Hs by lia. cbn in Hs.
  injection Hs as Hs. unfold _check in Hc. rewrite <- Hs, Heof in Hc. discriminate.
Qed.

Lemma remaining_advance st :
  good st -> _check "EOF" st = false -> S (remaining (Parser._advance st)) = remaining st.
Proof.
  intros G Hc. unfold remaining. rewrite advance_tokens, (advance_progress st G Hc).
  destruct G as [Hs _]. apply in_sync_lt in Hs. lia.
Qed.

Lemma remaining_advanced st st' : advanced st st' -> remaining st' <= remaining st.
Proof. intros (_ & T & L). unfold remaining. rewrite T. lia. Qed.

Lemma skip_statement_total fuel : forall st,
  good st -> remaining st <= fuel ->
  exists st', skip_statement fuel st = Ok (tt, st') /\ advanced st st'
    /\ (_check "SEMI" st = true -> st' = st)
    /\ (_check "SEMI" st = false -> _check "EOF" st = false -> i st < i st').
Proof.
  induction fuel as [|fuel IH]; intros st G R.
  { destruct G as [Hs _]. apply in_sync_lt in Hs. unfold remaining in R. lia. }
  cbn [skip_statement].
  destruct (_check "SEMI" st) eqn:S1; cbn [negb andb].
  { exists st. split; [reflexivity|]. split; [now apply advanced_refl|].
    split; [reflexivity | discriminate]. }
  destruct (_check "EOF" st) eqn:S2; cbn [negb].
  { exists st. split; [reflexivity|]. split; [now apply advanced_refl|].
    split; discriminate. }
  destruct (IH (Parser._advance st)) as (st' & H & A & _).
  - now apply advance_good.
  - pose proof (remaining_advance st G S2). lia.
  - exists st'. split; [assumption|]. split.
    + eapply advanced_trans; [now apply advance_advanced | eassumption].
    + split; [discriminate|].
      intros _ _. destruct A as (_ & _ & L). rewrite (advance_progress st G S2) in L. lia.
Qed.

Lemma skip_to_body_total fuel : forall st,
  good st -> remaining st <= fuel ->
  exists n st', skip_to_body fuel st = Ok (n, st') /\ advanced st st'.
Proof.
  induction fuel as [|fuel IH]; intros st G R.
  { destruct G as [Hs _]. apply in_sync_lt in Hs. unfold remaining in R. lia. }
  cbn [skip_to_body]. destruct (_check "EOF" st) eqn:S2; cbn [negb].
  { exists 0, st. split; [reflexivity | now apply advanced_refl]. }
  destruct (_check "LBRACE" st).
  { exists 1, (Parser._advance st). split; [reflexivity | now apply advance_advanced]. }
  destruct (IH (Parser._advance st)) as (n & st' & H & A).
  - now apply advance_good.
  - pose proof (remaining_advance st G S2). lia.
  - exists n, st'. split; [assumption|].
    eapply advanced_trans; [now apply advance_advanced | eassumption].
Qed.

Lemma skip_body_total fuel : forall n st,
  good st -> remaining st <= fuel ->
  exists st', skip_body fuel n st = Ok (tt, st') /\ advanced st st'.
Proof.
  induction fuel as [|fuel IH]; intros n st G R.
  { destruct G as [Hs _]. apply in_sync_lt in Hs. unfold remaining in R. lia. }
  cbn [skip_body]. destruct (0 <? n); cbn [andb].
  2:{ exists st. split; [reflexivity | now apply advanced_refl]. }
  destruct (_check "EOF" st) eqn:S2; cbn [negb].
  { exists st. split; [reflexivity | now apply advanced_refl]. }
  match goal with |- context [skip_body fuel ?m _] => destruct (IH m (Parser._advance st)) as (st' & H & A) end.
  - now apply advance_good.
  - pose proof (remaining_advance st G S2). lia.
  - exists st'. split; [assumption|].
    eapply advanced_trans; [now apply advance_advanced | eassumption].
Qed.

Lemma collect_name_advanced ptype ps st ps' st' :
  good st -> collect_name ptype ps st = (ps', st') -> advanced st st'.
Proof.
  intros G. unfold collect_name. destruct (_check "ID" st); intros [= <- <-];
    [now apply advance_advanced | now apply advanced_refl].
Qed.

Lemma collect_params_loop_total fuel : forall ps st,
  good st -> remaining st <= fuel ->
  exists ps' st', _collect_params_loop fuel ps st = Ok (ps', st') /\ advanced st st'.
Proof.
  induction fuel as [|fuel IH]; intros ps st G R.
  { destruct G as [Hs _]. apply in_sync_lt in Hs. unfold remaining in R. lia. }
  cbn [_collect_params_loop]. destruct (_check "COMMA" st) eqn:C.
  2:{ exists ps, st. split; [reflexivity | now apply advanced_refl]. }
  assert (S2 : _check "EOF" st = false) by (eapply check_not_eof; [|exact C]; discriminate).
  pose proof (advance_advanced st G) as A1.
  destruct (param_type (Parser._advance st)) as [ptype|].
  2:{ exists ps, (Parser._advance st). split; [reflexivity | assumption]. }
  destruct (collect_name ptype ps _) as [ps1 st1] eqn:N.
  pose proof (advance_good _ (advance_good st G)) as G2.
  pose proof (collect_name_advanced _ _ _ _ _ G2 N) as A3.
  pose proof (advance_advanced _ (advance_good st G)) as A2.
  pose proof (advanced_trans _ _ _ A1 (advanced_trans _ _ _ A2 A3)) as A.
  destruct (IH ps1 st1) as (ps' & st' & H & A').
  - apply A3.
  - pose proof (remaining_advance st G S2).
    pose proof (remaining_advanced _ _ (advanced_trans _ _ _ A2 A3)). lia.
  - exists ps', st'. split; [assumption|]. eapply advanced_trans; eassumption.
Qed.

Lemma collect_params_total fuel st :
  good st -> remaining st <= fuel ->
  exists ps st', _collect_params fuel st = Ok (ps, st') /\ advanced st st'.
Proof.
  intros G R. unfold _collect_params. destruct (param_type st) as [ptype|].
  2:{ exists [], st. split; [reflexivity | now apply advanced_refl]. }
  destruct (collect_name ptype [] _) as [ps1 st1] eqn:N.
  pose proof (advance_advanced st G) as A1.
  pose proof (collect_name_advanced _ _ _ _ _ (advance_good st G) N) as A2.
  pose proof (advanced_trans _ _ _ A1 A2) as A.
  destruct (collect_params_loop_total fuel ps1 st1) as (ps' & st' & H & A').
  - apply A2.
  - pose proof (remaining_advanced _ _ A). lia.
  - exists ps', st'. split; [assumption|]. eapply advanced_trans; eassumption.
Qed.

Lemma is_function_declaration_room st :
  _is_function_declaration st = true -> S (S (i st)) < length (tokens st).
Proof.
  unfold _is_function_declaration. destruct (length (tokens st) <=? i st + 2) eqn:E;
    [discriminate|]. intros _. apply Nat.leb_gt in E. lia.
Qed.

Lemma set_functions_good fs st : good st -> good (set_functions fs st).
Proof. intros G. exact G. Qed.

Lemma collect_one_total fuel st :
  good st -> _is_function_declaration st = true -> remaining st <= S fuel ->
  exists st', collect_one fuel st = Ok (tt, st') /\ advanced st st' /\ i st < i st'.
Proof.
  intros G D R. unfold collect_one.
  pose proof (is_function_declaration_room st D) as Room.
  pose proof (advance_step st ltac:(lia)) as I1.
  pose proof (advance_advanced st G) as A1.
  set (st1 := Parser._advance st) in *.
  pose proof (advance_advanced st1 (advance_good st G)) as A2.
  set (st1' := Parser._advance st1) in *.
  assert (G1' : good st1') by apply A2.
  pose proof (advance_advanced st1' G1') as A3.
  set (st2 := Parser._advance st1') in *.
  assert (A02 : advanced st st2).
  { eapply advanced_trans; [exact A1|]. eapply advanced_trans; eassumption. }
  assert (R2 : remaining st2 <= fuel).
  { pose proof (remaining_advanced _ _ (advanced_trans _ _ _ A2 A3)) as R'.
    unfold remaining in *. destruct A1 as (_ & T1 & _). rewrite T1 in R'. lia. }
  assert (P : exists ps st3,
             (if negb (_check "RPAREN" st2) then _collect_params fuel st2 else Ok ([], st2))
               = Ok (ps, st3) /\ advanced st2 st3).
  { destruct (negb (_check "RPAREN" st2)).
    - apply collect_params_total; [apply A3 | assumption].
    - exists [], st2. split; [reflexivity | apply advanced_refl, A3]. }
  destruct P as (ps & st3 & -> & A23). cbn [bind].
  set (st4 := set_functions _ st3).
  assert (A34 : advanced st3 st4).
  { split; [apply A23|]. split; [reflexivity | cbn; lia]. }
  destruct (skip_to_body_total fuel st4) as (n & st5 & -> & A45).
  { apply A34. }
  { pose proof (remaining_advanced _ _ (advanced_trans _ _ _ A23 A34)). lia. }
  cbn [bind].
  destruct (skip_body_total fuel n st5) as (st6 & -> & A56).
  { apply A45. }
  { pose proof (remaining_advanced _ _
                  (advanced_trans _ _ _ A23 (advanced_trans _ _ _ A34 A45))). lia. }
  exists st6. split; [reflexivity|].
  assert (A : advanced st1 st6).
  { eapply advanced_trans; [exact A2|]. eapply advanced_trans; [exact A3|].
    eapply advanced_trans; [exact A23|]. eapply advanced_trans; [exact A34|].
    eapply advanced_trans; eassumption. }
  split; [exact (advanced_trans _ _ _ A1 A)|].
  destruct A as (_ & _ & L). lia.
Qed.

Lemma collect_loop_total fuel : forall st,
  good st -> remaining st < fuel ->
  exists st', collect_loop fuel st = Ok (tt, st') /\ advanced st st'.
Proof.
  induction fuel as [|fuel IH]; intros st G R; [lia|].
  cbn [collect_loop]. destruct (_check "EOF" st) eqn:S2; cbn [negb].
  { exists st. split; [reflexivity | now apply advanced_refl]. }
  destruct (_is_function_declaration st) eqn:D.
  - destruct (collect_one_total fuel st G D) as (st1 & -> & A1 & L1); [lia|].
    cbn [bind]. destruct (IH st1) as (st' & H & A').
    + apply A1.
    + destruct A1 as (_ & T & _). pose proof (in_sync_lt st (proj1 G)).
      unfold remaining in *. rewrite T. lia.
    + exists st'. split; [assumption|]. eapply advanced_trans; eassumption.
  - destruct (skip_statement_total fuel st G) as (st1 & -> & A1 & E1 & L1); [lia|].
    cbn [bind].
    set (st2 := if _check "SEMI" st1 then Parser._advance st1 else st1).
    assert (A12 : advanced st1 st2).
    { unfold st2. destruct (_check "SEMI" st1);
        [apply advance_advanced | apply advanced_refl]; apply A1. }
    assert (L : i st < i st2).
    { destruct (_check "SEMI" st) eqn:S1.
      - unfold st2. rewrite (E1 eq_refl), S1.
        rewrite (advance_progress st G S2). lia.
      - specialize (L1 eq_refl S2). destruct A12 as (_ & _ & L2). lia. }
    destruct (IH st2) as (st' & H & A').
    + apply A12.
    + destruct A1 as (_ & T1 & _). destruct A12 as (_ & T2 & _).
      pose proof (in_sync_lt st (proj1 G)).
      unfold remaining in *. rewrite T2, T1. lia.
    + exists st'. split; [assumption|].
      eapply advanced_trans; [exact A1|]. eapply advanced_trans; eassumption.
Qed.

Lemma parser_init_good toks st0 :
  Parser_init toks = Ok st0 -> ends_with_eof toks ->
  good st0 /\ tokens st0 = toks /\ i st0 = 0
  /\ functions st0 = builtin_functions.
Proof.
  unfold Parser_init. destruct (toks !! 0) as [t|] eqn:E; [|discriminate].
  intros [= <-] H. repeat split; try reflexivity; assumption.
Qed.

Lemma register_lookup name ret ps (fs : gmap string func_info) :
  register name ret ps fs !! name = Some (default (ret, ps, false) (fs !! name)).
Proof.
  destruct (fs !! name) as [info|] eqn:E.
  - cbn. now apply register_keeps.
  - cbn. now apply register_fresh.
Qed.



(** The same stream through the code: [printf] keeps its built-in entry
    and [f] the signature of its first declaration. *)
Example prescan_clash_entries :
  match Parser_init (tokens_of clash_source) with
  | Ok st0 =>
      match _collect_function_declarations 100 st0 with
      | Ok (_, st') => (functions st' !! "printf", functions st' !! "f")
      | _ => (None, None)
      end
  | _ => (None, None)
  end = (Some ("int", [], true), Some ("int", [], false)).
Proof. vm_compute. reflexivity. Qed.

(** ** The symbol table is cleared around a function declaration *)

Lemma advance_symbols st : symbols (Parser._advance st) = symbols st.
Proof.
  unfold Parser._advance. destruct (_ <? _); [|reflexivity].
  destruct (tokens st !! S (i st)); reflexivity.
Qed.

Lemma consume_symbols ttype st tok st' :
  _consume ttype st = Ok (tok, st') -> symbols st' = symbols st.
Proof.
  unfold _consume. destruct (_check ttype st); [|discriminate].
  intros [= _ <-]. apply advance_symbols.
Qed.

Lemma goto_symbols k st st' : goto k st = Ok st' -> symbols st' = symbols st.
Proof. unfold goto. destruct (tokens st !! k); [|discriminate]. now intros [= <-]. Qed.

Section ExpressionsKeepSymbols.

Variable expr_ : M Expr.
Hypothesis expr_keeps : keeps_symbols expr_.

Lemma args_loop_keeps fuel : forall acc, keeps_symbols (args_loop expr_ fuel acc).
Proof.
  induction fuel as [|fuel IH]; intros acc st a st' H; [discriminate|].
  cbn [args_loop] in H. destruct (_check "COMMA" st); [|now injection H as _ <-].
  destruct (expr_ (Parser._advance st)) as [[e st1] | |] eqn:E; cbn [bind] in H;
    try discriminate.
  apply IH in H. apply expr_keeps in E. now rewrite H, E, advance_symbols.
Qed.

Lemma args_keeps fuel : keeps_symbols (args expr_ fuel).
Proof.
  intros st a st' H. unfold args in H.
  destruct (expr_ st) as [[e st1] | |] eqn:E; cbn [bind] in H; try discriminate.
  apply args_loop_keeps in H. apply expr_keeps in E. congruence.
Qed.

Lemma func_call_keeps fuel : keeps_symbols (func_call expr_ fuel).
Proof.
  intros st a st' H. unfold func_call in H.
  destruct (_consume "ID" st) as [[tok st1] | |] eqn:E1; cbn [bind] in H; try discriminate.
  destruct (functions st1 !! lexeme tok); [|discriminate].
  destruct (_consume "LPAREN" st1) as [[tok2 st2] | |] eqn:E2; cbn [bind] in H;
    try discriminate.
  destruct (if negb (_check "RPAREN" st2) then args expr_ fuel st2 else Ok ([], st2))
    as [[actual st3] | |] eqn:E3; cbn [bind] in H; try discriminate.
  destruct (_consume "RPAREN" st3) as [[tok4 st4] | |] eqn:E4; cbn [bind] in H;
    try discriminate.
  destruct (functions st4 !! lexeme tok) as [[[rt ps] variadic]|]; [|discriminate].
  match type of H with bind ?c _ = _ => destruct c; cbn [bind] in H; try discriminate end.
  injection H as _ <-.
  apply consume_symbols in E1, E2, E4.
  assert (E3' : symbols st3 = symbols st2).
  { destruct (negb (_check "RPAREN" st2)); [now apply args_keeps in E3|].
    now injection E3 as _ <-. }
  congruence.
Qed.

Lemma factor_keeps fuel : keeps_symbols (factor expr_ fuel).
Proof.
  induction fuel as [|fuel IH]; intros st a st' H; [discriminate|].
  cbn [factor] in H.
  destruct (_check "PLUS" st || _check "MINUS" st).
  { destruct (factor expr_ fuel (Parser._advance st)) as [[e st1] | |] eqn:E;
      cbn [bind] in H; try discriminate.
    injection H as _ <-. apply IH in E. now rewrite E, advance_symbols. }
  destruct (_check "NUM" st).
  { destruct (literal (current st)); try discriminate; injection H as _ <-;
      apply advance_symbols. }
  destruct (_check "STRING" st).
  { destruct (literal (current st)); try discriminate; injection H as _ <-;
      apply advance_symbols. }
  destruct (_check "ID" st).
  { destruct (_check "LPAREN" (Parser._advance st)).
    - destruct (goto _ _) as [st2 | |] eqn:E; cbn [bind] in H; try discriminate.
      apply func_call_keeps in H. apply goto_symbols in E.
      now rewrite H, E, advance_symbols.
    - injection H as _ <-. apply advance_symbols. }
  destruct (_check "LPAREN" st); [|discriminate].
  destruct (expr_ (Parser._advance st)) as [[e st1] | |] eqn:E; cbn [bind] in H;
    try discriminate.
  destruct (_consume "RPAREN" st1) as [[tok st2] | |] eqn:E2; cbn [bind] in H;
    try discriminate.
  injection H as _ <-. apply expr_keeps in E. apply consume_symbols in E2.
  now rewrite E2, E, advance_symbols.
Qed.

Lemma binary_loop_keeps ttypes (sub : M Expr) :
  keeps_symbols sub -> forall fuel lhs, keeps_symbols (binary_loop ttypes sub fuel lhs).
Proof.
  intros Hsub. induction fuel as [|fuel IH]; intros lhs st a st' H; [discriminate|].
  cbn [binary_loop] in H. destruct (existsb _ ttypes); [|now injection H as _ <-].
  destruct (sub (Parser._advance st)) as [[rhs st1] | |] eqn:E; cbn [bind] in H;
    try discriminate.
  apply IH in H. apply Hsub in E. now rewrite H, E, advance_symbols.
Qed.

Lemma binary_level_keeps ttypes (sub : M Expr) fuel :
  keeps_symbols sub -> keeps_symbols (binary_level ttypes sub fuel).
Proof.
  intros Hsub st a st' H. unfold binary_level in H.
  destruct (sub st) as [[lhs st1] | |] eqn:E; cbn [bind] in H; try discriminate.
  apply (binary_loop_keeps ttypes sub Hsub) in H. apply Hsub in E. congruence.
Qed.

Lemma logical_or_body_keeps fuel : keeps_symbols (logical_or_body expr_ fuel).
Proof.
  unfold logical_or_body, logical_and, equality, relational, additive, term.
  repeat apply binary_level_keeps. apply factor_keeps.
Qed.

End ExpressionsKeepSymbols.

Lemma logical_or_keeps fuel : keeps_symbols (logical_or fuel).
Proof.
  induction fuel as [|fuel IH]; [intros st a st' H; discriminate|].
  cbn [logical_or]. now apply logical_or_body_keeps.
Qed.

Lemma consume_semi_symbols semi st u st' :
  consume_semi semi st = Ok (u, st') -> symbols st' = symbols st.
Proof.
  unfold consume_semi. destruct semi; [|now intros [= _ <-]].
  destruct (_consume "SEMI" st) as [[tok st1] | |] eqn:E; cbn [bind]; try discriminate.
  intros [= _ <-]. now apply consume_symbols in E.
Qed.

(** With the target absent from the symbol table an assignment never
    succeeds, and once its text is parsed it raises the undeclared-variable
    error. *)
Lemma assign_undeclared semi fuel st :
  symbols st !! lexeme (current st) = None ->
  (forall r, assign_gen semi fuel st <> Ok r)
  /\ (forall tok st2 e st3 u st4,
        _check "ID" st = true ->
        _consume "ASSIGN" (Parser._advance st) = Ok (tok, st2) ->
        logical_or fuel st2 = Ok (e, st3) ->
        consume_semi semi st3 = Ok (u, st4) ->
        assign_gen semi fuel st
          = Err (SemanticError (AssignUndeclared (lexeme (current st))))).
Proof.
  intros Hx.
  assert (K : forall tok st1 tok2 st2 e st3 u st4,
             _consume "ID" st = Ok (tok, st1) ->
             _consume "ASSIGN" st1 = Ok (tok2, st2) ->
             logical_or fuel st2 = Ok (e, st3) ->
             consume_semi semi st3 = Ok (u, st4) ->
             symbols st4 !! lexeme tok = None).
  { intros tok st1 tok2 st2 e st3 u st4 E1 E2 E3 E4.
    assert (tok = current st).
    { unfold _consume in E1. destruct (_check "ID" st); [|discriminate].
      now injection E1 as <- _. }
    subst tok.
    apply consume_symbols in E1, E2. apply logical_or_keeps in E3.
    apply consume_semi_symbols in E4. congruence. }
  split.
  - intros r H. unfold assign_gen in H.
    destruct (_consume "ID" st) as [[tok st1] | |] eqn:E1; cbn [bind] in H; try discriminate.
    destruct (_consume "ASSIGN" st1) as [[tok2 st2] | |] eqn:E2; cbn [bind] in H;
      try discriminate.
    destruct (logical_or fuel st2) as [[e st3] | |] eqn:E3; cbn [bind] in H;
      try discriminate.
    destruct (consume_semi semi st3) as [[u st4] | |] eqn:E4; cbn [bind] in H;
      try discriminate.
    rewrite (K _ _ _ _ _ _ _ _ eq_refl E2 E3 E4) in H. discriminate.
  - intros tok st2 e st3 u st4 Hid E2 E3 E4. unfold assign_gen.
    assert (E1 : _consume "ID" st = Ok (current st, Parser._advance st)).
    { unfold _consume. now rewrite Hid. }
    rewrite E1. cbn [bind]. rewrite E2. cbn [bind]. rewrite E3. cbn [bind].
    rewrite E4. cbn [bind].
    now rewrite (K _ _ _ _ _ _ _ _ E1 E2 E3 E4).
Qed.

Lemma advance_set_symbols sy st :
  Parser._advance (set_symbols sy st) = set_symbols sy (Parser._advance st).
Proof.
  destruct st as [tk k cur s f r]. unfold Parser._advance, set_symbols.
  cbn [tokens i current symbols functions current_function_return_type].
  destruct (k <? length tk - 1); [|reflexivity].
  destruct (tk !! S k); reflexivity.
Qed.

Lemma consume_set_symbols ttype sy st :
  _consume ttype (set_symbols sy st)
  = match _consume ttype st with
    | Ok (tok, st') => Ok (tok, set_symbols sy st')
    | Err e => Err e
    | OutOfFuel => OutOfFuel
    end.
Proof.
  unfold _consume. change (_check ttype (set_symbols sy st)) with (_check ttype st).
  rewrite advance_set_symbols. destruct (_check ttype st); reflexivity.
Qed.

Lemma func_decl_ignores_symbols fuel sy st :
  func_decl fuel (set_symbols sy st) = func_decl fuel st.
Proof.
  unfold func_decl.
  change (_check "INT" (set_symbols sy st)) with (_check "INT" st).
  change (_check "ID" (set_symbols sy st)) with (_check "ID" st).
  rewrite advance_set_symbols.
  assert (K : forall rt s',
             bind (_consume "ID" (set_symbols sy s'))
               (fun '(name_tok, st2) =>
                  let name := lexeme name_tok in
                  let st3 := set_symbols ∅ st2 in
                  bind (_consume "LPAREN" st3) (fun '(_, st4) =>
                  bind (if negb (_check "RPAREN" st4) then params fuel st4 else Ok ([], st4))
                    (fun '(ps, st5) =>
                  bind (_consume "RPAREN" st5) (fun '(_, st6) =>
                  let prev_return_type := current_function_return_type st6 in
                  let st7 := set_return_type (Some rt) st6 in
                  bind (block (stmt fuel) fuel st7) (fun '(body, st8) =>
                  let st9 := set_return_type prev_return_type (set_symbols ∅ st8) in
                  Ok (FuncDecl rt name ps body, st9))))))
             = bind (_consume "ID" s')
               (fun '(name_tok, st2) =>
                  let name := lexeme name_tok in
                  let st3 := set_symbols ∅ st2 in
                  bind (_consume "LPAREN" st3) (fun '(_, st4) =>
                  bind (if negb (_check "RPAREN" st4) then params fuel st4 else Ok ([], st4))
                    (fun '(ps, st5) =>
                  bind (_consume "RPAREN" st5) (fun '(_, st6) =>
                  let prev_return_type := current_function_return_type st6 in
                  let st7 := set_return_type (Some rt) st6 in
                  bind (block (stmt fuel) fuel st7) (fun '(body, st8) =>
                  let st9 := set_return_type prev_return_type (set_symbols ∅ st8) in
                  Ok (FuncDecl rt name ps body, st9))))))).
  { intros rt s'. rewrite consume_set_symbols.
    destruct (_consume "ID" s') as [[tok s2] | |]; reflexivity. }
  destruct (_check "INT" st); cbn [bind]; [apply K|].
  destruct (_check "ID" st); cbn [bind]; [apply K | reflexivity].
Qed.

Lemma func_decl_clears_on_exit fuel st it st' :
  func_decl fuel st = Ok (it, st') -> symbols st' = ∅.
Proof.
  unfold func_decl. intros H.
  repeat match type of H with
         | bind ?c _ = _ => destruct c as [[? ?] | |]; cbn [bind] in H; try discriminate
         end.
  now injection H as _ <-.
Qed.



(** [state_at_function] is the state in which [parse] meets the
    declaration of [f] in [shadow_source]. *)
Example state_at_function_reached :
  (let* st0 := Parser_init (tokens_of shadow_source) in
   let* (_, st1) := _collect_function_declarations 30 st0 in
   let* st2 := goto 0 st1 in
   let* (_, st3) := top_level 30 st2 in
   Ok st3) = Ok state_at_function.
Proof. vm_compute. reflexivity. Qed.

(** The program of the claim, through the code. *)
Example shadow_source_rejected :
  front_end 30 shadow_source = Err (ParsePhase (SemanticError (AssignUndeclared "x"))).
Proof. vm_compute. reflexivity. Qed.


(** ** The IR generator only appends *)

Lemma extends_refl g : extends g g.
Proof. exists []. now rewrite app_nil_r. Qed.

Lemma extends_trans g1 g2 g3 : extends g1 g2 -> extends g2 g3 -> extends g1 g3.
Proof.
  intros [o1 H1] [o2 H2]. exists (o1 ++ o2). now rewrite H2, H1, app_assoc.
Qed.

Lemma extends_emit instr g : extends g (IR.emit instr g).
Proof. now exists [instr]. Qed.

Lemma extends_same g g' : instructions g' = instructions g -> extends g g'.
Proof. intros H. exists []. now rewrite H, app_nil_r. Qed.

Lemma extends_new_temp g : extends g (snd (new_temp g)).
Proof. now apply extends_same. Qed.

Lemma extends_new_label g : extends g (snd (new_label g)).
Proof. now apply extends_same. Qed.

Lemma extends_new_string v g : extends g (snd (new_string v g)).
Proof. unfold new_string. destruct (dict_get v _); now apply extends_same. Qed.

Lemma extends_emit_r instr g g' : extends g g' -> extends g (IR.emit instr g').
Proof. intros H. eapply extends_trans; [exact H | apply extends_emit]. Qed.

Lemma extends_with g g' tc lc sl sc :
  extends g g' -> extends g (GenState (instructions g') tc lc sl sc).
Proof. intros H. eapply extends_trans; [exact H | now apply extends_same]. Qed.

Ltac extends_steps :=
  repeat first [ apply extends_emit_r | apply extends_with ].

Lemma code_of_extends (f : gen_state -> gen_state) g :
  extends g (f g) -> instructions (f g) = instructions g ++ code_of f g.
Proof.
  intros [out H]. unfold code_of. rewrite H. now rewrite drop_app_length.
Qed.

Section GeneratorAppends.

Variable float_str : pyfloat -> string.

Lemma visit_expr_call name args g :
  visit_expr float_str (FuncCall name args) g
  = let '(arg_temps, g1) := visit_args float_str args [] g in
    let '(temp, g2) := new_temp g1 in
    (temp, IR.emit (IRCall (Some temp) name arg_temps) g2).
Proof. reflexivity. Qed.

Lemma visit_stmt_if condition then_block else_block g :
  visit_stmt float_str (IfStmt condition then_block else_block) g
  = let '(cond, g1) := visit_expr float_str condition g in
    let '(label_then, g2) := new_label g1 in
    let '(label_end, g3) := new_label g2 in
    let '(label_else, g4) :=
      match else_block with
      | Some _ => new_label g3
      | None => (label_end, g3)
      end in
    let g5 := IR.emit (IRIfFalseGoto cond label_else) g4 in
    let g6 := IR.emit (IRLabel label_then) g5 in
    let g7 := visit_block float_str then_block g6 in
    let g8 :=
      match else_block with
      | Some b =>
          visit_block float_str b
            (IR.emit (IRLabel label_else) (IR.emit (IRGoto label_end) g7))
      | None => g7
      end in
    IR.emit (IRLabel label_end) g8.
Proof. reflexivity. Qed.

Lemma visit_stmt_while condition body g :
  visit_stmt float_str (WhileStmt condition body) g
  = let '(label_start, g1) := new_label g in
    let '(label_body, g2) := new_label g1 in
    let '(label_end, g3) := new_label g2 in
    let g4 := IR.emit (IRLabel label_start) g3 in
    let '(cond, g5) := visit_expr float_str condition g4 in
    let g6 := IR.emit (IRIfFalseGoto cond label_end) g5 in
    let g7 := IR.emit (IRLabel label_body) g6 in
    let g8 := visit_block float_str body g7 in
    let g9 := IR.emit (IRGoto label_start) g8 in
    IR.emit (IRLabel label_end) g9.
Proof. reflexivity. Qed.

Lemma visit_stmt_for init condition step body g :
  visit_stmt float_str (ForStmt init condition step body) g
  = let g0 := visit_stmt float_str init g in
    let '(label_start, g1) := new_label g0 in
    let '(label_body, g2) := new_label g1 in
    let '(label_end, g3) := new_label g2 in
    let g4 := IR.emit (IRLabel label_start) g3 in
    let '(cond, g5) := visit_expr float_str condition g4 in
    let g6 := IR.emit (IRIfFalseGoto cond label_end) g5 in
    let g7 := IR.emit (IRLabel label_body) g6 in
    let g8 := visit_block float_str body g7 in
    let g9 := visit_stmt float_str step g8 in
    let g10 := IR.emit (IRGoto label_start) g9 in
    IR.emit (IRLabel label_end) g10.
Proof. reflexivity. Qed.

Lemma visit_stmt_block statements g :
  visit_stmt float_str (Block statements) g = visit_block float_str statements g.
Proof. reflexivity. Qed.

Lemma visit_args_extends args :
  Forall (fun e => forall g, extends g (snd (visit_expr float_str e g))) args ->
  forall acc g0 g, extends g0 g -> extends g0 (snd (visit_args float_str args acc g)).
Proof.
  induction 1 as [|e args He _ IH]; intros acc g0 g H0; cbn [visit_args].
  - exact H0.
  - specialize (He g). destruct (visit_expr float_str e g) as [t g1]. cbn [snd] in He.
    apply IH. extends_steps. eapply extends_trans; eassumption.
Qed.

Lemma visit_expr_extends_r e : forall g0 g,
  extends g0 g -> extends g0 (snd (visit_expr float_str e g)).
Proof.
  induction e as [v | v | n | op e IH | l op r IHl IHr | name args IH]
    using Expr_nested_ind; intros g0 g H0.
  - exact H0.
  - eapply extends_trans; [exact H0 | apply extends_new_string].
  - exact H0.
  - cbn [visit_expr]. specialize (IH g0 g H0).
    destruct (visit_expr float_str e g) as [t g1]. cbn [snd new_temp] in *.
    extends_steps. exact IH.
  - cbn [visit_expr]. specialize (IHl g0 g H0).
    destruct (visit_expr float_str l g) as [tl g1]. cbn [snd] in *.
    specialize (IHr g0 g1 IHl).
    destruct (visit_expr float_str r g1) as [tr g2]. cbn [snd new_temp] in *.
    extends_steps. exact IHr.
  - rewrite visit_expr_call.
    assert (IH' : Forall (fun e => forall g, extends g (snd (visit_expr float_str e g))) args).
    { eapply Forall_impl; [exact IH|]. intros e He g'. apply He, extends_refl. }
    pose proof (visit_args_extends args IH' [] g0 g H0) as H.
    destruct (visit_args float_str args [] g) as [ts g1]. cbn [snd new_temp] in *.
    extends_steps. exact H.
Qed.

Lemma visit_expr_extends e g : extends g (snd (visit_expr float_str e g)).
Proof. apply visit_expr_extends_r, extends_refl. Qed.

Lemma visit_block_extends_r b :
  Forall (fun s => forall g0 g, extends g0 g -> extends g0 (visit_stmt float_str s g)) b ->
  forall g0 g, extends g0 g -> extends g0 (visit_block float_str b g).
Proof.
  induction 1 as [|s b Hs _ IH]; intros g0 g H0; cbn [visit_block].
  - exact H0.
  - apply IH, Hs, H0.
Qed.

Lemma visit_stmt_extends_r s : forall g0 g,
  extends g0 g -> extends g0 (visit_stmt float_str s g).
Proof.
  induction s as [n init | n e | e | c tb e IHt IHe | c b IHb
                  | init c step b IHi IHs IHb | e | b IHb]
    using Stmt_nested_ind; intros g0 g H0.
  - cbn [visit_stmt]. destruct init as [e|]; [|exact H0].
    pose proof (visit_expr_extends_r e g0 g H0) as H.
    destruct (visit_expr float_str e g) as [t g1]. cbn [snd] in *.
    extends_steps. exact H.
  - cbn [visit_stmt]. pose proof (visit_expr_extends_r e g0 g H0) as H.
    destruct (visit_expr float_str e g) as [t g1]. cbn [snd] in *.
    extends_steps. exact H.
  - cbn [visit_stmt]. destruct e as [e|]; [|extends_steps; exact H0].
    pose proof (visit_expr_extends_r e g0 g H0) as H.
    destruct (visit_expr float_str e g) as [t g1]. cbn [snd] in *.
    extends_steps. exact H.
  - rewrite visit_stmt_if. pose proof (visit_expr_extends_r c g0 g H0) as H.
    destruct (visit_expr float_str c g) as [t g1]. cbn [snd] in *.
    cbn [new_label].
    destruct e as [b|]; cbn [new_label]; cbv zeta.
    + extends_steps. apply (visit_block_extends_r b (IHe b eq_refl)).
      extends_steps. apply (visit_block_extends_r tb IHt). extends_steps. exact H.
    + extends_steps. apply (visit_block_extends_r tb IHt). extends_steps. exact H.
  - rewrite visit_stmt_while. cbn [new_label]. cbv zeta.
    match goal with |- context [visit_expr float_str c ?g1] =>
      pose proof (visit_expr_extends_r c g0 g1) as H;
      destruct (visit_expr float_str c g1) as [t g2] end.
    cbn [snd] in *. extends_steps. apply (visit_block_extends_r b IHb).
    extends_steps. apply H. extends_steps. exact H0.
  - rewrite visit_stmt_for. cbn [new_label]. cbv zeta.
    match goal with |- context [visit_expr float_str c ?g1] =>
      pose proof (visit_expr_extends_r c g0 g1) as H;
      destruct (visit_expr float_str c g1) as [t g2] end.
    cbn [snd] in *. extends_steps. apply IHs. apply (visit_block_extends_r b IHb).
    extends_steps. apply H. extends_steps. apply IHi. exact H0.
  - cbn [visit_stmt]. now apply visit_expr_extends_r.
  - rewrite visit_stmt_block. now apply visit_block_extends_r.
Qed.

Lemma visit_stmt_extends s g : extends g (visit_stmt float_str s g).
Proof. apply visit_stmt_extends_r, extends_refl. Qed.

Lemma visit_block_extends b g0 g :
  extends g0 g -> extends g0 (visit_block float_str b g).
Proof.
  apply visit_block_extends_r. apply Forall_forall. intros s _. apply visit_stmt_extends_r.
Qed.

Lemma visit_block_appends b g : extends g (visit_block float_str b g).
Proof. apply visit_block_extends, extends_refl. Qed.

End GeneratorAppends.

(** ** Names of temporaries and labels *)

Lemma str_nat_inj a b : str_nat a = str_nat b -> a = b.
Proof.
  unfold str_nat. intros H. apply DecimalNat.Unsigned.to_uint_inj.
  pose proof (NilEmpty.usu (Nat.to_uint a)) as Ha.
  pose proof (NilEmpty.usu (Nat.to_uint b)) as Hb.
  rewrite H in Ha. congruence.
Qed.

Lemma label_name_inj a b : label_name a = label_name b -> a = b.
Proof. unfold label_name. cbn. intros [= H]. now apply str_nat_inj. Qed.

Lemma temp_name_inj a b : temp_name a = temp_name b -> a = b.
Proof. unfold temp_name. cbn. intros [= H]. now apply str_nat_inj. Qed.

(** ** The lowering of [if] *)

(** C1. [visit_if] evaluates the condition to an operand [c], takes the
    next two labels as [L_then] and [L_end], and a third one as [L_else]
    only when there is an else block; after the code of the condition it
    emits exactly [IfFalseGoto(c, L_else)] (or [IfFalseGoto(c, L_end)]
    without else block), [Label(L_then)], the code of the then block,
    with an else block [Goto(L_end)], [Label(L_else)] and the code of the
    else block, and [Label(L_end)]. *)
Theorem visit_if_emits (float_str : pyfloat -> string)
    (condition : Expr) (then_block : list Stmt) (else_block : option (list Stmt))
    (g : gen_state) :
  let c := fst (visit_expr float_str condition g) in
  let g1 := snd (visit_expr float_str condition g) in
  let L_then := label_name (label_count g1) in
  let L_end := label_name (S (label_count g1)) in
  let L_else := label_name (S (S (label_count g1))) in
  let final := visit_stmt float_str (IfStmt condition then_block else_block) g in
  instructions g1
    = instructions g ++ code_of (fun g0 => snd (visit_expr float_str condition g0)) g
  /\ match else_block with
     | Some b =>
         let g_then :=
           IR.emit (IRLabel L_then) (IR.emit (IRIfFalseGoto c L_else) (after_labels 3 g1)) in
         let g_else :=
           IR.emit (IRLabel L_else)
             (IR.emit (IRGoto L_end) (visit_block float_str then_block g_then)) in
         instructions final
           = instructions g1
             ++ [IRIfFalseGoto c L_else; IRLabel L_then]
             ++ code_of (visit_block float_str then_block) g_then
             ++ [IRGoto L_end; IRLabel L_else]
             ++ code_of (visit_block float_str b) g_else
             ++ [IRLabel L_end]
         /\ L_then <> L_end /\ L_then <> L_else /\ L_end <> L_else
     | None =>
         let g_then :=
           IR.emit (IRLabel L_then) (IR.emit (IRIfFalseGoto c L_end) (after_labels 2 g1)) in
         instructions final
           = instructions g1
             ++ [IRIfFalseGoto c L_end; IRLabel L_then]
             ++ code_of (visit_block float_str then_block) g_then
             ++ [IRLabel L_end]
         /\ L_then <> L_end
         /\ label_count (visit_block float_str then_block g_then)
            = label_count final
     end.
Proof.
  cbv zeta. split.
  { apply (code_of_extends (fun g0 => snd (visit_expr float_str condition g0))).
    apply visit_expr_extends. }
  rewrite visit_stmt_if.
  destruct (visit_expr float_str condition g) as [c g1]. cbn [fst snd].
  assert (N : forall k, label_count g1 + k = k + label_count g1) by (intros; lia).
  destruct else_block as [b|]; cbn [new_label label_count]; cbv zeta.
  - unfold after_labels. rewrite N. cbn [Nat.add].
    set (g_then := IR.emit (IRLabel _) (IR.emit (IRIfFalseGoto _ _) _)).
    set (g_else := IR.emit (IRLabel _) (IR.emit (IRGoto _) _)).
    split.
    + cbn [IR.emit instructions].
      rewrite (code_of_extends (visit_block float_str b) g_else)
        by apply visit_block_appends.
      unfold g_else at 1. cbn [IR.emit instructions].
      rewrite (code_of_extends (visit_block float_str then_block) g_then)
        by apply visit_block_appends.
      unfold g_then at 1. cbn [IR.emit instructions].
      rewrite <- !app_assoc. reflexivity.
    + repeat split; intros H; apply label_name_inj in H; lia.
  - unfold after_labels. rewrite N. cbn [Nat.add].
    set (g_then := IR.emit (IRLabel _) (IR.emit (IRIfFalseGoto _ _) _)).
    split; [|split].
    + cbn [IR.emit instructions].
      rewrite (code_of_extends (visit_block float_str then_block) g_then)
        by apply visit_block_appends.
      unfold g_then at 1. cbn [IR.emit instructions].
      rewrite <- !app_assoc. reflexivity.
    + intros H; apply label_name_inj in H; lia.
    + reflexivity.
Qed.

(** The template on a program: scenario 3 of the spec. *)
Example if_else_scenario :
  match front_end 40 "int main() { int x = 0; if (1) { x = 1; } else { x = 2; } return x; }" with
  | Ok ast => map ir_str (fst (generate_ir float_lexeme ast))
  | _ => []
  end
  = [ "func main()"; "x = 0"; "ifFalse 1 goto L2"; "L0:"; "x = 1"; "goto L1"; "L2:";
      "x = 2"; "L1:"; "return x"; "endfunc main" ].
Proof. vm_compute. reflexivity. Qed.

(** ** The lowering of [Call] *)

Lemma gvl_output v a : output (snd (get_var_location v a)) = output a.
Proof.
  unfold get_var_location. destruct (is_int_literal v); [reflexivity|].
  destruct (var_offset a !! v); reflexivity.
Qed.

Lemma gvl_keeps v a x o :
  var_offset a !! x = Some o -> var_offset (snd (get_var_location v a)) !! x = Some o.
Proof.
  intros H. unfold get_var_location. destruct (is_int_literal v); [assumption|].
  destruct (var_offset a !! v) eqn:E; [assumption|]. cbn.
  rewrite lookup_insert_ne; [assumption|]. intros ->. congruence.
Qed.

Lemma gvl_literal v a : is_int_literal v = true -> get_var_location v a = (v, a).
Proof. intros H. unfold get_var_location. now rewrite H. Qed.

Lemma gvl_slot v a :
  is_int_literal v = false ->
  exists off, fst (get_var_location v a) = slot off
              /\ var_offset (snd (get_var_location v a)) !! v = Some off.
Proof.
  intros H. unfold get_var_location. rewrite H.
  destruct (var_offset a !! v) as [off|] eqn:E.
  - exists off. now split.
  - exists (current_offset a + 8). split; [reflexivity|]. cbn. apply lookup_insert_eq.
Qed.

Lemma isdigit_literal v : isdigit v = true -> is_int_literal v = true.
Proof. intros H. unfold is_int_literal. now rewrite H. Qed.

Lemma pass_args_beyond args : forall idx a, 4 <= idx -> pass_args idx args a = a.
Proof.
  induction args as [|arg args IH]; intros idx a H; [reflexivity|].
  cbn [pass_args].
  assert (E : param_regs !! idx = None) by (apply lookup_ge_None; cbn; lia).
  rewrite E. apply IH. lia.
Qed.

(** One argument in a register: the state after it and the line. *)
Lemma pass_one reg arg a :
  let a' :=
    let '(arg_loc, a1) := get_var_location arg a in
    if isdigit arg then Asm.emit ("    mov " +:+ reg +:+ ", " +:+ arg) a1
    else if startswith "str" arg then Asm.emit ("    lea " +:+ reg +:+ ", [" +:+ arg +:+ "]") a1
    else Asm.emit ("    mov " +:+ reg +:+ ", " +:+ arg_loc) a1 in
  exists off,
    output a' = output a ++ [arg_line reg arg off]
    /\ (is_int_literal arg = false -> var_offset a' !! arg = Some off)
    /\ (forall x o, var_offset a !! x = Some o -> var_offset a' !! x = Some o).
Proof.
  cbv zeta. unfold arg_line.
  pose proof (gvl_output arg a) as Ho. pose proof (gvl_keeps arg a) as Hk.
  destruct (is_int_literal arg) eqn:L.
  - rewrite (gvl_literal arg a L) in *. exists 0.
    destruct (isdigit arg); [|destruct (startswith "str" arg)];
      (split; [reflexivity|]; split; [discriminate | intros x o; exact id]).
  - destruct (gvl_slot arg a L) as (off & Hf & Hs).
    destruct (get_var_location arg a) as [loc a1]. cbn [fst snd] in *. subst loc.
    assert (isdigit arg = false) as ->.
    { destruct (isdigit arg) eqn:D; [|reflexivity].
      apply isdigit_literal in D. congruence. }
    exists off.
    destruct (startswith "str" arg); cbn [Asm.emit output var_offset]; rewrite Ho;
      (split; [reflexivity|]; split; [intros _; exact Hs | exact Hk]).
Qed.

Lemma pass_args_keeps args : forall idx a x o,
  var_offset a !! x = Some o -> var_offset (pass_args idx args a) !! x = Some o.
Proof.
  induction args as [|arg args IH]; intros idx a x o H; [exact H|].
  cbn [pass_args]. apply IH.
  destruct (param_regs !! idx) as [reg|]; [|exact H].
  destruct (pass_one reg arg a) as (off & _ & _ & K). now apply K.
Qed.

Lemma pass_args_lines args : forall idx a,
  exists lines,
    output (pass_args idx args a) = output a ++ lines
    /\ length lines = Nat.min (4 - idx) (length args)
    /\ (forall k arg reg,
          args !! k = Some arg -> param_regs !! (idx + k) = Some reg ->
          exists off,
            lines !! k = Some (arg_line reg arg off)
            /\ (is_int_literal arg = false ->
                var_offset (pass_args idx args a) !! arg = Some off)).
Proof.
  induction args as [|arg args IH]; intros idx a.
  - exists []. split; [now rewrite app_nil_r|]. split; [cbn; lia|].
    intros k arg reg H. discriminate.
  - cbn [pass_args]. destruct (param_regs !! idx) as [reg|] eqn:R.
    + assert (idx < 4) by (apply lookup_lt_Some in R; cbn in R; lia).
      destruct (pass_one reg arg a) as (off & Ho & Hs & Hk).
      match goal with |- context [pass_args (S idx) args ?x] => set (a' := x) in * end.
      destruct (IH (S idx) a') as (lines & Hl & Hn & Hall).
      exists (arg_line reg arg off :: lines). split; [|split].
      * rewrite Hl, Ho, <- app_assoc. reflexivity.
      * cbn [length]. rewrite Hn. lia.
      * intros [|k] arg' reg' Hk' Hr'.
        -- cbn in Hk'. injection Hk' as <-. rewrite Nat.add_0_r, R in Hr'.
           injection Hr' as <-. exists off. split; [reflexivity|].
           intros L. apply pass_args_keeps. now apply Hs.
        -- cbn in Hk'. apply (Hall k arg' reg' Hk').
           now replace (S idx + k) with (idx + S k) by lia.
    + assert (4 <= idx) by (apply lookup_ge_None in R; cbn in R; lia).
      rewrite pass_args_beyond by lia. exists []. split; [now rewrite app_nil_r|].
      split; [cbn; lia|].
      intros k arg' reg' _ Hr'. apply lookup_lt_Some in Hr'. cbn in Hr'. lia.
Qed.

(** C2. [visit_call] emits [sub rsp, 32], one line for each of the first
    four arguments, which puts it in [rcx], [rdx], [r8], [r9] in this
    order (an immediate for an integer literal, [lea] for an operand that
    starts with [str], a load from the operand's stack slot otherwise),
    nothing for the arguments from index 4 on, then [call f] and
    [add rsp, 32], and the store of [rax] into the slot of [d] exactly
    when [d] is given (a non-empty name). *)
Theorem visit_call_emits (dest : option string) (func : string) (args : list string)
    (a : asm_state) :
  exists lines store,
    output (visit_call dest func args a)
      = output a
        ++ ["    sub rsp, 32  ; Shadow space para Windows x64"]
        ++ lines
        ++ ["    call " +:+ func; "    add rsp, 32"]
        ++ store
    /\ length lines = Nat.min 4 (length args)
    /\ (forall k arg reg,
          args !! k = Some arg -> param_regs !! k = Some reg ->
          exists off,
            lines !! k = Some (arg_line reg arg off)
            /\ (is_int_literal arg = false ->
                var_offset (visit_call dest func args a) !! arg = Some off))
    /\ match dest with
       | Some (String ch d) =>
           exists loc,
             store = ["    mov " +:+ loc +:+ ", rax"]
             /\ (is_int_literal (String ch d) = false ->
                 exists off, loc = slot off
                   /\ var_offset (visit_call dest func args a) !! String ch d = Some off)
       | _ => store = []
       end.
Proof.
  unfold visit_call.
  set (a1 := Asm.emit "    sub rsp, 32  ; Shadow space para Windows x64" a).
  destruct (pass_args_lines args 0 a1) as (lines & Hl & Hn & Hall).
  set (a2 := pass_args 0 args a1) in *.
  set (a4 := Asm.emit "    add rsp, 32" (Asm.emit ("    call " +:+ func) a2)).
  assert (O4 : output a4
               = output a ++ ["    sub rsp, 32  ; Shadow space para Windows x64"]
                 ++ lines ++ ["    call " +:+ func; "    add rsp, 32"]).
  { unfold a4. cbn [Asm.emit output]. rewrite Hl. unfold a1. cbn [Asm.emit output].
    rewrite <- !app_assoc. reflexivity. }
  assert (K4 : forall x o, var_offset a2 !! x = Some o -> var_offset a4 !! x = Some o)
    by (intros x o; exact id).
  destruct dest as [[|ch d]|]; cbn [truthy].
  - exists lines, []. rewrite O4, !app_nil_r. split; [reflexivity|].
    split; [exact Hn|]. split; [|reflexivity].
    intros k arg reg Hk Hr. destruct (Hall k arg reg Hk Hr) as (off & H1 & H2).
    exists off. split; [exact H1 | exact H2].
  - change (or_empty (Some (String ch d))) with (String ch d).
    pose proof (gvl_output (String ch d) a4) as Ho.
    pose proof (gvl_keeps (String ch d) a4) as Hk.
    destruct (get_var_location (String ch d) a4) as [loc a5] eqn:G.
    cbn [snd] in *.
    exists lines, ["    mov " +:+ loc +:+ ", rax"].
    cbn [Asm.emit output var_offset]. rewrite Ho, O4.
    split; [rewrite <- !app_assoc; reflexivity|].
    split; [exact Hn|]. split.
    + intros k arg reg Hk' Hr. destruct (Hall k arg reg Hk' Hr) as (off & H1 & H2).
      exists off. split; [exact H1|]. intros L. apply Hk, K4, H2, L.
    + exists loc. split; [reflexivity|]. intros L.
      destruct (gvl_slot (String ch d) a4 L) as (off & Hf & Hs).
      rewrite G in Hf, Hs. cbn [fst snd] in *. exists off. now split.
  - exists lines, []. rewrite O4, !app_nil_r. split; [reflexivity|].
    split; [exact Hn|]. split; [|reflexivity].
    intros k arg reg Hk Hr. destruct (Hall k arg reg Hk Hr) as (off & H1 & H2).
    exists off. split; [exact H1 | exact H2].
Qed.

(** A call with five arguments: the fifth leaves no trace. *)
Example visit_call_five_arguments :
  output (visit_call (Some "t0") "printf" ["str0"; "x"; "7"; "y"; "z"] asm_init)
  = [ "    sub rsp, 32  ; Shadow space para Windows x64";
      "    lea rcx, [str0]";
      "    mov rdx, QWORD [rbp-16]";
      "    mov r8, 7";
      "    mov r9, QWORD [rbp-24]";
      "    call printf";
      "    add rsp, 32";
      "    mov QWORD [rbp-32], rax" ].
Proof. vm_compute. reflexivity. Qed.

(** ** The instruction set *)

(** C8, on the code. The ASM generator lowers an [IRIfGoto] as a load, a
    test and [jnz] to the label, but the instruction classes of
    [ir_generator.py] are the eleven constructors of [IRInstr] and no
    [IRIfGoto] is among them: whatever list of IR instructions the ASM
    generator is given, it holds none. *)
Theorem ir_instructions_lack_if_goto :
  (forall instr : IRInstr,
     (exists n, instr = IRLabel n)
     \/ (exists d s, instr = IRAssign d s)
     \/ (exists d l op r, instr = IRBinOp d l op r)
     \/ (exists d op x, instr = IRUnaryOp d op x)
     \/ (exists l, instr = IRGoto l)
     \/ (exists c l, instr = IRIfFalseGoto c l)
     \/ (exists v, instr = IRParam v)
     \/ (exists d f xs, instr = IRCall d f xs)
     \/ (exists v, instr = IRReturn v)
     \/ (exists n ps, instr = IRFuncBegin n ps)
     \/ (exists n, instr = IRFuncEnd n))
  /\ (forall (instrs : list IRInstr) (condition label : string),
        ~ In (IRIfGoto condition label) (map FromIR instrs))
  /\ (forall (condition label : string) (a : asm_state),
        output (visit (IRIfGoto condition label) a)
        = output a
          ++ [ "    mov rax, " +:+ fst (get_var_location condition a);
               "    test rax, rax";
               "    jnz ." +:+ label ]).
Proof.
  split; [|split].
  - intros [n | d s0 | d l op r | d op x | l | c l | d f xs | v | n ps | n | v];
      eauto 20.
  - intros instrs condition label H. apply in_map_iff in H.
    destruct H as (x & Hx & _). discriminate.
  - intros condition label a. cbn [visit]. unfold visit_if_goto.
    pose proof (gvl_output condition a) as Ho.
    destruct (get_var_location condition a) as [loc a1]. cbn [fst snd] in *.
    cbn [emit_all Asm.emit output]. rewrite Ho, <- !app_assoc. reflexivity.
Qed.

(** ** Strings *)

Lemma sapp_cons (c : ascii) (a b : string) : String c a +:+ b = String c (a +:+ b).
Proof. reflexivity. Qed.

Lemma sapp_nil_l (s : string) : EmptyString +:+ s = s.
Proof. reflexivity. Qed.

Lemma sapp_nil_r (s : string) : s +:+ EmptyString = s.
Proof.
  induction s as [|c s IH]; [reflexivity|]. rewrite sapp_cons. now f_equal.
Qed.

Lemma sapp_assoc (a b c : string) : (a +:+ b) +:+ c = a +:+ (b +:+ c).
Proof.
  induction a as [|x a IH]; [reflexivity|]. rewrite !sapp_cons. now f_equal.
Qed.

Lemma slength_app (a b : string) :
  String.length (a +:+ b) = String.length a + String.length b.
Proof.
  induction a as [|x a IH]; [reflexivity|]. rewrite sapp_cons. cbn [String.length].
  now rewrite IH.
Qed.

Lemma prefix_split (p : string) : forall s,
  String.prefix p s = true -> exists r, s = p +:+ r.
Proof.
  induction p as [|c p IH]; intros s H.
  - now exists s.
  - destruct s as [|d s]; cbn in H; [discriminate|].
    destruct (ascii_dec c d) as [->|]; [|discriminate].
    destruct (IH s H) as [r ->]. now exists r.
Qed.

Lemma span_split (f : ascii -> bool) : forall s a b, span f s = (a, b) -> s = a +:+ b.
Proof.
  induction s as [|c s IH]; intros a b H; cbn in H.
  - now injection H as <- <-.
  - destruct (f c).
    + destruct (span f s) as [a' b'] eqn:E. injection H as <- <-.
      cbn. now rewrite (IH a' b' eq_refl).
    + now injection H as <- <-.
Qed.

Lemma pos_after_app (a : string) : forall b p,
  pos_after (a +:+ b) p = pos_after b (pos_after a p).
Proof. induction a as [|c a IH]; intros b p; cbn; [reflexivity | apply IH]. Qed.

(** ** What the lexer reads *)

Lemma consumes_refl st : consumes st st EmptyString.
Proof. split; reflexivity. Qed.

Lemma consumes_trans st1 st2 st3 t1 t2 :
  consumes st1 st2 t1 -> consumes st2 st3 t2 -> consumes st1 st3 (t1 +:+ t2).
Proof.
  intros [R1 P1] [R2 P2]. split.
  - now rewrite R1, R2, sapp_assoc.
  - now rewrite P2, P1, pos_after_app.
Qed.

Lemma advance_consumes ch r st :
  rest st = String ch r ->
  consumes st (Lexer._advance ch st) (String ch EmptyString)
  /\ rest (Lexer._advance ch st) = r
  /\ result (Lexer._advance ch st) = result st.
Proof.
  intros H. unfold consumes, Lexer._advance, lpos. cbn. rewrite H. cbn.
  repeat split. unfold advance_pos. cbn. destruct (Ascii.eqb ch nl); reflexivity.
Qed.

Lemma advance_n_consumes text : forall st r,
  rest st = text +:+ r ->
  consumes st (_advance_n text st) text
  /\ rest (_advance_n text st) = r
  /\ result (_advance_n text st) = result st.
Proof.
  induction text as [|ch text IH]; intros st r H; cbn [_advance_n].
  - cbn in H. split; [split; [now rewrite H | reflexivity]|]. now split.
  - cbn in H. destruct (advance_consumes ch (text +:+ r) st H) as (C1 & R1 & T1).
    destruct (IH (Lexer._advance ch st) r R1) as (C2 & R2 & T2).
    split; [|split; [exact R2 | congruence]].
    exact (consumes_trans _ _ _ _ _ C1 C2).
Qed.

Lemma line_comment_consumes s : forall st,
  rest st = s ->
  exists text,
    consumes st (line_comment s st) text
    /\ result (line_comment s st) = result st.
Proof.
  induction s as [|c s IH]; intros st H; cbn [line_comment].
  - exists EmptyString. split; [apply consumes_refl | reflexivity].
  - destruct (Ascii.eqb c nl).
    + exists EmptyString. split; [apply consumes_refl | reflexivity].
    + destruct (advance_consumes c s st H) as (C1 & R1 & T1).
      destruct (IH (Lexer._advance c st) R1) as (text & C2 & T2).
      exists (String c EmptyString +:+ text).
      split; [exact (consumes_trans _ _ _ _ _ C1 C2) | congruence].
Qed.

Lemma block_comment_consumes s : forall st st' closed,
  rest st = s -> block_comment s st = (st', closed) ->
  exists text,
    consumes st st' text
    /\ result st' = result st
    /\ closed = has_close s
    /\ (closed = true -> text <> EmptyString)
    /\ (closed = false -> text = s).
Proof.
  induction s as [|c s IH]; intros st st' closed H B.
  - cbn in B. injection B as <- <-. exists EmptyString.
    split; [apply consumes_refl|]. repeat split; congruence.
  - cbn [block_comment has_close] in *. destruct (startswith "*/" (String c s)) eqn:P.
    + injection B as <- <-.
      destruct (prefix_split _ _ P) as [r Hr]. cbn in Hr. injection Hr as -> ->.
      destruct (advance_consumes "*" _ st H) as (C1 & R1 & T1).
      destruct (advance_consumes "/" _ _ R1) as (C2 & R2 & T2).
      exists "*/". split; [exact (consumes_trans _ _ _ _ _ C1 C2)|].
      split; [congruence|]. repeat split; congruence.
    + destruct (advance_consumes c s st H) as (C1 & R1 & T1).
      destruct (IH _ _ _ R1 B) as (text & C2 & T2 & Hc & Hn & Hf).
      exists (String c EmptyString +:+ text).
      split; [exact (consumes_trans _ _ _ _ _ C1 C2)|].
      split; [congruence|]. split; [exact Hc|].
      split; [discriminate|]. intros F. cbn. now rewrite (Hf F).
Qed.

(** ** The token patterns match prefixes *)

Lemma match_alternatives_prefix kws : forall s kw,
  match_alternatives kws s = Some kw -> In kw kws /\ exists r, s = kw +:+ r.
Proof.
  induction kws as [|k kws IH]; intros s kw H; [discriminate|].
  cbn [match_alternatives] in H.
  destruct (startswith k s && boundary_after (drop_str (String.length k) s)) eqn:E.
  - injection H as <-. apply andb_true_iff in E. destruct E as [E _].
    split; [now left | now apply prefix_split].
  - destruct (IH s kw H) as [Hin Hr]. split; [now right | exact Hr].
Qed.

Lemma first_prefix_prefix ops : forall s op,
  first_prefix ops s = Some op -> In op ops /\ exists r, s = op +:+ r.
Proof.
  induction ops as [|o ops IH]; intros s op H; [discriminate|].
  cbn [first_prefix] in H. destruct (startswith o s) eqn:E.
  - injection H as <-. split; [now left | now apply prefix_split].
  - destruct (IH s op H) as [Hin Hr]. split; [now right | exact Hr].
Qed.

Lemma match_keywords_prefix p : matches_prefix (match_keywords p).
Proof.
  intros s lx H. unfold match_keywords in H.
  destruct (boundary_before p); [|discriminate].
  apply match_alternatives_prefix in H. destruct H as [Hin Hr]. split; [|exact Hr].
  unfold keyword_list in Hin. cbn in Hin.
  repeat (destruct Hin as [<-|Hin]; [discriminate|]). destruct Hin.
Qed.

Lemma match_identifier_prefix : matches_prefix match_identifier.
Proof.
  intros s lx H. destruct s as [|c s]; [discriminate|]. cbn in H.
  destruct (is_ident_start c); [|discriminate]. injection H as <-.
  split; [discriminate|].
  destruct (span is_word s) as [a b] eqn:E. exists b. cbn.
  now rewrite (span_split _ _ _ _ E).
Qed.

Lemma match_punctuacion_prefix : matches_prefix match_punctuacion.
Proof.
  intros s lx H. destruct s as [|c s]; [discriminate|]. cbn [match_punctuacion] in H.
  destruct (contains_char c ",;(){}"); [|discriminate]. injection H as <-.
  split; [discriminate | now exists s].
Qed.

Lemma match_operator_prefix : matches_prefix match_operator.
Proof.
  intros s lx H. unfold match_operator in H.
  destruct (first_prefix operator_list s) as [op|] eqn:E.
  - injection H as <-. apply first_prefix_prefix in E. destruct E as [Hin Hr].
    split; [|exact Hr]. unfold operator_list in Hin. cbn in Hin.
    repeat (destruct Hin as [<-|Hin]; [discriminate|]). destruct Hin.
  - destruct s as [|c s]; [discriminate|].
    destruct (contains_char c "+-*/%<>=!&|"); [|discriminate]. injection H as <-.
    split; [discriminate | now exists s].
Qed.

Lemma match_constant_prefix : matches_prefix match_constant.
Proof.
  intros s lx H. unfold match_constant in H.
  destruct (span is_digit s) as [ds r] eqn:E. apply span_split in E. subst s.
  destruct ds as [|d ds]; [discriminate|].
  assert (D : forall x, Some (String d ds) = Some x ->
              x <> EmptyString /\ exists r0, String d ds +:+ r = x +:+ r0).
  { intros x [= <-]. split; [discriminate | now exists r]. }
  destruct r as [|c r]; [now apply D|].
  destruct (ascii_dec c ".") as [->|Hc].
  - destruct (span is_digit r) as [fs r'] eqn:F. apply span_split in F. subst r.
    destruct fs as [|f fs]; [now apply D|].
    injection H as <-. split; [discriminate|]. exists r'.
    rewrite sapp_assoc. reflexivity.
  - assert (Some (String d ds) = Some lx) as H'.
    { rewrite <- H. destruct c as [[] [] [] [] [] [] [] []]; try reflexivity.
      now contradiction Hc. }
    now apply D.
Qed.

Lemma literal_body_prefix q n : forall s b,
  String.length s <= n -> literal_body q s = Some b ->
  b <> EmptyString /\ exists r, s = b +:+ r.
Proof.
  induction n as [|n IH]; intros s b L H.
  { destruct s; [discriminate | cbn in L; lia]. }
  destruct s as [|c s]; [discriminate|]. cbn [literal_body] in H.
  destruct (Ascii.eqb c q).
  { injection H as <-. split; [discriminate | now exists s]. }
  destruct (Ascii.eqb c backslash).
  - destruct s as [|d s]; [discriminate|]. destruct (Ascii.eqb d nl); [discriminate|].
    destruct (literal_body q s) as [b'|] eqn:E; [|discriminate].
    injection H as <-. split; [discriminate|].
    destruct (IH s b') as [_ [r ->]]; [cbn in L; lia | exact E|]. now exists r.
  - destruct (literal_body q s) as [b'|] eqn:E; [|discriminate].
    injection H as <-. split; [discriminate|].
    destruct (IH s b') as [_ [r ->]]; [cbn in L; lia | exact E|]. now exists r.
Qed.

Lemma match_literal_prefix : matches_prefix match_literal.
Proof.
  intros s lx H. destruct s as [|c s]; [discriminate|]. cbn [match_literal] in H.
  assert (K : forall q, option_map (String c) (literal_body q s) = Some lx ->
              lx <> EmptyString /\ exists r, String c s = lx +:+ r).
  { intros q Hq. destruct (literal_body q s) as [b|] eqn:E; [|discriminate].
    injection Hq as <-. split; [discriminate|].
    destruct (literal_body_prefix q (String.length s) s b (le_n _) E) as [_ [r ->]].
    now exists r. }
  destruct (Ascii.eqb c dquote); [now apply (K dquote)|].
  destruct (Ascii.eqb c squote); [now apply (K squote) | discriminate].
Qed.

Lemma first_match_prefix p s ty lx :
  first_match compiled p s = Some (ty, lx) ->
  lx <> EmptyString /\ exists r, s = lx +:+ r.
Proof.
  unfold compiled. cbn [first_match].
  destruct (match_keywords p s) eqn:E1.
  { intros [= _ <-]. now apply (match_keywords_prefix p). }
  destruct (match_identifier s) eqn:E2.
  { intros [= _ <-]. now apply match_identifier_prefix. }
  destruct (match_punctuacion s) eqn:E3.
  { intros [= _ <-]. now apply match_punctuacion_prefix. }
  destruct (match_operator s) eqn:E4.
  { intros [= _ <-]. now apply match_operator_prefix. }
  destruct (match_constant s) eqn:E5.
  { intros [= _ <-]. now apply match_constant_prefix. }
  destruct (match_literal s) eqn:E6; [|discriminate].
  intros [= _ <-]. now apply match_literal_prefix.
Qed.

Lemma match_WS_prefix : matches_prefix match_WS.
Proof.
  intros s lx H. unfold match_WS in H.
  destruct (span is_ws s) as [a b] eqn:E. cbn [fst] in H.
  destruct a as [|c a]; [discriminate|]. injection H as <-.
  split; [discriminate|]. exists b. now apply span_split in E.
Qed.

(** ** One iteration of the lexer *)

Lemma consumes_length st st' text :
  consumes st st' text -> text <> EmptyString ->
  String.length (rest st') < String.length (rest st).
Proof.
  intros [R _] N. rewrite R, slength_app. destruct text; [congruence | cbn; lia].
Qed.

Lemma lex_step_ok st st' :
  rest st <> EmptyString -> lex_step st = Ok st' ->
  exists text,
    text <> EmptyString /\ consumes st st' text
    /\ (result st' = result st
        \/ exists ty, result st' = result st ++ [RawToken ty text (line st) (col st)]).
Proof.
  intros Hne H. unfold lex_step in H.
  destruct (rest st) as [|ch r] eqn:R; [congruence|].
  destruct (startswith "//" (String ch r)) eqn:P1.
  { injection H as <-. destruct (prefix_split _ _ P1) as [r' Hr].
    cbn in Hr. injection Hr as -> ->. cbn [line_comment].
    change (Ascii.eqb "/" nl) with false. cbv iota.
    destruct (advance_consumes "/" _ st R) as (C1 & R1 & T1).
    destruct (line_comment_consumes _ (Lexer._advance "/" st) R1) as (text & C2 & T2).
    exists ("/" +:+ text). split; [discriminate|].
    split; [exact (consumes_trans _ _ _ _ _ C1 C2) | left; congruence]. }
  destruct (startswith "/*" (String ch r)) eqn:P2.
  { destruct (prefix_split _ _ P2) as [r' Hr]. cbn in Hr. injection Hr as -> ->.
    destruct (advance_consumes "/" _ st R) as (C1 & R1 & T1).
    destruct (advance_consumes "*" _ _ R1) as (C2 & R2 & T2).
    rewrite R2 in H.
    destruct (block_comment r' _) as [st3 closed] eqn:B.
    destruct closed; [|discriminate]. injection H as <-.
    destruct (block_comment_consumes _ _ _ _ R2 B) as (text & C3 & T3 & _).
    exists ("/*" +:+ text). split; [discriminate|]. split.
    - exact (consumes_trans _ _ _ _ _ (consumes_trans _ _ _ _ _ C1 C2) C3).
    - left. congruence. }
  destruct (Ascii.eqb ch nl) eqn:N.
  { injection H as <-. apply Ascii.eqb_eq in N. subst ch.
    destruct (advance_consumes nl _ st R) as (C1 & R1 & T1).
    exists (String nl EmptyString). split; [discriminate|]. split; [exact C1 | now left]. }
  destruct (match_WS (String ch r)) as [ws|] eqn:W.
  { injection H as <-. destruct (match_WS_prefix _ _ W) as [Hw [r' Hr]].
    rewrite <- R in Hr. destruct (advance_n_consumes ws st r' Hr) as (C1 & R1 & T1).
    exists ws. split; [exact Hw|]. split; [exact C1 | now left]. }
  destruct (first_match compiled (prev st) (String ch r)) as [[ty lx]|] eqn:F;
    [|discriminate].
  injection H as <-. destruct (first_match_prefix _ _ _ _ F) as [Hl [r' Hr]].
  match goal with |- context [_advance_n lx ?m] => set (stm := m) end.
  destruct (advance_n_consumes lx stm r' Hr) as ([Ra Pa] & R1 & T1).
  exists lx. split; [exact Hl|]. split; [split; [rewrite R; exact Ra | exact Pa]|].
  right. exists ty. exact T1.
Qed.

Lemma lex_step_comment st body :
  rest st = "/*" +:+ body -> has_close body = false ->
  exists l c,
    lex_step st = Err (UnterminatedComment l c)
    /\ (l, c) = pos_after (rest st) (lpos st).
Proof.
  intros R Hc.
  assert (R' : rest st = String "/" (String "*" body)) by exact R.
  assert (P : startswith "/*" (String "/" (String "*" body)) = true).
  { unfold startswith. cbn. destruct body; reflexivity. }
  unfold lex_step. rewrite R'.
  change (startswith "//" (String "/" (String "*" body))) with false.
  cbv iota. rewrite P.
  destruct (advance_consumes "/" _ st R') as (C1 & R1 & T1).
  destruct (advance_consumes "*" _ _ R1) as (C2 & R2 & T2).
  rewrite R2.
  destruct (block_comment body _) as [st3 closed] eqn:B.
  destruct (block_comment_consumes _ _ _ _ R2 B) as (text & C3 & T3 & Hcl & _ & Hf).
  rewrite Hc in Hcl. subst closed. rewrite (Hf eq_refl) in C3.
  exists (line st3), (col st3). split; [reflexivity|].
  pose proof (consumes_trans _ _ _ _ _ (consumes_trans _ _ _ _ _ C1 C2) C3) as [_ P3].
  exact P3.
Qed.

Lemma lex_step_unterminated st l c :
  lex_step st = Err (UnterminatedComment l c) ->
  (l, c) = pos_after (rest st) (lpos st).
Proof.
  intros H. unfold lex_step in H.
  destruct (rest st) as [|ch r] eqn:R; [discriminate|].
  destruct (startswith "//" (String ch r)); [discriminate|].
  destruct (startswith "/*" (String ch r)) eqn:P2.
  - destruct (prefix_split _ _ P2) as [r' Hr]. cbn in Hr. injection Hr as -> ->.
    destruct (advance_consumes "/" _ st R) as (C1 & R1 & T1).
    destruct (advance_consumes "*" _ _ R1) as (C2 & R2 & T2).
    rewrite R2 in H.
    destruct (block_comment r' _) as [st3 closed] eqn:B.
    destruct closed; [discriminate|]. injection H as <- <-.
    destruct (block_comment_consumes _ _ _ _ R2 B) as (text & C3 & T3 & _ & _ & Hf).
    rewrite (Hf eq_refl) in C3.
    pose proof (consumes_trans _ _ _ _ _ (consumes_trans _ _ _ _ _ C1 C2) C3) as [_ P3].
    exact P3.
  - destruct (Ascii.eqb ch nl); [discriminate|].
    destruct (match_WS (String ch r)); [discriminate|].
    destruct (first_match compiled (prev st) (String ch r)) as [[ty lx]|]; discriminate.
Qed.

Lemma lex_inv_init code : lex_inv code (lex_init code).
Proof. exists EmptyString. repeat split. constructor. Qed.

Lemma lex_inv_step code st st' :
  lex_inv code st -> rest st <> EmptyString -> lex_step st = Ok st' -> lex_inv code st'.
Proof.
  intros (consumed & Hc & Hp & Ht) Hne H.
  destruct (lex_step_ok st st' Hne H) as (text & _ & [R P] & T).
  exists (consumed +:+ text). split; [|split].
  - now rewrite sapp_assoc, <- R.
  - now rewrite P, Hp, pos_after_app.
  - destruct T as [-> | [ty ->]]; [exact Ht|].
    apply Forall_app. split; [exact Ht|]. constructor; [|constructor].
    exists consumed, (rest st'). cbn. split; [now rewrite <- R | exact Hp].
Qed.

(** ** The lexer loop *)

Lemma lexer_loop_fuel n : forall f1 f2 st,
  String.length (rest st) <= n -> n <= f1 -> n <= f2 ->
  lexer_loop f1 st = lexer_loop f2 st.
Proof.
  induction n as [|n IH]; intros f1 f2 st L H1 H2.
  - destruct (rest st) eqn:R; [|cbn in L; lia].
    destruct f1, f2; cbn [lexer_loop]; rewrite R; reflexivity.
  - destruct (rest st) as [|ch r] eqn:R.
    { destruct f1, f2; cbn [lexer_loop]; rewrite R; reflexivity. }
    destruct f1 as [|f1]; [lia|]. destruct f2 as [|f2]; [lia|].
    cbn [lexer_loop]. rewrite R.
    destruct (lex_step st) as [st'| e |] eqn:E; cbn [bind]; try reflexivity.
    apply IH; try lia.
    assert (Hne : rest st <> EmptyString) by (rewrite R; discriminate).
    destruct (lex_step_ok st st' Hne E) as (text & Ht & C & _).
    pose proof (consumes_length _ _ _ C Ht). rewrite R in *. cbn in *. lia.
Qed.

Lemma lexer_loop_total fuel : forall st,
  String.length (rest st) <= fuel -> lexer_loop fuel st <> OutOfFuel.
Proof.
  induction fuel as [|fuel IH]; intros st L.
  - destruct (rest st) eqn:R; [|cbn in L; lia]. cbn [lexer_loop]. now rewrite R.
  - cbn [lexer_loop]. destruct (rest st) as [|ch r] eqn:R; [discriminate|].
    destruct (lex_step st) as [st'| e |] eqn:E; cbn [bind].
    + apply IH.
      assert (Hne : rest st <> EmptyString) by (rewrite R; discriminate).
      destruct (lex_step_ok st st' Hne E) as (text & Ht & C & _).
      pose proof (consumes_length _ _ _ C Ht). rewrite R in *. cbn in *. lia.
    + discriminate.
    + exfalso. unfold lex_step in E. rewrite R in E.
      destruct (startswith "//" _); [discriminate|].
      destruct (startswith "/*" _).
      { destruct (block_comment _ _) as [? []]; discriminate. }
      destruct (Ascii.eqb ch nl); [discriminate|].
      destruct (match_WS _); [discriminate|].
      destruct (first_match _ _ _) as [[? ?]|]; discriminate.
Qed.

Lemma lexer_loop_inv code fuel : forall st,
  lex_inv code st ->
  match lexer_loop fuel st with
  | Ok st' => lex_inv code st' /\ rest st' = EmptyString
  | Err (UnterminatedComment l c) => (l, c) = pos_after code (1, 1)
  | _ => True
  end.
Proof.
  induction fuel as [|fuel IH]; intros st I.
  - cbn [lexer_loop]. destruct (rest st) eqn:R; [now split | exact Logic.I].
  - cbn [lexer_loop]. destruct (rest st) as [|ch r] eqn:R; [now split|].
    assert (Hne : rest st <> EmptyString) by (rewrite R; discriminate).
    destruct (lex_step st) as [st'| e |] eqn:E; cbn [bind].
    + apply IH. eapply lex_inv_step; eassumption.
    + destruct e as [l c|]; [|exact Logic.I].
      apply lex_step_unterminated in E. destruct I as (consumed & Hc & Hp & _).
      now rewrite E, Hp, <- pos_after_app, <- Hc.
    + exact Logic.I.
Qed.

Lemma scans_to_loop code st :
  scans_to code st ->
  lex_inv code st
  /\ String.length (rest st) <= String.length code
  /\ lexer_loop (String.length code) (lex_init code)
     = lexer_loop (String.length (rest st)) st.
Proof.
  induction 1 as [|st st' _ (I & L & E) Hne Hstep].
  - split; [apply lex_inv_init|]. split; reflexivity.
  - split; [eapply lex_inv_step; eassumption|].
    destruct (lex_step_ok st st' Hne Hstep) as (text & Ht & C & _).
    pose proof (consumes_length _ _ _ C Ht) as Hlt.
    split; [lia|]. rewrite E.
    destruct (rest st) as [|ch r] eqn:R; [congruence|].
    cbn [String.length lexer_loop]. rewrite R, Hstep. cbn [bind].
    apply (lexer_loop_fuel (String.length (rest st'))); cbn in Hlt; lia.
Qed.

Lemma lexer_loop_step_err st e fuel :
  rest st <> EmptyString -> lex_step st = Err e -> 0 < fuel ->
  lexer_loop fuel st = Err e.
Proof.
  intros Hne H Hf. destruct fuel as [|fuel]; [lia|]. cbn [lexer_loop].
  destruct (rest st); [congruence|]. now rewrite H.
Qed.

Lemma lexer_terminates code : lexer code <> OutOfFuel.
Proof.
  unfold lexer.
  pose proof (lexer_loop_total (String.length code) (lex_init code) (le_n _)) as H.
  destruct (lexer_loop _ _); cbn [bind]; congruence.
Qed.

(** ** The unterminated block comment *)

(** C6, as the code has it. When the scan of [code] arrives at a [/*]
    that is not closed before the end of input, the lexer fails with the
    unterminated-comment error, and the position it reports is the one
    reached at the end of the input: the position of the [/*] advanced
    over the whole comment text. *)
Theorem unterminated_comment_position (code : string) (st : lex_state) (body : string) :
  scans_to code st -> rest st = "/*" +:+ body -> has_close body = false ->
  exists l c,
    lexer code = Err (UnterminatedComment l c)
    /\ (l, c) = pos_after code (1, 1)
    /\ exists pre,
         code = pre +:+ "/*" +:+ body
         /\ lpos st = pos_after pre (1, 1)
         /\ (l, c) = pos_after ("/*" +:+ body) (lpos st).
Proof.
  intros Hs R Hc.
  destruct (scans_to_loop code st Hs) as ((pre & Hcode & Hpos & _) & _ & E).
  destruct (lex_step_comment st body R Hc) as (l & c & Hstep & Hlc).
  exists l, c.
  assert (Hl : lexer code = Err (UnterminatedComment l c)).
  { unfold lexer. rewrite E.
    rewrite (lexer_loop_step_err st (UnterminatedComment l c)); [reflexivity| |exact Hstep|].
    - rewrite R. discriminate.
    - rewrite R, slength_app. cbn [String.length]. lia. }
  split; [exact Hl|]. split.
  - rewrite Hlc, Hpos, <- pos_after_app, <- Hcode. reflexivity.
  - exists pre. split; [now rewrite <- R|]. split; [exact Hpos|]. now rewrite <- R.
Qed.

Lemma unterminated_comment_position_witness :
  exists l c,
    lexer "/* a" = Err (UnterminatedComment l c) /\ (l, c) = pos_after "/* a" (1, 1).
Proof.
  destruct (unterminated_comment_position "/* a" (lex_init "/* a") " a")
    as (l & c & H1 & H2 & _).
  - apply scans_init.
  - reflexivity.
  - reflexivity.
  - exists l, c. split; assumption.
Defined.

(** C6 as the spec states it fails: in [/* a] the comment starts at line
    1, column 1, and the error carries line 1, column 5. *)
Lemma unterminated_comment_counterexample :
  lexer "/* a" = Err (UnterminatedComment 1 5)
  /\ ~ (forall code pre body l c,
          code = pre +:+ "/*" +:+ body ->
          lexer code = Err (UnterminatedComment l c) ->
          (l, c) = pos_after pre (1, 1)).
Proof.
  split; [vm_compute; reflexivity|].
  intros H. specialize (H "/* a" EmptyString " a" 1 5 eq_refl).
  assert (E : lexer "/* a" = Err (UnterminatedComment 1 5)) by (vm_compute; reflexivity).
  specialize (H E). discriminate H.
Qed.

(** ** The trailing [EOF] token *)

Lemma dict_get_In k d v : dict_get k d = Some v -> In v (map snd d).
Proof.
  induction d as [|[k' v'] d IH]; [discriminate|]. cbn [dict_get map snd].
  destruct (String.eqb k k'); [intros [= <-]; now left | intros H; right; auto].
Qed.

Lemma convert_spec item t :
  convert item = Ok t ->
  pos t = (raw_line item, raw_col item) /\ lexeme t = raw_lexeme item /\ type t <> "EOF".
Proof.
  destruct item as [ty lx ln cl]. unfold convert. cbn [raw_line raw_col raw_lexeme].
  destruct (String.eqb ty "keywords").
  { destruct (String.eqb lx "int"); intros [= <-]; repeat split; discriminate. }
  destruct (String.eqb ty "identifier").
  { intros [= <-]; repeat split; discriminate. }
  destruct (String.eqb ty "constant").
  { intros [= <-]; repeat split; discriminate. }
  destruct (String.eqb ty "punctuacion").
  { destruct (dict_get lx PUNCT_MAP) as [v|] eqn:E; [|discriminate].
    intros [= <-]. repeat split. cbn [type]. apply dict_get_In in E. cbn in E.
    repeat (destruct E as [<-|E]; [discriminate|]). destruct E. }
  destruct (String.eqb ty "operator").
  { destruct (dict_get lx OP_MAP) as [v|] eqn:E; [|discriminate].
    intros [= <-]. repeat split. cbn [type]. apply dict_get_In in E. cbn in E.
    repeat (destruct E as [<-|E]; [discriminate|]). destruct E. }
  destruct (String.eqb ty "literal"); [|discriminate].
  intros [= <-]; repeat split; discriminate.
Qed.

Lemma convert_all_spec items : forall ts,
  convert_all items = Ok ts ->
  Forall (fun t => type t <> "EOF") ts
  /\ match last items, last ts with
     | Some item, Some t =>
         pos t = (raw_line item, raw_col item) /\ lexeme t = raw_lexeme item
     | None, None => True
     | _, _ => False
     end.
Proof.
  induction items as [|item items IH]; intros ts H.
  - injection H as <-. split; [constructor | exact I].
  - cbn [convert_all] in H.
    destruct (convert item) as [t| |] eqn:C; cbn [bind] in H; try discriminate.
    destruct (convert_all items) as [ts'| |] eqn:A; cbn [bind] in H; try discriminate.
    injection H as <-. destruct (IH ts' eq_refl) as [F L].
    apply convert_spec in C. destruct C as (C1 & C2 & C3).
    split; [now constructor|].
    rewrite !last_cons.
    destruct (last items) as [item'|]; destruct (last ts') as [t'|];
      try contradiction; [exact L | now split].
Qed.

(** C7, as the code has it. Whenever [tokenize_std] returns, the list
    ends with one [EOF] token with empty lexeme, no earlier token is an
    [EOF], and the position of the [EOF] is that of the first character of
    the last real token, or (1, 1) when there is none. *)
Theorem tokenize_std_eof (source : string) (out : list Token) :
  tokenize_std source = Ok out ->
  exists toks eof,
    out = toks ++ [eof]
    /\ type eof = "EOF" /\ lexeme eof = EmptyString
    /\ Forall (fun t => type t <> "EOF") toks
    /\ match last toks with
       | Some t =>
           pos eof = pos t
           /\ exists pre post,
                source = pre +:+ lexeme t +:+ post /\ pos t = pos_after pre (1, 1)
       | None => pos eof = (1, 1)
       end.
Proof.
  unfold tokenize_std, lexer. intros H.
  pose proof (lexer_loop_inv source (String.length source) (lex_init source)
                (lex_inv_init source)) as I.
  destruct (lexer_loop (String.length source) (lex_init source)) as [st| e |];
    cbn [bind] in H; try discriminate.
  destruct I as [(_ & _ & _ & Htok) _].
  destruct (convert_all (result st)) as [toks| |] eqn:A; cbn [bind] in H; try discriminate.
  injection H as <-.
  destruct (convert_all_spec _ _ A) as [F L].
  exists toks, (mkToken "EOF" EmptyString LNone (eof_pos (result st))).
  split; [reflexivity|]. split; [reflexivity|]. split; [reflexivity|].
  split; [exact F|]. unfold eof_pos. cbn [pos].
  destruct (last (result st)) as [item|] eqn:Li; destruct (last toks) as [t|];
    try contradiction; [|reflexivity].
  destruct L as [L1 L2]. split; [now rewrite L1|].
  assert (Hin : token_at source item).
  { rewrite Forall_forall in Htok. apply Htok. apply last_Some_elem_of in Li.
    exact Li. }
  destruct Hin as (pre & post & Hc & Hp). exists pre, post.
  rewrite L2, L1. split; [exact Hc | exact Hp].
Qed.

Lemma tokenize_std_eof_witness :
  exists toks eof,
    tokens_of "int x;" = toks ++ [eof] /\ type eof = "EOF" /\ pos eof = (1, 6).
Proof.
  destruct (tokenize_std_eof "int x;" (tokens_of "int x;")) as (toks & eof & H1 & H2 & _ & _ & H5).
  - vm_compute. reflexivity.
  - exists toks, eof. split; [exact H1|]. split; [exact H2|].
    assert (E : tokens_of "int x;"
                = [ mkToken "INT" "int" LNone (1, 1); mkToken "ID" "x" LNone (1, 5);
                    mkToken "SEMI" ";" LNone (1, 6) ]
                  ++ [mkToken "EOF" EmptyString LNone (1, 6)])
      by (vm_compute; reflexivity).
    rewrite E in H1. apply app_inj_tail in H1. destruct H1 as [<- <-]. reflexivity.
Defined.

(** C7 as the spec states it fails: not every source string gives a
    list. A character outside every pattern, or an operator the adapter
    does not map, raises. *)
Lemma tokenize_std_counterexample :
  tokenize_std "@" = Err (Lexical (UnexpectedChar "@" 1 1 "@"))
  /\ tokenize_std "a & b" = Err (UnsupportedOperator "&" 1 3).
Proof. split; vm_compute; reflexivity. Qed.

(** [tokenize_std] always stops: with a list or with an exception. *)
Lemma tokenize_std_terminates source : tokenize_std source <> OutOfFuel.
Proof.
  unfold tokenize_std. pose proof (lexer_terminates source) as H.
  destruct (lexer source) as [[raw c]| e |]; [|discriminate|congruence].
  clear H. induction raw as [|item raw IH] using rev_ind.
  - discriminate.
  - destruct (convert_all (raw ++ [item])) as [ts| |] eqn:A; cbn [bind]; try discriminate.
    exfalso. clear IH. revert A. generalize (raw ++ [item]). intros l.
    induction l as [|x l IHl]; [discriminate|]. cbn [convert_all].
    assert (Cx : convert x <> OutOfFuel).
    { destruct x as [ty lx ln cl]. unfold convert.
      repeat match goal with
             | |- context [if ?b then _ else _] => destruct b
             | |- context [match dict_get ?a ?b with _ => _ end] => destruct (dict_get a b)
             end; discriminate. }
    destruct (convert x); cbn [bind]; try congruence.
    destruct (convert_all l); cbn [bind]; try discriminate. intros _. now apply IHl.
Qed.

(** ** Labels of the generated code *)

Lemma labels_of_app a b : labels_of (a ++ b) = labels_of a ++ labels_of b.
Proof. unfold labels_of. apply omap_app. Qed.

Lemma targets_of_app a b : targets_of (a ++ b) = targets_of a ++ targets_of b.
Proof. unfold targets_of. apply omap_app. Qed.

Lemma label_range_nil lo : label_range lo lo = [].
Proof. unfold label_range. now rewrite Nat.sub_diag. Qed.

Lemma label_range_app a b c :
  a <= b -> b <= c -> label_range a c = label_range a b ++ label_range b c.
Proof.
  intros H1 H2. unfold label_range.
  replace (c - a) with ((b - a) + (c - b)) by lia.
  rewrite seq_app, map_app. now replace (a + (b - a)) with b by lia.
Qed.

Lemma label_range_cons a c :
  a < c -> label_range a c = label_name a :: label_range (S a) c.
Proof.
  intros H. unfold label_range. replace (c - a) with (S (c - S a)) by lia. reflexivity.
Qed.

Lemma elem_of_label_range t lo hi :
  t ∈ label_range lo hi <-> exists k, t = label_name k /\ lo <= k < hi.
Proof.
  unfold label_range. rewrite list_elem_of_In, in_map_iff. split.
  - intros (k & <- & Hk). apply in_seq in Hk. exists k. split; [reflexivity | lia].
  - intros (k & -> & Hk). exists k. split; [reflexivity|]. apply in_seq. lia.
Qed.

Lemma label_range_mono t a b a' b' :
  a' <= a -> b <= b' -> t ∈ label_range a b -> t ∈ label_range a' b'.
Proof.
  intros H1 H2. rewrite !elem_of_label_range. intros (k & -> & Hk).
  exists k. split; [reflexivity | lia].
Qed.

Lemma NoDup_label_range lo hi : NoDup (label_range lo hi).
Proof.
  unfold label_range. apply NoDup_fmap_2; [|apply NoDup_seq].
  intros a b. apply label_name_inj.
Qed.

Lemma expr_instr_labels out : Forall expr_instr out -> labels_of out = [].
Proof.
  induction 1 as [|i out Hi _ IH]; [reflexivity|].
  destruct i; try contradiction; exact IH.
Qed.

Lemma expr_instr_targets out : Forall expr_instr out -> targets_of out = [].
Proof.
  induction 1 as [|i out Hi _ IH]; [reflexivity|].
  destruct i; try contradiction; exact IH.
Qed.

Lemma expr_instr_markers out :
  Forall expr_instr out -> Forall (fun i => is_marker i = false) out.
Proof.
  intros H. eapply Forall_impl; [exact H|].
  intros i Hi. destruct i; try contradiction; reflexivity.
Qed.

Lemma closed_code_nil lo : closed_code lo lo [].
Proof.
  split; [lia|]. rewrite label_range_nil. split; [reflexivity|].
  split; [|constructor]. intros t H. cbn in H. inversion H.
Qed.

Lemma closed_code_expr lo out : Forall expr_instr out -> closed_code lo lo out.
Proof.
  intros H. split; [lia|]. rewrite label_range_nil, (expr_instr_labels out H).
  split; [reflexivity|]. split; [|now apply expr_instr_markers].
  rewrite (expr_instr_targets out H). intros t Ht. inversion Ht.
Qed.

Lemma closed_code_app a b c o1 o2 :
  closed_code a b o1 -> closed_code b c o2 -> closed_code a c (o1 ++ o2).
Proof.
  intros (L1 & P1 & T1 & M1) (L2 & P2 & T2 & M2). split; [lia|].
  split; [|split].
  - rewrite labels_of_app, (label_range_app a b c) by lia. now rewrite P1, P2.
  - intros t. rewrite targets_of_app, elem_of_app. intros [H|H].
    + apply (label_range_mono t a b); [lia | lia | now apply T1].
    + apply (label_range_mono t b c); [lia | lia | now apply T2].
  - apply Forall_app. now split.
Qed.

Lemma emits_refl g : emits g g [].
Proof. unfold emits. now rewrite app_nil_r. Qed.

Lemma emits_same g g' : instructions g' = instructions g -> emits g g' [].
Proof. unfold emits. intros ->. now rewrite app_nil_r. Qed.

Lemma emits_emit instr g : emits g (IR.emit instr g) [instr].
Proof. reflexivity. Qed.

Lemma emits_trans g1 g2 g3 o1 o2 :
  emits g1 g2 o1 -> emits g2 g3 o2 -> emits g1 g3 (o1 ++ o2).
Proof. unfold emits. intros H1 H2. now rewrite H2, H1, app_assoc. Qed.

Lemma emits_emit_r g g' out instr :
  emits g g' out -> emits g (IR.emit instr g') (out ++ [instr]).
Proof. intros H. eapply emits_trans; [exact H | apply emits_emit]. Qed.

Lemma labels_of_cons i l :
  labels_of (i :: l) = match label_of i with Some n => n :: labels_of l | None => labels_of l end.
Proof. reflexivity. Qed.

Lemma targets_of_cons i l :
  targets_of (i :: l)
  = match jump_target i with Some n => n :: targets_of l | None => targets_of l end.
Proof. reflexivity. Qed.

Lemma labels_of_nil : labels_of [] = [].
Proof. reflexivity. Qed.

Lemma targets_of_nil : targets_of [] = [].
Proof. reflexivity. Qed.

Ltac list_labels :=
  repeat first [ rewrite labels_of_app | rewrite labels_of_cons | rewrite labels_of_nil ];
  cbn [label_of app].

Ltac list_targets :=
  repeat first [ rewrite targets_of_app | rewrite targets_of_cons | rewrite targets_of_nil ];
  cbn [jump_target app].

Ltac no_markers :=
  repeat first [ assumption
               | apply List.Forall_nil
               | apply List.Forall_cons; [reflexivity|]
               | apply Forall_app; split
               | (apply expr_instr_markers; assumption) ].

Lemma closed_code_single lo instr :
  label_of instr = None -> jump_target instr = None -> is_marker instr = false ->
  closed_code lo lo [instr].
Proof.
  intros H1 H2 H3. split; [lia|]. rewrite label_range_nil.
  unfold labels_of, targets_of. cbn. rewrite H1, H2. split; [reflexivity|].
  split; [intros t Ht; inversion Ht | now repeat constructor].
Qed.

Lemma label_range_three n m :
  n + 3 <= m ->
  label_range n m
  = label_name n :: label_name (S n) :: label_name (S (S n)) :: label_range (n + 3) m.
Proof.
  intros H. rewrite (label_range_cons n) by lia. rewrite (label_range_cons (S n)) by lia.
  rewrite (label_range_cons (S (S n))) by lia. now replace (n + 3) with (S (S (S n))) by lia.
Qed.

Lemma label_range_two n m :
  n + 2 <= m ->
  label_range n m = label_name n :: label_name (S n) :: label_range (n + 2) m.
Proof.
  intros H. rewrite (label_range_cons n) by lia. rewrite (label_range_cons (S n)) by lia.
  now replace (n + 2) with (S (S n)) by lia.
Qed.

Lemma in_range_here k lo hi : lo <= k < hi -> label_name k ∈ label_range lo hi.
Proof. intros H. apply elem_of_label_range. now exists k. Qed.

(** The template of [if] with [else]. *)
Lemma closed_code_if_else n m1 m2 c oc ot oe :
  Forall expr_instr oc -> closed_code (n + 3) m1 ot -> closed_code m1 m2 oe ->
  closed_code n m2
    (oc ++ IRIfFalseGoto c (label_name (S (S n))) :: IRLabel (label_name n) :: ot
        ++ IRGoto (label_name (S n)) :: IRLabel (label_name (S (S n))) :: oe
        ++ [IRLabel (label_name (S n))]).
Proof.
  intros Hc (L1 & P1 & T1 & M1) (L2 & P2 & T2 & M2). split; [lia|].
  split; [|split].
  - rewrite (label_range_three n m2) by lia.
    rewrite (label_range_app (n + 3) m1 m2) by lia.
    list_labels. rewrite (expr_instr_labels oc Hc), P1, P2. cbn [app].
    apply perm_skip.
    rewrite <- (Permutation_middle2 (label_range (n + 3) m1) (label_range m1 m2) []).
    rewrite app_nil_r. apply perm_swap.
  - intros t. list_targets. rewrite (expr_instr_targets oc Hc). cbn [app].
    rewrite app_nil_r, elem_of_cons, elem_of_app, elem_of_cons.
    intros [->|[H|[->|H]]].
    + apply in_range_here. lia.
    + apply (label_range_mono t (n + 3) m1); [lia | lia | now apply T1].
    + apply in_range_here. lia.
    + apply (label_range_mono t m1 m2); [lia | lia | now apply T2].
  - no_markers.
Qed.

(** The template of [if] without [else]. *)
Lemma closed_code_if n m1 c oc ot :
  Forall expr_instr oc -> closed_code (n + 2) m1 ot ->
  closed_code n m1
    (oc ++ IRIfFalseGoto c (label_name (S n)) :: IRLabel (label_name n) :: ot
        ++ [IRLabel (label_name (S n))]).
Proof.
  intros Hc (L1 & P1 & T1 & M1). split; [lia|].
  split; [|split].
  - rewrite (label_range_two n m1) by lia.
    list_labels. rewrite (expr_instr_labels oc Hc), P1. cbn [app].
    apply perm_skip. symmetry. apply Permutation_cons_append.
  - intros t. list_targets. rewrite (expr_instr_targets oc Hc). cbn [app].
    rewrite app_nil_r, elem_of_cons. intros [->|H].
    + apply in_range_here. lia.
    + apply (label_range_mono t (n + 2) m1); [lia | lia | now apply T1].
  - no_markers.
Qed.

(** The template of [while], and of [for] after its initialiser. *)
Lemma closed_code_loop n m1 c oc ob :
  Forall expr_instr oc -> closed_code (n + 3) m1 ob ->
  closed_code n m1
    (IRLabel (label_name n) :: oc
       ++ IRIfFalseGoto c (label_name (S (S n))) :: IRLabel (label_name (S n)) :: ob
       ++ [IRGoto (label_name n); IRLabel (label_name (S (S n)))]).
Proof.
  intros Hc (L1 & P1 & T1 & M1). split; [lia|].
  split; [|split].
  - rewrite (label_range_three n m1) by lia.
    list_labels. rewrite (expr_instr_labels oc Hc), P1. cbn [app].
    do 2 apply perm_skip. symmetry. apply Permutation_cons_append.
  - intros t. list_targets. rewrite (expr_instr_targets oc Hc). cbn [app].
    rewrite elem_of_cons, elem_of_app, elem_of_cons.
    intros [->|[H|[->|H]]].
    + apply in_range_here. lia.
    + apply (label_range_mono t (n + 3) m1); [lia | lia | now apply T1].
    + apply in_range_here. lia.
    + inversion H.
  - no_markers.
Qed.

Ltac solve_emits :=
  unfold emits in *; cbn [IR.emit instructions new_temp snd] in *;
  repeat match goal with
         | H : instructions ?x = _ |- context [instructions ?x] => rewrite H
         end;
  rewrite <- ?app_assoc; cbn [app]; reflexivity.

Section GeneratorLabels.

Variable float_str : pyfloat -> string.

Lemma new_string_same v g :
  instructions (snd (new_string v g)) = instructions g
  /\ label_count (snd (new_string v g)) = label_count g
  /\ temp_count (snd (new_string v g)) = temp_count g.
Proof. unfold new_string. destruct (dict_get v _); repeat split. Qed.

Lemma visit_args_instr args :
  Forall (fun e => forall g, exists out,
            emits g (snd (visit_expr float_str e g)) out
            /\ label_count (snd (visit_expr float_str e g)) = label_count g
            /\ Forall expr_instr out) args ->
  forall acc g, exists out,
    emits g (snd (visit_args float_str args acc g)) out
    /\ label_count (snd (visit_args float_str args acc g)) = label_count g
    /\ Forall expr_instr out.
Proof.
  induction 1 as [|e args He _ IH]; intros acc g; cbn [visit_args].
  - exists []. split; [apply emits_refl|]. split; [reflexivity | constructor].
  - destruct (He g) as (o1 & E1 & L1 & I1).
    destruct (visit_expr float_str e g) as [t g1]. cbn [snd] in *.
    destruct (IH (acc ++ [t]) (IR.emit (IRParam t) g1)) as (o2 & E2 & L2 & I2).
    exists ((o1 ++ [IRParam t]) ++ o2). split; [|split].
    + eapply emits_trans; [apply emits_emit_r; exact E1 | exact E2].
    + rewrite L2. exact L1.
    + apply Forall_app. split; [|exact I2]. apply Forall_app. split; [exact I1|].
      now repeat constructor.
Qed.

Lemma visit_expr_instr e : forall g, exists out,
  emits g (snd (visit_expr float_str e g)) out
  /\ label_count (snd (visit_expr float_str e g)) = label_count g
  /\ Forall expr_instr out.
Proof.
  induction e as [v | v | n | op e IH | l op r IHl IHr | name args IH]
    using Expr_nested_ind; intros g.
  - exists []. split; [apply emits_refl|]. split; [reflexivity | constructor].
  - cbn [visit_expr]. destruct (new_string_same v g) as (H1 & H2 & _).
    exists []. split; [now apply emits_same|]. split; [exact H2 | constructor].
  - exists []. split; [apply emits_refl|]. split; [reflexivity | constructor].
  - cbn [visit_expr]. destruct (IH g) as (o1 & E1 & L1 & I1).
    destruct (visit_expr float_str e g) as [t g1]. cbn [snd new_temp] in *.
    exists (o1 ++ [IRUnaryOp (temp_name (temp_count g1)) op t]). split; [|split].
    + solve_emits.
    + exact L1.
    + apply Forall_app. split; [exact I1 | now repeat constructor].
  - cbn [visit_expr]. destruct (IHl g) as (o1 & E1 & L1 & I1).
    destruct (visit_expr float_str l g) as [tl g1]. cbn [snd] in *.
    destruct (IHr g1) as (o2 & E2 & L2 & I2).
    destruct (visit_expr float_str r g1) as [tr g2]. cbn [snd new_temp] in *.
    exists ((o1 ++ o2) ++ [IRBinOp (temp_name (temp_count g2)) tl op tr]).
    split; [|split].
    + solve_emits.
    + cbn [IR.emit label_count]. congruence.
    + apply Forall_app. split; [apply Forall_app; now split | now repeat constructor].
  - rewrite visit_expr_call. destruct (visit_args_instr args IH [] g) as (o1 & E1 & L1 & I1).
    destruct (visit_args float_str args [] g) as [ts g1]. cbn [snd new_temp] in *.
    exists (o1 ++ [IRCall (Some (temp_name (temp_count g1))) name ts]). split; [|split].
    + solve_emits.
    + exact L1.
    + apply Forall_app. split; [exact I1 | now repeat constructor].
Qed.

Lemma visit_block_closed b :
  Forall (fun s => forall g, exists out,
            emits g (visit_stmt float_str s g) out
            /\ closed_code (label_count g) (label_count (visit_stmt float_str s g)) out) b ->
  forall g, exists out,
    emits g (visit_block float_str b g) out
    /\ closed_code (label_count g) (label_count (visit_block float_str b g)) out.
Proof.
  induction 1 as [|s b Hs _ IH]; intros g; cbn [visit_block].
  - exists []. split; [apply emits_refl | apply closed_code_nil].
  - destruct (Hs g) as (o1 & E1 & C1).
    destruct (IH (visit_stmt float_str s g)) as (o2 & E2 & C2).
    exists (o1 ++ o2). split; [eapply emits_trans; eassumption|].
    eapply closed_code_app; eassumption.
Qed.

(** An expression followed by one instruction that is no label, no jump
    and no marker. *)
Lemma expr_then_instr_closed e g (k : string -> IRInstr) :
  (forall t, label_of (k t) = None /\ jump_target (k t) = None /\ is_marker (k t) = false) ->
  exists out,
    emits g (let '(t, g1) := visit_expr float_str e g in IR.emit (k t) g1) out
    /\ closed_code (label_count g)
         (label_count (let '(t, g1) := visit_expr float_str e g in IR.emit (k t) g1)) out.
Proof.
  intros Hk. destruct (visit_expr_instr e g) as (o1 & E1 & L1 & I1).
  destruct (visit_expr float_str e g) as [t g1]. cbn [snd] in *.
  exists (o1 ++ [k t]). split; [now apply emits_emit_r|].
  cbn [IR.emit label_count]. rewrite L1.
  eapply closed_code_app; [now apply closed_code_expr|].
  destruct (Hk t) as (H1 & H2 & H3). now apply closed_code_single.
Qed.

Lemma visit_stmt_closed s : forall g, exists out,
  emits g (visit_stmt float_str s g) out
  /\ closed_code (label_count g) (label_count (visit_stmt float_str s g)) out.
Proof.
  induction s as [n init | n e | e | c tb e IHt IHe | c b IHb
                  | init c step b IHi IHs IHb | e | b IHb]
    using Stmt_nested_ind; intros g.
  - cbn [visit_stmt]. destruct init as [e|].
    + apply (expr_then_instr_closed e g (IRAssign n)). now intros t.
    + exists []. split; [apply emits_refl | apply closed_code_nil].
  - cbn [visit_stmt]. apply (expr_then_instr_closed e g (IRAssign n)). now intros t.
  - cbn [visit_stmt]. destruct e as [e|].
    + apply (expr_then_instr_closed e g (fun v => IRReturn (Some v))). now intros t.
    + exists [IRReturn None]. split; [apply emits_emit|].
      now apply closed_code_single.
  - rewrite visit_stmt_if. destruct (visit_expr_instr c g) as (oc & Ec & Lc & Ic).
    destruct (visit_expr float_str c g) as [op g1]. cbn [snd] in *.
    cbn [new_label]. destruct e as [b|]; cbn [new_label]; cbv zeta.
    + match goal with |- context [visit_block float_str tb ?g6] =>
        destruct (visit_block_closed tb IHt g6) as (ot & Et & Ct) end.
      match goal with |- context [visit_block float_str b ?g9] =>
        destruct (visit_block_closed b (IHe b eq_refl) g9) as (oe & Ee & Ce) end.
      cbn [IR.emit label_count] in Ct, Ce.
      eexists. split.
      * solve_emits.
      * cbn [IR.emit label_count]. rewrite <- Lc.
        eapply closed_code_if_else; [exact Ic| |exact Ce].
        now replace (label_count g1 + 3) with (S (S (S (label_count g1)))) by lia.
    + match goal with |- context [visit_block float_str tb ?g6] =>
        destruct (visit_block_closed tb IHt g6) as (ot & Et & Ct) end.
      cbn [IR.emit label_count] in Ct.
      eexists. split.
      * solve_emits.
      * cbn [IR.emit label_count]. rewrite <- Lc.
        eapply closed_code_if; [exact Ic|].
        now replace (label_count g1 + 2) with (S (S (label_count g1))) by lia.
  - rewrite visit_stmt_while. cbn [new_label]. cbv zeta.
    match goal with |- context [visit_expr float_str c ?g4] =>
      destruct (visit_expr_instr c g4) as (oc & Ec & Lc & Ic);
      destruct (visit_expr float_str c g4) as [op g5] end.
    cbn [snd IR.emit label_count] in *.
    match goal with |- context [visit_block float_str b ?g7] =>
      destruct (visit_block_closed b IHb g7) as (ob & Eb & Cb) end.
    cbn [IR.emit label_count] in Cb. rewrite Lc in Cb.
    eexists. split.
    + solve_emits.
    + cbn [IR.emit label_count].
      eapply closed_code_loop; [exact Ic|].
      now replace (label_count g + 3) with (S (S (S (label_count g)))) by lia.
  - rewrite visit_stmt_for. cbn [new_label]. cbv zeta.
    destruct (IHi g) as (oi & Ei & Ci).
    set (g0 := visit_stmt float_str init g) in *.
    match goal with |- context [visit_expr float_str c ?g4] =>
      destruct (visit_expr_instr c g4) as (oc & Ec & Lc & Ic);
      destruct (visit_expr float_str c g4) as [op g5] end.
    cbn [snd IR.emit label_count] in *.
    match goal with |- context [visit_block float_str b ?g7] =>
      destruct (visit_block_closed b IHb g7) as (ob & Eb & Cb);
      destruct (IHs (visit_block float_str b g7)) as (os & Es & Cs) end.
    cbn [IR.emit label_count] in Cb. rewrite Lc in Cb.
    eexists. split.
    + solve_emits.
    + cbn [IR.emit label_count].
      eapply closed_code_app; [exact Ci|].
      pose proof (closed_code_app _ _ _ _ _ Cb Cs) as Cbs.
      rewrite (app_assoc ob os).
      eapply closed_code_loop; [exact Ic|].
      now replace (label_count g0 + 3) with (S (S (S (label_count g0)))) by lia.
  - cbn [visit_stmt]. destruct (visit_expr_instr e g) as (o1 & E1 & L1 & I1).
    exists o1. split; [exact E1|]. rewrite L1. now apply closed_code_expr.
  - rewrite visit_stmt_block. now apply visit_block_closed.
Qed.

Lemma visit_block_closed_all b g : exists out,
  emits g (visit_block float_str b g) out
  /\ closed_code (label_count g) (label_count (visit_block float_str b g)) out.
Proof.
  apply visit_block_closed. apply Forall_forall. intros s _. apply visit_stmt_closed.
Qed.

Lemma visit_program_regions its : forall g, exists out,
  emits g (visit_program float_str its g) out
  /\ regions (label_count g) (label_count (visit_program float_str its g)) out.
Proof.
  induction its as [|it its IH]; intros g; cbn [visit_program].
  - exists []. split; [apply emits_refl | constructor].
  - destruct it as [rt name ps body | s]; cbn [visit_item].
    + match goal with |- context [visit_block float_str body ?g1] =>
        destruct (visit_block_closed_all body g1) as (ob & Eb & Cb) end.
      cbn [IR.emit label_count] in Cb.
      match goal with |- context [visit_program float_str its ?g3] =>
        destruct (IH g3) as (ot & Et & Rt) end.
      cbn [IR.emit label_count] in Rt.
      exists (IRFuncBegin name (map snd ps) :: ob ++ IRFuncEnd name :: ot). split.
      * solve_emits.
      * econstructor; eassumption.
    + destruct (visit_stmt_closed s g) as (os & Es & Cs).
      destruct (IH (visit_stmt float_str s g)) as (ot & Et & Rt).
      exists (os ++ ot). split; [eapply emits_trans; eassumption|].
      econstructor; eassumption.
Qed.

Lemma generate_regions ast :
  regions 0 (label_count (generate float_str ast)) (fst (generate_ir float_str ast)).
Proof.
  unfold generate_ir, generate. cbn [fst].
  destruct (visit_program_regions (items ast) gen_init) as (out & E & R).
  unfold emits in E. cbn in E. rewrite E. exact R.
Qed.

End GeneratorLabels.

(** ** Jumps and their labels in a program *)

Lemma split_cases {A : Type} (out : list A) : forall tail pre i post,
  out ++ tail = pre ++ i :: post ->
  (exists post1, out = pre ++ i :: post1 /\ post = post1 ++ tail)
  \/ (exists pre2, pre = out ++ pre2 /\ tail = pre2 ++ i :: post).
Proof.
  induction out as [|x out IH]; intros tail pre i post H.
  - right. now exists pre.
  - destruct pre as [|y pre]; cbn in H.
    + injection H as -> H. left. exists out. now split.
    + injection H as -> H. destruct (IH _ _ _ _ H) as [(p1 & -> & ->)|(p2 & -> & ->)].
      * left. now exists p1.
      * right. now exists p2.
Qed.

Lemma two_positions {A : Type} (x : list A) : forall a y pre i post,
  x ++ a :: y = pre ++ i :: post -> a <> i ->
  (exists b, pre = x ++ a :: b /\ y = b ++ i :: post)
  \/ (exists b, post = b ++ a :: y /\ x = pre ++ i :: b).
Proof.
  induction x as [|h x IH]; intros a y pre i post H Hne.
  - destruct pre as [|p pre]; cbn in H.
    + injection H as -> _. congruence.
    + injection H as -> H. left. now exists pre.
  - destruct pre as [|p pre]; cbn in H.
    + injection H as -> H. right. exists x. now split.
    + injection H as -> H. destruct (IH _ _ _ _ _ H Hne) as [(b & -> & ->)|(b & -> & ->)].
      * left. now exists b.
      * right. now exists b.
Qed.

Lemma labels_of_elem t l : t ∈ labels_of l <-> IRLabel t ∈ l.
Proof.
  unfold labels_of. rewrite list_elem_of_omap. split.
  - intros (x & Hx & Hl). destruct x; try discriminate. now injection Hl as ->.
  - intros H. now exists (IRLabel t).
Qed.

Lemma targets_of_elem t i l : i ∈ l -> jump_target i = Some t -> t ∈ targets_of l.
Proof. intros H1 H2. unfold targets_of. rewrite list_elem_of_omap. now exists i. Qed.

Lemma jump_not_label i tgt t : jump_target i = Some tgt -> IRLabel t <> i.
Proof. intros H <-. discriminate. Qed.

Lemma jump_not_marker i tgt : jump_target i = Some tgt -> is_marker i = false.
Proof. destruct i; try discriminate; reflexivity. Qed.

Lemma closed_code_jump lo hi out pre i post tgt :
  closed_code lo hi out -> out = pre ++ i :: post -> jump_target i = Some tgt ->
  label_nearby tgt pre post.
Proof.
  intros (_ & P & T & M) -> Hj.
  assert (Hin : IRLabel tgt ∈ pre ++ i :: post).
  { apply labels_of_elem. rewrite P. apply T.
    eapply targets_of_elem; [|exact Hj]. apply elem_of_app. right. left. }
  apply list_elem_of_split in Hin. destruct Hin as (x & y & Hxy).
  symmetry in Hxy.
  destruct (two_positions x _ y pre i post Hxy (jump_not_label i tgt tgt Hj))
    as [(b & -> & ->)|(b & -> & ->)].
  - left. exists x, b. split; [reflexivity|].
    unfold no_marker. rewrite <- app_assoc in M. apply Forall_app in M.
    destruct M as [_ M]. apply Forall_cons in M. destruct M as [_ M].
    apply Forall_app in M. apply M.
  - right. exists b, y. split; [reflexivity|].
    unfold no_marker. apply Forall_app in M. destruct M as [_ M].
    apply Forall_cons in M. destruct M as [_ M]. apply Forall_app in M. apply M.
Qed.

Lemma label_nearby_shift tgt a pre post tail :
  label_nearby tgt pre post -> label_nearby tgt (a ++ pre) (post ++ tail).
Proof.
  intros [(x & b & -> & Hb)|(b & c & -> & Hb)].
  - left. exists (a ++ x), b. now rewrite <- app_assoc.
  - right. exists b, (c ++ tail). now rewrite <- app_assoc.
Qed.

Lemma label_nearby_left tgt a pre post :
  label_nearby tgt pre post -> label_nearby tgt (a ++ pre) post.
Proof.
  intros H. apply (label_nearby_shift tgt a pre post []) in H. now rewrite app_nil_r in H.
Qed.

Lemma regions_labels lo hi prog :
  regions lo hi prog -> lo <= hi /\ labels_of prog ≡ₚ label_range lo hi.
Proof.
  induction 1 as [lo | lo mid hi out tail (L & P & _) _ [L2 P2]
                  | lo mid hi name ps body tail (L & P & _) _ [L2 P2]].
  - split; [lia|]. now rewrite label_range_nil.
  - split; [lia|]. rewrite labels_of_app, (label_range_app lo mid hi) by lia.
    now rewrite P, P2.
  - split; [lia|]. list_labels. rewrite (label_range_app lo mid hi) by lia.
    now rewrite P, P2.
Qed.

Lemma regions_jump lo hi prog :
  regions lo hi prog ->
  forall pre i post tgt,
    prog = pre ++ i :: post -> jump_target i = Some tgt -> label_nearby tgt pre post.
Proof.
  induction 1 as [lo | lo mid hi out tail C _ IH
                  | lo mid hi name ps body tail C _ IH]; intros pre i post tgt H Hj.
  - destruct pre; discriminate.
  - destruct (split_cases out tail pre i post H) as [(p1 & Ho & ->)|(p2 & -> & Ht)].
    + pose proof (closed_code_jump _ _ _ _ _ _ _ C Ho Hj) as N.
      apply (label_nearby_shift tgt [] pre p1 tail) in N. exact N.
    + apply label_nearby_left. eapply IH; eassumption.
  - destruct pre as [|p pre]; cbn in H.
    { injection H as <- _. discriminate. }
    injection H as <- H.
    destruct (split_cases body _ pre i post H) as [(p1 & Ho & ->)|(p2 & -> & Ht)].
    + pose proof (closed_code_jump _ _ _ _ _ _ _ C Ho Hj) as N.
      apply (label_nearby_shift tgt [IRFuncBegin name ps] pre p1 (IRFuncEnd name :: tail)) in N.
      exact N.
    + destruct p2 as [|q p2]; cbn in Ht.
      { injection Ht as <- _. discriminate. }
      injection Ht as <- Ht.
      pose proof (IH _ _ _ _ Ht Hj) as N.
      apply (label_nearby_left tgt (IRFuncBegin name ps :: body ++ [IRFuncEnd name])) in N.
      replace (IRFuncBegin name ps :: body ++ IRFuncEnd name :: p2)
        with ((IRFuncBegin name ps :: body ++ [IRFuncEnd name]) ++ p2); [exact N|].
      cbn [app]. now rewrite <- app_assoc.
Qed.

(** ** Temporaries of the generated code *)

Lemma all_digits_uint d : all_digits (NilEmpty.string_of_uint d) = true.
Proof. induction d; cbn; try reflexivity; exact IHd. Qed.

Lemma revapp_nonnil d : forall acc, acc <> Decimal.Nil -> Decimal.revapp d acc <> Decimal.Nil.
Proof. induction d; intros acc H; cbn; try exact H; apply IHd; discriminate. Qed.

Lemma little_succ_nonnil d : Decimal.Little.succ d <> Decimal.Nil.
Proof. destruct d; discriminate. Qed.

Lemma to_little_uint_nonnil n : forall acc,
  acc <> Decimal.Nil -> Nat.to_little_uint n acc <> Decimal.Nil.
Proof.
  induction n as [|n IH]; intros acc H; cbn; [exact H|].
  apply IH, little_succ_nonnil.
Qed.

Lemma to_uint_nonnil n : Nat.to_uint n <> Decimal.Nil.
Proof.
  unfold Nat.to_uint, Decimal.rev.
  pose proof (to_little_uint_nonnil n Decimal.zero ltac:(discriminate)) as H.
  destruct (Nat.to_little_uint n Decimal.zero); try congruence;
    cbn; apply revapp_nonnil; discriminate.
Qed.

Lemma isdigit_str_nat k : isdigit (str_nat k) = true.
Proof.
  unfold str_nat, isdigit. pose proof (all_digits_uint (Nat.to_uint k)) as H.
  pose proof (to_uint_nonnil k) as N.
  destruct (Nat.to_uint k); try congruence; exact H.
Qed.

Lemma temp_like_temp_name k : temp_like (temp_name k) = true.
Proof. unfold temp_name. cbn. apply isdigit_str_nat. Qed.

Lemma temp_like_str_N n : temp_like (str_N n) = false.
Proof. unfold str_N. destruct (N.to_uint n); reflexivity. Qed.

Lemma temp_like_string_name k : temp_like (string_name k) = false.
Proof. reflexivity. Qed.

Lemma operand_ok_mono n m s : n <= m -> operand_ok n s -> operand_ok m s.
Proof. intros L H T. destruct (H T) as (k & Hk & ->). exists k. split; [lia | reflexivity]. Qed.

Lemma operand_ok_plain n s : temp_like s = false -> operand_ok n s.
Proof. intros H T. congruence. Qed.

Lemma operand_ok_temp n : operand_ok (S n) (temp_name n).
Proof. intros _. exists n. split; [lia | reflexivity]. Qed.

Lemma temps_ok_le l : forall n m, temps_ok n l m -> n <= m.
Proof.
  induction l as [|i l IH]; intros n m H; cbn in H; [lia|].
  destruct H as [_ H]. destruct (dest_of i) as [d|]; [|now apply IH].
  destruct (temp_like d); [|now apply IH]. destruct H as [_ H]. apply IH in H. lia.
Qed.

Lemma temps_ok_app l1 : forall n k l2 m,
  temps_ok n l1 k -> temps_ok k l2 m -> temps_ok n (l1 ++ l2) m.
Proof.
  induction l1 as [|i l1 IH]; intros n k l2 m H1 H2; cbn in H1.
  - now subst k.
  - cbn [app temps_ok]. destruct H1 as [S1 H1]. split; [exact S1|].
    destruct (dest_of i) as [d|]; [|eapply IH; eassumption].
    destruct (temp_like d); [|eapply IH; eassumption].
    destruct H1 as [-> H1]. split; [reflexivity | eapply IH; eassumption].
Qed.

Lemma temps_ok_nil n : temps_ok n [] n.
Proof. reflexivity. Qed.

(** An instruction that defines the next temporary. *)
Lemma temps_ok_define n i :
  dest_of i = Some (temp_name n) -> Forall (operand_ok n) (sources_of i) ->
  temps_ok n [i] (S n).
Proof.
  intros D S. cbn. split; [exact S|]. rewrite D, temp_like_temp_name. now split.
Qed.

(** An instruction that defines no temporary. *)
Lemma temps_ok_plain n i :
  match dest_of i with Some d => temp_like d = false | None => True end ->
  Forall (operand_ok n) (sources_of i) ->
  temps_ok n [i] n.
Proof.
  intros D S. cbn. split; [exact S|]. destruct (dest_of i) as [d|]; [|reflexivity].
  now rewrite D.
Qed.

Ltac sources_ok :=
  repeat first [ apply List.Forall_nil
               | apply List.Forall_cons
               | assumption
               | (eapply operand_ok_mono; [|eassumption]; lia) ].

Ltac temps_chain :=
  repeat match goal with
         | |- temps_ok _ (_ ++ _) _ => eapply temps_ok_app; [eassumption|]
         | |- temps_ok _ (_ :: _) _ =>
             cbn [temps_ok dest_of sources_of]; split; [sources_ok|]
         | |- Forall _ _ /\ _ => split; [sources_ok|]
         | |- temps_ok _ [] _ => reflexivity
         end.

Section GeneratorTemps.

Variable float_str : pyfloat -> string.

Lemma strings_ok_lookup g v name :
  strings_ok g -> dict_get v (string_literals g) = Some name -> temp_like name = false.
Proof.
  unfold strings_ok. intros H D. apply dict_get_In in D. apply in_map_iff in D.
  destruct D as ([k n] & <- & Hin). rewrite Forall_forall in H.
  apply (H (k, n)). now apply list_elem_of_In.
Qed.

Lemma new_string_ok v g :
  strings_ok g ->
  temp_like (fst (new_string v g)) = false /\ strings_ok (snd (new_string v g)).
Proof.
  intros H. unfold new_string. destruct (dict_get v (string_literals g)) as [name|] eqn:D.
  - split; [eapply strings_ok_lookup; eassumption | exact H].
  - split; [reflexivity|]. unfold strings_ok. cbn. apply Forall_app. split; [exact H|].
    now repeat constructor.
Qed.

Lemma visit_args_temps args :
  Forall (fun e => expr_names_ok float_str e = true ->
            forall g, strings_ok g -> exists out,
              emits g (snd (visit_expr float_str e g)) out
              /\ temps_ok (temp_count g) out (temp_count (snd (visit_expr float_str e g)))
              /\ operand_ok (temp_count (snd (visit_expr float_str e g)))
                   (fst (visit_expr float_str e g))
              /\ strings_ok (snd (visit_expr float_str e g))) args ->
  forallb (expr_names_ok float_str) args = true ->
  forall acc g, strings_ok g -> Forall (operand_ok (temp_count g)) acc ->
  exists out,
    emits g (snd (visit_args float_str args acc g)) out
    /\ temps_ok (temp_count g) out (temp_count (snd (visit_args float_str args acc g)))
    /\ Forall (operand_ok (temp_count (snd (visit_args float_str args acc g))))
         (fst (visit_args float_str args acc g))
    /\ strings_ok (snd (visit_args float_str args acc g)).
Proof.
  induction 1 as [|e args He _ IH]; intros Hn acc g Sg Hacc; cbn [visit_args].
  - exists []. split; [apply emits_refl|]. split; [reflexivity|]. now split.
  - cbn [forallb] in Hn. apply andb_true_iff in Hn. destruct Hn as [Hn1 Hn2].
    destruct (He Hn1 g Sg) as (o1 & E1 & T1 & O1 & S1).
    destruct (visit_expr float_str e g) as [t g1]. cbn [fst snd] in *.
    pose proof (temps_ok_le _ _ _ T1) as L1.
    destruct (IH Hn2 (acc ++ [t]) (IR.emit (IRParam t) g1)) as (o2 & E2 & T2 & O2 & S2).
    + exact S1.
    + cbn [IR.emit temp_count]. apply Forall_app. split; [|now repeat constructor].
      eapply Forall_impl; [exact Hacc|]. intros s Hs. now apply (operand_ok_mono _ _ _ L1).
    + cbn [IR.emit temp_count] in T2.
      exists (o1 ++ IRParam t :: o2). split; [solve_emits|].
      split; [|now split]. temps_chain. exact T2.
Qed.

Lemma visit_expr_temps e :
  expr_names_ok float_str e = true ->
  forall g, strings_ok g -> exists out,
    emits g (snd (visit_expr float_str e g)) out
    /\ temps_ok (temp_count g) out (temp_count (snd (visit_expr float_str e g)))
    /\ operand_ok (temp_count (snd (visit_expr float_str e g)))
         (fst (visit_expr float_str e g))
    /\ strings_ok (snd (visit_expr float_str e g)).
Proof.
  induction e as [v | v | n | op e IH | l op r IHl IHr | name args IH]
    using Expr_nested_ind; intros Hn g Sg.
  - exists []. split; [apply emits_refl|]. split; [reflexivity|]. split; [|exact Sg].
    apply operand_ok_plain. cbn [visit_expr fst num_str].
    destruct v as [k|f]; [apply temp_like_str_N|]. cbn in Hn.
    now apply negb_true_iff in Hn.
  - cbn [visit_expr]. destruct (new_string_ok v g Sg) as [H1 H2].
    destruct (new_string_same v g) as (I1 & _ & I3).
    exists []. split; [now apply emits_same|]. split; [cbn; now rewrite I3|].
    split; [now apply operand_ok_plain | exact H2].
  - exists []. split; [apply emits_refl|]. split; [reflexivity|]. split; [|exact Sg].
    apply operand_ok_plain. cbn in Hn. now apply negb_true_iff in Hn.
  - cbn [visit_expr]. cbn [expr_names_ok] in Hn.
    destruct (IH Hn g Sg) as (o1 & E1 & T1 & O1 & S1).
    destruct (visit_expr float_str e g) as [t g1]. cbn [fst snd new_temp] in *.
    exists (o1 ++ [IRUnaryOp (temp_name (temp_count g1)) op t]).
    split; [solve_emits|]. cbn [IR.emit temp_count].
    split; [|split; [apply operand_ok_temp | exact S1]].
    eapply temps_ok_app; [exact T1|]. apply temps_ok_define; [reflexivity|]. sources_ok.
  - cbn [visit_expr]. cbn [expr_names_ok] in Hn. apply andb_true_iff in Hn.
    destruct Hn as [Hn1 Hn2].
    destruct (IHl Hn1 g Sg) as (o1 & E1 & T1 & O1 & S1).
    destruct (visit_expr float_str l g) as [tl g1]. cbn [fst snd] in *.
    destruct (IHr Hn2 g1 S1) as (o2 & E2 & T2 & O2 & S2).
    destruct (visit_expr float_str r g1) as [tr g2]. cbn [fst snd new_temp] in *.
    pose proof (temps_ok_le _ _ _ T2) as L2.
    exists (o1 ++ o2 ++ [IRBinOp (temp_name (temp_count g2)) tl op tr]).
    split; [solve_emits|]. cbn [IR.emit temp_count].
    split; [|split; [apply operand_ok_temp | exact S2]].
    eapply temps_ok_app; [exact T1|]. eapply temps_ok_app; [exact T2|].
    apply temps_ok_define; [reflexivity|]. sources_ok.
  - rewrite visit_expr_call. cbn [expr_names_ok] in Hn.
    destruct (visit_args_temps args IH Hn [] g Sg ltac:(constructor))
      as (o1 & E1 & T1 & O1 & S1).
    destruct (visit_args float_str args [] g) as [ts g1]. cbn [fst snd new_temp] in *.
    exists (o1 ++ [IRCall (Some (temp_name (temp_count g1))) name ts]).
    split; [solve_emits|]. cbn [IR.emit temp_count].
    split; [|split; [apply operand_ok_temp | exact S1]].
    eapply temps_ok_app; [exact T1|]. apply temps_ok_define; [reflexivity | exact O1].
Qed.

End GeneratorTemps.

Section GeneratorTempsStatements.

Variable float_str : pyfloat -> string.

Lemma visit_block_temps b :
  Forall (fun s => stmt_names_ok float_str s = true ->
            forall g, strings_ok g -> exists out,
              emits g (visit_stmt float_str s g) out
              /\ temps_ok (temp_count g) out (temp_count (visit_stmt float_str s g))
              /\ strings_ok (visit_stmt float_str s g)) b ->
  forallb (stmt_names_ok float_str) b = true ->
  forall g, strings_ok g -> exists out,
    emits g (visit_block float_str b g) out
    /\ temps_ok (temp_count g) out (temp_count (visit_block float_str b g))
    /\ strings_ok (visit_block float_str b g).
Proof.
  induction 1 as [|s b Hs _ IH]; intros Hn g Sg; cbn [visit_block].
  - exists []. split; [apply emits_refl|]. now split.
  - cbn [forallb] in Hn. apply andb_true_iff in Hn. destruct Hn as [Hn1 Hn2].
    destruct (Hs Hn1 g Sg) as (o1 & E1 & T1 & S1).
    destruct (IH Hn2 _ S1) as (o2 & E2 & T2 & S2).
    exists (o1 ++ o2). split; [eapply emits_trans; eassumption|].
    split; [eapply temps_ok_app; eassumption | exact S2].
Qed.

(** An expression followed by one instruction that reads its operand and
    defines no temporary. *)
Lemma expr_then_instr_temps e g (k : string -> IRInstr) :
  expr_names_ok float_str e = true -> strings_ok g ->
  (forall t, match dest_of (k t) with Some d => temp_like d = false | None => True end) ->
  (forall t, sources_of (k t) = [t]) ->
  exists out,
    emits g (let '(t, g1) := visit_expr float_str e g in IR.emit (k t) g1) out
    /\ temps_ok (temp_count g) out
         (temp_count (let '(t, g1) := visit_expr float_str e g in IR.emit (k t) g1))
    /\ strings_ok (let '(t, g1) := visit_expr float_str e g in IR.emit (k t) g1).
Proof.
  intros Hn Sg Hd Hs. destruct (visit_expr_temps float_str e Hn g Sg) as (o1 & E1 & T1 & O1 & S1).
  destruct (visit_expr float_str e g) as [t g1]. cbn [fst snd] in *.
  exists (o1 ++ [k t]). split; [now apply emits_emit_r|].
  cbn [IR.emit temp_count]. split; [|exact S1].
  eapply temps_ok_app; [exact T1|]. apply temps_ok_plain; [apply Hd|].
  rewrite Hs. now repeat constructor.
Qed.

Lemma visit_stmt_temps s :
  stmt_names_ok float_str s = true ->
  forall g, strings_ok g -> exists out,
    emits g (visit_stmt float_str s g) out
    /\ temps_ok (temp_count g) out (temp_count (visit_stmt float_str s g))
    /\ strings_ok (visit_stmt float_str s g).
Proof.
  induction s as [n init | n e | e | c tb e IHt IHe | c b IHb
                  | init c step b IHi IHs IHb | e | b IHb]
    using Stmt_nested_ind; intros Hn g Sg.
  - cbn [visit_stmt]. cbn [stmt_names_ok] in Hn. apply andb_true_iff in Hn.
    destruct Hn as [Hn1 Hn2]. apply negb_true_iff in Hn1. destruct init as [e|].
    + apply (expr_then_instr_temps e g (IRAssign n)); [exact Hn2 | exact Sg | |];
        intros t; [exact Hn1 | reflexivity].
    + exists []. split; [apply emits_refl|]. now split.
  - cbn [visit_stmt]. cbn [stmt_names_ok] in Hn. apply andb_true_iff in Hn.
    destruct Hn as [Hn1 Hn2]. apply negb_true_iff in Hn1.
    apply (expr_then_instr_temps e g (IRAssign n)); [exact Hn2 | exact Sg | |];
      intros t; [exact Hn1 | reflexivity].
  - cbn [visit_stmt]. cbn [stmt_names_ok] in Hn. destruct e as [e|].
    + apply (expr_then_instr_temps e g (fun v => IRReturn (Some v)));
        [exact Hn | exact Sg | |]; intros t; [exact I | reflexivity].
    + exists [IRReturn None]. split; [apply emits_emit|]. split; [|exact Sg].
      apply temps_ok_plain; [exact I | constructor].
  - rewrite visit_stmt_if. cbn [stmt_names_ok] in Hn.
    apply andb_true_iff in Hn. destruct Hn as [Hn Hne].
    apply andb_true_iff in Hn. destruct Hn as [Hnc Hnt].
    destruct (visit_expr_temps float_str c Hnc g Sg) as (oc & Ec & Tc & Oc & Sc).
    destruct (visit_expr float_str c g) as [op g1]. cbn [fst snd] in *.
    cbn [new_label]. destruct e as [b|]; cbn [new_label]; cbv zeta.
    + match goal with |- context [visit_block float_str tb ?g6] =>
        destruct (visit_block_temps tb IHt Hnt g6 Sc) as (ot & Et & Tt & St) end.
      match goal with |- context [visit_block float_str b ?g9] =>
        destruct (visit_block_temps b (IHe b eq_refl) Hne g9 St) as (oe & Ee & Te & Se) end.
      cbn [IR.emit temp_count] in Tt, Te.
      eexists. split; [solve_emits|]. cbn [IR.emit temp_count].
      split; [|exact Se]. temps_chain; first [reflexivity | eassumption].
    + match goal with |- context [visit_block float_str tb ?g6] =>
        destruct (visit_block_temps tb IHt Hnt g6 Sc) as (ot & Et & Tt & St) end.
      cbn [IR.emit temp_count] in Tt.
      eexists. split; [solve_emits|]. cbn [IR.emit temp_count].
      split; [|exact St]. temps_chain; first [reflexivity | eassumption].
  - rewrite visit_stmt_while. cbn [stmt_names_ok] in Hn.
    apply andb_true_iff in Hn. destruct Hn as [Hnc Hnb].
    cbn [new_label]. cbv zeta.
    match goal with |- context [visit_expr float_str c ?g4] =>
      destruct (visit_expr_temps float_str c Hnc g4 Sg) as (oc & Ec & Tc & Oc & Sc);
      destruct (visit_expr float_str c g4) as [op g5] end.
    cbn [fst snd IR.emit temp_count] in *.
    match goal with |- context [visit_block float_str b ?g7] =>
      destruct (visit_block_temps b IHb Hnb g7 Sc) as (ob & Eb & Tb & Sb) end.
    cbn [IR.emit temp_count] in Tb.
    eexists. split; [solve_emits|]. cbn [IR.emit temp_count].
    split; [|exact Sb]. temps_chain; first [reflexivity | eassumption].
  - rewrite visit_stmt_for. cbn [stmt_names_ok] in Hn.
    apply andb_true_iff in Hn. destruct Hn as [Hn Hnb].
    apply andb_true_iff in Hn. destruct Hn as [Hn Hns].
    apply andb_true_iff in Hn. destruct Hn as [Hni Hnc].
    cbn [new_label]. cbv zeta.
    destruct (IHi Hni g Sg) as (oi & Ei & Ti & Si).
    set (g0 := visit_stmt float_str init g) in *.
    match goal with |- context [visit_expr float_str c ?g4] =>
      destruct (visit_expr_temps float_str c Hnc g4 Si) as (oc & Ec & Tc & Oc & Sc);
      destruct (visit_expr float_str c g4) as [op g5] end.
    cbn [fst snd IR.emit temp_count] in *.
    match goal with |- context [visit_block float_str b ?g7] =>
      destruct (visit_block_temps b IHb Hnb g7 Sc) as (ob & Eb & Tb & Sb);
      destruct (IHs Hns (visit_block float_str b g7) Sb) as (os & Es & Ts & Ss) end.
    cbn [IR.emit temp_count] in Tb.
    eexists. split; [solve_emits|]. cbn [IR.emit temp_count].
    split; [|exact Ss]. temps_chain; first [reflexivity | eassumption].
  - cbn [visit_stmt]. cbn [stmt_names_ok] in Hn.
    destruct (visit_expr_temps float_str e Hn g Sg) as (o1 & E1 & T1 & _ & S1).
    exists o1. now split.
  - rewrite visit_stmt_block. cbn [stmt_names_ok] in Hn. now apply visit_block_temps.
Qed.

Lemma visit_block_temps_all b g :
  forallb (stmt_names_ok float_str) b = true -> strings_ok g ->
  exists out,
    emits g (visit_block float_str b g) out
    /\ temps_ok (temp_count g) out (temp_count (visit_block float_str b g))
    /\ strings_ok (visit_block float_str b g).
Proof.
  intros Hn Sg. apply visit_block_temps; [|exact Hn | exact Sg].
  apply Forall_forall. intros s _ Hs. now apply visit_stmt_temps.
Qed.

Lemma visit_program_temps its : forall g,
  forallb (item_names_ok float_str) its = true -> strings_ok g ->
  exists out,
    emits g (visit_program float_str its g) out
    /\ temps_ok (temp_count g) out (temp_count (visit_program float_str its g)).
Proof.
  induction its as [|it its IH]; intros g Hn Sg; cbn [visit_program].
  - exists []. split; [apply emits_refl | reflexivity].
  - cbn [forallb] in Hn. apply andb_true_iff in Hn. destruct Hn as [Hn1 Hn2].
    destruct it as [rt name ps body | s]; cbn [visit_item item_names_ok] in *.
    + match goal with |- context [visit_block float_str body ?g1] =>
        destruct (visit_block_temps_all body g1 Hn1 Sg) as (ob & Eb & Tb & Sb) end.
      cbn [IR.emit temp_count] in Tb.
      match goal with |- context [visit_program float_str its ?g3] =>
        destruct (IH g3 Hn2 Sb) as (ot & Et & Tt) end.
      cbn [IR.emit temp_count] in Tt.
      eexists. split; [solve_emits|]. temps_chain; first [reflexivity | eassumption].
    + destruct (visit_stmt_temps s Hn1 g Sg) as (os & Es & Ts & Ss).
      destruct (IH _ Hn2 Ss) as (ot & Et & Tt).
      exists (os ++ ot). split; [eapply emits_trans; eassumption|].
      eapply temps_ok_app; eassumption.
Qed.

Lemma generate_temps ast :
  program_names_ok float_str ast = true ->
  temps_ok 0 (fst (generate_ir float_str ast)) (temp_count (generate float_str ast)).
Proof.
  intros Hn. unfold generate_ir, generate. cbn [fst].
  destruct (visit_program_temps (items ast) gen_init Hn ltac:(constructor)) as (out & E & T).
  unfold emits in E. cbn in E. rewrite E. exact T.
Qed.

End GeneratorTempsStatements.

(** ** From the running invariant to single definitions *)

Lemma temps_ok_dests l : forall n m, temps_ok n l m ->
  Forall (fun x => forall d, dest_of x = Some d -> temp_like d = true ->
                   exists j, n <= j < m /\ d = temp_name j) l.
Proof.
  induction l as [|i l IH]; intros n m H; [constructor|].
  cbn [temps_ok] in H. destruct H as [_ H].
  destruct (dest_of i) as [d|] eqn:D.
  - destruct (temp_like d) eqn:T.
    + destruct H as [-> H]. pose proof (temps_ok_le _ _ _ H) as Hle.
      constructor.
      * intros d' E _. rewrite D in E. exists n. split; [lia | congruence].
      * eapply Forall_impl; [exact (IH _ _ H)|]. cbn. intros x Hx d' D' T'.
        destruct (Hx d' D' T') as (j & Hj & ->). exists j. split; [lia | reflexivity].
    + constructor; [|now apply IH]. intros d' E T'. rewrite D in E. congruence.
  - constructor; [|now apply IH]. intros d' E. rewrite D in E. discriminate E.
Qed.

Lemma temps_ok_sources l : forall n m, temps_ok n l m ->
  Forall (fun x => Forall (operand_ok m) (sources_of x)) l.
Proof.
  induction l as [|i l IH]; intros n m H; [constructor|].
  pose proof (temps_ok_le _ _ _ H) as Hle.
  cbn [temps_ok] in H. destruct H as [S H]. constructor.
  - eapply Forall_impl; [exact S|]. cbn. intros s Hs.
    eapply operand_ok_mono; [|exact Hs]. lia.
  - destruct (dest_of i) as [d|]; [|exact (IH _ _ H)].
    destruct (temp_like d); [|exact (IH _ _ H)]. destruct H as [_ H]. exact (IH _ _ H).
Qed.

Lemma temps_ok_split l : forall n m k, temps_ok n l m -> n <= k < m ->
  exists pre i post,
    l = pre ++ i :: post /\ dest_of i = Some (temp_name k)
    /\ temps_ok n pre k /\ Forall (operand_ok k) (sources_of i)
    /\ temps_ok (S k) post m.
Proof.
  induction l as [|i l IH]; intros n m k H Hk.
  - cbn in H. lia.
  - cbn [temps_ok] in H. destruct H as [Src H].
    assert (Later : forall n', n' = n -> temps_ok n' l m ->
              match dest_of i with
              | Some d => temp_like d = false
              | None => True
              end ->
              exists pre i0 post,
                i :: l = pre ++ i0 :: post /\ dest_of i0 = Some (temp_name k)
                /\ temps_ok n pre k /\ Forall (operand_ok k) (sources_of i0)
                /\ temps_ok (S k) post m).
    { intros n' -> H' D. destruct (IH _ _ k H' Hk) as (pre & i0 & post & -> & D0 & P & S0 & Q).
      exists (i :: pre), i0, post. split; [reflexivity|]. split; [exact D0|].
      split; [|now split]. cbn [temps_ok]. split; [exact Src|].
      destruct (dest_of i) as [d|]; [|exact P]. now rewrite D. }
    destruct (dest_of i) as [d|] eqn:D; [|now apply (Later n)].
    destruct (temp_like d) eqn:T; [|now apply (Later n)].
    destruct H as [-> H]. destruct (Nat.eq_dec k n) as [->|Hne].
    + exists [], i, l. split; [reflexivity|]. split; [exact D|].
      split; [reflexivity|]. now split.
    + destruct (IH _ _ k H ltac:(lia)) as (pre & i0 & post & -> & D0 & P & S0 & Q).
      exists (i :: pre), i0, post. split; [reflexivity|]. split; [exact D0|].
      split; [|now split]. cbn [temps_ok]. split; [exact Src|].
      rewrite D, temp_like_temp_name. now split.
Qed.

Lemma operand_ok_not_later n k s : operand_ok n s -> n <= k -> s <> temp_name k.
Proof.
  intros H Hle ->. destruct (H (temp_like_temp_name k)) as (j & Hj & E).
  apply temp_name_inj in E. lia.
Qed.

Lemma temps_ok_defined_once l n m k :
  temps_ok n l m -> n <= k < m -> defined_once_before_use k l.
Proof.
  intros H Hk. destruct (temps_ok_split l n m k H Hk) as (pre & i & post & -> & D & P & Src & Q).
  exists pre, i, post. split; [reflexivity|]. split; [exact D|]. split.
  - apply Forall_app. split.
    + eapply Forall_impl; [exact (temps_ok_dests _ _ _ P)|]. cbn. intros x Hx E.
      destruct (Hx _ E (temp_like_temp_name k)) as (j & Hj & Ej).
      apply temp_name_inj in Ej. lia.
    + eapply Forall_impl; [exact (temps_ok_dests _ _ _ Q)|]. cbn. intros x Hx E.
      destruct (Hx _ E (temp_like_temp_name k)) as (j & Hj & Ej).
      apply temp_name_inj in Ej. lia.
  - apply Forall_app. split.
    + eapply Forall_impl; [exact (temps_ok_sources _ _ _ P)|]. cbn. intros x Hx Hin.
      rewrite Forall_forall in Hx. now apply (operand_ok_not_later k k _ (Hx _ Hin)).
    + constructor; [|constructor]. intros Hin.
      rewrite Forall_forall in Src. now apply (operand_ok_not_later k k _ (Src _ Hin)).
Qed.

Lemma temps_ok_names l m x s :
  temps_ok 0 l m -> x ∈ l -> s ∈ sources_of x \/ dest_of x = Some s ->
  temp_like s = true -> exists k, k < m /\ s = temp_name k.
Proof.
  intros H Hx [Hs|Hd] T.
  - pose proof (temps_ok_sources _ _ _ H) as F. rewrite Forall_forall in F.
    specialize (F _ Hx). rewrite Forall_forall in F. exact (F _ Hs T).
  - pose proof (temps_ok_dests _ _ _ H) as F. rewrite Forall_forall in F.
    destruct (F _ Hx _ Hd T) as (j & Hj & ->). exists j. split; [lia | reflexivity].
Qed.

Lemma defined_once_definitions k l :
  defined_once_before_use k l -> length (definitions_of (temp_name k) l) = 1.
Proof.
  intros (pre & i & post & -> & D & F & _). apply Forall_app in F. destruct F as [F1 F2].
  unfold definitions_of. rewrite filter_app, filter_cons_True by exact D.
  assert (N : forall xs, Forall (fun x => dest_of x <> Some (temp_name k)) xs ->
              filter (fun i => dest_of i = Some (temp_name k)) xs = []).
  { induction 1 as [|x xs Hx _ IH]; [reflexivity|]. now rewrite filter_cons_False. }
  now rewrite (N _ F1), (N _ F2).
Qed.

Lemma label_range_NoDup lo hi : NoDup (label_range lo hi).
Proof.
  unfold label_range. apply NoDup_fmap_2; [|apply NoDup_seq].
  intros a b. apply label_name_inj.
Qed.

Lemma label_nearby_elem tgt pre i post :
  label_nearby tgt pre post -> tgt ∈ labels_of (pre ++ i :: post).
Proof.
  intros H. apply labels_of_elem.
  destruct H as [(a & b & -> & _)|(b & c & -> & _)]; set_solver.
Qed.

(** C4. In the IR of a program the labels are pairwise distinct, and for
    every jump its target occurs exactly once as a Label, before or after
    the jump with no FuncBegin and no FuncEnd between the two (so a jump of
    a function body has its label in the same FuncBegin...FuncEnd pair, and
    a jump of a top-level statement outside every pair). When no variable
    and no printed float literal of the program has the form t<digits>, each
    temporary tk handed out by the generator is the destination of exactly
    one instruction, which comes before every instruction reading tk, and
    every operand or destination of that form is one of these temporaries. *)
Theorem ir_labels_and_temporaries (float_str : pyfloat -> string) (ast : Program) :
  let prog := fst (generate_ir float_str ast) in
  let m := temp_count (generate float_str ast) in
  NoDup (labels_of prog)
  /\ (forall pre i post tgt,
        prog = pre ++ i :: post -> jump_target i = Some tgt ->
        label_occurrences tgt prog = 1 /\ label_nearby tgt pre post)
  /\ (program_names_ok float_str ast = true ->
      (forall k, k < m ->
         defined_once_before_use k prog
         /\ length (definitions_of (temp_name k) prog) = 1)
      /\ (forall x s, x ∈ prog -> s ∈ sources_of x \/ dest_of x = Some s ->
            temp_like s = true -> exists k, k < m /\ s = temp_name k)).
Proof.
  intros prog m.
  pose proof (generate_regions float_str ast) as R. fold prog in R.
  destruct (regions_labels _ _ _ R) as [_ P].
  assert (ND : NoDup (labels_of prog)).
  { rewrite P. apply label_range_NoDup. }
  split; [exact ND|]. split.
  - intros pre i post tgt E J.
    pose proof (regions_jump _ _ _ R pre i post tgt E J) as Near.
    split; [|exact Near]. unfold label_occurrences.
    apply (proj1 (NoDup_count_occ' string_dec (labels_of prog))
             (proj1 (NoDup_ListNoDup _) ND)).
    apply list_elem_of_In. rewrite E. now apply label_nearby_elem.
  - intros Hn. pose proof (generate_temps float_str ast Hn) as T.
    fold prog in T. fold m in T. split.
    + intros k Hk.
      assert (D : defined_once_before_use k prog).
      { apply (temps_ok_defined_once prog 0 m k T). lia. }
      split; [exact D | now apply defined_once_definitions].
    + intros x s. now apply temps_ok_names.
Qed.

Lemma ir_labels_and_temporaries_witness :
  program_names_ok float_lexeme (ast_of branching_source) = true
  /\ defined_once_before_use 1 (fst (generate_ir float_lexeme (ast_of branching_source))).
Proof.
  assert (N : program_names_ok float_lexeme (ast_of branching_source) = true)
    by (vm_compute; reflexivity).
  split; [exact N|].
  refine (proj1 (proj1 (proj2 (proj2
    (ir_labels_and_temporaries float_lexeme (ast_of branching_source))) N) 1 _)).
  vm_compute. lia.
Defined.

(** The variable [t0] of [temp_clash_source] and the first temporary share a
    name: the IR of this accepted program defines [t0] twice. *)
Lemma temp_clash_counterexample :
  front_end (String.length temp_clash_source) temp_clash_source
    = Ok (ast_of temp_clash_source)
  /\ fst (generate_ir float_lexeme (ast_of temp_clash_source))
     = [IRFuncBegin "main" []; IRAssign "t0" "1"; IRBinOp "t0" "t0" "+" "2";
        IRAssign "y" "t0"; IRReturn (Some "y"); IRFuncEnd "main"]
  /\ length (definitions_of (temp_name 0)
               (fst (generate_ir float_lexeme (ast_of temp_clash_source)))) = 2
  /\ ~ defined_once_before_use 0
         (fst (generate_ir float_lexeme (ast_of temp_clash_source))).
Proof.
  assert (L : length (definitions_of (temp_name 0)
                (fst (generate_ir float_lexeme (ast_of temp_clash_source)))) = 2)
    by (vm_compute; reflexivity).
  split; [vm_compute; reflexivity|]. split; [vm_compute; reflexivity|].
  split; [exact L|]. intros D. apply defined_once_definitions in D.
  rewrite L in D. discriminate D.
Qed.

(** * The result does not depend on the step budget *)

Lemma out_le_refl {E A : Type} (a : outcome E A) : out_le a a.
Proof. now right. Qed.

Lemma out_le_fuel {E A : Type} (b : outcome E A) : out_le OutOfFuel b.
Proof. now left. Qed.

Lemma out_le_bind {E A B : Type} (c1 c2 : outcome E A) (k1 k2 : A -> outcome E B) :
  out_le c1 c2 -> (forall x, out_le (k1 x) (k2 x)) ->
  out_le (bind c1 k1) (bind c2 k2).
Proof.
  intros [->| ->] K; [now left|]. destruct c2 as [x|e|]; cbn [bind]; [apply K | now right | now left].
Qed.

Lemma out_le_lift {E E' A : Type} (f : E -> E') (a b : outcome E A) :
  out_le a b -> out_le (lift f a) (lift f b).
Proof. intros [->| ->]; [now left | now right]. Qed.

Lemma out_le_ok {E A : Type} (a b : outcome E A) x : out_le a b -> a = Ok x -> b = Ok x.
Proof. intros [->| ->]; [discriminate | trivial]. Qed.

Create HintDb mono.

Ltac mono :=
  repeat first
    [ apply out_le_refl
    | apply out_le_fuel
    | solve [auto with mono]
    | apply out_le_bind; [| intros ?; cbn beta]
    | match goal with
      | |- out_le (match ?x with _ => _ end) _ => destruct x eqn:?
      end ].

Ltac by_fuel f1 f2 :=
  induction f1 as [|f1 IH]; intros f2;
  [ intros; apply out_le_fuel
  | destruct f2 as [|f2]; [intros; lia|] ].

Section ExpressionsBudget.

Variables e1 e2 : M Expr.
Hypothesis He : forall st, out_le (e1 st) (e2 st).

Lemma args_loop_mono f1 : forall f2 result st, f1 <= f2 ->
  out_le (args_loop e1 f1 result st) (args_loop e2 f2 result st).
Proof.
  by_fuel f1 f2. intros result st Hle. assert (f1 <= f2) by lia.
  cbn [args_loop]. mono.
Qed.

Lemma args_mono f1 f2 st : f1 <= f2 -> out_le (args e1 f1 st) (args e2 f2 st).
Proof.
  intros Hle. unfold args. apply out_le_bind; [apply He|].
  intros [e st1]. now apply args_loop_mono.
Qed.

Lemma func_call_mono f1 f2 st : f1 <= f2 ->
  out_le (func_call e1 f1 st) (func_call e2 f2 st).
Proof.
  intros Hle. pose proof args_mono as A. unfold func_call. mono.
Qed.

Lemma factor_mono f1 : forall f2 st, f1 <= f2 ->
  out_le (factor e1 f1 st) (factor e2 f2 st).
Proof.
  by_fuel f1 f2. intros st Hle. assert (f1 <= f2) by lia.
  pose proof func_call_mono as F. cbn [factor]. mono.
Qed.

Lemma binary_loop_mono ttypes (sub1 sub2 : M Expr) :
  (forall st, out_le (sub1 st) (sub2 st)) ->
  forall f1 f2 lhs st, f1 <= f2 ->
    out_le (binary_loop ttypes sub1 f1 lhs st) (binary_loop ttypes sub2 f2 lhs st).
Proof.
  intros Hs f1. by_fuel f1 f2. intros lhs st Hle. assert (f1 <= f2) by lia.
  cbn [binary_loop]. mono.
Qed.

Lemma binary_level_mono ttypes (sub1 sub2 : M Expr) f1 f2 st :
  (forall st, out_le (sub1 st) (sub2 st)) -> f1 <= f2 ->
  out_le (binary_level ttypes sub1 f1 st) (binary_level ttypes sub2 f2 st).
Proof.
  intros Hs Hle. unfold binary_level. apply out_le_bind; [apply Hs|].
  intros [lhs st1]. now apply binary_loop_mono.
Qed.

Lemma logical_or_body_mono f1 f2 st : f1 <= f2 ->
  out_le (logical_or_body e1 f1 st) (logical_or_body e2 f2 st).
Proof.
  intros Hle. unfold logical_or_body, logical_and, equality, relational, additive, term.
  repeat (apply binary_level_mono; [intros ?|exact Hle]).
  now apply factor_mono.
Qed.

End ExpressionsBudget.

Lemma logical_or_mono f1 : forall f2 st, f1 <= f2 ->
  out_le (logical_or f1 st) (logical_or f2 st).
Proof.
  by_fuel f1 f2. intros st Hle. cbn [logical_or].
  apply logical_or_body_mono; [|lia]. intros st'. apply IH. lia.
Qed.

#[local] Hint Resolve logical_or_mono : mono.

Lemma return_stmt_mono f1 f2 st : f1 <= f2 ->
  out_le (return_stmt f1 st) (return_stmt f2 st).
Proof. intros Hle. unfold return_stmt. mono. Qed.

Lemma optional_init_mono f1 f2 st : f1 <= f2 ->
  out_le (optional_init f1 st) (optional_init f2 st).
Proof. intros Hle. unfold optional_init. mono. Qed.

#[local] Hint Resolve return_stmt_mono optional_init_mono : mono.

Lemma decl_gen_mono semi f1 f2 st : f1 <= f2 ->
  out_le (decl_gen semi f1 st) (decl_gen semi f2 st).
Proof. intros Hle. unfold decl_gen. mono. Qed.

Lemma assign_gen_mono semi f1 f2 st : f1 <= f2 ->
  out_le (assign_gen semi f1 st) (assign_gen semi f2 st).
Proof. intros Hle. unfold assign_gen. mono. Qed.

Lemma decl_with_type_gen_mono semi f1 f2 st : f1 <= f2 ->
  out_le (decl_with_type_gen semi f1 st) (decl_with_type_gen semi f2 st).
Proof. intros Hle. unfold decl_with_type_gen. mono. Qed.

#[local] Hint Resolve decl_gen_mono assign_gen_mono decl_with_type_gen_mono : mono.

Section StatementsBudget.

Variables s1 s2 : M Stmt.
Hypothesis Hs : forall st, out_le (s1 st) (s2 st).

Lemma block_loop_mono f1 : forall f2 stmts st, f1 <= f2 ->
  out_le (block_loop s1 f1 stmts st) (block_loop s2 f2 stmts st).
Proof.
  by_fuel f1 f2. intros stmts st Hle. assert (f1 <= f2) by lia.
  cbn [block_loop]. mono.
Qed.

Lemma block_mono f1 f2 st : f1 <= f2 ->
  out_le (block s1 f1 st) (block s2 f2 st).
Proof.
  intros Hle. pose proof block_loop_mono as B. unfold block. mono.
Qed.

Lemma if_stmt_mono f1 f2 st : f1 <= f2 ->
  out_le (if_stmt s1 f1 st) (if_stmt s2 f2 st).
Proof.
  intros Hle. pose proof block_mono as B. unfold if_stmt. mono.
Qed.

Lemma while_stmt_mono f1 f2 st : f1 <= f2 ->
  out_le (while_stmt s1 f1 st) (while_stmt s2 f2 st).
Proof.
  intros Hle. pose proof block_mono as B. unfold while_stmt. mono.
Qed.

Lemma for_stmt_mono f1 f2 st : f1 <= f2 ->
  out_le (for_stmt s1 f1 st) (for_stmt s2 f2 st).
Proof.
  intros Hle. pose proof block_mono as B.
  unfold for_stmt, decl_without_semi, decl_with_type_without_semi, assign_without_semi.
  mono.
Qed.

Lemma stmt_body_mono f1 f2 st : f1 <= f2 ->
  out_le (stmt_body s1 f1 st) (stmt_body s2 f2 st).
Proof.
  intros Hle.
  pose proof block_mono as B. pose proof if_stmt_mono as I.
  pose proof while_stmt_mono as W. pose proof for_stmt_mono as F.
  assert (C : forall st', out_le (func_call (logical_or f1) f1 st')
                            (func_call (logical_or f2) f2 st')).
  { intros st'. apply func_call_mono; [|exact Hle]. intros st''. now apply logical_or_mono. }
  unfold stmt_body, decl, decl_with_type, assign. mono.
Qed.

End StatementsBudget.

Lemma stmt_mono f1 : forall f2 st, f1 <= f2 -> out_le (stmt f1 st) (stmt f2 st).
Proof.
  by_fuel f1 f2. intros st Hle. cbn [stmt].
  apply stmt_body_mono; [|lia]. intros st'. apply IH. lia.
Qed.

Lemma params_loop_mono f1 : forall f2 result st, f1 <= f2 ->
  out_le (params_loop f1 result st) (params_loop f2 result st).
Proof.
  by_fuel f1 f2. intros result st Hle. assert (f1 <= f2) by lia.
  cbn [params_loop]. mono.
Qed.

Lemma params_mono f1 f2 st : f1 <= f2 -> out_le (params f1 st) (params f2 st).
Proof.
  intros Hle. pose proof params_loop_mono as P. unfold params. mono.
Qed.

Lemma func_decl_mono f1 f2 st : f1 <= f2 -> out_le (func_decl f1 st) (func_decl f2 st).
Proof.
  intros Hle. pose proof params_mono as P.
  assert (B : forall st', out_le (block (stmt f1) f1 st') (block (stmt f2) f2 st')).
  { intros st'. apply block_mono; [|exact Hle]. intros st''. now apply stmt_mono. }
  unfold func_decl. mono.
Qed.

Lemma top_level_mono f1 f2 st : f1 <= f2 -> out_le (top_level f1 st) (top_level f2 st).
Proof.
  intros Hle. pose proof func_decl_mono as F. pose proof stmt_mono as S'.
  unfold top_level. mono.
Qed.

Lemma _collect_params_loop_mono f1 : forall f2 ps st, f1 <= f2 ->
  out_le (_collect_params_loop f1 ps st) (_collect_params_loop f2 ps st).
Proof.
  by_fuel f1 f2. intros ps st Hle. assert (f1 <= f2) by lia.
  cbn [_collect_params_loop]. mono.
Qed.

Lemma _collect_params_mono f1 f2 st : f1 <= f2 ->
  out_le (_collect_params f1 st) (_collect_params f2 st).
Proof.
  intros Hle. pose proof _collect_params_loop_mono as P. unfold _collect_params. mono.
Qed.

Lemma skip_to_body_mono f1 : forall f2 st, f1 <= f2 ->
  out_le (skip_to_body f1 st) (skip_to_body f2 st).
Proof.
  by_fuel f1 f2. intros st Hle. assert (f1 <= f2) by lia. cbn [skip_to_body]. mono.
Qed.

Lemma skip_body_mono f1 : forall f2 n st, f1 <= f2 ->
  out_le (skip_body f1 n st) (skip_body f2 n st).
Proof.
  by_fuel f1 f2. intros n st Hle. assert (f1 <= f2) by lia. cbn [skip_body]. mono.
Qed.

Lemma skip_statement_mono f1 : forall f2 st, f1 <= f2 ->
  out_le (skip_statement f1 st) (skip_statement f2 st).
Proof.
  by_fuel f1 f2. intros st Hle. assert (f1 <= f2) by lia. cbn [skip_statement]. mono.
Qed.

Lemma collect_one_mono f1 f2 st : f1 <= f2 ->
  out_le (collect_one f1 st) (collect_one f2 st).
Proof.
  intros Hle. pose proof _collect_params_mono as P. pose proof skip_to_body_mono as B.
  pose proof skip_body_mono as K. unfold collect_one. mono.
Qed.

Lemma collect_loop_mono f1 : forall f2 st, f1 <= f2 ->
  out_le (collect_loop f1 st) (collect_loop f2 st).
Proof.
  by_fuel f1 f2. intros st Hle. assert (f1 <= f2) by lia.
  pose proof collect_one_mono as C. pose proof skip_statement_mono as K.
  cbn [collect_loop]. mono.
Qed.

Lemma parse_loop_mono f1 : forall f2 acc st, f1 <= f2 ->
  out_le (parse_loop f1 acc st) (parse_loop f2 acc st).
Proof.
  by_fuel f1 f2. intros acc st Hle. assert (f1 <= f2) by lia.
  pose proof top_level_mono as T. cbn [parse_loop]. mono.
Qed.

Lemma parse_mono f1 f2 st : f1 <= f2 -> out_le (parse f1 st) (parse f2 st).
Proof.
  intros Hle. pose proof collect_loop_mono as C. pose proof parse_loop_mono as P.
  unfold parse, _collect_function_declarations. mono.
Qed.

Lemma parse_tokens_mono f1 f2 toks : f1 <= f2 ->
  out_le (parse_tokens f1 toks) (parse_tokens f2 toks).
Proof.
  intros Hle. pose proof parse_mono as P. unfold parse_tokens. mono.
Qed.

Lemma front_end_mono f1 f2 src : f1 <= f2 ->
  out_le (front_end f1 src) (front_end f2 src).
Proof.
  intros Hle. unfold front_end. apply out_le_bind; [apply out_le_refl|].
  intros toks. apply out_le_lift. now apply parse_tokens_mono.
Qed.

Lemma compile_mono float_str f1 f2 src : f1 <= f2 ->
  out_le (compile float_str f1 src) (compile float_str f2 src).
Proof.
  intros Hle. unfold compile. apply out_le_bind; [now apply front_end_mono|].
  intros ast. apply out_le_refl.
Qed.



(** * Further properties of the stages *)

(** ** The IR generator: loops *)

(** X1. [visit_while] takes the next three labels as [L_start], [L_body]
    and [L_end] before it looks at the condition, and appends exactly
    [Label(L_start)], the code of the condition (generated after the three
    labels were taken), [IfFalseGoto(c, L_end)], [Label(L_body)], the code
    of the body, [Goto(L_start)] and [Label(L_end)]; the three labels are
    pairwise distinct. *)
Theorem visit_while_emits (float_str : pyfloat -> string)
    (condition : Expr) (body : list Stmt) (g : gen_state) :
  let L_start := label_name (label_count g) in
  let L_body := label_name (S (label_count g)) in
  let L_end := label_name (S (S (label_count g))) in
  let g_cond := IR.emit (IRLabel L_start) (after_labels 3 g) in
  let c := fst (visit_expr float_str condition g_cond) in
  let g_body :=
    IR.emit (IRLabel L_body)
      (IR.emit (IRIfFalseGoto c L_end) (snd (visit_expr float_str condition g_cond))) in
  instructions (visit_stmt float_str (WhileStmt condition body) g)
    = instructions g
      ++ [IRLabel L_start]
      ++ code_of (fun g0 => snd (visit_expr float_str condition g0)) g_cond
      ++ [IRIfFalseGoto c L_end; IRLabel L_body]
      ++ code_of (visit_block float_str body) g_body
      ++ [IRGoto L_start; IRLabel L_end]
  /\ L_start <> L_body /\ L_start <> L_end /\ L_body <> L_end.
Proof.
  cbv zeta. split.
  - rewrite visit_stmt_while. cbn [new_label label_count]. cbv zeta.
    unfold after_labels. replace (label_count g + 3) with (S (S (S (label_count g)))) by lia.
    set (g_cond := IR.emit (IRLabel _) _).
    pose proof (code_of_extends (fun g0 => snd (visit_expr float_str condition g0)) g_cond
                  (visit_expr_extends float_str condition g_cond)) as Hc.
    cbv beta in Hc.
    destruct (visit_expr float_str condition g_cond) as [c g1] eqn:E. cbn [fst snd] in *.
    set (g_body := IR.emit (IRLabel _) (IR.emit (IRIfFalseGoto _ _) g1)).
    cbn [IR.emit instructions].
    rewrite (code_of_extends (visit_block float_str body) g_body)
      by apply visit_block_appends.
    unfold g_body at 1. cbn [IR.emit instructions]. rewrite Hc.
    unfold g_cond at 1. cbn [IR.emit instructions].
    rewrite <- !app_assoc. reflexivity.
  - repeat split; intros H; apply label_name_inj in H; lia.
Qed.

(** X2. [visit_for] first generates the initialiser, then takes the next
    three labels, and appends [Label(L_start)], the code of the condition,
    [IfFalseGoto(c, L_end)], [Label(L_body)], the code of the body, the
    code of the step, [Goto(L_start)] and [Label(L_end)]: the step runs
    after the body and before the jump back to the test. *)
Theorem visit_for_emits (float_str : pyfloat -> string)
    (init : Stmt) (condition : Expr) (step : Stmt) (body : list Stmt) (g : gen_state) :
  let g0 := visit_stmt float_str init g in
  let L_start := label_name (label_count g0) in
  let L_body := label_name (S (label_count g0)) in
  let L_end := label_name (S (S (label_count g0))) in
  let g_cond := IR.emit (IRLabel L_start) (after_labels 3 g0) in
  let c := fst (visit_expr float_str condition g_cond) in
  let g_body :=
    IR.emit (IRLabel L_body)
      (IR.emit (IRIfFalseGoto c L_end) (snd (visit_expr float_str condition g_cond))) in
  let g_step := visit_block float_str body g_body in
  instructions (visit_stmt float_str (ForStmt init condition step body) g)
    = instructions g
      ++ code_of (visit_stmt float_str init) g
      ++ [IRLabel L_start]
      ++ code_of (fun g' => snd (visit_expr float_str condition g')) g_cond
      ++ [IRIfFalseGoto c L_end; IRLabel L_body]
      ++ code_of (visit_block float_str body) g_body
      ++ code_of (visit_stmt float_str step) g_step
      ++ [IRGoto L_start; IRLabel L_end]
  /\ L_start <> L_body /\ L_start <> L_end /\ L_body <> L_end.
Proof.
  cbv zeta. split.
  - rewrite visit_stmt_for. cbv zeta.
    pose proof (code_of_extends (visit_stmt float_str init) g
                  (visit_stmt_extends float_str init g)) as Hi.
    set (g0 := visit_stmt float_str init g) in *.
    cbn [new_label label_count]. cbv zeta.
    unfold after_labels. replace (label_count g0 + 3) with (S (S (S (label_count g0)))) by lia.
    set (g_cond := IR.emit (IRLabel _) _).
    pose proof (code_of_extends (fun g' => snd (visit_expr float_str condition g')) g_cond
                  (visit_expr_extends float_str condition g_cond)) as Hc.
    cbv beta in Hc.
    destruct (visit_expr float_str condition g_cond) as [c g1] eqn:E. cbn [fst snd] in *.
    set (g_body := IR.emit (IRLabel _) (IR.emit (IRIfFalseGoto _ _) g1)).
    set (g_step := visit_block float_str body g_body).
    cbn [IR.emit instructions].
    rewrite (code_of_extends (visit_stmt float_str step) g_step)
      by apply visit_stmt_extends.
    unfold g_step at 1.
    rewrite (code_of_extends (visit_block float_str body) g_body)
      by apply visit_block_appends.
    unfold g_body at 1. cbn [IR.emit instructions]. rewrite Hc.
    unfold g_cond at 1. cbn [IR.emit instructions]. rewrite Hi.
    rewrite <- !app_assoc. reflexivity.
  - repeat split; intros H; apply label_name_inj in H; lia.
Qed.

(** ** The IR generator: functions *)

Lemma closed_code_no_marker lo hi out :
  closed_code lo hi out -> List.filter is_marker out = [].
Proof.
  intros (_ & _ & _ & F). induction F as [|i out Hi _ IH]; [reflexivity|].
  cbn [List.filter]. now rewrite Hi.
Qed.

Lemma visit_program_markers float_str its : forall g,
  List.filter is_marker (instructions (visit_program float_str its g))
  = List.filter is_marker (instructions g) ++ flat_map item_markers its.
Proof.
  induction its as [|it its IH]; intros g; cbn [visit_program flat_map].
  - now rewrite app_nil_r.
  - rewrite IH. rewrite app_assoc. f_equal.
    destruct it as [rt name ps body | s]; cbn [visit_item item_markers].
    + match goal with |- context [visit_block float_str body ?g1] =>
        destruct (visit_block_closed_all float_str body g1) as (ob & Eb & Cb) end.
      cbn [IR.emit instructions]. unfold emits in Eb. rewrite Eb.
      cbn [IR.emit instructions].
      rewrite !List.filter_app, (closed_code_no_marker _ _ _ Cb). cbn [List.filter is_marker app].
      rewrite <- !app_assoc. reflexivity.
    + destruct (visit_stmt_closed float_str s g) as (os & Es & Cs).
      unfold emits in Es. rewrite Es, List.filter_app, (closed_code_no_marker _ _ _ Cs).
      reflexivity.
Qed.

(** X3. The [FuncBegin] and [FuncEnd] instructions of the IR of a program
    are, in order, one [FuncBegin f (parameter names)] directly followed
    (among the markers) by its [FuncEnd f], for each function of the
    program in source order: function bodies are never nested and
    top-level statements add no marker. *)
Theorem generate_ir_markers (float_str : pyfloat -> string) (ast : Program) :
  List.filter is_marker (fst (generate_ir float_str ast))
  = flat_map item_markers (items ast).
Proof.
  unfold generate_ir, generate. cbn [fst].
  now rewrite visit_program_markers.
Qed.

(** ** The IR generator: expressions *)

Section ExpressionSize.

Variable float_str : pyfloat -> string.

Lemma list_sum_cons a l : list_sum (a :: l) = a + list_sum l.
Proof. reflexivity. Qed.

Lemma visit_args_size args :
  Forall (fun e => forall g,
            grows_by (op_nodes e) (call_args e) g (snd (visit_expr float_str e g))) args ->
  forall acc g,
    grows_by (list_sum (map op_nodes args))
      (length args + list_sum (map call_args args)) g
      (snd (visit_args float_str args acc g))
    /\ length (fst (visit_args float_str args acc g)) = length acc + length args.
Proof.
  induction 1 as [|e args He _ IH]; intros acc g;
    cbn [visit_args map length]; rewrite ?list_sum_cons.
  - unfold grows_by. cbn [snd fst]. change (list_sum []) with 0. repeat split; lia.
  - specialize (He g). destruct (visit_expr float_str e g) as [t g1]. cbn [snd] in He.
    destruct (IH (acc ++ [t]) (IR.emit (IRParam t) g1)) as [(T & L & I) N].
    destruct He as (T1 & L1 & I1). unfold grows_by.
    rewrite T, L, I, N. cbn [IR.emit temp_count label_count instructions].
    rewrite !length_app. cbn [length]. repeat split; lia.
Qed.

Lemma visit_expr_grows e : forall g,
  grows_by (op_nodes e) (call_args e) g (snd (visit_expr float_str e g)).
Proof.
  induction e as [v | v | n | op e IH | l op r IHl IHr | name args IH]
    using Expr_nested_ind; intros g.
  - unfold grows_by. cbn. repeat split; lia.
  - cbn [visit_expr op_nodes call_args]. destruct (new_string_same v g) as (H1 & H2 & H3).
    unfold grows_by. rewrite H1, H2, H3. repeat split; lia.
  - unfold grows_by. cbn. repeat split; lia.
  - cbn [visit_expr op_nodes call_args]. destruct (IH g) as (T & L & I).
    destruct (visit_expr float_str e g) as [t g1]. cbn [snd new_temp] in *.
    unfold grows_by. cbn [IR.emit temp_count label_count instructions].
    rewrite length_app. cbn [length]. repeat split; lia.
  - cbn [visit_expr op_nodes call_args]. destruct (IHl g) as (T1 & L1 & I1).
    destruct (visit_expr float_str l g) as [tl g1]. cbn [snd] in *.
    destruct (IHr g1) as (T2 & L2 & I2).
    destruct (visit_expr float_str r g1) as [tr g2]. cbn [snd new_temp] in *.
    unfold grows_by. cbn [IR.emit temp_count label_count instructions].
    rewrite length_app. cbn [length]. repeat split; lia.
  - rewrite visit_expr_call. cbn [op_nodes call_args].
    destruct (visit_args_size args IH [] g) as [(T & L & I) _].
    destruct (visit_args float_str args [] g) as [ts g1]. cbn [snd new_temp] in *.
    unfold grows_by. cbn [IR.emit temp_count label_count instructions].
    rewrite length_app. cbn [length]. repeat split; lia.
Qed.

End ExpressionSize.

(** X4. The code of an expression takes one temporary for each operator
    and call node and no label, and appends one instruction for each such
    node and one [Param] for each call argument. A leaf leaves the state
    alone but for the string table; any other expression returns the last
    temporary it took, which is the destination of the last instruction. *)
Theorem visit_expr_size (float_str : pyfloat -> string) (e : Expr) (g : gen_state) :
  let g' := snd (visit_expr float_str e g) in
  temp_count g' = temp_count g + op_nodes e
  /\ label_count g' = label_count g
  /\ length (instructions g') = length (instructions g) + op_nodes e + call_args e
  /\ match e with
     | Num _ | StringLit _ | Var _ => instructions g' = instructions g
     | _ =>
         fst (visit_expr float_str e g) = temp_name (temp_count g + op_nodes e - 1)
         /\ exists i, last (instructions g') = Some i
                      /\ dest_of i = Some (fst (visit_expr float_str e g))
     end.
Proof.
  cbv zeta. destruct (visit_expr_grows float_str e g) as (T & L & I).
  split; [exact T|]. split; [exact L|]. split; [exact I|].
  destruct e as [v | v | n | op e | l op r | name args].
  - reflexivity.
  - cbn [visit_expr]. now destruct (new_string_same v g) as (H1 & _).
  - reflexivity.
  - cbn [visit_expr op_nodes] in *.
    pose proof (visit_expr_grows float_str e g) as (T1 & _).
    destruct (visit_expr float_str e g) as [t g1]. cbn [fst snd new_temp] in *.
    split; [f_equal; lia|]. eexists. cbn [IR.emit instructions].
    rewrite last_snoc. split; reflexivity.
  - cbn [visit_expr op_nodes] in *.
    pose proof (visit_expr_grows float_str l g) as (T1 & _).
    destruct (visit_expr float_str l g) as [tl g1]. cbn [snd] in *.
    pose proof (visit_expr_grows float_str r g1) as (T2 & _).
    destruct (visit_expr float_str r g1) as [tr g2]. cbn [fst snd new_temp] in *.
    split; [f_equal; lia|]. eexists. cbn [IR.emit instructions].
    rewrite last_snoc. split; reflexivity.
  - rewrite visit_expr_call in *. cbn [op_nodes] in *.
    assert (F : Forall (fun e => forall g,
                  grows_by (op_nodes e) (call_args e) g (snd (visit_expr float_str e g))) args).
    { apply Forall_forall. intros x _ g0. apply visit_expr_grows. }
    destruct (visit_args_size float_str args F [] g) as [(T1 & _) _].
    destruct (visit_args float_str args [] g) as [ts g1]. cbn [fst snd new_temp] in *.
    split; [f_equal; lia|]. eexists. cbn [IR.emit instructions].
    rewrite last_snoc. split; reflexivity.
Qed.

(** ** The IR generator: what every visit keeps *)

(** The generator changes its state through [emit], [new_temp],
    [new_label] and [new_string] only, so what these four keep, every
    visit keeps. *)
Section GeneratorInvariant.

Variable float_str : pyfloat -> string.
Variable P : gen_state -> Prop.
Hypothesis P_emit : forall i g, P g -> P (IR.emit i g).
Hypothesis P_temp : forall g, P g -> P (snd (new_temp g)).
Hypothesis P_label : forall g, P g -> P (snd (new_label g)).
Hypothesis P_string : forall v g, P g -> P (snd (new_string v g)).

Lemma visit_args_keeps args :
  Forall (fun e => forall g, P g -> P (snd (visit_expr float_str e g))) args ->
  forall acc g, P g -> P (snd (visit_args float_str args acc g)).
Proof.
  induction 1 as [|e args He _ IH]; intros acc g Hg; cbn [visit_args]; [exact Hg|].
  specialize (He g Hg). destruct (visit_expr float_str e g) as [t g1]. cbn [snd] in He.
  apply IH, P_emit, He.
Qed.

Lemma visit_expr_keeps e : forall g, P g -> P (snd (visit_expr float_str e g)).
Proof.
  induction e as [v | v | n | op e IH | l op r IHl IHr | name args IH]
    using Expr_nested_ind; intros g Hg.
  - exact Hg.
  - now apply P_string.
  - exact Hg.
  - cbn [visit_expr]. specialize (IH g Hg).
    destruct (visit_expr float_str e g) as [t g1]. cbn [snd] in IH.
    apply P_temp in IH. cbn [new_temp snd] in *. now apply P_emit.
  - cbn [visit_expr]. specialize (IHl g Hg).
    destruct (visit_expr float_str l g) as [tl g1]. cbn [snd] in IHl.
    specialize (IHr g1 IHl).
    destruct (visit_expr float_str r g1) as [tr g2]. cbn [snd] in IHr.
    apply P_temp in IHr. cbn [new_temp snd] in *. now apply P_emit.
  - rewrite visit_expr_call. pose proof (visit_args_keeps args IH [] g Hg) as H.
    destruct (visit_args float_str args [] g) as [ts g1]. cbn [snd] in H.
    apply P_temp in H. cbn [new_temp snd] in *. now apply P_emit.
Qed.

Lemma visit_block_keeps b :
  Forall (fun s => forall g, P g -> P (visit_stmt float_str s g)) b ->
  forall g, P g -> P (visit_block float_str b g).
Proof.
  induction 1 as [|s b Hs _ IH]; intros g Hg; cbn [visit_block]; [exact Hg|].
  apply IH, Hs, Hg.
Qed.

Lemma expr_then_emit_keeps e (k : string -> IRInstr) g :
  P g -> P (let '(t, g1) := visit_expr float_str e g in IR.emit (k t) g1).
Proof.
  intros Hg. pose proof (visit_expr_keeps e g Hg) as H.
  destruct (visit_expr float_str e g) as [t g1]. now apply P_emit.
Qed.

Lemma visit_stmt_keeps s : forall g, P g -> P (visit_stmt float_str s g).
Proof.
  induction s as [n init | n e | e | c tb e IHt IHe | c b IHb
                  | init c step b IHi IHs IHb | e | b IHb]
    using Stmt_nested_ind; intros g Hg.
  - cbn [visit_stmt]. destruct init as [e|]; [|exact Hg].
    now apply (expr_then_emit_keeps e (IRAssign n)).
  - cbn [visit_stmt]. now apply (expr_then_emit_keeps e (IRAssign n)).
  - cbn [visit_stmt]. destruct e as [e|]; [|now apply P_emit].
    now apply (expr_then_emit_keeps e (fun v => IRReturn (Some v))).
  - rewrite visit_stmt_if. pose proof (visit_expr_keeps c g Hg) as H.
    destruct (visit_expr float_str c g) as [t g1]. cbn [snd] in H.
    apply P_label in H. apply P_label in H. cbn [new_label snd] in *.
    destruct e as [b|]; cbv zeta.
    + apply P_label in H. cbn [new_label snd] in *.
      apply P_emit. apply (visit_block_keeps b (IHe b eq_refl)).
      do 2 apply P_emit. apply (visit_block_keeps tb IHt). now do 2 apply P_emit.
    + apply P_emit. apply (visit_block_keeps tb IHt). now do 2 apply P_emit.
  - rewrite visit_stmt_while.
    apply P_label in Hg. apply P_label in Hg. apply P_label in Hg.
    cbn [new_label snd] in *. cbv zeta.
    match goal with |- context [visit_expr float_str c ?g4] =>
      pose proof (visit_expr_keeps c g4 (P_emit _ _ Hg)) as H;
      destruct (visit_expr float_str c g4) as [t g5] end.
    cbn [snd] in H. do 2 apply P_emit. apply (visit_block_keeps b IHb).
    now do 2 apply P_emit.
  - rewrite visit_stmt_for. cbv zeta. apply IHi in Hg.
    apply P_label in Hg. apply P_label in Hg. apply P_label in Hg.
    cbn [new_label snd] in *. cbv zeta.
    match goal with |- context [visit_expr float_str c ?g4] =>
      pose proof (visit_expr_keeps c g4 (P_emit _ _ Hg)) as H;
      destruct (visit_expr float_str c g4) as [t g5] end.
    cbn [snd] in H. do 2 apply P_emit. apply IHs. apply (visit_block_keeps b IHb).
    now do 2 apply P_emit.
  - cbn [visit_stmt]. now apply visit_expr_keeps.
  - rewrite visit_stmt_block. now apply visit_block_keeps.
Qed.

Lemma visit_program_keeps its : forall g, P g -> P (visit_program float_str its g).
Proof.
  induction its as [|it its IH]; intros g Hg; cbn [visit_program]; [exact Hg|].
  apply IH. destruct it as [rt name ps body | s]; cbn [visit_item].
  - apply P_emit. apply visit_block_keeps; [|now apply P_emit].
    apply Forall_forall. intros s _. apply visit_stmt_keeps.
  - now apply visit_stmt_keeps.
Qed.

End GeneratorInvariant.

(** ** The IR generator: the table of string literals *)

Lemma dict_get_None k d : dict_get k d = None -> k ∉ map fst d.
Proof.
  induction d as [|[k' v] d IH]; cbn [dict_get map fst]; [intros _; apply not_elem_of_nil|].
  destruct (String.eqb k k') eqn:E; [discriminate|]. intros H.
  apply not_elem_of_cons. split; [|now apply IH].
  intros ->. now rewrite String.eqb_refl in E.
Qed.

Lemma dict_get_app_l k d d' v : dict_get k d = Some v -> dict_get k (d ++ d') = Some v.
Proof.
  induction d as [|[k' v'] d IH]; cbn [dict_get app]; [discriminate|].
  destruct (String.eqb k k'); [trivial | exact IH].
Qed.

Lemma dict_get_app_r k d v : dict_get k d = None -> dict_get k (d ++ [(k, v)]) = Some v.
Proof.
  induction d as [|[k' v'] d IH]; cbn [dict_get app].
  - now rewrite String.eqb_refl.
  - destruct (String.eqb k k'); [discriminate | exact IH].
Qed.

Lemma new_string_table_ok v g : string_table_ok g -> string_table_ok (snd (new_string v g)).
Proof.
  intros [Hn Hk]. unfold new_string.
  destruct (dict_get v (string_literals g)) as [name|] eqn:D; [now split|].
  unfold string_table_ok. cbn [snd string_literals string_count].
  rewrite !map_app, seq_S, map_app, Hn. cbn [map fst snd Nat.add]. split; [reflexivity|].
  apply NoDup_app. split; [exact Hk|]. split.
  - intros x Hx Hx'. apply list_elem_of_singleton in Hx'. subst x.
    now apply (dict_get_None _ _ D).
  - apply NoDup_singleton.
Qed.

Lemma string_name_inj a b : string_name a = string_name b -> a = b.
Proof. unfold string_name. cbn. intros [= H]. now apply str_nat_inj. Qed.


(** ** The ASM generator: stack slots *)

Lemma gvl_function_name v a :
  function_name (snd (get_var_location v a)) = function_name a
  /\ in_function (snd (get_var_location v a)) = in_function a.
Proof.
  unfold get_var_location. destruct (is_int_literal v); [now split|].
  destruct (var_offset a !! v); now split.
Qed.

Lemma slots_ok_same a a' :
  var_offset a' = var_offset a -> current_offset a' = current_offset a ->
  slots_ok a -> slots_ok a'.
Proof. unfold slots_ok. intros -> ->. trivial. Qed.

Lemma slots_ok_alloc a v o inf fn :
  slots_ok a ->
  slots_ok (AsmState o (<[v := current_offset a + 8]> (var_offset a))
              (current_offset a + 8) inf fn).
Proof.
  intros (B & J & Sz & D & M). unfold slots_ok. cbn [var_offset current_offset].
  assert (Fresh : forall w, var_offset a !! w <> Some (current_offset a + 8)).
  { intros w Hw. apply B in Hw. lia. }
  split; [|split; [|split; [|split]]].
  - intros w off Hw. destruct (decide (v = w)) as [<-|Hne].
    + rewrite lookup_insert_eq in Hw. injection Hw as <-. split; [lia|].
      apply Nat.divide_add_r; [exact D | apply Nat.divide_refl].
    + rewrite lookup_insert_ne in Hw by exact Hne. destruct (B _ _ Hw). split; [lia | assumption].
  - intros w1 w2 off H1 H2.
    destruct (decide (v = w1)) as [<-|N1]; destruct (decide (v = w2)) as [<-|N2].
    + reflexivity.
    + rewrite lookup_insert_eq in H1. injection H1 as <-.
      rewrite lookup_insert_ne in H2 by exact N2. now apply Fresh in H2.
    + rewrite lookup_insert_eq in H2. injection H2 as <-.
      rewrite lookup_insert_ne in H1 by exact N1. now apply Fresh in H1.
    + rewrite lookup_insert_ne in H1 by exact N1.
      rewrite lookup_insert_ne in H2 by exact N2. eapply J; eassumption.
  - rewrite map_size_insert. destruct (var_offset a !! v); unfold id; lia.
  - apply Nat.divide_add_r; [exact D | apply Nat.divide_refl].
  - intros _. exists v. apply lookup_insert_eq.
Qed.

Lemma gvl_slots_ok v a : slots_ok a -> slots_ok (snd (get_var_location v a)).
Proof.
  intros H. unfold get_var_location. destruct (is_int_literal v); [exact H|].
  destruct (var_offset a !! v); [exact H|]. now apply slots_ok_alloc.
Qed.

Lemma emit_slots_ok l a : slots_ok a -> slots_ok (Asm.emit l a).
Proof. now apply slots_ok_same. Qed.

Lemma emit_all_slots_ok ls : forall a, slots_ok a -> slots_ok (emit_all ls a).
Proof.
  induction ls as [|l ls IH]; intros a H; [exact H|]. cbn [emit_all].
  now apply IH, emit_slots_ok.
Qed.

(** Steps through one [get_var_location] of the goal, keeping what it
    guarantees about the state. *)
Ltac gvl_slots :=
  match goal with
  | H : slots_ok ?a |- context [get_var_location ?v ?a] =>
      let H' := fresh "S" in
      pose proof (gvl_slots_ok v a H) as H';
      destruct (get_var_location v a) as [? ?]; cbn [snd] in H'
  end.

Ltac slots_steps :=
  repeat first
    [ assumption
    | apply emit_slots_ok
    | apply emit_all_slots_ok
    | gvl_slots
    | match goal with
      | |- slots_ok (if ?b then _ else _) => destruct b
      end ].

Lemma save_params_slots_ok params : forall idx a,
  slots_ok a -> slots_ok (save_params idx params a).
Proof.
  induction params as [|p params IH]; intros idx a H; [exact H|].
  cbn [save_params]. apply IH.
  pose proof (slots_ok_alloc a p (output a) (in_function a) (function_name a) H) as H'.
  destruct (param_regs !! idx); [now apply emit_slots_ok | exact H'].
Qed.

Lemma pass_args_slots_ok args : forall idx a,
  slots_ok a -> slots_ok (pass_args idx args a).
Proof.
  induction args as [|arg args IH]; intros idx a H; [exact H|].
  cbn [pass_args]. apply IH. destruct (param_regs !! idx); [|exact H]. slots_steps.
Qed.

Lemma slots_ok_fresh o inf fn : slots_ok (AsmState o ∅ 0 inf fn).
Proof.
  unfold slots_ok. cbn [var_offset current_offset].
  split; [intros v off H; now rewrite lookup_empty in H|].
  split; [intros v w off H; now rewrite lookup_empty in H|].
  split; [rewrite map_size_empty; lia|].
  split; [apply Nat.divide_0_r | lia].
Qed.

Lemma visit_slots_ok instr a : slots_ok a -> slots_ok (visit instr a).
Proof.
  intros H. destruct instr as [[name | dest src | dest lhs op rhs | dest op operand | label
                               | condition label | dest func args | value | name params
                               | name | value] | condition label];
    cbn [visit].
  - now apply emit_slots_ok.
  - unfold visit_assign. slots_steps.
  - unfold visit_binop. slots_steps.
  - unfold visit_unaryop. slots_steps.
  - now apply emit_slots_ok.
  - unfold visit_if_false_goto. slots_steps.
  - unfold visit_call.
    match goal with |- context [pass_args 0 args ?x] =>
      pose proof (pass_args_slots_ok args 0 x (emit_slots_ok _ _ H)) as Hp end.
    destruct (truthy dest); [|slots_steps].
    match goal with |- context [get_var_location ?v ?x] =>
      pose proof (gvl_slots_ok v x ltac:(slots_steps)) as Hg;
      destruct (get_var_location v x) as [? ?] end.
    cbn [snd] in Hg. slots_steps.
  - unfold visit_return. apply emit_slots_ok. destruct (truthy value); slots_steps.
  - unfold visit_func_begin. apply save_params_slots_ok, emit_all_slots_ok, slots_ok_fresh.
  - unfold visit_func_end. eapply slots_ok_same; [| |apply emit_all_slots_ok; exact H];
      reflexivity.
  - exact H.
  - unfold visit_if_goto. slots_steps.
Qed.

Lemma visit_all_slots_ok instrs : forall a, slots_ok a -> slots_ok (visit_all instrs a).
Proof.
  induction instrs as [|i instrs IH]; intros a H; [exact H|]. cbn [visit_all].
  now apply IH, visit_slots_ok.
Qed.

Lemma asm_state_after_slots instrs strs : slots_ok (asm_state_after instrs strs).
Proof.
  unfold asm_state_after, emit_code_section. apply visit_all_slots_ok.
  assert (H0 : slots_ok (emit_data_section strs (emit_header asm_init))).
  { unfold emit_data_section, emit_header.
    destruct strs; slots_steps; apply slots_ok_fresh. }
  slots_steps.
Qed.

Lemma startswith_app p r : startswith p (p +:+ r) = true.
Proof.
  unfold startswith. induction p as [|c p IH]; [now destruct r|].
  rewrite sapp_cons. cbn [String.prefix].
  destruct (ascii_dec c c); [exact IH | congruence].
Qed.

(** X6. [get_var_location] gives an integer literal back as it is and
    leaves the state alone; a name seen before gets the slot it already
    has; a new name gets the slot 8 bytes below the last one. Asking
    twice gives the same answer and changes nothing the second time, and
    no earlier name loses its slot. *)
Theorem get_var_location_stable (v : string) (a : asm_state) :
  let r := get_var_location v a in
  get_var_location v (snd r) = r
  /\ (if is_int_literal v then r = (v, a)
      else match var_offset a !! v with
           | Some off => r = (slot off, a)
           | None =>
               fst r = slot (current_offset a + 8)
               /\ current_offset (snd r) = current_offset a + 8
               /\ var_offset (snd r) !! v = Some (current_offset a + 8)
           end)
  /\ forall x o, var_offset a !! x = Some o -> var_offset (snd r) !! x = Some o.
Proof.
  cbv zeta. split; [|split; [|intros x o; apply gvl_keeps]].
  - unfold get_var_location. destruct (is_int_literal v) eqn:L; cbn [snd]; [reflexivity|].
    destruct (var_offset a !! v) as [off|] eqn:E; cbn [snd].
    + now rewrite E.
    + cbn [var_offset]. now rewrite lookup_insert_eq.
  - unfold get_var_location. destruct (is_int_literal v); [reflexivity|].
    destruct (var_offset a !! v); [reflexivity|]. cbn [fst snd current_offset var_offset].
    split; [reflexivity|]. split; [reflexivity | apply lookup_insert_eq].
Qed.

(** X7. Whatever the instructions, when the ASM generator is done the
    slots in use are multiples of 8 between 8 and the current offset, two
    different names never share a slot, and the current offset is at
    least 8 times the number of names. *)
Theorem stack_slots_distinct (instrs : list asm_input) (strs : list (string * string)) :
  let a := asm_state_after instrs strs in
  (forall v off, var_offset a !! v = Some off ->
     8 <= off <= current_offset a /\ Nat.divide 8 off)
  /\ (forall v w off,
        var_offset a !! v = Some off -> var_offset a !! w = Some off -> v = w)
  /\ 8 * size (var_offset a) <= current_offset a.
Proof.
  cbv zeta. destruct (asm_state_after_slots instrs strs) as (B & J & Sz & _).
  split; [exact B|]. split; [exact J | exact Sz].
Qed.

(** X8. The prologue of every function reserves 64 bytes ([sub rsp, 64])
    whatever the body holds, while each new name takes 8 more bytes: when
    the code of the current function names more than 8 variables and
    temporaries, a slot in use lies more than 64 bytes below [rbp], and
    the only stack reservation emitted by [visit_func_begin] is the fixed
    one. *)
Theorem frame_exceeds_reservation (instrs : list asm_input) (strs : list (string * string)) :
  let a := asm_state_after instrs strs in
  8 < size (var_offset a) ->
  (exists v off, var_offset a !! v = Some off /\ 64 < off)
  /\ forall name params a0,
       exists saved,
         output (visit_func_begin name params a0)
         = output a0
           ++ [ name +:+ ":"; "    push rbp"; "    mov rbp, rsp";
                "    sub rsp, 64  ; Espacio para variables locales"; EmptyString ]
           ++ saved
         /\ length saved = Nat.min 4 (length params)
         /\ Forall (fun l => startswith "    mov QWORD [rbp-" l = true) saved.
Proof.
  cbv zeta. intros Hsz. split.
  - destruct (asm_state_after_slots instrs strs) as (_ & _ & Sz & _ & M).
    destruct M as [v Hv]; [lia|]. exists v, (current_offset (asm_state_after instrs strs)).
    split; [exact Hv | lia].
  - intros name params a0. unfold visit_func_begin.
    assert (G : forall idx a1, exists saved,
               output (save_params idx params a1) = output a1 ++ saved
               /\ length saved = Nat.min (4 - idx) (length params)
               /\ Forall (fun l => startswith "    mov QWORD [rbp-" l = true) saved).
    { induction params as [|p params IH]; intros idx a1.
      - exists []. split; [now rewrite app_nil_r|]. split; [cbn; lia | constructor].
      - cbn [save_params]. destruct (param_regs !! idx) as [reg|] eqn:R.
        + assert (idx < 4) by (apply lookup_lt_Some in R; cbn in R; lia).
          match goal with |- context [save_params (S idx) params ?x] =>
            destruct (IH (S idx) x) as (saved & Ho & Hl & Hf) end.
          eexists (_ :: saved). split; [|split].
          * rewrite Ho. cbn [Asm.emit output]. rewrite <- app_assoc. reflexivity.
          * cbn [length]. rewrite Hl. lia.
          * constructor; [|exact Hf].
            exact (startswith_app "    mov QWORD [rbp-"
                     ((str_nat (current_offset a1 + 8) +:+ "]") +:+ ", " +:+ reg)).
        + assert (4 <= idx) by (apply lookup_ge_None in R; cbn in R; lia).
          match goal with |- context [save_params (S idx) params ?x] =>
            destruct (IH (S idx) x) as (saved & Ho & Hl & Hf) end.
          exists saved. split; [exact Ho|]. split; [|exact Hf].
          rewrite Hl. cbn [length]. lia. }
    match goal with |- context [save_params 0 params ?x] =>
      destruct (G 0 x) as (saved & Ho & Hl & Hf) end.
    exists saved. split; [|split; [rewrite Hl; lia | exact Hf]].
    rewrite Ho. cbn [emit_all Asm.emit output]. rewrite <- !app_assoc. reflexivity.
Qed.

Lemma frame_exceeds_reservation_witness :
  8 < size (var_offset (asm_state_after nine_names []))
  /\ exists v off, var_offset (asm_state_after nine_names []) !! v = Some off /\ 64 < off.
Proof.
  assert (H : 8 < size (var_offset (asm_state_after nine_names []))).
  { vm_compute. lia. }
  split; [exact H|].
  exact (proj1 (frame_exceeds_reservation nine_names [] H)).
Defined.

(** ** The ASM generator: layout of the output *)

Lemma emit_with_output l o a : Asm.emit l (with_output o a) = with_output o (Asm.emit l a).
Proof. unfold Asm.emit, with_output. cbn. now rewrite app_assoc. Qed.

Lemma emit_all_with_output ls : forall o a,
  emit_all ls (with_output o a) = with_output o (emit_all ls a).
Proof.
  induction ls as [|l ls IH]; intros o a; [reflexivity|]. cbn [emit_all].
  now rewrite emit_with_output, IH.
Qed.

Lemma gvl_with_output v o a :
  get_var_location v (with_output o a)
  = (fst (get_var_location v a), with_output o (snd (get_var_location v a))).
Proof.
  unfold get_var_location. cbn [with_output var_offset current_offset].
  destruct (is_int_literal v); [reflexivity|]. destruct (var_offset a !! v); reflexivity.
Qed.

Ltac frame_steps :=
  repeat first
    [ reflexivity
    | rewrite emit_with_output
    | rewrite emit_all_with_output
    | progress cbn [fst snd]
    | match goal with
      | |- context [get_var_location ?v (with_output ?o ?a)] =>
          rewrite (gvl_with_output v o a);
          destruct (get_var_location v a) as [? ?]; cbn [fst snd]
      end
    | match goal with
      | |- context [if ?b then _ else _] => destruct b
      end ].

Lemma pass_args_with_output args : forall idx o a,
  pass_args idx args (with_output o a) = with_output o (pass_args idx args a).
Proof.
  induction args as [|arg args IH]; intros idx o a; [reflexivity|]. cbn [pass_args].
  rewrite <- IH. f_equal. destruct (param_regs !! idx); [|reflexivity]. frame_steps.
Qed.

Lemma save_params_with_output params : forall idx o a,
  save_params idx params (with_output o a) = with_output o (save_params idx params a).
Proof.
  induction params as [|p params IH]; intros idx o a; [reflexivity|]. cbn [save_params].
  rewrite <- IH. f_equal. cbn [with_output output var_offset current_offset in_function function_name].
  destruct (param_regs !! idx); [|reflexivity].
  match goal with |- Asm.emit ?l ?x = _ =>
    change x with (with_output o (AsmState (output a) (<[p := current_offset a + 8]> (var_offset a))
                                    (current_offset a + 8) (in_function a) (function_name a))) end.
  now rewrite emit_with_output.
Qed.

Lemma visit_with_output instr o a : visit instr (with_output o a) = with_output o (visit instr a).
Proof.
  destruct instr as [[name | dest src | dest lhs op rhs | dest op operand | label
                      | condition label | dest func args | value | name params
                      | name | value] | condition label];
    cbn [visit].
  - unfold visit_label. frame_steps.
  - unfold visit_assign. frame_steps.
  - unfold visit_binop. frame_steps.
  - unfold visit_unaryop. frame_steps.
  - unfold visit_goto. frame_steps.
  - unfold visit_if_false_goto. frame_steps.
  - unfold visit_call. rewrite emit_with_output, pass_args_with_output. frame_steps.
  - unfold visit_return. destruct (truthy value).
    + rewrite gvl_with_output. destruct (get_var_location _ a) as [loc a1]. cbn [fst snd].
      destruct (isdigit _); now rewrite !emit_with_output.
    + now rewrite !emit_with_output.
  - unfold visit_func_begin.
    change (AsmState (output (with_output o a)) ∅ 0 true name)
      with (with_output o (AsmState (output a) ∅ 0 true name)).
    now rewrite emit_all_with_output, save_params_with_output.
  - unfold visit_func_end. now rewrite emit_all_with_output.
  - reflexivity.
  - unfold visit_if_goto. frame_steps.
Qed.

Lemma visit_all_with_output instrs : forall o a,
  visit_all instrs (with_output o a) = with_output o (visit_all instrs a).
Proof.
  induction instrs as [|i instrs IH]; intros o a; [reflexivity|]. cbn [visit_all].
  now rewrite visit_with_output, IH.
Qed.

Lemma emit_all_eq ls : forall a,
  emit_all ls a
  = AsmState (output a ++ ls) (var_offset a) (current_offset a) (in_function a)
      (function_name a).
Proof.
  induction ls as [|l ls IH]; intros a; cbn [emit_all].
  - rewrite app_nil_r. now destruct a.
  - rewrite IH. cbn [Asm.emit output var_offset current_offset in_function function_name].
    now rewrite <- app_assoc.
Qed.

Lemma emit_all_as_output ls o :
  emit_all ls (with_output o asm_init) = with_output (o ++ ls) asm_init.
Proof.
  rewrite emit_all_eq. unfold with_output, asm_init.
  cbn [output var_offset current_offset in_function function_name].
  now rewrite !app_nil_r.
Qed.

(** X9. The assembly text is the header, the data section, the head of
    the text section and the code, in this order. The data section is
    there exactly when the string table is not empty and then lists the
    table in its order; [global main] is there exactly when some
    [FuncBegin] is named [main]; and the code is what the instructions
    give on a fresh generator: it depends neither on the string table nor
    on the lines before it. *)
Theorem generate_lines_layout (instrs : list asm_input) (strs : list (string * string)) :
  generate_lines instrs strs
  = header_lines ++ data_lines strs ++ text_lines instrs
    ++ output (visit_all instrs asm_init).
Proof.
  unfold generate_lines, emit_code_section.
  assert (D : emit_data_section strs (emit_header asm_init)
              = with_output (header_lines ++ data_lines strs) asm_init).
  { unfold emit_data_section, emit_header, data_lines. destruct strs as [|s0 strs].
    - reflexivity.
    - rewrite !emit_all_eq. unfold Asm.emit, with_output, asm_init.
      cbn [output var_offset current_offset in_function function_name].
      f_equal. rewrite app_nil_r, <- !app_assoc. unfold header_lines. cbn [app].
      do 9 f_equal. apply map_ext. now intros [v n]. }
  rewrite D. unfold text_lines.
  destruct (existsb is_main_begin instrs);
    rewrite !emit_all_as_output, visit_all_with_output;
    unfold with_output; cbn [output];
    rewrite <- !app_assoc; reflexivity.
Qed.

(** ** The ASM generator: the target of [return] *)

Lemma emit_all_function_name ls a : function_name (emit_all ls a) = function_name a.
Proof. now rewrite emit_all_eq. Qed.

Lemma pass_args_function_name args : forall idx a,
  function_name (pass_args idx args a) = function_name a.
Proof.
  induction args as [|arg args IH]; intros idx a; [reflexivity|]. cbn [pass_args].
  rewrite IH. destruct (param_regs !! idx); [|reflexivity].
  pose proof (gvl_function_name arg a) as [H _].
  destruct (get_var_location arg a) as [loc a1]. cbn [snd] in H.
  destruct (isdigit arg); [exact H|]. destruct (startswith "str" arg); exact H.
Qed.

Lemma save_params_function_name params : forall idx a,
  function_name (save_params idx params a) = function_name a.
Proof.
  induction params as [|p params IH]; intros idx a; [reflexivity|]. cbn [save_params].
  rewrite IH. now destruct (param_regs !! idx).
Qed.

Ltac fn_steps :=
  repeat first
    [ rewrite emit_all_function_name
    | rewrite pass_args_function_name
    | progress cbn [Asm.emit function_name]
    | match goal with
      | |- context [get_var_location ?v ?a] =>
          let H := fresh "F" in
          pose proof (proj1 (gvl_function_name v a)) as H;
          destruct (get_var_location v a) as [? ?]; cbn [snd] in H; rewrite <- ?H
      | |- context [if ?b then _ else _] => destruct b
      end
    | reflexivity
    | congruence ].

Lemma visit_function_name instr a :
  function_name (visit instr a)
  = match instr with
    | FromIR (IRFuncBegin name _) => name
    | _ => function_name a
    end.
Proof.
  destruct instr as [[name | dest src | dest lhs op rhs | dest op operand | label
                      | condition label | dest func args | value | name params
                      | name | value] | condition label];
    cbn [visit].
  - reflexivity.
  - unfold visit_assign. fn_steps.
  - unfold visit_binop. fn_steps.
  - unfold visit_unaryop. fn_steps.
  - reflexivity.
  - unfold visit_if_false_goto. fn_steps.
  - unfold visit_call. destruct (truthy dest).
    + match goal with |- context [get_var_location ?v ?x] =>
        pose proof (proj1 (gvl_function_name v x)) as F;
        destruct (get_var_location v x) as [? ?] end.
      cbn [snd Asm.emit function_name] in *. rewrite F. now rewrite pass_args_function_name.
    + cbn [Asm.emit function_name]. now rewrite pass_args_function_name.
  - unfold visit_return. fn_steps.
  - unfold visit_func_begin. now rewrite save_params_function_name, emit_all_function_name.
  - unfold visit_func_end. cbn [function_name]. now rewrite emit_all_function_name.
  - reflexivity.
  - unfold visit_if_goto. fn_steps.
Qed.

Lemma visit_all_function_name instrs : forall a,
  function_name (visit_all instrs a) = last_begin instrs (function_name a).
Proof.
  unfold last_begin.
  induction instrs as [|i instrs IH]; intros a; [reflexivity|]. cbn [visit_all fold_left].
  rewrite IH, visit_function_name. now destruct i as [[| | | | | | | | | |]|].
Qed.

(** X10. A [Return] is lowered to the load of its value (or
    [xor rax, rax]) and a jump to [.end_f], where [f] is the name of the
    last [FuncBegin] before it: [visit_func_end] does not clear the name,
    so a return after the end of [f] still jumps to [.end_f], and one
    before any function jumps to [.end_]. *)
Theorem return_jumps_to_last_function (instrs : list asm_input) (value : option string)
    (a : asm_state) :
  let a' := visit (FromIR (IRReturn value)) (visit_all instrs a) in
  function_name (visit_all instrs a) = last_begin instrs (function_name a)
  /\ last (output a') = Some ("    jmp .end_" +:+ last_begin instrs (function_name a))
  /\ length (output a') = length (output (visit_all instrs a)) + 2.
Proof.
  cbv zeta. pose proof (visit_all_function_name instrs a) as F.
  split; [exact F|]. rewrite <- F. set (a0 := visit_all instrs a). clearbody a0.
  cbn [visit]. unfold visit_return. destruct (truthy value).
  - pose proof (gvl_function_name (or_empty value) a0) as [Fn _].
    pose proof (gvl_output (or_empty value) a0) as Fo.
    destruct (get_var_location (or_empty value) a0) as [loc a1]. cbn [snd] in *.
    destruct (isdigit (or_empty value)); cbn [Asm.emit output function_name];
      rewrite last_snoc, !length_app, Fn, Fo; cbn [length]; (split; [reflexivity | lia]).
  - cbn [Asm.emit output function_name]. rewrite last_snoc, !length_app. cbn [length].
    split; [reflexivity | lia].
Qed.

(** ** The lexer: tokens, positions and counts *)

Lemma advance_counts ch st : counts (Lexer._advance ch st) = counts st.
Proof. reflexivity. Qed.

Lemma advance_n_counts text : forall st, counts (_advance_n text st) = counts st.
Proof. induction text as [|c text IH]; intros st; [reflexivity|]. cbn [_advance_n]. now rewrite IH. Qed.

Lemma line_comment_counts s : forall st, counts (line_comment s st) = counts st.
Proof.
  induction s as [|c s IH]; intros st; [reflexivity|]. cbn [line_comment].
  destruct (Ascii.eqb c nl); [reflexivity|]. now rewrite IH.
Qed.

Lemma block_comment_counts s : forall st, counts (fst (block_comment s st)) = counts st.
Proof.
  induction s as [|c s IH]; intros st; [reflexivity|]. cbn [block_comment].
  destruct (startswith "*/" (String c s)); [reflexivity|]. now rewrite IH.
Qed.

(** One iteration either skips text or appends the token of the first
    pattern that matches. *)
Ltac ok_subst H :=
  match type of H with
  | Ok ?x = Ok ?y => assert (y = x) as -> by congruence; clear H
  end.

Lemma lex_step_cases st st' :
  rest st <> EmptyString -> lex_step st = Ok st' ->
  exists text,
    text <> EmptyString /\ consumes st st' text
    /\ ((result st' = result st /\ counts st' = counts st)
        \/ exists ty,
             first_match compiled (prev st) (rest st) = Some (ty, text)
             /\ result st' = result st ++ [RawToken ty text (line st) (col st)]
             /\ counts st' = incr ty (counts st)).
Proof.
  intros Hne H. destruct (lex_step_ok st st' Hne H) as (text & Ht & C & R).
  exists text. split; [exact Ht|]. split; [exact C|].
  unfold lex_step in H. destruct (rest st) as [|ch r] eqn:Er; [congruence|].
  destruct (startswith "//" (String ch r)).
  { ok_subst H. left. split.
    - destruct R as [R|[ty R]]; [exact R|].
      destruct (line_comment_consumes (String ch r) st Er) as (t' & _ & T). rewrite T in R.
      apply (f_equal (@length raw_token)) in R. rewrite length_app in R. cbn in R. lia.
    - apply line_comment_counts. }
  destruct (startswith "/*" (String ch r)).
  { match type of H with context [block_comment ?x ?y] =>
      pose proof (block_comment_counts x y) as Bc;
      destruct (block_comment x y) as [st3 closed] eqn:B end.
    destruct closed; [|discriminate]. ok_subst H. left. cbn [fst] in Bc. split; [|exact Bc].
    destruct R as [R|[ty R]]; [exact R|].
    match type of B with block_comment ?x ?y = _ =>
      destruct (block_comment_consumes x y st3 true eq_refl B) as (t' & _ & T & _) end.
    rewrite T in R. cbn [Lexer._advance result] in R.
    apply (f_equal (@length raw_token)) in R. rewrite length_app in R. cbn in R. lia. }
  destruct (Ascii.eqb ch nl).
  { ok_subst H. left. now split. }
  destruct (match_WS (String ch r)) as [ws|] eqn:W.
  { ok_subst H. left. destruct (match_WS_prefix _ _ W) as [_ [r' Hr]].
    rewrite <- Er in Hr. destruct (advance_n_consumes ws st r' Hr) as (_ & _ & T).
    split; [exact T | apply advance_n_counts]. }
  destruct (first_match compiled (prev st) (String ch r)) as [[ty lx]|] eqn:F; [|discriminate].
  ok_subst H. right. exists ty.
  destruct (first_match_prefix _ _ _ _ F) as [_ [r' Hr]].
  match goal with |- context [_advance_n lx ?m] => set (stm := m) in * end.
  destruct (advance_n_consumes lx stm r' Hr) as ([Ra _] & R1 & T1).
  assert (text = lx) as ->.
  { destruct R as [R|[ty' R]].
    - rewrite T1 in R. cbn [stm result] in R.
      apply (f_equal (@length raw_token)) in R. rewrite length_app in R. cbn in R. lia.
    - rewrite T1 in R. cbn [stm result] in R. apply app_inj_tail in R.
      destruct R as [_ R]. now injection R. }
  split; [reflexivity|]. split; [exact T1 | apply advance_n_counts].
Qed.

(** What every iteration keeps holds when the loop is left. *)
Lemma lexer_loop_invariant (I : lex_state -> Prop) :
  (forall st st', I st -> rest st <> EmptyString -> lex_step st = Ok st' -> I st') ->
  forall fuel st st', I st -> lexer_loop fuel st = Ok st' -> I st' /\ rest st' = EmptyString.
Proof.
  intros Step. induction fuel as [|fuel IH]; intros st st' Hi H; cbn [lexer_loop] in H.
  - destruct (rest st) eqn:R; [|discriminate]. injection H as <-. now split.
  - destruct (rest st) as [|ch r] eqn:R; [injection H as <-; now split|].
    destruct (lex_step st) as [st1| |] eqn:E; cbn [bind] in H; try discriminate.
    apply (IH st1 st'); [|exact H]. apply (Step st st1 Hi); [rewrite R; discriminate | exact E].
Qed.

Lemma weave_tail gaps : forall toks a b,
  length gaps = length toks -> weave gaps toks (a +:+ b) = weave gaps toks a +:+ b.
Proof.
  induction gaps as [|g gaps IH]; intros [|t toks] a b L; try discriminate L; [reflexivity|].
  cbn [weave]. rewrite IH by (cbn in L; lia). now rewrite !sapp_assoc.
Qed.

Lemma weave_snoc gaps : forall toks g t tail,
  length gaps = length toks ->
  weave (gaps ++ [g]) (toks ++ [t]) tail = weave gaps toks (g +:+ raw_lexeme t +:+ tail).
Proof.
  induction gaps as [|g0 gaps IH]; intros [|t0 toks] g t tail L; try discriminate L.
  - reflexivity.
  - cbn [weave app]. now rewrite IH by (cbn in L; lia).
Qed.

Lemma placed_snoc gaps : forall toks p g t,
  length gaps = length toks -> placed p gaps toks ->
  (raw_line t, raw_col t) = pos_after (weave gaps toks g) p ->
  raw_lexeme t <> EmptyString ->
  placed p (gaps ++ [g]) (toks ++ [t]).
Proof.
  induction gaps as [|g0 gaps IH]; intros [|t0 toks] p g t L P Hp Hn; try discriminate L.
  - cbn [placed app weave] in *. now repeat split.
  - cbn [placed app weave length] in *. destruct P as (P0 & N0 & P).
    split; [exact P0|]. split; [exact N0|].
    apply IH; [lia | exact P | | exact Hn].
    now rewrite !pos_after_app in Hp.
Qed.


Lemma first_match_type p s ty lx :
  first_match compiled p s = Some (ty, lx) -> In ty type_names.
Proof.
  unfold compiled, type_names. cbn [first_match map fst].
  repeat match goal with
         | |- context [match ?m with Some _ => _ | None => _ end] => destruct m
         end; intros [= <- _]; cbn; tauto.
Qed.

Lemma count_type_snoc ty toks t :
  count_type ty (toks ++ [t])
  = count_type ty toks + (if String.eqb (typ t) ty then 1 else 0).
Proof.
  unfold count_type. rewrite List.filter_app, length_app. cbn [List.filter].
  now destruct (String.eqb (typ t) ty).
Qed.

Lemma type_names_sum t toks :
  In (typ t) type_names ->
  list_sum (map (fun ty => count_type ty (t :: toks)) type_names)
  = S (list_sum (map (fun ty => count_type ty toks) type_names)).
Proof.
  unfold type_names, compiled, count_type. cbn [map fst List.filter].
  intros H. cbn in H.
  repeat (destruct H as [<-|H]; [cbn; lia|]). destruct H.
Qed.

(** X12. When the lexer returns, every token has one of the six type
    names of the table, [counts] holds for each of these names the number
    of tokens of that type and holds no other key, and the six counts add
    up to the number of tokens. *)
Theorem lexer_counts (code : string) :
  match lexer code with
  | Ok (toks, cnt) =>
      Forall (fun t => In (typ t) type_names) toks
      /\ (forall ty,
            cnt !! ty
            = if existsb (String.eqb ty) type_names then Some (count_type ty toks) else None)
      /\ list_sum (map (fun ty => count_type ty toks) type_names) = length toks
  | _ => True
  end.
Proof.
  unfold lexer.
  destruct (lexer_loop (String.length code) (lex_init code)) as [st| e |] eqn:E;
    cbn [bind]; try exact I.
  set (Inv := fun st : lex_state =>
    Forall (fun t => In (typ t) type_names) (result st)
    /\ forall ty,
         counts st !! ty
         = if existsb (String.eqb ty) type_names
           then Some (count_type ty (result st)) else None).
  assert (H0 : Inv (lex_init code)).
  { split; [constructor|]. intros ty. cbn [lex_init counts result].
    unfold initial_counts, type_names, compiled. cbn [map fst existsb].
    rewrite !list_to_map_cons, list_to_map_nil.
    repeat match goal with
           | |- context [String.eqb ty ?k] =>
               destruct (String.eqb_spec ty k) as [->|?];
               [now rewrite ?lookup_insert_eq, ?lookup_insert_ne by discriminate|]
           end.
    cbn [orb]. rewrite !lookup_insert_ne by congruence. apply lookup_empty. }
  assert (Step : forall s1 s2, Inv s1 -> rest s1 <> EmptyString -> lex_step s1 = Ok s2 -> Inv s2).
  { intros s1 s2 [F C] Hne Hs.
    destruct (lex_step_cases s1 s2 Hne Hs) as (text & _ & _ & [[Hr Hc]|(ty0 & Fm & Hr & Hc)]).
    - split; [now rewrite Hr|]. intros ty. rewrite Hr, Hc. apply C.
    - pose proof (first_match_type _ _ _ _ Fm) as Hin.
      split; [rewrite Hr; apply Forall_app; split;
                [exact F | constructor; [exact Hin | constructor]]|].
      intros ty. rewrite Hc, Hr, count_type_snoc. cbn [typ]. unfold incr.
      destruct (String.eqb_spec ty0 ty) as [->|Hne'].
      + rewrite lookup_insert_eq, (C ty).
        assert (existsb (String.eqb ty) type_names = true) as ->.
        { apply existsb_exists. exists ty. split; [exact Hin | apply String.eqb_refl]. }
        cbn [default from_option id]. f_equal. lia.
      + rewrite lookup_insert_ne by exact Hne'. rewrite (C ty).
        destruct (existsb (String.eqb ty) type_names); [f_equal; lia | reflexivity]. }
  destruct (lexer_loop_invariant Inv Step _ _ _ H0 E) as [[F C] _].
  split; [exact F|]. split; [exact C|].
  clear C E. induction F as [|t toks Ht _ IH].
  - reflexivity.
  - rewrite (type_names_sum t toks Ht), IH. reflexivity.
Qed.

(** ** The adapter: what it returns and what it raises *)

Lemma contains_char_In c s :
  contains_char c s = true -> In c (list_ascii_of_string s).
Proof.
  induction s as [|d s IH]; cbn [contains_char list_ascii_of_string]; [discriminate|].
  intros H. apply orb_true_iff in H. destruct H as [H|H].
  - left. apply Ascii.eqb_eq in H. now subst.
  - right. now apply IH.
Qed.

Lemma lexer_raw_wf (code : string) toks cnt :
  lexer code = Ok (toks, cnt) -> Forall raw_wf toks.
Proof.
  unfold lexer. intros H.
  destruct (lexer_loop (String.length code) (lex_init code)) as [st| e |] eqn:E;
    cbn [bind] in H; try discriminate.
  injection H as <- <-.
  assert (Step : forall s1 s2, Forall raw_wf (result s1) -> rest s1 <> EmptyString ->
                               lex_step s1 = Ok s2 -> Forall raw_wf (result s2)).
  { intros s1 s2 F Hne Hs.
    destruct (lex_step_cases s1 s2 Hne Hs) as (text & _ & _ & [[Hr _]|(ty0 & Fm & Hr & _)]);
      rewrite Hr; [exact F|].
    apply Forall_app. split; [exact F|]. constructor; [|constructor].
    now exists (prev s1), (rest s1). }
  assert (H0 : Forall raw_wf (result (lex_init code))) by constructor.
  exact (proj1 (lexer_loop_invariant (fun st => Forall raw_wf (result st)) Step _ _ _ H0 E)).
Qed.

(** The adapter on one token of the lexer. *)
Lemma convert_raw_wf (item : raw_token) :
  raw_wf item ->
  match convert item with
  | Ok t => token_ok t /\ type t <> "EOF"
  | Err (UnsupportedOperator lx _ _) => In lx ["%="; "&"; "|"]
  | _ => False
  end.
Proof.
  destruct item as [ty lx ln cl]. intros (p & s & F). cbn [typ raw_lexeme] in F.
  unfold compiled in F. cbn [first_match] in F.
  destruct (match_keywords p s) as [kw|] eqn:E1.
  { injection F as <- <-. unfold match_keywords in E1.
    destruct (boundary_before p); [|discriminate].
    apply match_alternatives_prefix in E1. destruct E1 as [Hin _].
    unfold keyword_list in Hin. cbn in Hin.
    repeat (destruct Hin as [<-|Hin];
            [cbn; unfold token_ok, std_types; cbn; intuition (try discriminate)|]).
    destruct Hin. }
  destruct (match_identifier s) as [id|] eqn:E2.
  { injection F as <- <-. cbn. unfold token_ok, std_types. cbn.
    intuition (try discriminate). }
  destruct (match_punctuacion s) as [pu|] eqn:E3.
  { injection F as <- <-. destruct s as [|c s]; [discriminate|].
    cbn [match_punctuacion] in E3.
    destruct (contains_char c ",;(){}") eqn:Cc; [|discriminate]. injection E3 as <-.
    apply contains_char_In in Cc. cbn in Cc.
    repeat (destruct Cc as [<-|Cc];
            [cbn; unfold token_ok, std_types; cbn; intuition (try discriminate)|]).
    destruct Cc. }
  destruct (match_operator s) as [op|] eqn:E4.
  { injection F as <- <-. unfold match_operator in E4.
    destruct (first_prefix operator_list s) as [op'|] eqn:Fp.
    - injection E4 as <-. apply first_prefix_prefix in Fp. destruct Fp as [Hin _].
      unfold operator_list in Hin. cbn in Hin.
      repeat (destruct Hin as [<-|Hin];
              [cbn; unfold token_ok, std_types; cbn; intuition (try discriminate)|]).
      destruct Hin.
    - destruct s as [|c s]; [discriminate|].
      destruct (contains_char c "+-*/%<>=!&|") eqn:Cc; [|discriminate]. injection E4 as <-.
      apply contains_char_In in Cc. cbn in Cc.
      repeat (destruct Cc as [<-|Cc];
              [cbn; unfold token_ok, std_types; cbn; intuition (try discriminate)|]).
      destruct Cc. }
  destruct (match_constant s) as [k|] eqn:E5.
  { injection F as <- <-. cbn. destruct (contains_char "." k);
      unfold token_ok, std_types; cbn; intuition (try discriminate). }
  destruct (match_literal s) as [l|] eqn:E6; [|discriminate].
  injection F as <- <-. cbn. unfold token_ok, std_types. cbn.
  intuition (try discriminate).
Qed.

Lemma convert_all_raw_wf items :
  Forall raw_wf items ->
  match convert_all items with
  | Ok ts => Forall token_ok ts
  | Err (UnsupportedOperator lx _ _) => In lx ["%="; "&"; "|"]
  | _ => False
  end.
Proof.
  induction 1 as [|item items Hi _ IH]; cbn [convert_all]; [constructor|].
  pose proof (convert_raw_wf item Hi) as Hc.
  destruct (convert item) as [t|e|]; cbn [bind]; [|exact Hc|exact Hc].
  destruct (convert_all items) as [ts|e|]; cbn [bind]; [|exact IH|exact IH].
  constructor; [exact (proj1 Hc) | exact IH].
Qed.


(** ** The type checker: arithmetic *)

Lemma arith_type_widened tl tr :
  numeric tl -> numeric tr -> forall t, arith_type tl tr = t <-> widened tl tr t.
Proof.
  unfold numeric, widened, arith_type.
  intros [-> | ->] [-> | ->] t; cbn; split; intros H;
    try (subst t; tauto);
    destruct H as [[[H|H] ->]|[[H1 H2] ->]]; try reflexivity; discriminate.
Qed.

(** X14. For typed operands, [-], [*], [/] and [%] have a type exactly
    when both operands are numeric, [+] also when both are [string]
    (giving [string]); the numeric result is [float] as soon as one operand
    is a [float] and [int] otherwise. A unary operator keeps the type of
    a numeric operand. Every other case raises the semantic error of its
    operator, and an operator outside the four groups raises the error
    that no type can be inferred. *)
Theorem typeof_arithmetic_rules (sy : gmap string string) (fs : gmap string func_info)
    (l r : Expr) (op tl tr : string) :
  typeof sy fs l = Ok tl -> typeof sy fs r = Ok tr ->
  (In op arithmetic_ops ->
     typeof sy fs (BinOp l op r)
     = if is_numeric tl && is_numeric tr then Ok (arith_type tl tr)
       else Err (SemanticError (ArithmeticExpectsNumbers op tl tr)))
  /\ (forall t, typeof sy fs (BinOp l "+" r) = Ok t
                <-> (tl = "string" /\ tr = "string" /\ t = "string")
                    \/ (numeric tl /\ numeric tr /\ widened tl tr t))
  /\ (forall t, In op arithmetic_ops ->
                (typeof sy fs (BinOp l op r) = Ok t
                 <-> numeric tl /\ numeric tr /\ widened tl tr t))
  /\ (~ In op ("+" :: arithmetic_ops ++ comparison_ops ++ logical_ops) ->
      typeof sy fs (BinOp l op r) = Err (SemanticError (CannotInferType "BinOp")))
  /\ typeof sy fs (UnaryOp op l)
     = if is_numeric tl then Ok tl else Err (SemanticError (UnaryExpectsNumber op tl)).
Proof.
  intros Hl Hr.
  assert (A : In op arithmetic_ops ->
              typeof sy fs (BinOp l op r)
              = if is_numeric tl && is_numeric tr then Ok (arith_type tl tr)
                else Err (SemanticError (ArithmeticExpectsNumbers op tl tr))).
  { intros Hop. cbn [typeof]. rewrite Hl, Hr. cbn [bind].
    unfold arithmetic_ops in Hop. cbn in Hop.
    destruct Hop as [<-|[<-|[<-|[<-|[]]]]]; reflexivity. }
  split; [exact A|]. split; [|split; [|split]].
  - intros t. cbn [typeof]. rewrite Hl, Hr. cbn [bind].
    change (String.eqb "+" "+") with true. cbv iota.
    destruct (String.eqb tl "string" && String.eqb tr "string") eqn:S1.
    + apply andb_true_iff in S1. destruct S1 as [S1 S2].
      apply String.eqb_eq in S1, S2. subst tl tr. split.
      * intros [= <-]. now left.
      * intros [(_ & _ & ->)|([H|H] & _)]; [reflexivity | discriminate H | discriminate H].
    + destruct (is_numeric tl && is_numeric tr) eqn:N.
      * apply andb_true_iff in N. destruct N as [N1 N2].
        apply is_numeric_spec in N1, N2. split.
        -- intros [= H]. right. split; [exact N1|]. split; [exact N2|].
           now apply arith_type_widened.
        -- intros [(-> & -> & _)|(_ & _ & W)]; [discriminate S1|].
           f_equal. now apply arith_type_widened.
      * split; [discriminate|].
        intros [(-> & -> & _)|(N1 & N2 & _)]; [discriminate S1|].
        apply is_numeric_spec in N1, N2. rewrite N1, N2 in N. discriminate N.
  - intros t Hop. rewrite (A Hop).
    destruct (is_numeric tl && is_numeric tr) eqn:N.
    + apply andb_true_iff in N. destruct N as [N1 N2].
      apply is_numeric_spec in N1, N2. split.
      * intros [= H]. split; [exact N1|]. split; [exact N2|]. now apply arith_type_widened.
      * intros (_ & _ & W). f_equal. now apply arith_type_widened.
    + split; [discriminate|]. intros (N1 & N2 & _).
      apply is_numeric_spec in N1, N2. rewrite N1, N2 in N. discriminate N.
  - intros Hop. cbn [typeof]. rewrite Hl, Hr. cbn [bind].
    destruct (String.eqb op "+") eqn:E1.
    { apply String.eqb_eq in E1. subst op. exfalso. apply Hop. now left. }
    destruct (in_ops op ["-"; "*"; "/"; "%"]) eqn:E2.
    { apply in_ops_In in E2. exfalso. apply Hop. right. apply in_or_app. now left. }
    destruct (in_ops op ["=="; "!="; "<"; ">"; "<="; ">="]) eqn:E3.
    { apply in_ops_In in E3. exfalso. apply Hop. right.
      apply in_or_app. right. apply in_or_app. now left. }
    destruct (in_ops op ["&&"; "||"]) eqn:E4; [|reflexivity].
    apply in_ops_In in E4. exfalso. apply Hop. right.
    apply in_or_app. right. apply in_or_app. now right.
  - cbn [typeof]. rewrite Hl. reflexivity.
Qed.

Lemma typeof_arithmetic_rules_witness :
  typeof ∅ builtin_functions (BinOp (Num (PyInt 1)) "*" (Num (PyFloatV (PyFloat "2.5"))))
  = Ok "float".
Proof.
  pose proof (typeof_arithmetic_rules ∅ builtin_functions (Num (PyInt 1))
                (Num (PyFloatV (PyFloat "2.5"))) "*" "int" "float" eq_refl eq_refl)
    as (H & _).
  rewrite H; [reflexivity|]. unfold arithmetic_ops. cbn. tauto.
Defined.

(** ** The type checker: what it depends on *)

Lemma typeof_weaken (sy sy' : gmap string string) (fs : gmap string func_info) (e : Expr) :
  sy ⊆ sy' -> forall t, typeof sy fs e = Ok t -> typeof sy' fs e = Ok t.
Proof.
  intros Hsub. induction e as [v | v | n | op e IH | l op r IHl IHr | name args _]
    using Expr_nested_ind; intros t H; cbn [typeof] in *.
  - exact H.
  - exact H.
  - destruct (sy !! n) as [t0|] eqn:E; [|discriminate].
    now rewrite (lookup_weaken _ _ _ _ E Hsub).
  - destruct (typeof sy fs e) as [t0| |]; cbn [bind] in H; try discriminate.
    now rewrite (IH t0 eq_refl).
  - destruct (typeof sy fs l) as [tl| |]; cbn [bind] in H; try discriminate.
    destruct (typeof sy fs r) as [tr| |]; cbn [bind] in H; try discriminate.
    now rewrite (IHl tl eq_refl), (IHr tr eq_refl).
  - exact H.
Qed.

Lemma typeof_errors (sy : gmap string string) (fs : gmap string func_info) (e : Expr) :
  match typeof sy fs e with
  | Ok _ => True
  | Err err => exists se, err = SemanticError se
  | OutOfFuel => False
  end.
Proof.
  induction e as [v | v | n | op e IH | l op r IHl IHr | name args _]
    using Expr_nested_ind; cbn [typeof].
  - exact I.
  - exact I.
  - destruct (sy !! n); [exact I | eexists; reflexivity].
  - destruct (typeof sy fs e) as [t0| |]; cbn [bind]; [|exact IH|exact IH].
    destruct (is_numeric t0); [exact I | eexists; reflexivity].
  - destruct (typeof sy fs l) as [tl| |]; cbn [bind]; [|exact IHl|exact IHl].
    destruct (typeof sy fs r) as [tr| |]; cbn [bind]; [|exact IHr|exact IHr].
    repeat match goal with
           | |- context [if ?b then _ else _] => destruct b
           end; first [exact I | eexists; reflexivity].
  - now destruct (fs !! name).
Qed.



(** * The parser stops and raises only its own exceptions *)

Lemma wf_remaining st : wf st -> 1 <= remaining st.
Proof. intros [[Hs _] _]. apply in_sync_lt in Hs. unfold remaining. lia. Qed.

Lemma follows_refl st : in_sync st -> follows 0 st st.
Proof. intros H. unfold follows. repeat split; [exact H | lia]. Qed.

Lemma follows_trans k1 k2 k st1 st2 st3 :
  follows k1 st1 st2 -> follows k2 st2 st3 -> k <= k1 + k2 -> follows k st1 st3.
Proof.
  intros (_ & T1 & L1 & F1 & C1) (S2 & T2 & L2 & F2 & C2) Hk. unfold follows.
  repeat split; [exact S2 | congruence | lia | congruence | congruence].
Qed.

Lemma wf_of k st st' : wf st -> follows k st st' -> wf st'.
Proof.
  intros [[_ He] Ht] (S' & T & _). unfold wf, good. rewrite T. now repeat split.
Qed.

Lemma remaining_follows k st st' : follows k st st' -> remaining st' + k <= remaining st.
Proof.
  intros (S' & T & L & _). apply in_sync_lt in S'. unfold remaining. rewrite T in *. lia.
Qed.

Lemma advance_current_return st :
  current_function_return_type (Parser._advance st) = current_function_return_type st.
Proof.
  unfold Parser._advance. destruct (_ <? _); [|reflexivity].
  destruct (tokens st !! S (i st)); reflexivity.
Qed.

Lemma advance_follows0 st : wf st -> follows 0 st (Parser._advance st).
Proof.
  intros [[Hs _] _]. unfold follows. split; [now apply advance_in_sync|].
  split; [apply advance_tokens|]. split; [pose proof (advance_i_le st); lia|].
  split; [apply advance_functions | apply advance_current_return].
Qed.

Lemma advance_follows st : wf st -> _check "EOF" st = false -> follows 1 st (Parser._advance st).
Proof.
  intros W Hc. destruct (advance_follows0 st W) as (S' & T & _ & F & C).
  unfold follows. rewrite (advance_progress st (proj1 W) Hc).
  repeat split; [exact S' | exact T | lia | exact F | exact C].
Qed.

Lemma check_follows ttype st :
  wf st -> ttype <> "EOF" -> _check ttype st = true -> follows 1 st (Parser._advance st).
Proof. intros W Hne Hc. apply advance_follows; [exact W | now apply (check_not_eof ttype)]. Qed.

Lemma consume_runs ttype st : wf st -> ttype <> "EOF" -> runs 1 (_consume ttype) st.
Proof.
  intros W Hne. unfold runs, _consume. destruct (_check ttype st) eqn:C; [|exact I].
  now apply (check_follows ttype).
Qed.

Lemma lexeme_is_follows lx st :
  wf st -> lexeme_is lx st = true -> follows 1 st (Parser._advance st).
Proof.
  intros W H. unfold lexeme_is in H. apply andb_true_iff in H. destruct H as [H _].
  now apply (check_follows "ID").
Qed.

(** The token under the cursor is one of the list. *)
Lemma current_token_ok st : wf st -> token_ok (current st).
Proof.
  intros [[Hs _] Ht]. rewrite Forall_forall in Ht. apply Ht.
  eapply list_elem_of_lookup_2. exact Hs.
Qed.

(** Stepping back over the identifier that [factor] looked past. *)
Lemma goto_back st :
  wf st -> _check "ID" st = true ->
  goto (i (Parser._advance st) - 1) (Parser._advance st) = Ok st.
Proof.
  intros W Hc. pose proof (check_not_eof "ID" st ltac:(discriminate) Hc) as He.
  unfold goto. rewrite advance_tokens, (advance_progress st (proj1 W) He).
  replace (S (i st) - 1) with (i st) by lia.
  destruct W as [[Hs _] _]. unfold in_sync in Hs. rewrite Hs.
  rewrite advance_functions, advance_current_return.
  assert (Sy : symbols (Parser._advance st) = symbols st) by apply advance_symbols.
  rewrite Sy. now destruct st.
Qed.

Lemma check_printf_rest_clean sy rest : forall index,
  match check_printf_rest sy index rest with
  | Ok _ => True
  | Err e => clean e
  | OutOfFuel => False
  end.
Proof.
  induction rest as [|a rest IH]; intros index; cbn [check_printf_rest]; [exact I|].
  destruct a; try exact I. destruct (sy !! name); [apply IH | exact I].
Qed.

Lemma check_scanf_clean sy rest : forall index,
  match check_scanf sy index rest with
  | Ok _ => True
  | Err e => clean e
  | OutOfFuel => False
  end.
Proof.
  induction rest as [|a rest IH]; intros index; cbn [check_scanf]; [exact I|].
  destruct a; try exact I. destruct (sy !! name); [apply IH | exact I].
Qed.

Lemma typeof_clean sy fs e :
  match typeof sy fs e with
  | Ok _ => True
  | Err err => clean err
  | OutOfFuel => False
  end.
Proof.
  pose proof (typeof_errors sy fs e) as H. destruct (typeof sy fs e); [exact I| |exact H].
  destruct H as [se ->]. exact I.
Qed.

Lemma check_arguments_clean sy fs fname actual : forall index expected,
  match check_arguments sy fs fname index actual expected with
  | Ok _ => True
  | Err e => clean e
  | OutOfFuel => False
  end.
Proof.
  induction actual as [|a actual IH]; intros index expected; cbn [check_arguments]; [exact I|].
  destruct expected as [|[pty pname] expected]; [exact I|].
  pose proof (typeof_clean sy fs a) as T.
  destruct (typeof sy fs a) as [t|e|]; cbn [bind]; [|exact T|exact T].
  destruct (compatible t pty); [apply IH | exact I].
Qed.

(** Runs one action of the goal whose behaviour [lem] gives, and keeps
    what is known of the state it returns. *)
Ltac run_as lem a s1 :=
  let R := fresh "R" in
  pose proof lem as R; unfold runs in R;
  match type of R with
  | match ?c with _ => _ end =>
      let E := fresh "E" in
      destruct c as [[a s1]|?|] eqn:E; cbn [bind]; cbv zeta;
      [ | exact R | exact R ]
  end;
  match goal with
  | W : wf ?s, F : follows _ ?s s1 |- _ =>
      let W1 := fresh "W" in
      let M1 := fresh "M" in
      pose proof (wf_of _ _ _ W F) as W1; pose proof (remaining_follows _ _ _ F) as M1
  end.

(** Closes a goal [follows k st st'] from the steps in the context. *)
Ltac follows_done :=
  unfold follows in *;
  repeat match goal with
         | H : _ /\ _ |- _ => destruct H
         end;
  cbn [tokens i current symbols functions current_function_return_type
       set_symbols set_functions set_return_type declare] in *;
  repeat split; first [ assumption | congruence | lia ].

Ltac type_step :=
  match goal with
  | |- context [typeof_st ?e ?s] =>
      let T := fresh "T" in
      pose proof (typeof_clean (symbols s) (functions s) e) as T;
      unfold typeof_st;
      destruct (typeof (symbols s) (functions s) e) as [?|?|]; cbn [bind];
      [ | exact T | exact T ]
  end.

Section ExpressionsRun.

Variable expr_ : M Expr.
Variable B : nat.
Hypothesis He : forall st, wf st -> remaining st <= B -> runs 0 expr_ st.

Lemma args_loop_runs fuel : forall result st,
  wf st -> remaining st <= fuel -> remaining st <= S B ->
  runs 0 (args_loop expr_ fuel result) st.
Proof.
  induction fuel as [|fuel IH]; intros result st W Rf Rb.
  { pose proof (wf_remaining st W). lia. }
  unfold runs. cbn [args_loop]. destruct (_check "COMMA" st) eqn:C.
  - pose proof (check_follows "COMMA" st W ltac:(discriminate) C) as F0.
    pose proof (wf_of _ _ _ W F0) as W0. pose proof (remaining_follows _ _ _ F0) as M0.
    run_as (He (Parser._advance st) W0 ltac:(lia)) e st1.
    run_as (IH (result ++ [e]) st1 ltac:(assumption) ltac:(lia) ltac:(lia)) res st2.
    follows_done.
  - apply follows_refl, W.
Qed.

Lemma args_runs fuel st :
  wf st -> remaining st <= fuel -> remaining st <= B -> runs 0 (args expr_ fuel) st.
Proof.
  intros W Rf Rb. unfold runs, args.
  run_as (He st W Rb) e st1.
  run_as (args_loop_runs fuel [e] st1 ltac:(assumption) ltac:(lia) ltac:(lia)) res st2.
  follows_done.
Qed.

Lemma func_call_runs fuel st :
  wf st -> remaining st <= fuel + 2 -> remaining st <= B + 2 ->
  runs 1 (func_call expr_ fuel) st.
Proof.
  intros W Rf Rb. unfold runs, func_call.
  run_as (consume_runs "ID" st W ltac:(discriminate)) name_tok st1.
  destruct (functions st1 !! lexeme name_tok) as [info|] eqn:Fn; [|exact I].
  run_as (consume_runs "LPAREN" st1 ltac:(assumption) ltac:(discriminate)) lp st2.
  assert (A : runs 0 (fun s => if negb (_check "RPAREN" s) then args expr_ fuel s
                               else Ok ([], s)) st2).
  { unfold runs. destruct (_check "RPAREN" st2); cbn [negb].
    - apply follows_refl. now destruct W1 as [[? _] _].
    - apply args_runs; [assumption | lia | lia]. }
  run_as A actual st3.
  run_as (consume_runs "RPAREN" st3 ltac:(assumption) ltac:(discriminate)) rp st4.
  assert (Fn4 : functions st4 = functions st1).
  { unfold follows in *. intuition congruence. }
  rewrite Fn4.
  destruct (functions st1 !! lexeme name_tok) as [[[rt expected_params] is_variadic]|];
    [|discriminate Fn].
  match goal with
  | |- match bind ?c _ with _ => _ end =>
      assert (Ck : match c with Ok _ => True | Err e => clean e | OutOfFuel => False end)
  end.
  { destruct (String.eqb (lexeme name_tok) "printf").
    - destruct actual as [|arg [|arg2 rest]]; [exact I| |apply check_printf_rest_clean].
      type_step. destruct arg; try exact I. now destruct (symbols st4 !! name).
    - destruct (String.eqb (lexeme name_tok) "scanf").
      + destruct actual; [exact I | apply check_scanf_clean].
      + destruct (negb is_variadic); [|exact I].
        destruct (negb (length actual =? length expected_params)); [exact I|].
        apply check_arguments_clean. }
  match goal with
  | |- match bind ?c _ with _ => _ end =>
      destruct c as [u|e|]; cbn [bind]; [|exact Ck|exact Ck]
  end.
  follows_done.
Qed.

Lemma factor_runs fuel : forall st,
  wf st -> remaining st <= fuel -> remaining st <= S B -> runs 0 (factor expr_ fuel) st.
Proof.
  induction fuel as [|fuel IH]; intros st W Rf Rb.
  { pose proof (wf_remaining st W). lia. }
  unfold runs. cbn [factor].
  destruct (_check "PLUS" st || _check "MINUS" st) eqn:C1.
  { assert (F0 : follows 1 st (Parser._advance st)).
    { apply orb_true_iff in C1. destruct C1 as [C|C];
        [apply (check_follows "PLUS") | apply (check_follows "MINUS")];
        solve [assumption | discriminate]. }
    pose proof (wf_of _ _ _ W F0) as W0. pose proof (remaining_follows _ _ _ F0) as M0.
    run_as (IH (Parser._advance st) W0 ltac:(lia) ltac:(lia)) e st1.
    follows_done. }
  destruct (_check "NUM" st) eqn:C2.
  { pose proof (check_follows "NUM" st W ltac:(discriminate) C2) as F0.
    pose proof (current_token_ok st W) as [_ Tk]. apply check_true in C2.
    destruct (literal (current st)); try exact I; [follows_done | follows_done |].
    destruct Tk as [Tk _]. congruence. }
  destruct (_check "STRING" st) eqn:C3.
  { pose proof (check_follows "STRING" st W ltac:(discriminate) C3) as F0.
    pose proof (current_token_ok st W) as [_ Tk]. apply check_true in C3.
    destruct (literal (current st)); [| | |follows_done].
    - destruct Tk as [_ Tk]. congruence.
    - destruct Tk as [Tk _]. congruence.
    - destruct Tk as [Tk _]. congruence. }
  destruct (_check "ID" st) eqn:C4.
  { pose proof (check_follows "ID" st W ltac:(discriminate) C4) as F0.
    destruct (_check "LPAREN" (Parser._advance st)); [|follows_done].
    rewrite (goto_back st W C4). cbn [bind].
    run_as (func_call_runs fuel st W ltac:(lia) ltac:(lia)) e st1.
    follows_done. }
  destruct (_check "LPAREN" st) eqn:C5; [|exact I].
  pose proof (check_follows "LPAREN" st W ltac:(discriminate) C5) as F0.
  pose proof (wf_of _ _ _ W F0) as W0. pose proof (remaining_follows _ _ _ F0) as M0.
  run_as (He (Parser._advance st) W0 ltac:(lia)) e st1.
  run_as (consume_runs "RPAREN" st1 ltac:(assumption) ltac:(discriminate)) rp st2.
  follows_done.
Qed.

Section Level.

Variable sub : M Expr.
Variable N : nat.
Hypothesis Hsub : forall st, wf st -> remaining st <= N -> runs 0 sub st.

Lemma types_not_eof ttypes st :
  ~ In "EOF" ttypes -> existsb (fun t => _check t st) ttypes = true ->
  _check "EOF" st = false.
Proof.
  intros Hn H. apply existsb_exists in H. destruct H as (t & Hin & Hc).
  apply (check_not_eof t); [|exact Hc]. intros ->. now apply Hn.
Qed.

Lemma binary_loop_runs ttypes fuel : forall lhs st,
  ~ In "EOF" ttypes ->
  wf st -> remaining st <= fuel -> remaining st <= S N ->
  runs 0 (binary_loop ttypes sub fuel lhs) st.
Proof.
  induction fuel as [|fuel IH]; intros lhs st Hn W Rf Rn.
  { pose proof (wf_remaining st W). lia. }
  unfold runs. cbn [binary_loop].
  destruct (existsb (fun t => _check t st) ttypes) eqn:C; [|apply follows_refl, W].
  pose proof (advance_follows st W (types_not_eof ttypes st Hn C)) as F0.
  pose proof (wf_of _ _ _ W F0) as W0. pose proof (remaining_follows _ _ _ F0) as M0.
  run_as (Hsub (Parser._advance st) W0 ltac:(lia)) rhs st1.
  run_as (IH (BinOp lhs (lexeme (current st)) rhs) st1 Hn ltac:(assumption) ltac:(lia)
            ltac:(lia)) e st2.
  follows_done.
Qed.

Lemma binary_level_runs ttypes fuel st :
  ~ In "EOF" ttypes ->
  wf st -> remaining st <= fuel -> remaining st <= N ->
  runs 0 (binary_level ttypes sub fuel) st.
Proof.
  intros Hn W Rf Rn. unfold runs, binary_level.
  run_as (Hsub st W Rn) lhs st1.
  run_as (binary_loop_runs ttypes fuel lhs st1 Hn ltac:(assumption) ltac:(lia) ltac:(lia))
    e st2.
  follows_done.
Qed.

End Level.

Lemma logical_or_body_runs fuel st :
  wf st -> remaining st <= fuel -> remaining st <= S B ->
  runs 0 (logical_or_body expr_ fuel) st.
Proof.
  intros W Rf Rb.
  assert (L0 : forall s, wf s -> remaining s <= Nat.min fuel (S B) ->
                         runs 0 (factor expr_ fuel) s).
  { intros s Ws Rs. apply factor_runs; [exact Ws | lia | lia]. }
  assert (Up : forall (sub : M Expr) ttypes,
             ~ In "EOF" ttypes ->
             (forall s, wf s -> remaining s <= Nat.min fuel (S B) -> runs 0 sub s) ->
             forall s, wf s -> remaining s <= Nat.min fuel (S B) ->
                       runs 0 (binary_level ttypes sub fuel) s).
  { intros sub ttypes Hn Hsub s Ws Rs.
    apply (binary_level_runs sub (Nat.min fuel (S B)) Hsub); [exact Hn | exact Ws | lia | lia]. }
  pose proof (Up (factor expr_ fuel) ["STAR"; "SLASH"; "PERC"]
                ltac:(cbn; intuition discriminate) L0) as L1.
  pose proof (Up (term expr_ fuel) ["PLUS"; "MINUS"]
                ltac:(cbn; intuition discriminate) L1) as L2.
  pose proof (Up (additive expr_ fuel) ["LT"; "GT"; "LE"; "GE"]
                ltac:(cbn; intuition discriminate) L2) as L3.
  pose proof (Up (relational expr_ fuel) ["EQ"; "NEQ"]
                ltac:(cbn; intuition discriminate) L3) as L4.
  pose proof (Up (equality expr_ fuel) ["AND"]
                ltac:(cbn; intuition discriminate) L4) as L5.
  pose proof (Up (logical_and expr_ fuel) ["OR"]
                ltac:(cbn; intuition discriminate) L5) as L6.
  apply L6; [exact W | lia].
Qed.

End ExpressionsRun.

Lemma logical_or_runs n : forall st,
  wf st -> remaining st <= n -> runs 0 (logical_or (S n)) st.
Proof.
  induction n as [|n IH]; intros st W R.
  { pose proof (wf_remaining st W). lia. }
  change (logical_or (S (S n))) with (logical_or_body (logical_or (S n)) (S n)).
  apply (logical_or_body_runs (logical_or (S n)) n IH); [exact W | lia | lia].
Qed.

(** With a budget above the number of tokens left, an expression is
    parsed to the end. *)
Lemma logical_or_enough fuel st : wf st -> remaining st < fuel -> runs 0 (logical_or fuel) st.
Proof.
  intros W R. destruct fuel as [|n]; [lia|]. apply logical_or_runs; [exact W | lia].
Qed.

(** ** Statements *)

Lemma wf_set_symbols sy st : wf st -> wf (set_symbols sy st).
Proof. intros H. exact H. Qed.

Lemma wf_set_return_type rt st : wf st -> wf (set_return_type rt st).
Proof. intros H. exact H. Qed.

Lemma wf_in_sync st : wf st -> in_sync st.
Proof. now intros [[H _] _]. Qed.

Lemma check_condition_stops kind condition st : stops (check_condition kind condition st).
Proof.
  unfold stops, check_condition. type_step.
  now destruct (in_ops _ _).
Qed.

Lemma optional_value_runs fuel st :
  wf st -> remaining st < fuel ->
  runs 0 (fun s => if negb (_check "SEMI" s)
                   then let* (e, st') := logical_or fuel s in Ok (Some e, st')
                   else Ok (None, s)) st.
Proof.
  intros W R. unfold runs. destruct (_check "SEMI" st); cbn [negb].
  - apply follows_refl, wf_in_sync, W.
  - run_as (logical_or_enough fuel st W R) e st1. follows_done.
Qed.

Lemma return_stmt_runs fuel st :
  wf st -> remaining st <= fuel -> runs 1 (return_stmt fuel) st.
Proof.
  intros W R. unfold runs, return_stmt.
  assert (Entry : forall (k : pstate -> outcome parse_error (Stmt * pstate)),
            (forall st1, follows 1 st st1 ->
               match k st1 with
               | Ok (_, st') => follows 1 st st'
               | Err e => clean e
               | OutOfFuel => False
               end) ->
            match
              bind (if _check "RETURN" st
                    then let* (_, st') := _consume "RETURN" st in Ok st'
                    else if lexeme_is "return" st then Ok (Parser._advance st)
                    else Err (SyntaxError_ (Expected "return" (type (current st))
                                              (lexeme (current st))))) k
            with
            | Ok (_, st') => follows 1 st st'
            | Err e => clean e
            | OutOfFuel => False
            end).
  { intros k Hk. destruct (_check "RETURN" st) eqn:C.
    - unfold _consume. rewrite C. cbn [bind].
      apply Hk. now apply (check_follows "RETURN").
    - destruct (lexeme_is "return" st) eqn:L; [|exact I]. cbn [bind].
      apply Hk. now apply (lexeme_is_follows "return"). }
  apply Entry. intros st1 F1.
  pose proof (wf_of _ _ _ W F1) as W1. pose proof (remaining_follows _ _ _ F1) as M1.
  run_as (optional_value_runs fuel st1 W1 ltac:(lia)) e st2.
  run_as (consume_runs "SEMI" st2 ltac:(assumption) ltac:(discriminate)) semi st3.
  match goal with
  | |- match bind ?c _ with _ => _ end =>
      assert (Ck : stops c);
      [ | unfold stops in Ck; destruct c as [u|err|]; cbn [bind]; [|exact Ck|exact Ck] ]
  end.
  { unfold stops. destruct (current_function_return_type st3) as [ret|]; [|exact I].
    destruct e as [e'|].
    - type_step. now destruct (compatible _ ret).
    - now destruct (negb (String.eqb ret "void")). }
  follows_done.
Qed.

Lemma optional_init_runs fuel st :
  wf st -> remaining st <= fuel -> runs 0 (optional_init fuel) st.
Proof.
  intros W R. unfold runs, optional_init. destruct (_check "ASSIGN" st) eqn:C.
  - pose proof (check_follows "ASSIGN" st W ltac:(discriminate) C) as F0.
    pose proof (wf_of _ _ _ W F0) as W0. pose proof (remaining_follows _ _ _ F0) as M0.
    run_as (logical_or_enough fuel (Parser._advance st) W0 ltac:(lia)) e st1. follows_done.
  - apply follows_refl, wf_in_sync, W.
Qed.

Lemma consume_semi_runs semi st : wf st -> runs 0 (consume_semi semi) st.
Proof.
  intros W. unfold runs, consume_semi. destruct semi.
  - run_as (consume_runs "SEMI" st W ltac:(discriminate)) t st1. follows_done.
  - apply follows_refl, wf_in_sync, W.
Qed.

Lemma decl_gen_runs semi fuel st :
  wf st -> remaining st <= fuel -> runs 1 (decl_gen semi fuel) st.
Proof.
  intros W R. unfold runs, decl_gen.
  run_as (consume_runs "INT" st W ltac:(discriminate)) t st1.
  run_as (consume_runs "ID" st1 ltac:(assumption) ltac:(discriminate)) name_tok st2.
  destruct (declared (lexeme name_tok) st2); [exact I|].
  run_as (optional_init_runs fuel st2 ltac:(assumption) ltac:(lia)) init_expr st3.
  run_as (consume_semi_runs semi st3 ltac:(assumption)) u st4.
  match goal with
  | |- match bind ?c _ with _ => _ end =>
      assert (Ck : stops c);
      [ | unfold stops in Ck; destruct c as [u'|err|]; cbn [bind]; [|exact Ck|exact Ck] ]
  end.
  { unfold stops. destruct init_expr as [e|]; [|exact I].
    type_step. now destruct (negb _). }
  follows_done.
Qed.

Lemma assign_gen_runs semi fuel st :
  wf st -> remaining st <= fuel -> runs 1 (assign_gen semi fuel) st.
Proof.
  intros W R. unfold runs, assign_gen.
  run_as (consume_runs "ID" st W ltac:(discriminate)) name_tok st1.
  run_as (consume_runs "ASSIGN" st1 ltac:(assumption) ltac:(discriminate)) t st2.
  run_as (logical_or_enough fuel st2 ltac:(assumption) ltac:(lia)) e st3.
  run_as (consume_semi_runs semi st3 ltac:(assumption)) u st4.
  destruct (symbols st4 !! lexeme name_tok) as [expected_type|]; [|exact I].
  type_step. destruct (compatible _ expected_type); [follows_done | exact I].
Qed.

Lemma decl_with_type_gen_runs semi fuel st :
  wf st -> remaining st <= fuel -> runs 1 (decl_with_type_gen semi fuel) st.
Proof.
  intros W R. unfold runs, decl_with_type_gen.
  run_as (consume_runs "ID" st W ltac:(discriminate)) type_tok st1.
  run_as (consume_runs "ID" st1 ltac:(assumption) ltac:(discriminate)) name_tok st2.
  run_as (optional_init_runs fuel st2 ltac:(assumption) ltac:(lia)) init_expr st3.
  run_as (consume_semi_runs semi st3 ltac:(assumption)) u st4.
  destruct (declared (lexeme name_tok) st4); [exact I|].
  match goal with
  | |- match bind ?c _ with _ => _ end =>
      assert (Ck : stops c);
      [ | unfold stops in Ck; destruct c as [u'|err|]; cbn [bind]; [|exact Ck|exact Ck] ]
  end.
  { unfold stops. destruct init_expr as [e|]; [|exact I].
    type_step. now destruct (compatible _ _). }
  follows_done.
Qed.

Ltac check_step :=
  match goal with
  | |- match bind ?c _ with _ => _ end =>
      let Ck := fresh "Ck" in
      assert (Ck : stops c);
      [ | unfold stops in Ck; destruct c as [?|?|]; cbn [bind]; [|exact Ck|exact Ck] ]
  end.

Ltac step_over F0 :=
  let W0 := fresh "W" in let M0 := fresh "M" in
  match type of F0 with
  | follows _ ?s ?s' =>
      assert (W0 : wf s') by (eapply wf_of; [|exact F0]; assumption);
      pose proof (remaining_follows _ _ _ F0) as M0
  end.

Section StatementsRun.

Variable stmt_ : M Stmt.
Variable B : nat.
Hypothesis Hs : forall st, wf st -> remaining st <= B -> runs 1 stmt_ st.

Lemma block_loop_runs fuel : forall stmts st,
  wf st -> remaining st <= fuel -> remaining st <= B ->
  runs 0 (block_loop stmt_ fuel stmts) st.
Proof.
  induction fuel as [|fuel IH]; intros stmts st W Rf Rb.
  { pose proof (wf_remaining st W). lia. }
  unfold runs. cbn [block_loop]. destruct (_check "RBRACE" st); cbn [negb].
  { apply follows_refl, wf_in_sync, W. }
  destruct (_check "EOF" st); [exact I|].
  run_as (Hs st W Rb) s st1.
  run_as (IH (stmts ++ [s]) st1 ltac:(assumption) ltac:(lia) ltac:(lia)) res st2.
  follows_done.
Qed.

Lemma block_runs fuel st :
  wf st -> remaining st <= S fuel -> remaining st <= S B ->
  runs 1 (block stmt_ fuel) st.
Proof.
  intros W Rf Rb. unfold runs, block.
  run_as (consume_runs "LBRACE" st W ltac:(discriminate)) lb st1.
  run_as (block_loop_runs fuel [] st1 ltac:(assumption) ltac:(lia) ltac:(lia)) stmts st2.
  run_as (consume_runs "RBRACE" st2 ltac:(assumption) ltac:(discriminate)) rb st3.
  follows_done.
Qed.

Lemma else_block_runs fuel st :
  wf st -> remaining st <= S fuel -> remaining st <= S B ->
  runs 0 (fun s => if lexeme_is "else" s
                   then let* (b, st') := block stmt_ fuel (Parser._advance s) in
                        Ok (Some b, st')
                   else Ok (None, s)) st.
Proof.
  intros W Rf Rb. unfold runs. destruct (lexeme_is "else" st) eqn:L.
  - pose proof (lexeme_is_follows "else" st W L) as F0. step_over F0.
    run_as (block_runs fuel (Parser._advance st) ltac:(assumption) ltac:(lia) ltac:(lia))
           b st1.
    follows_done.
  - apply follows_refl, wf_in_sync, W.
Qed.

Lemma if_stmt_runs fuel st :
  wf st -> remaining st <= fuel -> remaining st <= S B ->
  runs 1 (if_stmt stmt_ fuel) st.
Proof.
  intros W Rf Rb. unfold runs, if_stmt.
  destruct (lexeme_is "if" st) eqn:L; cbn [negb]; [|exact I]. cbv zeta.
  pose proof (lexeme_is_follows "if" st W L) as F0. step_over F0.
  run_as (consume_runs "LPAREN" (Parser._advance st) ltac:(assumption) ltac:(discriminate))
         lp st1.
  run_as (logical_or_enough fuel st1 ltac:(assumption) ltac:(lia)) condition st2.
  run_as (consume_runs "RPAREN" st2 ltac:(assumption) ltac:(discriminate)) rp st3.
  check_step; [apply check_condition_stops|].
  run_as (block_runs fuel st3 ltac:(assumption) ltac:(lia) ltac:(lia)) then_block st4.
  run_as (else_block_runs fuel st4 ltac:(assumption) ltac:(lia) ltac:(lia)) else_block st5.
  follows_done.
Qed.

Lemma while_stmt_runs fuel st :
  wf st -> remaining st <= fuel -> remaining st <= S B ->
  runs 1 (while_stmt stmt_ fuel) st.
Proof.
  intros W Rf Rb. unfold runs, while_stmt.
  destruct (lexeme_is "while" st) eqn:L; cbn [negb]; [|exact I]. cbv zeta.
  pose proof (lexeme_is_follows "while" st W L) as F0. step_over F0.
  run_as (consume_runs "LPAREN" (Parser._advance st) ltac:(assumption) ltac:(discriminate))
         lp st1.
  run_as (logical_or_enough fuel st1 ltac:(assumption) ltac:(lia)) condition st2.
  run_as (consume_runs "RPAREN" st2 ltac:(assumption) ltac:(discriminate)) rp st3.
  check_step; [apply check_condition_stops|].
  run_as (block_runs fuel st3 ltac:(assumption) ltac:(lia) ltac:(lia)) body st4.
  follows_done.
Qed.

Lemma for_init_runs fuel st :
  wf st -> remaining st <= fuel ->
  runs 1 (fun s => if _check "INT" s then decl_without_semi fuel s
                   else if _check "ID" s then
                     match type_at (i s + 1) s with
                     | Some nxt =>
                         if String.eqb nxt "ID" then decl_with_type_without_semi fuel s
                         else if String.eqb nxt "ASSIGN" then assign_without_semi fuel s
                         else Err (SyntaxError_ ExpectedForInit)
                     | None => Err (SyntaxError_ ExpectedForInit)
                     end
                   else Err (SyntaxError_ ExpectedForInit)) st.
Proof.
  intros W R. unfold runs. destruct (_check "INT" st).
  { exact (decl_gen_runs false fuel st W R). }
  destruct (_check "ID" st); [|exact I].
  destruct (type_at (i st + 1) st) as [nxt|]; [|exact I].
  destruct (String.eqb nxt "ID").
  { exact (decl_with_type_gen_runs false fuel st W R). }
  destruct (String.eqb nxt "ASSIGN"); [|exact I].
  exact (assign_gen_runs false fuel st W R).
Qed.

Lemma for_stmt_runs fuel st :
  wf st -> remaining st <= fuel -> remaining st <= S B ->
  runs 1 (for_stmt stmt_ fuel) st.
Proof.
  intros W Rf Rb. unfold runs, for_stmt.
  destruct (lexeme_is "for" st) eqn:L; cbn [negb]; [|exact I]. cbv zeta.
  pose proof (lexeme_is_follows "for" st W L) as F0. step_over F0.
  run_as (consume_runs "LPAREN" (Parser._advance st) ltac:(assumption) ltac:(discriminate))
         lp st1.
  run_as (for_init_runs fuel st1 ltac:(assumption) ltac:(lia)) init st2.
  unfold assign_without_semi.
  run_as (consume_runs "SEMI" st2 ltac:(assumption) ltac:(discriminate)) s1 st3.
  run_as (logical_or_enough fuel st3 ltac:(assumption) ltac:(lia)) condition st4.
  check_step; [apply check_condition_stops|].
  run_as (consume_runs "SEMI" st4 ltac:(assumption) ltac:(discriminate)) s2 st5.
  run_as (assign_gen_runs false fuel st5 ltac:(assumption) ltac:(lia)) step st6.
  run_as (consume_runs "RPAREN" st6 ltac:(assumption) ltac:(discriminate)) rp st7.
  run_as (block_runs fuel st7 ltac:(assumption) ltac:(lia) ltac:(lia)) body st8.
  follows_done.
Qed.

Lemma call_stmt_runs fuel st :
  wf st -> remaining st <= fuel ->
  runs 1 (fun s => let* (e, st1) := func_call (logical_or fuel) fuel s in
                   let* (_, st2) := _consume "SEMI" st1 in
                   Ok (ExprStmt e, st2)) st.
Proof.
  intros W R. unfold runs.
  assert (He : forall s, wf s -> remaining s <= fuel - 1 -> runs 0 (logical_or fuel) s).
  { intros s Ws Rs. pose proof (wf_remaining s Ws). apply logical_or_enough; [exact Ws | lia]. }
  pose proof (wf_remaining st W) as R1.
  run_as (func_call_runs (logical_or fuel) (fuel - 1) He fuel st W ltac:(lia) ltac:(lia))
         e st1.
  run_as (consume_runs "SEMI" st1 ltac:(assumption) ltac:(discriminate)) semi st2.
  follows_done.
Qed.

Lemma stmt_body_runs fuel st :
  wf st -> remaining st <= fuel -> remaining st <= S B ->
  runs 1 (stmt_body stmt_ fuel) st.
Proof.
  intros W Rf Rb. unfold runs, stmt_body.
  destruct (_check "RETURN" st || lexeme_is "return" st).
  { exact (return_stmt_runs fuel st W Rf). }
  destruct (_check "LBRACE" st).
  { run_as (block_runs fuel st W ltac:(lia) ltac:(lia)) stmts st1. follows_done. }
  destruct (lexeme_is "if" st); [exact (if_stmt_runs fuel st W Rf Rb)|].
  destruct (lexeme_is "while" st); [exact (while_stmt_runs fuel st W Rf Rb)|].
  destruct (lexeme_is "for" st); [exact (for_stmt_runs fuel st W Rf Rb)|].
  destruct (_check "INT" st); [exact (decl_gen_runs true fuel st W Rf)|].
  cbv zeta. destruct (_check "ID" st); [|exact I].
  destruct (type_at (i st + 1) st) as [nxt|]; [|exact I].
  destruct (String.eqb nxt "ASSIGN"); [exact (assign_gen_runs true fuel st W Rf)|].
  destruct (String.eqb nxt "ID"); [exact (decl_with_type_gen_runs true fuel st W Rf)|].
  destruct (String.eqb nxt "LPAREN"); [|exact I].
  exact (call_stmt_runs fuel st W Rf).
Qed.

End StatementsRun.

Lemma stmt_runs n : forall st, wf st -> remaining st <= n -> runs 1 (stmt (S n)) st.
Proof.
  induction n as [|n IH]; intros st W R.
  { pose proof (wf_remaining st W). lia. }
  change (stmt (S (S n))) with (stmt_body (stmt (S n)) (S n)).
  apply (stmt_body_runs (stmt (S n)) n IH); [exact W | exact R | exact R].
Qed.

Lemma stmt_enough fuel st : wf st -> remaining st < fuel -> runs 1 (stmt fuel) st.
Proof.
  intros W R. destruct fuel as [|n]; [lia|]. apply stmt_runs; [exact W | lia].
Qed.

(** ** Function declarations and the top level *)

Lemma type_name_runs {A : Type} (e : parse_error) st :
  wf st -> clean e ->
  runs (A := string) 1
    (fun s => if _check "INT" s then Ok ("int", Parser._advance s)
              else if _check "ID" s then Ok (lexeme (current s), Parser._advance s)
              else Err e) st.
Proof.
  intros W Ce. unfold runs. destruct (_check "INT" st) eqn:C1.
  { now apply (check_follows "INT"). }
  destruct (_check "ID" st) eqn:C2; [|exact Ce].
  now apply (check_follows "ID").
Qed.

Lemma param_runs st : wf st -> runs 2 param st.
Proof.
  intros W. unfold runs, param.
  run_as (type_name_runs (A := unit) (SyntaxError_ ExpectedParamType) st W I) ptype st1.
  run_as (consume_runs "ID" st1 ltac:(assumption) ltac:(discriminate)) name_tok st2.
  follows_done.
Qed.

Lemma params_loop_runs fuel : forall result st,
  wf st -> remaining st <= fuel -> runs 0 (params_loop fuel result) st.
Proof.
  induction fuel as [|fuel IH]; intros result st W R.
  { pose proof (wf_remaining st W). lia. }
  unfold runs. cbn [params_loop]. destruct (_check "COMMA" st) eqn:C.
  - pose proof (check_follows "COMMA" st W ltac:(discriminate) C) as F0. step_over F0.
    run_as (param_runs (Parser._advance st) ltac:(assumption)) p st1.
    run_as (IH (result ++ [p]) st1 ltac:(assumption) ltac:(lia)) res st2.
    follows_done.
  - apply follows_refl, wf_in_sync, W.
Qed.

Lemma params_runs fuel st : wf st -> remaining st <= S fuel -> runs 0 (params fuel) st.
Proof.
  intros W R. unfold runs, params.
  run_as (param_runs st W) p st1.
  run_as (params_loop_runs fuel [p] st1 ltac:(assumption) ltac:(lia)) res st2.
  follows_done.
Qed.

Lemma optional_params_runs fuel st :
  wf st -> remaining st <= S fuel ->
  runs 0 (fun s => if negb (_check "RPAREN" s) then params fuel s else Ok ([], s)) st.
Proof.
  intros W R. unfold runs. destruct (_check "RPAREN" st); cbn [negb].
  - apply follows_refl, wf_in_sync, W.
  - exact (params_runs fuel st W R).
Qed.

Lemma set_symbols_follows sy st : wf st -> follows 0 st (set_symbols sy st).
Proof.
  intros W. unfold follows. cbn [tokens i functions current_function_return_type set_symbols].
  repeat split; [exact (wf_in_sync st W) | lia].
Qed.

Lemma func_decl_runs fuel st : wf st -> remaining st <= fuel -> runs 1 (func_decl fuel) st.
Proof.
  intros W R. unfold runs, func_decl.
  run_as (type_name_runs (A := unit) (SyntaxError_ ExpectedReturnType) st W I) ret_type st1.
  run_as (consume_runs "ID" st1 ltac:(assumption) ltac:(discriminate)) name_tok st2.
  match goal with
  | |- context [_consume "LPAREN" (set_symbols ?sy ?s)] =>
      pose proof (set_symbols_follows sy s ltac:(assumption)) as F3
  end.
  step_over F3.
  run_as (consume_runs "LPAREN" (set_symbols ∅ st2) ltac:(assumption) ltac:(discriminate))
         lp st4.
  run_as (optional_params_runs fuel st4 ltac:(assumption) ltac:(lia)) ps st5.
  run_as (consume_runs "RPAREN" st5 ltac:(assumption) ltac:(discriminate)) rp st6.
  assert (Hs : forall s, wf s -> remaining s <= fuel - 1 -> runs 1 (stmt fuel) s).
  { intros s Ws Rs. pose proof (wf_remaining s Ws). apply stmt_enough; [exact Ws | lia]. }
  assert (W7 : wf (set_return_type (Some ret_type) st6)) by now apply wf_set_return_type.
  assert (R7 : remaining (set_return_type (Some ret_type) st6) = remaining st6) by reflexivity.
  pose proof (wf_remaining st6 ltac:(assumption)) as R6.
  pose proof (block_runs (stmt fuel) (fuel - 1) Hs fuel
                (set_return_type (Some ret_type) st6) W7 ltac:(lia) ltac:(lia)) as Rb.
  unfold runs in Rb.
  destruct (block (stmt fuel) fuel (set_return_type (Some ret_type) st6))
    as [[body st8]|?|]; cbn [bind]; [|exact Rb|exact Rb].
  unfold follows in *.
  repeat match goal with H : _ /\ _ |- _ => destruct H end.
  cbn [tokens i current symbols functions current_function_return_type
       set_symbols set_functions set_return_type declare] in *.
  repeat split; first [ assumption | congruence | lia ].
Qed.

Lemma top_level_runs fuel st : wf st -> remaining st < fuel -> runs 1 (top_level fuel) st.
Proof.
  intros W R. unfold runs, top_level. destruct (_is_function_declaration st).
  - exact (func_decl_runs fuel st W ltac:(lia)).
  - run_as (stmt_enough fuel st W R) s st1. follows_done.
Qed.

Lemma parse_loop_runs fuel : forall acc st,
  wf st -> remaining st + 1 < fuel -> runs 0 (parse_loop fuel acc) st.
Proof.
  induction fuel as [|fuel IH]; intros acc st W R; [lia|].
  unfold runs. cbn [parse_loop]. destruct (_check "EOF" st); cbn [negb].
  { apply follows_refl, wf_in_sync, W. }
  run_as (top_level_runs fuel st W ltac:(lia)) it st1.
  run_as (IH (acc ++ [it]) st1 ltac:(assumption) ltac:(lia)) res st2.
  follows_done.
Qed.

Lemma parse_stops fuel st :
  wf st -> length (tokens st) + 1 < fuel -> stops (parse fuel st).
Proof.
  intros W R. unfold stops, parse, _collect_function_declarations.
  destruct (collect_loop_total fuel st (proj1 W)) as (st1 & -> & G1 & T1 & L1).
  { unfold remaining. lia. }
  cbn [bind]. unfold goto. cbn [tokens symbols functions current_function_return_type].
  destruct (tokens st1 !! 0) as [t|] eqn:T0.
  2:{ apply lookup_ge_None in T0. pose proof (in_sync_lt st1 (proj1 G1)). lia. }
  cbn [bind].
  assert (W2 : wf (PState (tokens st1) 0 t (symbols st1) (functions st1)
                     (current_function_return_type st1))).
  { unfold wf, good, in_sync. cbn [tokens i current]. rewrite T1.
    destruct W as [[_ He] Ht]. rewrite T1 in T0. now repeat split. }
  pose proof (parse_loop_runs fuel [] _ W2) as P. unfold runs in P.
  destruct (parse_loop fuel [] _) as [[its st3]|?|]; cbn [bind].
  - exact I.
  - apply P. unfold remaining. cbn [tokens i]. rewrite T1. lia.
  - apply P. unfold remaining. cbn [tokens i]. rewrite T1. lia.
Qed.

Lemma parse_tokens_stops_aux fuel toks :
  ends_with_eof toks -> Forall token_ok toks -> length toks + 2 <= fuel ->
  stops (parse_tokens fuel toks).
Proof.
  intros He Ht R. unfold parse_tokens, Parser_init.
  destruct (toks !! 0) as [t|] eqn:T0.
  2:{ destruct He as (pre & t & -> & _). apply lookup_ge_None in T0.
      rewrite length_app in T0. cbn in T0. lia. }
  cbn [bind].
  assert (W : wf (_init_builtin_functions (PState toks 0 t ∅ ∅ None))).
  { unfold wf, good, in_sync. cbn. now repeat split. }
  pose proof (parse_stops fuel _ W) as P. unfold stops in *.
  destruct (parse fuel _) as [[ast st']|?|]; cbn [bind].
  - exact I.
  - apply P. cbn. lia.
  - apply P. cbn. lia.
Qed.

Lemma out_le_stops {E A : Type} (a b : outcome E A) : out_le a b -> a <> OutOfFuel -> b = a.
Proof. intros [H|H] N; [contradiction | now symmetry]. Qed.



(** ** The whole front end *)

Lemma lexer_length code raw cnt :
  lexer code = Ok (raw, cnt) -> length raw <= String.length code.
Proof.
  unfold lexer. intros H.
  destruct (lexer_loop (String.length code) (lex_init code)) as [st| e |] eqn:E;
    cbn [bind] in H; try discriminate.
  injection H as <- _.
  set (Inv := fun st : lex_state =>
    length (result st) + String.length (rest st) <= String.length code).
  assert (H0 : Inv (lex_init code)) by (unfold Inv; cbn; lia).
  assert (Step : forall s1 s2, Inv s1 -> rest s1 <> EmptyString -> lex_step s1 = Ok s2 -> Inv s2).
  { unfold Inv. intros s1 s2 I1 Hne Hs.
    destruct (lex_step_cases s1 s2 Hne Hs) as (text & Ht & [R _] & [[Hr _]|(ty & _ & Hr & _)]);
      rewrite Hr; rewrite R, slength_app in I1;
      (assert (1 <= String.length text) by (destruct text; [congruence | cbn; lia]));
      rewrite ?length_app; cbn [length]; lia. }
  destruct (lexer_loop_invariant Inv Step _ _ _ H0 E) as [I1 _]. unfold Inv in I1. lia.
Qed.

Lemma convert_all_length items : forall ts,
  convert_all items = Ok ts -> length ts = length items.
Proof.
  induction items as [|item items IH]; intros ts H; cbn [convert_all] in H.
  - now injection H as <-.
  - destruct (convert item) as [t| |]; cbn [bind] in H; try discriminate.
    destruct (convert_all items) as [ts'| |]; cbn [bind] in H; try discriminate.
    injection H as <-. cbn [length]. f_equal. now apply IH.
Qed.

(** What the parser is given: a stream of well-formed tokens that ends
    with [EOF], of at most one token per character and the [EOF]. *)
Lemma tokenize_std_stream source out :
  tokenize_std source = Ok out ->
  ends_with_eof out /\ Forall token_ok out /\ length out <= String.length source + 1.
Proof.
  unfold tokenize_std. intros H.
  pose proof (lexer_raw_wf source) as W. pose proof (lexer_length source) as L.
  destruct (lexer source) as [[raw cnt]|e|]; try discriminate.
  specialize (W raw cnt eq_refl). specialize (L raw cnt eq_refl).
  pose proof (convert_all_raw_wf raw W) as C. pose proof (convert_all_length raw) as Cl.
  destruct (convert_all raw) as [ts|e|]; cbn [bind] in H; try discriminate.
  injection H as <-. specialize (Cl ts eq_refl). split; [|split].
  - now exists ts, (mkToken "EOF" EmptyString LNone (eof_pos raw)).
  - apply Forall_app. split; [exact C|]. constructor; [|constructor].
    unfold token_ok, std_types. cbn. intuition (try discriminate).
  - rewrite length_app. cbn [length]. lia.
Qed.

Lemma front_end_ends_well fuel src :
  String.length src + 3 <= fuel -> ends_well (front_end fuel src).
Proof.
  intros R. unfold ends_well, front_end.
  pose proof (tokenize_std_terminates src) as T.
  pose proof (tokenize_std_stream src) as S0.
  destruct (tokenize_std src) as [toks|e|]; cbn [lift bind]; [|exact I|congruence].
  destruct (S0 toks eq_refl) as (He & Ht & L).
  pose proof (parse_tokens_stops_aux fuel toks He Ht ltac:(lia)) as P. unfold stops in P.
  destruct (parse_tokens fuel toks) as [ast|e|]; cbn [lift]; exact P.
Qed.



(** * The calls of an accepted expression *)

Lemma same_tables_refl st : same_tables st st.
Proof. now split. Qed.

Lemma same_tables_trans st1 st2 st3 :
  same_tables st1 st2 -> same_tables st2 st3 -> same_tables st1 st3.
Proof. intros [A B] [C D]. split; congruence. Qed.

Lemma advance_same st : same_tables st (Parser._advance st).
Proof. split; [apply advance_symbols | apply advance_functions]. Qed.

Lemma consume_same ttype st tok st' :
  _consume ttype st = Ok (tok, st') -> same_tables st st'.
Proof.
  unfold _consume. destruct (_check ttype st); [|discriminate].
  intros [= _ <-]. apply advance_same.
Qed.

Lemma goto_same k st st' : goto k st = Ok st' -> same_tables st st'.
Proof. unfold goto. destruct (tokens st !! k); [|discriminate]. now intros [= <-]. Qed.

Lemma calls_ok_call sy fs name actual :
  calls_ok sy fs (FuncCall name actual)
  <-> call_ok sy fs name actual /\ Forall (calls_ok sy fs) actual.
Proof.
  cbn [calls_ok]. apply and_iff_compat_l.
  induction actual as [|a actual IH]; [split; [constructor | exact (fun _ => I)]|].
  rewrite Forall_cons_iff. now rewrite IH.
Qed.

Lemma check_arguments_typed sy fs fname : forall actual index ps,
  check_arguments sy fs fname index actual ps = Ok tt -> args_typed sy fs actual ps.
Proof.
  induction actual as [|a actual IH]; intros index [|[ty pn] ps] H; cbn [args_typed];
    try exact I.
  cbn [check_arguments] in H.
  destruct (typeof sy fs a) as [t| |] eqn:T; cbn [bind] in H; try discriminate.
  destruct (compatible t ty) eqn:C; [|discriminate]. split; [|exact (IH _ _ H)].
  exists t. split; [reflexivity|]. unfold compatible in C.
  apply orb_true_iff in C. destruct C as [C|C].
  - left. now apply String.eqb_eq.
  - right. apply andb_true_iff in C. destruct C as [C1 C2].
    split; now apply String.eqb_eq.
Qed.

Lemma check_scanf_vars sy : forall l index,
  check_scanf sy index l = Ok tt -> Forall (declared_var sy) l.
Proof.
  induction l as [|a l IH]; intros index H; [constructor|].
  cbn [check_scanf] in H. destruct a; try discriminate.
  destruct (sy !! name) as [t|] eqn:L; [|discriminate].
  constructor; [|exact (IH _ H)]. exists name. split; [reflexivity|]. now rewrite L.
Qed.

Lemma check_printf_rest_vars sy : forall l index,
  check_printf_rest sy index l = Ok tt -> Forall (declared_var sy) l.
Proof.
  induction l as [|a l IH]; intros index H; [constructor|].
  cbn [check_printf_rest] in H. destruct a; try discriminate.
  destruct (sy !! name) as [t|] eqn:L; [|discriminate].
  constructor; [|exact (IH _ H)]. exists name. split; [reflexivity|]. now rewrite L.
Qed.

Section ExpressionsChecked.

Variable expr_ : M Expr.
Hypothesis expr_checks : checks expr_.

Lemma args_loop_checked fuel : forall acc st es st',
  Forall (calls_ok (symbols st) (functions st)) acc ->
  args_loop expr_ fuel acc st = Ok (es, st') ->
  same_tables st st' /\ Forall (calls_ok (symbols st) (functions st)) es.
Proof.
  induction fuel as [|fuel IH]; intros acc st es st' Ha H; [discriminate|].
  cbn [args_loop] in H. destruct (_check "COMMA" st).
  2:{ injection H as <- <-. split; [apply same_tables_refl | exact Ha]. }
  destruct (expr_ (Parser._advance st)) as [[e st1] | |] eqn:E; cbn [bind] in H;
    try discriminate.
  apply expr_checks in E. destruct E as [S1 C1].
  pose proof (same_tables_trans _ _ _ (advance_same st) S1) as S01.
  destruct (advance_same st) as [A1 A2]. rewrite A1, A2 in C1.
  destruct S01 as [B1 B2].
  destruct (IH (acc ++ [e]) st1 es st') as [S2 C2]; [|exact H|].
  - rewrite B1, B2. apply Forall_app. split; [exact Ha|]. now constructor.
  - rewrite B1, B2 in C2. split; [|exact C2].
    apply (same_tables_trans _ st1); [now split | exact S2].
Qed.

Lemma args_checked fuel : checks_all (args expr_ fuel).
Proof.
  intros st es st' H. unfold args in H.
  destruct (expr_ st) as [[e st1] | |] eqn:E; cbn [bind] in H; try discriminate.
  apply expr_checks in E. destruct E as [[B1 B2] C1].
  destruct (args_loop_checked fuel [e] st1 es st') as [S2 C2]; [|exact H|].
  - rewrite B1, B2. now constructor.
  - rewrite B1, B2 in C2. split; [|exact C2].
    apply (same_tables_trans _ st1); [now split | exact S2].
Qed.

Lemma func_call_checked fuel : checks (func_call expr_ fuel).
Proof.
  intros st e st' H. unfold func_call in H.
  destruct (_consume "ID" st) as [[tok st1] | |] eqn:E1; cbn [bind] in H; try discriminate.
  cbv zeta in H.
  destruct (functions st1 !! lexeme tok) as [info0|]; [|discriminate].
  destruct (_consume "LPAREN" st1) as [[tok2 st2] | |] eqn:E2; cbn [bind] in H;
    try discriminate.
  destruct (if negb (_check "RPAREN" st2) then args expr_ fuel st2 else Ok ([], st2))
    as [[actual st3] | |] eqn:E3; cbn [bind] in H; try discriminate.
  destruct (_consume "RPAREN" st3) as [[tok4 st4] | |] eqn:E4; cbn [bind] in H;
    try discriminate.
  apply consume_same in E1, E2, E4.
  assert (E3' : same_tables st2 st3 /\ Forall (calls_ok (symbols st2) (functions st2)) actual).
  { destruct (negb (_check "RPAREN" st2)); [now apply args_checked in E3|].
    injection E3 as <- <-. split; [apply same_tables_refl | constructor]. }
  destruct E3' as [S3 C3].
  pose proof (same_tables_trans _ _ _ E1 E2) as S02.
  pose proof (same_tables_trans _ _ _ (same_tables_trans _ _ _ S02 S3) E4) as S04.
  destruct S02 as [X1 X2]. rewrite X1, X2 in C3.
  destruct S04 as [Y1 Y2]. rewrite Y1, Y2 in H.
  destruct (functions st !! lexeme tok) as [[[rt ps] variadic]|] eqn:Fn; [|discriminate].
  match type of H with bind ?c _ = _ => destruct c as [[]| |] eqn:Ck; cbn [bind] in H;
    try discriminate end.
  injection H as <- <-. split; [now split|].
  apply calls_ok_call. split; [|exact C3].
  exists rt, ps, variadic. split; [exact Fn|].
  destruct (String.eqb (lexeme tok) "printf").
  { destruct actual as [|a [|b rest]]; [discriminate| |].
    - unfold typeof_st in Ck. rewrite Y1, Y2 in Ck.
      destruct (typeof (symbols st) (functions st) a) as [t| |]; cbn [bind] in Ck;
        try discriminate.
      now exists t.
    - now apply check_printf_rest_vars in Ck. }
  destruct (String.eqb (lexeme tok) "scanf").
  { destruct actual as [|a rest]; [discriminate|]. split; [discriminate|].
    now apply check_scanf_vars in Ck. }
  intros ->. cbn [negb] in Ck.
  destruct (length actual =? length ps) eqn:Len; cbn [negb] in Ck; [|discriminate].
  apply Nat.eqb_eq in Len. split; [exact Len|].
  now apply check_arguments_typed in Ck.
Qed.

Lemma factor_checked fuel : checks (factor expr_ fuel).
Proof.
  induction fuel as [|fuel IH]; intros st e st' H; [discriminate|].
  cbn [factor] in H.
  destruct (_check "PLUS" st || _check "MINUS" st).
  { destruct (factor expr_ fuel (Parser._advance st)) as [[e1 st1] | |] eqn:E;
      cbn [bind] in H; try discriminate.
    injection H as <- <-. apply IH in E. destruct E as [S1 C1].
    destruct (advance_same st) as [A1 A2]. rewrite A1, A2 in C1.
    split; [|exact C1]. exact (same_tables_trans _ _ _ (advance_same st) S1). }
  destruct (_check "NUM" st).
  { destruct (literal (current st)); try discriminate; injection H as <- <-;
      (split; [apply advance_same | exact I]). }
  destruct (_check "STRING" st).
  { destruct (literal (current st)); try discriminate; injection H as <- <-;
      (split; [apply advance_same | exact I]). }
  destruct (_check "ID" st).
  { destruct (_check "LPAREN" (Parser._advance st)).
    - destruct (goto _ _) as [st2 | |] eqn:E; cbn [bind] in H; try discriminate.
      apply func_call_checked in H. apply goto_same in E. destruct H as [S2 C2].
      pose proof (same_tables_trans _ _ _ (advance_same st) E) as [B1 B2].
      rewrite B1, B2 in C2. split; [|exact C2].
      apply (same_tables_trans _ st2); [now split | exact S2].
    - injection H as <- <-. split; [apply advance_same | exact I]. }
  destruct (_check "LPAREN" st); [|discriminate].
  destruct (expr_ (Parser._advance st)) as [[e1 st1] | |] eqn:E; cbn [bind] in H;
    try discriminate.
  destruct (_consume "RPAREN" st1) as [[tok st2] | |] eqn:E2; cbn [bind] in H;
    try discriminate.
  injection H as <- <-. apply expr_checks in E. apply consume_same in E2.
  destruct E as [S1 C1]. destruct (advance_same st) as [A1 A2]. rewrite A1, A2 in C1.
  split; [|exact C1].
  exact (same_tables_trans _ _ _ (same_tables_trans _ _ _ (advance_same st) S1) E2).
Qed.

Lemma binary_loop_checked ttypes (sub : M Expr) :
  checks sub -> forall fuel lhs st e st',
  calls_ok (symbols st) (functions st) lhs ->
  binary_loop ttypes sub fuel lhs st = Ok (e, st') ->
  same_tables st st' /\ calls_ok (symbols st) (functions st) e.
Proof.
  intros Hsub. induction fuel as [|fuel IH]; intros lhs st e st' Hl H; [discriminate|].
  cbn [binary_loop] in H. destruct (existsb _ ttypes).
  2:{ injection H as <- <-. split; [apply same_tables_refl | exact Hl]. }
  destruct (sub (Parser._advance st)) as [[rhs st1] | |] eqn:E; cbn [bind] in H;
    try discriminate.
  apply Hsub in E. destruct E as [S1 C1].
  destruct (advance_same st) as [A1 A2]. rewrite A1, A2 in C1.
  pose proof (same_tables_trans _ _ _ (advance_same st) S1) as [B1 B2].
  destruct (IH (BinOp lhs (lexeme (current st)) rhs) st1 e st') as [S2 C2]; [|exact H|].
  - rewrite B1, B2. cbn [calls_ok]. now split.
  - rewrite B1, B2 in C2. split; [|exact C2].
    apply (same_tables_trans _ st1); [now split | exact S2].
Qed.

Lemma binary_level_checked ttypes (sub : M Expr) fuel :
  checks sub -> checks (binary_level ttypes sub fuel).
Proof.
  intros Hsub st e st' H. unfold binary_level in H.
  destruct (sub st) as [[lhs st1] | |] eqn:E; cbn [bind] in H; try discriminate.
  apply Hsub in E. destruct E as [[B1 B2] C1].
  destruct (binary_loop_checked ttypes sub Hsub fuel lhs st1 e st') as [S2 C2]; [|exact H|].
  - now rewrite B1, B2.
  - rewrite B1, B2 in C2. split; [|exact C2].
    apply (same_tables_trans _ st1); [now split | exact S2].
Qed.

Lemma logical_or_body_checked fuel : checks (logical_or_body expr_ fuel).
Proof.
  unfold logical_or_body, logical_and, equality, relational, additive, term.
  repeat apply binary_level_checked. apply factor_checked.
Qed.

End ExpressionsChecked.

Lemma logical_or_checked fuel : checks (logical_or fuel).
Proof.
  induction fuel as [|fuel IH]; [intros st a st' H; discriminate|].
  cbn [logical_or]. now apply logical_or_body_checked.
Qed.

(** X18. In an expression the parser accepts, every call, nested ones
    included, names a function of the table and has passed the check of
    [func_call]: for a function that is not variadic, as many arguments as
    declared parameters, each of the parameter's type or an [int] for a
    [float]; for [scanf], at least one argument and declared variables
    only; for [printf], at least one argument, a typed one when alone,
    and declared variables from the second on. Parsing an expression
    changes neither the symbol table nor the function table. *)
Theorem accepted_calls_checked (fuel : nat) (st : pstate) (e : Expr) (st' : pstate) :
  logical_or fuel st = Ok (e, st') ->
  symbols st' = symbols st /\ functions st' = functions st
  /\ calls_ok (symbols st) (functions st) e.
Proof.
  intros H. destruct (logical_or_checked fuel st e st' H) as [[S1 S2] C].
  now repeat split.
Qed.

Lemma accepted_calls_checked_witness :
  calls_ok (symbols call_state) (functions call_state)
    (FuncCall "f" [Var "x"; Num (PyInt 1)]).
Proof.
  destruct (accepted_calls_checked 9 call_state (FuncCall "f" [Var "x"; Num (PyInt 1)])
              (PState call_tokens 6 (mkToken "EOF" EmptyString LNone (1, 7))
                 (symbols call_state) (functions call_state) None))
    as (_ & _ & C).
  - vm_compute. reflexivity.
  - exact C.
Defined.

(** * Declarations and assignments *)

Lemma compatible_fits t expected : compatible t expected = true <-> fits t expected.
Proof.
  unfold compatible, fits. rewrite orb_true_iff, andb_true_iff, !String.eqb_eq. tauto.
Qed.

Lemma optional_init_same fuel st init st' :
  optional_init fuel st = Ok (init, st') -> same_tables st st'.
Proof.
  unfold optional_init. destruct (_check "ASSIGN" st).
  - destruct (logical_or fuel (Parser._advance st)) as [[e st1]| |] eqn:E; cbn [bind];
      try discriminate.
    intros [= _ <-]. apply logical_or_checked in E.
    exact (same_tables_trans _ _ _ (advance_same st) (proj1 E)).
  - intros [= _ <-]. apply same_tables_refl.
Qed.

Lemma consume_semi_same semi st u st' :
  consume_semi semi st = Ok (u, st') -> same_tables st st'.
Proof.
  unfold consume_semi. destruct semi; [|intros [= _ <-]; apply same_tables_refl].
  destruct (_consume "SEMI" st) as [[tok st1] | |] eqn:E; cbn [bind]; try discriminate.
  intros [= _ <-]. now apply consume_same in E.
Qed.

(** X19. What an accepted declaration or assignment guarantees. [int x]
    and [T x] are accepted only for a name that is not in the symbol table
    and enter the name with its type: [int], or whatever identifier
    stands as [T]. An initialiser is typed in the table that already holds the new
    name, and must be an [int] for [int x], and of type [T], or an [int]
    for [T = float], for [T x]. An assignment needs a declared target and
    a value of the target's type, or an [int] for a [float], and leaves
    the table as it was. None of them changes the function table. *)
Theorem declarations_typed (semi : bool) (fuel : nat) (st : pstate) (s : Stmt) (st' : pstate) :
  (decl_gen semi fuel st = Ok (s, st') ->
     exists name init,
       s = Decl name init /\ symbols st !! name = None
       /\ symbols st' = <[name := "int"]> (symbols st) /\ functions st' = functions st
       /\ forall e, init = Some e -> typeof (symbols st') (functions st') e = Ok "int")
  /\ (decl_with_type_gen semi fuel st = Ok (s, st') ->
     exists name ty init,
       s = Decl name init /\ symbols st !! name = None
       /\ symbols st' = <[name := ty]> (symbols st) /\ functions st' = functions st
       /\ forall e, init = Some e ->
            exists t, typeof (symbols st') (functions st') e = Ok t /\ fits t ty)
  /\ (assign_gen semi fuel st = Ok (s, st') ->
     exists name e ty t,
       s = Assign name e /\ symbols st !! name = Some ty
       /\ symbols st' = symbols st /\ functions st' = functions st
       /\ typeof (symbols st) (functions st) e = Ok t /\ fits t ty).
Proof.
  split; [|split]; intros H.
  - unfold decl_gen in H.
    destruct (_consume "INT" st) as [[tok1 st1]| |] eqn:E1; cbn [bind] in H; try discriminate.
    destruct (_consume "ID" st1) as [[name_tok st2]| |] eqn:E2; cbn [bind] in H;
      try discriminate.
    cbv zeta in H. destruct (declared (lexeme name_tok) st2) eqn:D; [discriminate|].
    destruct (optional_init fuel st2) as [[init st3]| |] eqn:E3; cbn [bind] in H;
      try discriminate.
    destruct (consume_semi semi st3) as [[u st4]| |] eqn:E4; cbn [bind] in H;
      try discriminate.
    apply consume_same in E1, E2. apply optional_init_same in E3.
    apply consume_semi_same in E4.
    pose proof (same_tables_trans _ _ _ E1 E2) as [A1 A2].
    pose proof (same_tables_trans _ _ _ E3 E4) as [B1 B2].
    match type of H with bind ?c _ = _ => destruct c as [[]| |] eqn:Ck; cbn [bind] in H;
      try discriminate end.
    injection H as <- <-. exists (lexeme name_tok), init.
    unfold declared in D. apply bool_decide_eq_false in D. rewrite A1 in D.
    split; [reflexivity|]. split; [now apply eq_None_not_Some|].
    unfold declare. cbn [symbols functions set_symbols].
    split; [congruence|]. split; [congruence|].
    intros e ->. unfold typeof_st, declare in Ck. cbn [symbols functions set_symbols] in Ck.
    destruct (typeof _ _ e) as [t| |]; cbn [bind] in Ck; try discriminate.
    destruct (String.eqb t "int") eqn:T; cbn [negb] in Ck; [|discriminate].
    apply String.eqb_eq in T. now subst t.
  - unfold decl_with_type_gen in H.
    destruct (_consume "ID" st) as [[type_tok st1]| |] eqn:E1; cbn [bind] in H;
      try discriminate.
    destruct (_consume "ID" st1) as [[name_tok st2]| |] eqn:E2; cbn [bind] in H;
      try discriminate.
    destruct (optional_init fuel st2) as [[init st3]| |] eqn:E3; cbn [bind] in H;
      try discriminate.
    destruct (consume_semi semi st3) as [[u st4]| |] eqn:E4; cbn [bind] in H;
      try discriminate.
    cbv zeta in H. destruct (declared (lexeme name_tok) st4) eqn:D; [discriminate|].
    apply consume_same in E1, E2. apply optional_init_same in E3.
    apply consume_semi_same in E4.
    pose proof (same_tables_trans _ _ _ (same_tables_trans _ _ _ E1 E2)
                  (same_tables_trans _ _ _ E3 E4)) as [A1 A2].
    match type of H with bind ?c _ = _ => destruct c as [[]| |] eqn:Ck; cbn [bind] in H;
      try discriminate end.
    injection H as <- <-. exists (lexeme name_tok), (lexeme type_tok), init.
    unfold declared in D. apply bool_decide_eq_false in D. rewrite A1 in D.
    split; [reflexivity|]. split; [now apply eq_None_not_Some|].
    unfold declare. cbn [symbols functions set_symbols].
    split; [congruence|]. split; [congruence|].
    intros e ->. unfold typeof_st, declare in Ck. cbn [symbols functions set_symbols] in Ck.
    destruct (typeof _ _ e) as [t| |]; cbn [bind] in Ck; try discriminate.
    destruct (compatible t (lexeme type_tok)) eqn:T; [|discriminate].
    exists t. split; [reflexivity | now apply compatible_fits].
  - unfold assign_gen in H.
    destruct (_consume "ID" st) as [[name_tok st1]| |] eqn:E1; cbn [bind] in H;
      try discriminate.
    destruct (_consume "ASSIGN" st1) as [[tok2 st2]| |] eqn:E2; cbn [bind] in H;
      try discriminate.
    destruct (logical_or fuel st2) as [[e st3]| |] eqn:E3; cbn [bind] in H;
      try discriminate.
    destruct (consume_semi semi st3) as [[u st4]| |] eqn:E4; cbn [bind] in H;
      try discriminate.
    cbv zeta in H. apply consume_same in E1, E2. apply logical_or_checked in E3.
    apply consume_semi_same in E4.
    pose proof (same_tables_trans _ _ _ (same_tables_trans _ _ _ E1 E2)
                  (same_tables_trans _ _ _ (proj1 E3) E4)) as [A1 A2].
    unfold typeof_st in H. rewrite A1, A2 in H.
    destruct (symbols st !! lexeme name_tok) as [ty|] eqn:L; [|discriminate].
    destruct (typeof (symbols st) (functions st) e) as [t| |] eqn:T; cbn [bind] in H;
      try discriminate.
    destruct (compatible t ty) eqn:C; [|discriminate].
    injection H as <- <-. exists (lexeme name_tok), e, ty, t.
    split; [reflexivity|]. split; [exact L|]. split; [exact A1|]. split; [exact A2|].
    split; [exact T | now apply compatible_fits].
Qed.
